(** * comet: FlowLang / FlowXML converter -- a shallow embedding

    The development follows the layout of [src/raptor_converter]:
    - [Py]                the Python built-ins the sources rely on
                          (string methods, truthiness, exceptions);
    - [binary64]          Python floats: [float] of a number token and
                          [str] of a float;
    - [nodes]             [ast/nodes.py], the AST and its factory functions;
    - [expression_utils]  [generation/expression_utils.py];
    - [ExpressionParser]  [parsing/expression_parser.py];
    - [RapcodeParser]     [parsing/rapcode_parser.py];
    - [RaptorXMLParser]   [parsing/raptor_xml_parser.py];
    - [RapcodeGenerator]  [generation/rapcode_generator.py];
    - [AstVisualizer], [MermaidGenerator], [GraphvizGenerator]
                          [generation/base_generator.py] and its subclasses.

    Characters are Rocq [ascii] values read as code points 0..255. *)

From Stdlib Require Import String Ascii List ZArith Lia Bool Arith.
From Stdlib Require Import DecimalString DecimalNat.
Import ListNotations.
Open Scope string_scope.

#[global] Set Warnings "-register-all".

(* ================================================================== *)
(** ** Python built-ins used by the sources *)
(* ================================================================== *)

Module Py.

(** Exceptions that the modelled code can raise.  [str_exn] is [str(e)]. *)
Inductive exn : Type :=
| ParsingError (msg : string)
| GenerationError (msg : string)
| KeyError (key : string)
| IndexError (msg : string)
| TypeError (msg : string)
| AttributeError (msg : string).

Definition str_exn (e : exn) : string :=
  match e with
  | ParsingError m | GenerationError m | IndexError m
  | TypeError m | AttributeError m => m
  | KeyError k => "'" ++ k ++ "'"
  end.

(** The outcome of a call: a value or a raised exception. *)
Inductive result (A : Type) : Type :=
| Ok (a : A)
| Raise (e : exn).
Arguments Ok {A} a.
Arguments Raise {A} e.

Definition bind {A B} (r : result A) (k : A -> result B) : result B :=
  match r with
  | Ok a => k a
  | Raise e => Raise e
  end.

(** A call that may not return within the given fuel: [None] is
    "still running". *)
Definition fueled (A : Type) : Type := option (result A).

Definition fbind {A B} (r : fueled A) (k : A -> fueled B) : fueled B :=
  match r with
  | Some (Ok a) => k a
  | Some (Raise e) => Some (Raise e)
  | None => None
  end.

Definition fret {A} (a : A) : fueled A := Some (Ok a).
Definition fraise {A} (e : exn) : fueled A := Some (Raise e).
Definition lift {A} (r : result A) : fueled A := Some r.

(** *** Strings *)

Definition chr (n : nat) : ascii := ascii_of_nat n.
Definition LF : ascii := chr 10.
Definition DQ : ascii := chr 34.
Definition BACKSLASH : ascii := chr 92.
Definition s_of (c : ascii) : string := String c EmptyString.
Definition NL : string := s_of LF.
Definition QUOTE : string := s_of DQ.

(** [bool(s)] for a string. *)
Definition truthy (s : string) : bool :=
  match s with EmptyString => false | _ => true end.

(** [bool(x)] for a value that is a string or [None]. *)
Definition truthy_opt (o : option string) : bool :=
  match o with Some s => truthy s | None => false end.

(** [a or b] on such values. *)
Definition or_else (a b : option string) : option string :=
  if truthy_opt a then a else b.

Definition startswith (s p : string) : bool := String.prefix p s.

Fixpoint rev_string (s : string) : string :=
  match s with
  | EmptyString => EmptyString
  | String c r => rev_string r ++ s_of c
  end.

Definition endswith (s p : string) : bool :=
  String.prefix (rev_string p) (rev_string s).

Fixpoint drop_last (s : string) : string :=
  match s with
  | EmptyString => EmptyString
  | String c EmptyString => EmptyString
  | String c r => String c (drop_last r)
  end.

(** [s[1:]] and [s[1:-1]]. *)
Definition slice_1 (s : string) : string :=
  match s with EmptyString => EmptyString | String _ r => r end.
Definition slice_1_m1 (s : string) : string := drop_last (slice_1 s).

Fixpoint skip (n : nat) (s : string) : string :=
  match n, s with
  | O, _ => s
  | S n', String _ r => skip n' r
  | S _, EmptyString => EmptyString
  end.

(** [s.replace(old, new)] for a non-empty [old]: left to right, matches do
    not overlap. *)
Fixpoint replace_from (fuel : nat) (old new s : string) : string :=
  match fuel with
  | O => s
  | S fuel' =>
      match s with
      | EmptyString => EmptyString
      | String c r =>
          if String.prefix old s
          then new ++ replace_from fuel' old new (skip (String.length old) s)
          else String c (replace_from fuel' old new r)
      end
  end.
Definition replace (s old new : string) : string :=
  replace_from (S (String.length s)) old new s.

(** [sub in s]. *)
Fixpoint contains (s sub : string) : bool :=
  if String.prefix sub s then true
  else match s with
       | EmptyString => false
       | String _ r => contains r sub
       end.

(** [s.split(sep, 1)] when [sep in s]: the text before and after the first
    occurrence. *)
Fixpoint split_once (s sep : string) : string * string :=
  if String.prefix sep s then (EmptyString, skip (String.length sep) s)
  else match s with
       | EmptyString => (EmptyString, EmptyString)
       | String c r => let '(a, b) := split_once r sep in (String c a, b)
       end.

(** [str.isspace] on a code point below 256; this is also the class [\s]
    of [re] on [str] patterns. *)
Definition is_space (c : ascii) : bool :=
  let n := nat_of_ascii c in
  (((9 <=? n) && (n <=? 13)) || ((28 <=? n) && (n <=? 32))
   || (n =? 133) || (n =? 160))%nat.

Definition is_digit (c : ascii) : bool :=
  let n := nat_of_ascii c in ((48 <=? n) && (n <=? 57))%nat.

Definition is_ascii_alpha (c : ascii) : bool :=
  let n := nat_of_ascii c in
  (((65 <=? n) && (n <=? 90)) || ((97 <=? n) && (n <=? 122)))%nat.

(** [str.isalpha] on a code point below 256. *)
Definition is_alpha (c : ascii) : bool :=
  let n := nat_of_ascii c in
  (is_ascii_alpha c || (n =? 170) || (n =? 181) || (n =? 186)
   || ((192 <=? n) && (n <=? 255) && negb (n =? 215) && negb (n =? 247)))%nat.

(** [str.isdigit] on a code point below 256 (superscripts count). *)
Definition is_digit_method (c : ascii) : bool :=
  let n := nat_of_ascii c in
  (is_digit c || (n =? 178) || (n =? 179) || (n =? 185))%nat.

Fixpoint lstrip (s : string) : string :=
  match s with
  | String c r => if is_space c then lstrip r else s
  | EmptyString => EmptyString
  end.
Definition rstrip (s : string) : string := rev_string (lstrip (rev_string s)).
Definition strip (s : string) : string := rstrip (lstrip s).

(** [str.lower] on the letters A..Z (the only ones whose lower case is an
    ASCII letter). *)
Definition lower_char (c : ascii) : ascii :=
  let n := nat_of_ascii c in
  if ((65 <=? n) && (n <=? 90))%nat then chr (n + 32) else c.
Fixpoint lower (s : string) : string :=
  match s with
  | EmptyString => EmptyString
  | String c r => String (lower_char c) (lower r)
  end.

(** [sep.join(l)]. *)
Fixpoint join (sep : string) (l : list string) : string :=
  match l with
  | [] => EmptyString
  | [x] => x
  | x :: r => x ++ sep ++ join sep r
  end.

(** [str.splitlines] on code points below 256: a line ends at LF, CR, CR LF,
    VT, FF, FS, GS, RS or NEL; no empty last line. *)
Definition is_linebreak (c : ascii) : bool :=
  let n := nat_of_ascii c in
  (((10 <=? n) && (n <=? 13)) || ((28 <=? n) && (n <=? 30)) || (n =? 133))%nat.

Fixpoint splitlines_from (cur : string) (s : string) : list string :=
  match s with
  | EmptyString =>
      match cur with EmptyString => [] | _ => [rev_string cur] end
  | String c r =>
      if is_linebreak c then
        match nat_of_ascii c, r with
        | 13, String c' r' =>
            if Ascii.eqb c' LF then rev_string cur :: splitlines_from "" r'
            else rev_string cur :: splitlines_from "" r
        | _, _ => rev_string cur :: splitlines_from "" r
        end
      else splitlines_from (String c cur) r
  end.
Definition splitlines (s : string) : list string := splitlines_from "" s.

(** [str(n)] for integers. *)
Definition str_nat (n : nat) : string := NilZero.string_of_uint (Nat.to_uint n).
Definition str_Z (z : Z) : string :=
  if (z <? 0)%Z then "-" ++ str_nat (Z.abs_nat z) else str_nat (Z.abs_nat z).

(** [repr] of an optional token inside an f-string: [None] prints as
    the word None. *)
Definition fmt_opt (o : option string) : string :=
  match o with Some s => s | None => "None" end.

Definition eqb_opt (a b : option string) : bool :=
  match a, b with
  | Some x, Some y => String.eqb x y
  | None, None => true
  | _, _ => false
  end.

(** [x in (a, b, ...)] for an optional token. *)
Definition in_tuple (o : option string) (l : list string) : bool :=
  match o with
  | Some s => existsb (String.eqb s) l
  | None => false
  end.

(** [bool(l)] for a list. *)
Definition is_nonempty {A} (l : list A) : bool :=
  match l with [] => false | _ => true end.

Fixpoint all_chars (p : ascii -> bool) (s : string) : bool :=
  match s with
  | EmptyString => true
  | String c r => p c && all_chars p r
  end.

(** [int(s)] on a string of ASCII digits. *)
Fixpoint nat_digits_acc (acc : nat) (s : string) : nat :=
  match s with
  | EmptyString => acc
  | String c r => nat_digits_acc (10 * acc + (nat_of_ascii c - 48)) r
  end.
Definition int_digits (s : string) : Z := Z.of_nat (nat_digits_acc 0 s).

End Py.
Import Py.

Declare Scope py_scope.
Delimit Scope py_scope with py.
Notation "x <- c ;; k" := (bind c (fun x => k))
  (at level 61, c at next level, right associativity) : py_scope.
Notation "' p <- c ;; k" := (bind c (fun p => k))
  (at level 61, p pattern, c at next level, right associativity) : py_scope.
Notation "x <~ c ;; k" := (fbind c (fun x => k))
  (at level 61, c at next level, right associativity) : py_scope.
Notation "' p <~ c ;; k" := (fbind c (fun p => k))
  (at level 61, p pattern, c at next level, right associativity) : py_scope.
Open Scope py_scope.

(* ================================================================== *)
(** ** Python floats *)
(* ================================================================== *)

(** [float(token)] and [str(x)] on IEEE 754 binary64 values, the two float
    operations that the sources use: [float] returns the float nearest to
    the decimal it reads (ties to even) and [str] prints the shortest
    decimal that reads back as the float, in positional notation when its
    decimal point lies between 10^-4 and 10^16 and with an exponent
    otherwise. *)
Module binary64.
Local Open Scope Z_scope.

(** [Finite neg m e] is the number m * 2^e with the sign [neg].  The
    floats that [of_ratio] returns are normal (2^52 <= m < 2^53 and
    -1074 <= e <= 971) or subnormal (m < 2^52 and e = -1074), so that equal
    numbers are equal terms. *)
Inductive float : Type :=
| Zero (neg : bool)
| Infinity (neg : bool)
| NaN
| Finite (neg : bool) (m : positive) (e : Z).

Definition eqb (x y : float) : bool :=
  match x, y with
  | Zero a, Zero b => Bool.eqb a b
  | Infinity a, Infinity b => Bool.eqb a b
  | NaN, NaN => true
  | Finite a m e, Finite b n f => Bool.eqb a b && Pos.eqb m n && Z.eqb e f
  | _, _ => false
  end.

(** The integer nearest to num/den, the even one of two that are equally
    near. *)
Definition round_half_even (num den : Z) : Z :=
  let q := num / den in
  let r := num mod den in
  match 2 * r ?= den with
  | Lt => q
  | Gt => q + 1
  | Eq => if Z.even q then q else q + 1
  end.

(** 2^l <= num/den, and the largest such l. *)
Definition at_least_pow2 (num den l : Z) : bool :=
  if 0 <=? l then den * 2 ^ l <=? num else den <=? num * 2 ^ (- l).
Definition floor_log2 (num den : Z) : Z :=
  let l := Z.log2 num - Z.log2 den in
  if at_least_pow2 num den l then l else l - 1.

(** The float nearest to the ratio num/den of a natural number and a
    positive one: 53 bits of precision, exponents from -1074 to 971, ties
    to even, infinity from 2^1024 on. *)
Definition of_ratio (num den : Z) : float :=
  if num <=? 0 then Zero false
  else
    let e := Z.max (floor_log2 num den - 52) (-1074) in
    let m := if 0 <=? e then round_half_even num (den * 2 ^ e)
             else round_half_even (num * 2 ^ (- e)) den in
    let '(m, e) := if m =? 2 ^ 53 then (2 ^ 52, e + 1) else (m, e) in
    if m =? 0 then Zero false
    else if 971 <? e then Infinity false
    else Finite false (Z.to_pos m) e.

Fixpoint digits_value (acc : Z) (s : string) : Z :=
  match s with
  | EmptyString => acc
  | String c r => digits_value (10 * acc + (Z.of_nat (nat_of_ascii c) - 48)) r
  end.

(** [float(token)] on the digits before and behind the dot of a token. *)
Definition of_decimal (i f : string) : float :=
  of_ratio (digits_value 0 (i ++ f)) (10 ^ Z.of_nat (String.length f)).

(** *** [repr] *)

Definition ratio (m : positive) (e : Z) : Z * Z :=
  if 0 <=? e then (Zpos m * 2 ^ e, 1) else (Zpos m, 2 ^ (- e)).

Definition at_least_pow10 (num den t : Z) : bool :=
  if 0 <=? t then den * 10 ^ t <=? num else den <=? num * 10 ^ (- t).
Fixpoint down_to_pow10 (fuel : nat) (num den t : Z) : Z :=
  match fuel with
  | O => t
  | S fuel' =>
      if at_least_pow10 num den t then t
      else down_to_pow10 fuel' num den (t - 1)
  end.
(** The largest t with 10^t <= num/den. *)
Definition floor_log10 (num den : Z) : Z :=
  down_to_pow10 6 num den
    ((Z.log2 num - Z.log2 den) * 1233 / 4096 + 2).

Fixpoint zeros (n : nat) : string :=
  match n with O => EmptyString | S n' => String "0" (zeros n') end.
Fixpoint take (n : nat) (s : string) : string :=
  match n, s with
  | S n', String c r => String c (take n' r)
  | _, _ => EmptyString
  end.
Fixpoint drop_zeros (s : string) : string :=
  match s with
  | String "0" r => drop_zeros r
  | _ => s
  end.
(** The digits without the zeros at their end; the first digit stays. *)
Definition strip_tail (s : string) : string :=
  match s with
  | EmptyString => EmptyString
  | String c r => String c (rev_string (drop_zeros (rev_string r)))
  end.

Definition digits_of (c : Z) : string :=
  NilZero.string_of_uint (N.to_uint (Z.to_N c)).

(** The digits [ds] with the decimal point [decpt] places behind their
    start, in positional notation: the text before the dot and the text
    behind it. *)
Definition positional_parts (ds : string) (decpt : Z) : string * string :=
  let n := Z.of_nat (String.length ds) in
  if decpt <=? 0 then ("0", zeros (Z.to_nat (- decpt)) ++ ds)%string
  else if decpt <? n
       then (take (Z.to_nat decpt) ds, skip (Z.to_nat decpt) ds)
       else ((ds ++ zeros (Z.to_nat (decpt - n)))%string, "0"%string).

Definition reads_back (x : float) (ds : string) (decpt : Z) : bool :=
  let '(i, f) := positional_parts ds decpt in eqb (of_decimal i f) x.

Section Shortest.
Variables (x : float) (num den t : Z).

Definition attempt (c s : Z) : option (string * Z) :=
  let d := digits_of c in
  let ds := strip_tail d in
  let decpt := Z.of_nat (String.length d) + s in
  if reads_back x ds decpt then Some (ds, decpt) else None.

(** The decimal of [p] digits that reads back as [x], the nearer one of
    the two around [x] when both do. *)
Definition candidate (p : Z) : option (string * Z) :=
  let s := t + 1 - p in
  let '(a, b) := if 0 <=? s then (num, den * 10 ^ s)
                 else (num * 10 ^ (- s), den) in
  let lo := a / b in
  let r := a mod b in
  if r =? 0 then attempt lo s
  else
    match attempt lo s, attempt (lo + 1) s with
    | Some l, Some h =>
        match 2 * r ?= b with
        | Lt => Some l
        | Gt => Some h
        | Eq => if Z.even lo then Some l else Some h
        end
    | Some l, None => Some l
    | None, h => h
    end.

Fixpoint search (fuel : nat) (p : Z) : option (string * Z) :=
  match fuel with
  | O => None
  | S fuel' =>
      match candidate p with
      | Some r => Some r
      | None => search fuel' (p + 1)
      end
  end.

(** The nearest decimal of 17 digits. *)
Definition seventeen : string * Z :=
  let s := t + 1 - 17 in
  let '(a, b) := if 0 <=? s then (num, den * 10 ^ s)
                 else (num * 10 ^ (- s), den) in
  let d := digits_of (round_half_even a b) in
  (strip_tail d, Z.of_nat (String.length d) + s).

End Shortest.

(** The shortest digits that read back as m * 2^e, with the place of
    their decimal point. *)
Definition shortest (m : positive) (e : Z) : option (string * Z) :=
  let '(num, den) := ratio m e in
  search (Finite false m e) num den (floor_log10 num den) 17 1.

Definition pad2 (s : string) : string :=
  match s with
  | String c EmptyString => String "0" s
  | _ => s
  end.

Definition exponent_text (ds : string) (decpt : Z) : string :=
  let exp := decpt - 1 in
  let mantissa :=
    match ds with
    | String c EmptyString => ds
    | String c r => String c ("." ++ r)
    | EmptyString => EmptyString
    end in
  (mantissa ++ "e" ++ (if (exp <? 0)%Z then "-" else "+")
   ++ pad2 (digits_of (Z.abs exp)))%string.

Definition positional (decpt : Z) : bool := (-4 <? decpt) && (decpt <=? 16).

Definition layout (ds : string) (decpt : Z) : string :=
  if positional decpt
  then let '(i, f) := positional_parts ds decpt in (i ++ "." ++ f)%string
  else exponent_text ds decpt.

(** [repr(x)], which is [str(x)]. *)
Definition repr (x : float) : string :=
  match x with
  | NaN => "nan"
  | Infinity neg => if neg then "-inf" else "inf"
  | Zero neg => if neg then "-0.0" else "0.0"
  | Finite neg m e =>
      ((if neg then "-" else "") ++
       match shortest m e with
       | Some (ds, decpt) => layout ds decpt
       | None =>
           let '(num, den) := ratio m e in
           let '(ds, decpt) :=
             seventeen num den (floor_log10 num den) in
           layout ds decpt
       end)%string
  end.

End binary64.

(* ================================================================== *)
(** ** ast/nodes.py: the AST and its factory functions *)
(* ================================================================== *)

Module nodes.

(** The payload of a [Literal]: a bool, an int, a float or a str. *)
Inductive value : Type :=
| VBool (b : bool)
| VInt (n : Z)
| VFloat (x : binary64.float)
| VStr (s : string).

(** Expression nodes, one constructor per value of the [type] field.
    [ENone] is Python's [None] where a node is expected and
    [OtherExpression] a dict with any other [type]. *)
Inductive expr : Type :=
| ENone
| Literal (v : value)
| Identifier (name : string)
| BinaryExpression (operator : string) (left right : expr)
| UnaryExpression (operator : string) (argument : expr)
| CallExpression (callee : string) (arguments : list expr)
| OtherExpression (type : string).

(** A block node [{"type": "BlockStatement", "body": body}]. *)
Record block (S : Type) : Type := BlockStatement { block_body : list S }.
Arguments BlockStatement {S} block_body.
Arguments block_body {S} b.

(** Statement nodes.  [NoneStatement] is the [None] that
    [RapcodeParser._parse_statement] can return and that its callers append
    to a body; [OtherStatement] is a dict with any other [type]. *)
Inductive stmt : Type :=
| AssignmentStatement (left right : expr)
| ExpressionStatement (expression : expr)
| IfStatement (test : expr) (consequent : block stmt)
              (alternate : option (block stmt))
| WhileStatement (test : expr) (body : block stmt)
| BreakStatement
| NoneStatement
| OtherStatement (type : string).

Record program : Type := Program { body : list stmt }.

Definition create_program (body : list stmt) : program := Program body.

Definition create_block (body : list stmt) : block stmt := BlockStatement body.

(** [create_literal]: a string value that starts and ends with a double
    quote loses its first and last character. *)
Definition create_literal (v : value) : expr :=
  match v with
  | VStr s =>
      if startswith s QUOTE && endswith s QUOTE
      then Literal (VStr (slice_1_m1 s))
      else Literal (VStr s)
  | _ => Literal v
  end.

Definition create_identifier (name : string) : expr := Identifier name.

Definition create_binary_expression (operator : string) (left right : expr)
  : expr := BinaryExpression operator left right.

Definition create_unary_expression (operator : string) (argument : expr)
  : expr := UnaryExpression operator argument.

Definition create_call_expression (callee : string) (arguments : list expr)
  : expr := CallExpression callee arguments.

Definition create_input_expression (prompt_node : expr) : expr :=
  CallExpression "Input" [prompt_node].

Definition create_output_statement (argument_node : expr) : stmt :=
  ExpressionStatement (create_call_expression "Output" [argument_node]).

Definition create_assignment_statement (left right : expr) : stmt :=
  AssignmentStatement left right.

Definition create_if_statement (test : expr) (consequent_body : list stmt)
    (alternate_body : option (list stmt)) : stmt :=
  IfStatement test (create_block consequent_body)
    (match alternate_body with
     | Some b => Some (create_block b)
     | None => None
     end).

Definition create_while_statement (test : expr) (body : list stmt) : stmt :=
  WhileStatement test (create_block body).

Definition create_break_statement : stmt := BreakStatement.

(** *** The dict behind each node

    The sources build every node as a dict; [json] is the shape of those
    dicts and [dict_of_*] writes out, constructor by constructor, the dict
    that the factory function above returns. *)
Inductive json : Type :=
| JNone
| JBool (b : bool)
| JInt (n : Z)
| JFloat (x : binary64.float)
| JStr (s : string)
| JList (l : list json)
| JDict (fields : list (string * json)).

(** [d.get(key)] on a dict. *)
Fixpoint assoc (key : string) (fields : list (string * json)) : option json :=
  match fields with
  | [] => None
  | (k, v) :: r => if String.eqb k key then Some v else assoc key r
  end.

Definition get (d : json) (key : string) : option json :=
  match d with
  | JDict fields => assoc key fields
  | _ => None
  end.

Definition dict_of_value (v : value) : json :=
  match v with
  | VBool b => JBool b
  | VInt n => JInt n
  | VFloat x => JFloat x
  | VStr s => JStr s
  end.

Fixpoint dict_of_expr (e : expr) : json :=
  match e with
  | ENone => JNone
  | Literal v => JDict [("type", JStr "Literal"); ("value", dict_of_value v)]
  | Identifier name => JDict [("type", JStr "Identifier"); ("name", JStr name)]
  | BinaryExpression op l r =>
      JDict [("type", JStr "BinaryExpression"); ("operator", JStr op);
             ("left", dict_of_expr l); ("right", dict_of_expr r)]
  | UnaryExpression op a =>
      JDict [("type", JStr "UnaryExpression"); ("operator", JStr op);
             ("argument", dict_of_expr a)]
  | CallExpression callee args =>
      JDict [("type", JStr "CallExpression"); ("callee", JStr callee);
             ("arguments", JList (map dict_of_expr args))]
  | OtherExpression ty => JDict [("type", JStr ty)]
  end.

Fixpoint dict_of_stmt (s : stmt) : json :=
  match s with
  | AssignmentStatement l r =>
      JDict [("type", JStr "AssignmentStatement");
             ("left", dict_of_expr l); ("right", dict_of_expr r)]
  | ExpressionStatement e =>
      JDict [("type", JStr "ExpressionStatement");
             ("expression", dict_of_expr e)]
  | IfStatement t c a =>
      JDict [("type", JStr "IfStatement"); ("test", dict_of_expr t);
             ("consequent",
               JDict [("type", JStr "BlockStatement");
                      ("body", JList (map dict_of_stmt (block_body c)))]);
             ("alternate",
               match a with
               | Some b =>
                   JDict [("type", JStr "BlockStatement");
                          ("body", JList (map dict_of_stmt (block_body b)))]
               | None => JNone
               end)]
  | WhileStatement t b =>
      JDict [("type", JStr "WhileStatement"); ("test", dict_of_expr t);
             ("body",
               JDict [("type", JStr "BlockStatement");
                      ("body", JList (map dict_of_stmt (block_body b)))])]
  | BreakStatement => JDict [("type", JStr "BreakStatement")]
  | NoneStatement => JNone
  | OtherStatement ty => JDict [("type", JStr ty)]
  end.

(** The dict that [create_block] returns. *)
Definition dict_of_block (b : block stmt) : json :=
  JDict [("type", JStr "BlockStatement");
         ("body", JList (map dict_of_stmt (block_body b)))].

Definition dict_of_program (p : program) : json :=
  JDict [("type", JStr "Program"); ("body", JList (map dict_of_stmt (body p)))].

(** [expression.get("callee") == "Output"] and [expression["arguments"]] as
    the generators read them. *)
Definition is_output (expression : expr) : bool :=
  match expression with
  | CallExpression callee _ => String.eqb callee "Output"
  | _ => false
  end.
Definition arguments_of (expression : expr) : list expr :=
  match expression with
  | CallExpression _ arguments => arguments
  | _ => []
  end.

(** The value of [node["type"]] as the generators read it. *)
Definition stmt_type (s : stmt) : option string :=
  match get (dict_of_stmt s) "type" with
  | Some (JStr t) => Some t
  | _ => None
  end.

(** The [type] field of every dict of a tree, [None] for a dict without
    one. *)
Fixpoint node_types (j : json) : list (option json) :=
  match j with
  | JList l => flat_map node_types l
  | JDict fields =>
      assoc "type" fields
      :: (fix values (l : list (string * json)) : list (option json) :=
            match l with
            | [] => []
            | (_, v) :: rest => (node_types v ++ values rest)%list
            end) fields
  | _ => []
  end.

(** The kinds of node that the factory functions build. *)
Definition KINDS : list string :=
  ["Program"; "BlockStatement"; "Literal"; "Identifier"; "BinaryExpression";
   "UnaryExpression"; "CallExpression"; "AssignmentStatement";
   "ExpressionStatement"; "IfStatement"; "WhileStatement"; "BreakStatement"].

(** Trees made of factory-built nodes only; [None] is allowed where the
    expression parser returns it. *)
Fixpoint built_expr (e : expr) : bool :=
  match e with
  | ENone | Literal _ | Identifier _ => true
  | BinaryExpression _ l r => built_expr l && built_expr r
  | UnaryExpression _ a => built_expr a
  | CallExpression _ args => forallb built_expr args
  | OtherExpression _ => false
  end.

Fixpoint built_stmt (s : stmt) : bool :=
  match s with
  | AssignmentStatement l r => built_expr l && built_expr r
  | ExpressionStatement e => built_expr e
  | IfStatement t c a =>
      built_expr t && forallb built_stmt (block_body c)
      && match a with
         | Some b => forallb built_stmt (block_body b)
         | None => true
         end
  | WhileStatement t b => built_expr t && forallb built_stmt (block_body b)
  | BreakStatement => true
  | NoneStatement | OtherStatement _ => false
  end.

Definition built_program (p : program) : bool := forallb built_stmt (body p).

End nodes.
Import nodes.

(* ================================================================== *)
(** ** generation/expression_utils.py *)
(* ================================================================== *)

Module expression_utils.

(** [str(value)] for the number variants and the two other renderings of
    [expression_to_string] on a literal. *)
Definition literal_to_string (v : value) : string :=
  match v with
  | VStr s => QUOTE ++ s ++ QUOTE
  | VBool b => if b then "TRUE" else "FALSE"
  | VInt n => str_Z n
  | VFloat x => binary64.repr x
  end.

Fixpoint expression_to_string (node : expr) : result string :=
  match node with
  | ENone => Ok ""
  | Literal v => Ok (literal_to_string v)
  | Identifier name => Ok name
  | BinaryExpression operator l r =>
      left <- expression_to_string l ;;
      right <- expression_to_string r ;;
      Ok ("(" ++ left ++ " " ++ operator ++ " " ++ right ++ ")")
  | UnaryExpression operator a =>
      argument <- expression_to_string a ;;
      if String.eqb operator "NOT" then Ok ("NOT " ++ argument)
      else Ok ("(" ++ operator ++ argument ++ ")")
  | CallExpression callee arguments =>
      args <- (fix each (l : list expr) : result (list string) :=
                 match l with
                 | [] => Ok []
                 | arg :: rest =>
                     x <- expression_to_string arg ;;
                     xs <- each rest ;;
                     Ok (x :: xs)
                 end) arguments ;;
      if String.eqb callee "Input" then
        let prompt := match args with x :: _ => x | [] => "" end in
        Ok ("INPUT(" ++ prompt ++ ")")
      else Ok (callee ++ "(" ++ join ", " args ++ ")")
  | OtherExpression ty =>
      Raise (GenerationError ("Unknown expression node type: " ++ ty))
  end.

End expression_utils.
Import expression_utils.

(* ================================================================== *)
(** ** parsing/expression_parser.py *)
(* ================================================================== *)

Module ExpressionParser.

(** [re.fullmatch] of the number pattern: one or more digits, then
    optionally a dot and any number of digits. *)
Fixpoint digits_then (k : string -> bool) (seen : bool) (s : string) : bool :=
  match s with
  | String c r => if is_digit c then digits_then k true r else seen && k s
  | EmptyString => seen
  end.
Definition after_int (s : string) : bool :=
  match s with
  | String "." r => all_chars is_digit r
  | _ => false
  end.
Definition is_number (token : string) : bool := digits_then after_int false token.

(** [re.fullmatch] of the identifier pattern: a letter or underscore, then
    letters, digits and underscores. *)
Definition is_ident_start (c : ascii) : bool :=
  is_ascii_alpha c || Ascii.eqb c "_".
Definition is_ident_char (c : ascii) : bool :=
  is_ascii_alpha c || is_digit c || Ascii.eqb c "_".
Definition is_identifier (token : string) : bool :=
  match token with
  | String c r => is_ident_start c && all_chars is_ident_char r
  | EmptyString => false
  end.

(** The number a token denotes: [int(token)] when that succeeds (no dot),
    [float(token)] otherwise.  The interpreter's setting for the longest
    digit string that [int] and [str] convert (4300 digits unless changed)
    is no part of the sources and is not modelled. *)
Fixpoint split_dot (s : string) : string * option string :=
  match s with
  | EmptyString => (EmptyString, None)
  | String "." r => (EmptyString, Some r)
  | String c r => let '(a, b) := split_dot r in (String c a, b)
  end.
Definition number_value (token : string) : value :=
  match split_dot token with
  | (i, None) => VInt (int_digits i)
  | (i, Some f) => VFloat (binary64.of_decimal i f)
  end.

Section Parser.

(** [self.tokens]; [self.pos] is threaded through the rules below. *)
Variable tokens : list string.

Definition _peek (pos : nat) : option string := nth_error tokens pos.

Definition _consume (expected : option string) (pos : nat)
  : result (option string * nat) :=
  let token := _peek pos in
  if truthy_opt expected && negb (eqb_opt token expected)
  then Raise (ParsingError ("Expected '" ++ fmt_opt expected
                            ++ "' but found '" ++ fmt_opt token
                            ++ "' at position " ++ str_nat pos))
  else Ok (token, S pos).

Definition _match (token_types : list string) (pos : nat)
  : result (option string * nat) :=
  if in_tuple (_peek pos) token_types then _consume None pos
  else Ok (None, pos).

Definition P : Type := fueled (expr * nat).

Fixpoint _parse_logical_or (fuel : nat) (pos : nat) : P :=
  match fuel with
  | O => None
  | S fuel =>
      '(node, pos) <~ _parse_logical_and fuel pos ;;
      or_loop fuel node pos
  end
with or_loop (fuel : nat) (node : expr) (pos : nat) : P :=
  match fuel with
  | O => None
  | S fuel =>
      '(m, pos) <~ lift (_match ["OR"] pos) ;;
      if truthy_opt m then
        '(right_, pos) <~ _parse_logical_and fuel pos ;;
        or_loop fuel (create_binary_expression "OR" node right_) pos
      else fret (node, pos)
  end
with _parse_logical_and (fuel : nat) (pos : nat) : P :=
  match fuel with
  | O => None
  | S fuel =>
      '(node, pos) <~ _parse_comparison fuel pos ;;
      and_loop fuel node pos
  end
with and_loop (fuel : nat) (node : expr) (pos : nat) : P :=
  match fuel with
  | O => None
  | S fuel =>
      '(m, pos) <~ lift (_match ["AND"] pos) ;;
      if truthy_opt m then
        '(right_, pos) <~ _parse_comparison fuel pos ;;
        and_loop fuel (create_binary_expression "AND" node right_) pos
      else fret (node, pos)
  end
with _parse_comparison (fuel : nat) (pos : nat) : P :=
  match fuel with
  | O => None
  | S fuel =>
      '(node, pos) <~ _parse_additive fuel pos ;;
      '(op, pos) <~ lift (_match ["=="; "!="; "<"; ">"; "<="; ">="] pos) ;;
      if truthy_opt op then
        '(right_, pos) <~ _parse_additive fuel pos ;;
        fret (create_binary_expression (fmt_opt op) node right_, pos)
      else fret (node, pos)
  end
with _parse_additive (fuel : nat) (pos : nat) : P :=
  match fuel with
  | O => None
  | S fuel =>
      '(node, pos) <~ _parse_multiplicative fuel pos ;;
      add_loop fuel node pos
  end
with add_loop (fuel : nat) (node : expr) (pos : nat) : P :=
  match fuel with
  | O => None
  | S fuel =>
      '(op, pos) <~ lift (_match ["+"; "-"] pos) ;;
      if negb (truthy_opt op) then fret (node, pos)
      else
        '(right_, pos) <~ _parse_multiplicative fuel pos ;;
        add_loop fuel (create_binary_expression (fmt_opt op) node right_) pos
  end
with _parse_multiplicative (fuel : nat) (pos : nat) : P :=
  match fuel with
  | O => None
  | S fuel =>
      '(node, pos) <~ _parse_unary fuel pos ;;
      mul_loop fuel node pos
  end
with mul_loop (fuel : nat) (node : expr) (pos : nat) : P :=
  match fuel with
  | O => None
  | S fuel =>
      '(op, pos) <~ lift (_match ["*"; "/"; "MOD"] pos) ;;
      if negb (truthy_opt op) then fret (node, pos)
      else
        '(right_, pos) <~ _parse_unary fuel pos ;;
        mul_loop fuel (create_binary_expression (fmt_opt op) node right_) pos
  end
with _parse_unary (fuel : nat) (pos : nat) : P :=
  match fuel with
  | O => None
  | S fuel =>
      '(op, pos) <~ lift (_match ["NOT"; "-"] pos) ;;
      if truthy_opt op then
        '(argument, pos) <~ _parse_unary fuel pos ;;
        fret (create_unary_expression (fmt_opt op) argument, pos)
      else _parse_atom fuel pos
  end
with _parse_atom (fuel : nat) (pos : nat) : P :=
  match fuel with
  | O => None
  | S fuel =>
      match _peek pos with
      | None => fraise (ParsingError "Unexpected end of expression.")
      | Some token =>
          if String.eqb token "(" then
            '(_, pos) <~ lift (_consume (Some "(") pos) ;;
            '(node, pos) <~ _parse_logical_or fuel pos ;;
            '(_, pos) <~ lift (_consume (Some ")") pos) ;;
            fret (node, pos)
          else if String.eqb token "INPUT" then
            '(_, pos) <~ lift (_consume (Some "INPUT") pos) ;;
            '(_, pos) <~ lift (_consume (Some "(") pos) ;;
            '(prompt_node, pos) <~ _parse_logical_or fuel pos ;;
            '(_, pos) <~ lift (_consume (Some ")") pos) ;;
            fret (create_input_expression prompt_node, pos)
          else if String.eqb token "TRUE" then
            '(_, pos) <~ lift (_consume None pos) ;;
            fret (create_literal (VBool true), pos)
          else if String.eqb token "FALSE" then
            '(_, pos) <~ lift (_consume None pos) ;;
            fret (create_literal (VBool false), pos)
          else if startswith token QUOTE then
            '(t, pos) <~ lift (_consume None pos) ;;
            fret (create_literal (VStr (fmt_opt t)), pos)
          else if is_number token then
            '(t, pos) <~ lift (_consume None pos) ;;
            fret (create_literal (number_value (fmt_opt t)), pos)
          else if is_identifier token then
            '(t, pos) <~ lift (_consume None pos) ;;
            fret (create_identifier (fmt_opt t), pos)
          else
            fraise (ParsingError ("Unexpected token in expression: '"
                                  ++ token ++ "'"))
      end
  end.

(** The deepest chain of calls on [n] tokens: seven rules from
    [_parse_logical_or] down to [_parse_atom] for every token, and as many
    again to return. *)
Definition parse_fuel : nat := 16 * (length tokens + 1).

(** [ExpressionParser(tokens).parse()]; the result [ENone] is [None]. *)
Definition parse : fueled expr :=
  match tokens with
  | [] => fret ENone
  | _ =>
      '(ast, pos) <~ _parse_logical_or parse_fuel 0 ;;
      if truthy_opt (_peek pos)
      then fraise (ParsingError ("Unexpected token: '"
                                 ++ fmt_opt (_peek pos) ++ "'"))
      else fret ast
  end.

End Parser.

End ExpressionParser.


(* ================================================================== *)
(** ** parsing/rapcode_parser.py *)
(* ================================================================== *)

Module RapcodeParser.

Definition NEWLINE : string := "<NEWLINE>".

Definition RESERVED_KEYWORDS : list string :=
  ["IF"; "THEN"; "ELSE"; "ENDIF"; "WHILE"; "DO"; "LOOP"; "ENDLOOP";
   "BREAK"; "INPUT"; "OUTPUT"; "TRUE"; "FALSE"; "NOT"; "AND"; "OR"; "MOD"].

(** *** [TOKEN_REGEX]

    Each [lex_*] function is one alternative of the pattern, tried at the
    head of the remaining text: it returns the matched text and what
    follows it. *)

Fixpoint span (p : ascii -> bool) (s : string) : string * string :=
  match s with
  | String c r =>
      if p c then let '(a, b) := span p r in (String c a, b)
      else (EmptyString, s)
  | EmptyString => (EmptyString, EmptyString)
  end.

(** 1. Whitespace: a non-empty run of [\s]. *)
Definition lex_space (s : string) : option (string * string) :=
  match span is_space s with
  | (EmptyString, _) => None
  | m => Some m
  end.

(** 2. Comment: two dashes and the rest of the line. *)
Definition lex_comment (s : string) : option (string * string) :=
  match s with
  | String "-" (String "-" r) =>
      let '(a, b) := span (fun c => negb (Ascii.eqb c LF)) r in
      Some ("--" ++ a, b)
  | _ => None
  end.

(** 3. Identifier or keyword. *)
Definition lex_ident (s : string) : option (string * string) :=
  match s with
  | String c r =>
      if ExpressionParser.is_ident_start c then
        let '(a, b) := span ExpressionParser.is_ident_char r in
        Some (String c a, b)
      else None
  | EmptyString => None
  end.

(** 4. Operator: the first alternative of the list that is a prefix. *)
Definition OPERATORS : list string :=
  [":="; "=="; "!="; "<="; ">="; "<"; ">"; "+"; "-"; "*"; "/"; "^"].

Fixpoint first_prefix (ops : list string) (s : string)
  : option (string * string) :=
  match ops with
  | [] => None
  | op :: rest =>
      if String.prefix op s then Some (op, skip (String.length op) s)
      else first_prefix rest s
  end.
Definition lex_operator (s : string) : option (string * string) :=
  first_prefix OPERATORS s.

(** 5. Number: digits, then optionally a dot and digits. *)
Definition lex_number (s : string) : option (string * string) :=
  match span is_digit s with
  | (EmptyString, _) => None
  | (i, String "." r) =>
      let '(f, b) := span is_digit r in Some (i ++ "." ++ f, b)
  | m => Some m
  end.

(** 6. String: an opening quote, then escapes (a backslash and any character
    but a line feed) or characters other than quote and backslash, then the
    closing quote.  [string_body] scans what follows the opening quote. *)
Fixpoint string_body (s : string) : option (string * string) :=
  match s with
  | EmptyString => None
  | String c r =>
      if Ascii.eqb c DQ then Some (QUOTE, r)
      else if Ascii.eqb c BACKSLASH then
        match r with
        | String c' r' =>
            if Ascii.eqb c' LF then None
            else match string_body r' with
                 | Some (a, b) => Some (String c (String c' a), b)
                 | None => None
                 end
        | EmptyString => None
        end
      else match string_body r with
           | Some (a, b) => Some (String c a, b)
           | None => None
           end
  end.
Definition lex_string (s : string) : option (string * string) :=
  match s with
  | String c r =>
      if Ascii.eqb c DQ then
        match string_body r with
        | Some (a, b) => Some (String c a, b)
        | None => None
        end
      else None
  | EmptyString => None
  end.

(** 7. Any single character but a line feed. *)
Definition lex_char (s : string) : option (string * string) :=
  match s with
  | String c r => if Ascii.eqb c LF then None else Some (s_of c, r)
  | EmptyString => None
  end.

Fixpoint count_char (c : ascii) (s : string) : nat :=
  match s with
  | String c' r => (if Ascii.eqb c c' then 1 else 0) + count_char c r
  | EmptyString => 0
  end.

(** One match of the pattern and the tokens [_tokenize] appends for it. *)
Definition next_match (s : string) : option (list string * string) :=
  match lex_space s with
  | Some (token, rest) => Some (repeat NEWLINE (count_char LF token), rest)
  | None =>
  match lex_comment s with
  | Some (_, rest) => Some ([], rest)
  | None =>
  match lex_ident s with
  | Some (token, rest) => Some ([token], rest)
  | None =>
  match lex_operator s with
  | Some (token, rest) => Some ([token], rest)
  | None =>
  match lex_number s with
  | Some (token, rest) => Some ([token], rest)
  | None =>
  match lex_string s with
  | Some (token, rest) => Some ([token], rest)
  | None =>
  match lex_char s with
  | Some (token, rest) => Some ([token], rest)
  | None => None
  end end end end end end end.

(** [finditer]: every match consumes at least one character, so the length
    of the text bounds the number of matches. *)
Fixpoint tokenize_from (fuel : nat) (s : string) : list string :=
  match fuel with
  | O => []
  | S fuel' =>
      match next_match s with
      | Some (toks, rest) => (toks ++ tokenize_from fuel' rest)%list
      | None => []
      end
  end.

Definition _tokenize (code : string) : list string :=
  tokenize_from (String.length code) code.

(** [_is_expression_start]; [token[0]] raises on an empty token. *)
Definition _is_expression_start (token : option string) : result bool :=
  match token with
  | None => Ok false
  | Some t =>
      if existsb (String.eqb t) ["("; "NOT"; "-"; "INPUT"; "TRUE"; "FALSE"]
      then Ok true
      else if startswith t QUOTE then Ok true
      else match t with
           | EmptyString => Raise (IndexError "string index out of range")
           | String c _ =>
               if is_digit_method c then Ok true
               else if is_alpha c
                       && negb (existsb (String.eqb t) RESERVED_KEYWORDS)
               then Ok true
               else Ok false
           end
  end.

Section Parser.

(** [self.tokens]; [self.pos] is threaded through the methods. *)
Variable tokens : list string.

Definition _peek (pos : nat) : option string := nth_error tokens pos.

Definition _consume (expected : option string) (pos : nat)
  : result (option string * nat) :=
  let token := _peek pos in
  if truthy_opt expected && negb (eqb_opt token expected)
  then Raise (ParsingError ("Expected '" ++ fmt_opt expected
                            ++ "' but found '" ++ fmt_opt token
                            ++ "' at position " ++ str_nat pos))
  else Ok (token, S pos).

Definition _match (token_types : list string) (pos : nat)
  : result (option string * nat) :=
  if in_tuple (_peek pos) token_types then _consume None pos
  else Ok (None, pos).

(** [_skip_newlines]: the position after the run of newline markers. *)
Fixpoint leading_newlines (l : list string) : nat :=
  match l with
  | t :: r => if String.eqb t NEWLINE then S (leading_newlines r) else O
  | [] => O
  end.
Definition _skip_newlines (pos : nat) : nat :=
  pos + leading_newlines (List.skipn pos tokens).

(** The loop of [_parse_expression]: the tokens it consumes from [l] with
    [open_parens] parentheses open. *)
Fixpoint expression_tokens (l : list string) (open_parens : nat)
  : list string :=
  match l with
  | [] => []
  | token :: r =>
      if negb (truthy token) then []
      else if String.eqb token NEWLINE && (open_parens =? 0)%nat then []
      else if String.eqb token ":=" && (open_parens =? 0)%nat then []
      else if existsb (String.eqb token) ["THEN"; "DO"; "ENDLOOP"]
              && (open_parens =? 0)%nat then []
      else if existsb (String.eqb token)
                ["IF"; "LOOP"; "WHILE"; "BREAK"; "OUTPUT"]
              && (open_parens =? 0)%nat then []
      else if String.eqb token "(" then
        token :: expression_tokens r (S open_parens)
      else if String.eqb token ")" then
        match open_parens with
        | O => [token]
        | S n => token :: expression_tokens r n
        end
      else token :: expression_tokens r open_parens
  end.

Definition _parse_expression (pos : nat) : fueled (expr * nat) :=
  let expr_tokens := expression_tokens (List.skipn pos tokens) 0 in
  match expr_tokens with
  | [] => fraise (ParsingError "Expected expression.")
  | _ =>
      e <~ ExpressionParser.parse expr_tokens ;;
      fret (e, pos + length expr_tokens)
  end.

Definition _parse_output (pos : nat) : fueled (stmt * nat) :=
  '(_, pos) <~ lift (_consume (Some "OUTPUT") pos) ;;
  '(arg_node, pos) <~ _parse_expression pos ;;
  fret (create_output_statement arg_node, pos).

Definition is_identifier_node (e : expr) : bool :=
  match e with Identifier _ => true | _ => false end.

(** The statement rules.  A result [NoneStatement] is the [None] that
    [_parse_statement] returns in front of ELSE, ENDIF, ENDLOOP and at the
    end of the input. *)
Fixpoint _parse_statement (fuel : nat) (pos : nat) : fueled (stmt * nat) :=
  match fuel with
  | O => None
  | S fuel =>
      let pos := _skip_newlines pos in
      let token := _peek pos in
      match token with
      | None => fret (NoneStatement, pos)
      | Some t =>
          if existsb (String.eqb t) ["ELSE"; "ENDIF"; "ENDLOOP"]
          then fret (NoneStatement, pos)
          else if String.eqb t "IF" then _parse_if fuel pos
          else if String.eqb t "LOOP" || String.eqb t "WHILE"
          then _parse_loop fuel pos
          else if String.eqb t "BREAK" then
            '(_, pos) <~ lift (_consume (Some "BREAK") pos) ;;
            fret (create_break_statement, pos)
          else if String.eqb t "OUTPUT" then _parse_output pos
          else
            ok <~ lift (_is_expression_start token) ;;
            if negb ok then
              fraise (ParsingError ("Unexpected token: '" ++ t
                                    ++ "'. Expected start of statement."))
            else
              '(expr_ast, pos) <~ _parse_expression pos ;;
              '(m, pos) <~ lift (_match [":="] pos) ;;
              if truthy_opt m then
                '(right_, pos) <~ _parse_expression pos ;;
                if negb (is_identifier_node expr_ast) then
                  fraise (ParsingError "Invalid left-hand side in assignment.")
                else fret (create_assignment_statement expr_ast right_, pos)
              else
                fraise (ParsingError
                          ("Invalid statement. Did you mean 'OUTPUT " ++ t
                           ++ "...' or an assignment?"))
      end
  end
with _parse_if (fuel : nat) (pos : nat) : fueled (stmt * nat) :=
  match fuel with
  | O => None
  | S fuel =>
      '(_, pos) <~ lift (_consume (Some "IF") pos) ;;
      '(test, pos) <~ _parse_expression pos ;;
      '(_, pos) <~ lift (_consume (Some "THEN") pos) ;;
      '(consequent_body, pos) <~ consequent_loop fuel [] pos ;;
      '(m, pos) <~ lift (_match ["ELSE"] pos) ;;
      '(alternate_body, pos) <~
          (if truthy_opt m then
             '(b, pos) <~ alternate_loop fuel [] pos ;; fret (Some b, pos)
           else fret (None, pos)) ;;
      '(_, pos) <~ lift (_consume (Some "ENDIF") pos) ;;
      fret (create_if_statement test consequent_body alternate_body, pos)
  end
with consequent_loop (fuel : nat) (consequent_body : list stmt) (pos : nat)
  : fueled (list stmt * nat) :=
  match fuel with
  | O => None
  | S fuel =>
      let pos := _skip_newlines pos in
      let upcoming := _peek pos in
      if in_tuple upcoming ["ELSE"; "ENDIF"]
         || match upcoming with None => true | _ => false end
      then fret (consequent_body, pos)
      else
        '(s, pos) <~ _parse_statement fuel pos ;;
        consequent_loop fuel (consequent_body ++ [s])%list pos
  end
with alternate_loop (fuel : nat) (alternate_body : list stmt) (pos : nat)
  : fueled (list stmt * nat) :=
  match fuel with
  | O => None
  | S fuel =>
      let pos := _skip_newlines pos in
      if eqb_opt (_peek pos) (Some "ENDIF")
      then fret (alternate_body, pos)
      else
        '(s, pos) <~ _parse_statement fuel pos ;;
        alternate_loop fuel (alternate_body ++ [s])%list pos
  end
with _parse_loop (fuel : nat) (pos : nat) : fueled (stmt * nat) :=
  match fuel with
  | O => None
  | S fuel =>
      '(m, pos) <~ lift (_match ["LOOP"] pos) ;;
      '(test, pos) <~
          (if truthy_opt m then fret (create_literal (VBool true), pos)
           else
             '(m, pos) <~ lift (_match ["WHILE"] pos) ;;
             if truthy_opt m then
               '(test, pos) <~ _parse_expression pos ;;
               '(_, pos) <~ lift (_consume (Some "DO") pos) ;;
               fret (test, pos)
             else fraise (ParsingError "Expected 'LOOP' or 'WHILE'.")) ;;
      '(body, pos) <~ body_loop fuel [] pos ;;
      '(_, pos) <~ lift (_consume (Some "ENDLOOP") pos) ;;
      fret (create_while_statement test body, pos)
  end
with body_loop (fuel : nat) (body : list stmt) (pos : nat)
  : fueled (list stmt * nat) :=
  match fuel with
  | O => None
  | S fuel =>
      let pos := _skip_newlines pos in
      if eqb_opt (_peek pos) (Some "ENDLOOP")
      then fret (body, pos)
      else
        '(s, pos) <~ _parse_statement fuel pos ;;
        body_loop fuel (body ++ [s])%list pos
  end.

(** The loop of [parse]. *)
Fixpoint program_loop (fuel : nat) (statements : list stmt) (pos : nat)
  : fueled (list stmt) :=
  match fuel with
  | O => None
  | S fuel =>
      match _peek pos with
      | None => fret statements
      | Some _ =>
          '(s, pos) <~ _parse_statement fuel pos ;;
          let statements :=
            match s with
            | NoneStatement => statements
            | _ => (statements ++ [s])%list
            end in
          program_loop fuel statements (_skip_newlines pos)
      end
  end.

End Parser.

(** [RapcodeParser().parse(content)], run for at most [fuel] nested calls
    and loop iterations. *)
Definition parse (fuel : nat) (content : string) : fueled program :=
  let tokens := _tokenize content in
  statements <~ program_loop tokens fuel [] (_skip_newlines tokens 0) ;;
  fret (create_program statements).

End RapcodeParser.

(* ================================================================== *)
(** ** parsing/raptor_xml_parser.py *)
(* ================================================================== *)

Module RaptorXMLParser.

(** A flowchart element as [_parse_raptor_node] observes it through the
    helper methods: whether its [i:nil] attribute is the text true, the result
    of [_get_node_type], the text of the three payload children
    ([None] when [_safe_get_text] falls back to its default) and, for each
    link, the component that [_find_actual_component] finds in the container
    returned by [_find_element_robust]. *)
Inductive element : Type :=
| Element (is_nil : bool) (node_type : string)
          (_text_str _is_input _prompt : option string)
          (_left_Child _right_Child _before_Child _after_Child
             _Successor : option element).

(** [_safe_get_text(xml_node, tag, default)]. *)
Definition _safe_get_text (field : option string) (default : string)
  : string :=
  match field with Some t => t | None => default end.

(** [re.sub] of a lone equals sign, neither preceded by one of the
    characters [: ! < > =] nor followed by [=], with a double one. *)
Definition head_is (c : ascii) (s : string) : bool :=
  match s with String c' _ => Ascii.eqb c c' | EmptyString => false end.
Definition guards_equals (prev : option ascii) : bool :=
  match prev with
  | Some p => existsb (Ascii.eqb p) [":"; "!"; "<"; ">"; "="]%char
  | None => false
  end.
Fixpoint sub_equals (prev : option ascii) (s : string) : string :=
  match s with
  | EmptyString => EmptyString
  | String c r =>
      if Ascii.eqb c "=" && negb (guards_equals prev) && negb (head_is "=" r)
      then "==" ++ sub_equals (Some c) r
      else String c (sub_equals (Some c) r)
  end.

(** The text of [_parse_expression] after its substitutions. *)
Definition preprocess (expr_str : string) : string :=
  let expr_str := replace expr_str " mod " " MOD " in
  let expr_str := replace expr_str " and " " AND " in
  let expr_str := replace expr_str " or " " OR " in
  let expr_str := replace expr_str " not " " NOT " in
  let expr_str := sub_equals None expr_str in
  replace expr_str "<>" "!=".

(** [try: ... except Exception as e: raise ParsingError(prefix + str(e))]. *)
Definition rewrap {A} (prefix : string) (r : fueled A) : fueled A :=
  match r with
  | Some (Raise e) => Some (Raise (ParsingError (prefix ++ str_exn e)))
  | _ => r
  end.

Definition _parse_expression (expr_str : string) : fueled expr :=
  if negb (truthy expr_str)
  then fraise (ParsingError "Empty expression string found in XML.")
  else
    let expr_str := preprocess expr_str in
    rewrap ("Failed to parse expression '" ++ expr_str ++ "': ")
      (let tokens := RapcodeParser._tokenize expr_str in
       ExpressionParser.parse tokens).

(** [_parse_raptor_node] on an element that is present ([parse_present]) and
    on one that may be [None] ([_parse_raptor_node]). *)
Fixpoint parse_present (xml_node : element) : fueled (list stmt) :=
  let _parse_raptor_node (child : option element) : fueled (list stmt) :=
    match child with
    | None => fret []
    | Some c => parse_present c
    end in
  match xml_node with
  | Element is_nil node_type text_str is_input prompt
      left_child right_child before_child after_child successor =>
      if is_nil then fret []
      else
        current_ast_node <~
          rewrap ("Error parsing XML node of type '" ++ node_type ++ "': ")
            (if String.eqb node_type "Rectangle" then
               let text := _safe_get_text text_str "" in
               if contains text ":=" then
                 let '(left_str, right_str) := split_once text ":=" in
                 left_node <~ _parse_expression (strip left_str) ;;
                 right_node <~ _parse_expression (strip right_str) ;;
                 fret (Some (create_assignment_statement left_node right_node))
               else fret None
             else if String.eqb node_type "Parallelogram" then
               let is_input :=
                 String.eqb (lower (_safe_get_text is_input "false")) "true" in
               let text_str := strip (_safe_get_text text_str "") in
               if is_input then
                 let prompt_text := strip (_safe_get_text prompt "") in
                 let prompt_text :=
                   if startswith prompt_text QUOTE && endswith prompt_text QUOTE
                   then slice_1_m1 prompt_text else prompt_text in
                 let prompt_node := create_literal (VStr prompt_text) in
                 fret (Some (create_assignment_statement
                               (create_identifier text_str)
                               (create_input_expression prompt_node)))
               else
                 arg_node <~ _parse_expression text_str ;;
                 fret (Some (create_output_statement arg_node))
             else if String.eqb node_type "IF_Control" then
               let text := _safe_get_text text_str "" in
               consequent_body <~ _parse_raptor_node left_child ;;
               alternate_body <~ _parse_raptor_node right_child ;;
               test <~ _parse_expression text ;;
               fret (Some (create_if_statement test consequent_body
                             (if is_nonempty alternate_body
                              then Some alternate_body else None)))
             else if String.eqb node_type "Loop" then
               let text := _safe_get_text text_str "" in
               before_body <~ _parse_raptor_node before_child ;;
               after_body <~ _parse_raptor_node after_child ;;
               test <~ _parse_expression text ;;
               let if_break_node :=
                 create_if_statement test [create_break_statement] None in
               let loop_body_statements :=
                 (before_body ++ [if_break_node] ++ after_body)%list in
               fret (Some (create_while_statement (create_literal (VBool true))
                             loop_body_statements))
             else fret None) ;;
        let ast_nodes :=
          match current_ast_node with Some s => [s] | None => [] end in
        rest <~ _parse_raptor_node successor ;;
        fret (ast_nodes ++ rest)%list
  end.

Definition _parse_raptor_node (xml_node : option element)
  : fueled (list stmt) :=
  match xml_node with
  | None => fret []
  | Some c => parse_present c
  end.

(** [parse], from the component that follows the Start element. *)
Definition parse (first_node : option element) : fueled program :=
  body <~ _parse_raptor_node first_node ;;
  fret (create_program body).

End RaptorXMLParser.

(* ================================================================== *)
(** ** generation/rapcode_generator.py *)
(* ================================================================== *)

Module RapcodeGenerator.

(** ["  " * indent_level]. *)
Fixpoint indent_of (indent_level : nat) : string :=
  match indent_level with
  | O => EmptyString
  | S n => "  " ++ indent_of n
  end.

(** [test.get("type") == "Literal" and test.get("value") is True]. *)
Definition is_literal_true (test : expr) : bool :=
  match test with
  | Literal (VBool true) => true
  | _ => false
  end.

Definition no_get : exn :=
  AttributeError "'NoneType' object has no attribute 'get'".

(** The lines that one iteration of the loop of [_generate_nodes] appends to
    [code_lines] for [node].  The local [_generate_nodes] is the recursive
    call of the method. *)
Fixpoint node_lines (indent_level : nat) (node : stmt) {struct node}
  : result (list string) :=
  let _generate_nodes (ast_nodes : list stmt) (level : nat) : result string :=
    code_lines <-
      (fix each (l : list stmt) : result (list string) :=
         match l with
         | [] => Ok []
         | n :: rest =>
             here <- node_lines level n ;;
             after <- each rest ;;
             Ok (here ++ after)%list
         end) ast_nodes ;;
    Ok (join NL code_lines) in
  let indent := indent_of indent_level in
  match node with
  | NoneStatement => Raise no_get
  | AssignmentStatement l r =>
      left <- expression_to_string l ;;
      right <- expression_to_string r ;;
      Ok [indent ++ left ++ " := " ++ right]
  | ExpressionStatement expression =>
      match expression with
      | ENone => Raise no_get
      | _ =>
          if is_output expression then
            match arguments_of expression with
            | [] => Raise (IndexError "list index out of range")
            | arg_node :: _ =>
                arg_string <- expression_to_string arg_node ;;
                Ok [indent ++ "OUTPUT " ++ arg_string]
            end
          else Ok []
      end
  | IfStatement t c a =>
      let consequent := block_body c in
      test <- expression_to_string t ;;
      inner <- _generate_nodes consequent (indent_level + 1) ;;
      let code_lines :=
        ([(indent ++ "IF " ++ test ++ " THEN")%string] ++ splitlines inner)%list in
      code_lines <-
        (match a with
         | None => Ok code_lines
         | Some alt =>
             let alternate := block_body alt in
             if is_nonempty alternate then
               inner <- _generate_nodes alternate (indent_level + 1) ;;
               Ok (code_lines ++ [(indent ++ "ELSE")%string]
                     ++ splitlines inner)%list
             else Ok code_lines
         end) ;;
      Ok (code_lines ++ [(indent ++ "ENDIF")%string])%list
  | WhileStatement test b =>
      head <-
        (match test with
         | ENone => Raise no_get
         | _ =>
             if is_literal_true test then Ok (indent ++ "LOOP")
             else
               test_expr <- expression_to_string test ;;
               Ok (indent ++ "WHILE " ++ test_expr ++ " DO")
         end) ;;
      inner <- _generate_nodes (block_body b) (indent_level + 1) ;;
      Ok ([head] ++ splitlines inner ++ [(indent ++ "ENDLOOP")%string])%list
  | BreakStatement => Ok [indent ++ "BREAK"]
  | OtherStatement _ => Ok []
  end.

Fixpoint all_lines (indent_level : nat) (ast_nodes : list stmt)
  : result (list string) :=
  match ast_nodes with
  | [] => Ok []
  | n :: rest =>
      here <- node_lines indent_level n ;;
      after <- all_lines indent_level rest ;;
      Ok (here ++ after)%list
  end.

Definition _generate_nodes (ast_nodes : list stmt) (indent_level : nat)
  : result string :=
  code_lines <- all_lines indent_level ast_nodes ;;
  Ok (join NL code_lines).

Definition generate (ast : program) : result string :=
  match _generate_nodes (body ast) 0 with
  | Ok text => Ok text
  | Raise e =>
      Raise (GenerationError ("Rapcode generation failed: " ++ str_exn e))
  end.

End RapcodeGenerator.

(* ================================================================== *)
(** ** generation/base_generator.py *)
(* ================================================================== *)

Module AstVisualizer.

(** The attributes of a generator object: the two set by [__init__] and the
    output buffers [out] of the subclass. *)
Record instance (Out : Type) : Type := Instance {
  node_count : nat;
  loop_exit_stack : list string;
  out : Out
}.
Arguments Instance {Out} node_count loop_exit_stack out.
Arguments node_count {Out} i.
Arguments loop_exit_stack {Out} i.
Arguments out {Out} i.

(** A method: it returns or raises, and leaves the object in a new state
    either way. *)
Definition G (Out A : Type) : Type := instance Out -> result A * instance Out.

Definition ret {Out A} (a : A) : G Out A := fun st => (Ok a, st).
Definition raise {Out A} (e : exn) : G Out A := fun st => (Raise e, st).
Definition gbind {Out A B} (c : G Out A) (k : A -> G Out B) : G Out B :=
  fun st =>
    match c st with
    | (Ok a, st') => k a st'
    | (Raise e, st') => (Raise e, st')
    end.
Definition of_result {Out A} (r : result A) : G Out A := fun st => (r, st).

Declare Scope gen_scope.
Delimit Scope gen_scope with gen.
Notation "x <- c ;; k" := (gbind c (fun x => k))
  (at level 61, c at next level, right associativity) : gen_scope.
Notation "' p <- c ;; k" := (gbind c (fun p => k))
  (at level 61, p pattern, c at next level, right associativity) : gen_scope.
Notation "c ;; k" := (gbind c (fun _ => k))
  (at level 61, right associativity) : gen_scope.
Local Open Scope gen_scope.

(** The abstract methods and the shape names, implemented by a subclass. *)
Class Backend (Out : Type) : Type := {
  _add_node : string -> string -> G Out string;
  _add_edge : option string -> option string -> option string -> G Out unit;
  _get_start_shape : string;
  _get_process_shape : string;
  _get_io_shape : string;
  _get_decision_shape : string;
  _get_merge_shape : string
}.

(** [(entry_node_id, exit_node_id)]; either may be [None]. *)
Definition ids : Type := (option string * option string)%type.

(** [_expr_to_str]: a [GenerationError] of the printer becomes the text
    expr. *)
Definition _expr_to_str (node : expr) : result string :=
  match expression_to_string node with
  | Raise (GenerationError _) => Ok "expr"
  | r => r
  end.

Definition not_subscriptable : exn :=
  TypeError "'NoneType' object is not subscriptable".

(** [test["type"] == "Literal" and test["value"] is True]. *)
Definition is_while_true (test : expr) : result bool :=
  match test with
  | ENone => Raise not_subscriptable
  | Literal (VBool true) => Ok true
  | _ => Ok false
  end.

(** The condition of the search loop of [_try_visualize_raptor_loop]: an
    IfStatement whose consequent body is not empty and starts with a
    BreakStatement, and whose alternate is [None]. *)
Definition is_if_break (n : stmt) : result bool :=
  match n with
  | NoneStatement => Raise not_subscriptable
  | IfStatement _ c a =>
      match block_body c with
      | [] => Ok false
      | NoneStatement :: _ => Raise not_subscriptable
      | BreakStatement :: _ =>
          Ok (match a with None => true | Some _ => false end)
      | _ :: _ => Ok false
      end
  | _ => Ok false
  end.

(** The search loop: the index and the node of the first match from index
    [i] on. *)
Fixpoint find_if_break (body : list stmt) (i : nat)
  : result (option (nat * stmt)) :=
  match body with
  | [] => Ok None
  | n :: rest =>
      b <- is_if_break n ;;
      if b then Ok (Some (i, n)) else find_if_break rest (S i)
  end%py.

Definition if_test (n : stmt) : expr :=
  match n with IfStatement t _ _ => t | _ => ENone end.

Section Walker.

Context {Out : Type} `{Backend Out}.

Definition push (exit_node : string) : G Out unit :=
  fun st => (Ok tt, Instance (node_count st)
                      (loop_exit_stack st ++ [exit_node])%list (out st)).
Definition pop : G Out unit :=
  fun st => (Ok tt, Instance (node_count st)
                      (removelast (loop_exit_stack st)) (out st)).
Definition stack : G Out (list string) :=
  fun st => (Ok (loop_exit_stack st), st).

(** [if x: self._add_edge(x, target)]. *)
Definition edge_if (x : option string) (target : option string)
  : G Out unit :=
  if truthy_opt x then _add_edge x target None else ret tt.

(** The linking loop of [_generate_from_nodes]. *)
Fixpoint link (generated : list ids) : G Out unit :=
  match generated with
  | current :: (next :: _) as rest =>
      (if truthy_opt (snd current) && truthy_opt (fst next)
       then _add_edge (snd current) (fst next) None
       else ret tt) ;;
      link rest
  | _ => ret tt
  end.

(** [[call for node in nodes]]: the calls run in order. *)
Fixpoint run_all {A} (calls : list (G Out A)) : G Out (list A) :=
  match calls with
  | [] => ret []
  | c :: rest => x <- c ;; xs <- run_all rest ;; ret (x :: xs)
  end.

(** [_generate_from_nodes], given the calls [self._generate_node(node)] of
    its nodes. *)
Definition chain (calls : list (G Out ids)) : G Out ids :=
  match calls with
  | [] => ret (None, None)
  | _ =>
      generated <- run_all calls ;;
      link generated ;;
      let first_entry := fst (hd (None, None) generated) in
      let last_exit := snd (last generated (None, None)) in
      ret (first_entry, last_exit)
  end.

(** [_try_visualize_raptor_loop] on a WhileStatement with the given test and
    body, [calls] being the calls [self._generate_node(n)] of the body's
    nodes.  The result [None] is "not a mid-test loop". *)
Definition visualize_raptor_loop (test : expr) (body : list stmt)
    (calls : list (G Out ids)) : G Out (option ids) :=
  is_true <- of_result (is_while_true test) ;;
  if negb is_true then ret None
  else
    found <- of_result (find_if_break body 0) ;;
    match found with
    | None => ret None
    | Some (if_break_index, if_break_node) =>
        let body_before := firstn if_break_index calls in
        let body_after := skipn (if_break_index + 1) calls in
        exit_condition_str <- of_result (_expr_to_str (if_test if_break_node)) ;;
        cond_node <- _add_node exit_condition_str _get_decision_shape ;;
        exit_node <- _add_node " " _get_merge_shape ;;
        push exit_node ;;
        _add_edge (Some cond_node) (Some exit_node) (Some "True") ;;
        '(entry_before, exit_before) <- chain body_before ;;
        '(entry_after, exit_after) <- chain body_after ;;
        let loop_entry := or_else entry_before (Some cond_node) in
        edge_if exit_before (Some cond_node) ;;
        let continue_path := or_else entry_after loop_entry in
        _add_edge (Some cond_node) continue_path (Some "False") ;;
        edge_if exit_after loop_entry ;;
        pop ;;
        ret (Some (loop_entry, Some exit_node))
    end.

Definition unknown_node (node_type : string) : G Out ids :=
  unknown <- _add_node ("Unknown Node:" ++ NL ++ node_type) "octagon" ;;
  ret (Some unknown, Some unknown).

Fixpoint _generate_node (node : stmt) : G Out ids :=
  match node with
  | NoneStatement => raise not_subscriptable
  | AssignmentStatement l r =>
      left <- of_result (_expr_to_str l) ;;
      right <- of_result (_expr_to_str r) ;;
      n <- _add_node (left ++ " := " ++ right) _get_process_shape ;;
      ret (Some n, Some n)
  | ExpressionStatement expr =>
      match expr with
      | ENone => raise RapcodeGenerator.no_get
      | _ =>
          if is_output expr then
            match arguments_of expr with
            | [] => raise (IndexError "list index out of range")
            | arg :: _ =>
                s <- of_result (_expr_to_str arg) ;;
                n <- _add_node ("OUTPUT: " ++ s) _get_io_shape ;;
                ret (Some n, Some n)
            end
          else unknown_node "ExpressionStatement"
      end
  | BreakStatement =>
      loop_exit_stack <- stack ;;
      if negb (is_nonempty loop_exit_stack)
      then raise (GenerationError "BREAK statement found outside of a loop.")
      else
        break_entry <- _add_node " " _get_merge_shape ;;
        loop_exit_stack <- stack ;;
        _add_edge (Some break_entry) (Some (last loop_exit_stack "")) None ;;
        ret (Some break_entry, None)
  | IfStatement test consequent alternate =>
      label <- of_result (_expr_to_str test) ;;
      cond_node <- _add_node label _get_decision_shape ;;
      merge_node <- _add_node " " _get_merge_shape ;;
      '(true_entry, true_exit) <-
          chain (map _generate_node (block_body consequent)) ;;
      _add_edge (Some cond_node) (or_else true_entry (Some merge_node))
        (Some "True") ;;
      edge_if true_exit (Some merge_node) ;;
      '(false_entry, false_exit) <-
          match alternate with
          | Some alt => chain (map _generate_node (block_body alt))
          | None => chain []
          end ;;
      _add_edge (Some cond_node) (or_else false_entry (Some merge_node))
        (Some "False") ;;
      edge_if false_exit (Some merge_node) ;;
      ret (Some cond_node, Some merge_node)
  | WhileStatement test body =>
      let calls := map _generate_node (block_body body) in
      raptor_loop_nodes <- visualize_raptor_loop test (block_body body) calls ;;
      match raptor_loop_nodes with
      | Some nodes => ret nodes
      | None =>
          test_expr_str <- of_result (_expr_to_str test) ;;
          cond_node <- _add_node test_expr_str _get_decision_shape ;;
          exit_node <- _add_node " " _get_merge_shape ;;
          push exit_node ;;
          '(body_entry, body_exit) <- chain calls ;;
          _add_edge (Some cond_node) (or_else body_entry (Some cond_node))
            (Some "True") ;;
          edge_if body_exit (Some cond_node) ;;
          pop ;;
          _add_edge (Some cond_node) (Some exit_node) (Some "False") ;;
          ret (Some cond_node, Some exit_node)
      end
  | OtherStatement node_type => unknown_node node_type
  end.

Definition _generate_from_nodes (nodes : list stmt) : G Out ids :=
  chain (map _generate_node nodes).

Definition _try_visualize_raptor_loop (test : expr) (body : block stmt)
  : G Out (option ids) :=
  visualize_raptor_loop test (block_body body)
    (map _generate_node (block_body body)).

(** The part of [generate] that both subclasses share, between the reset of
    their buffers and the assembly of their text. *)
Definition walk_program (ast : program) : G Out unit :=
  start_node <- _add_node "Start" _get_start_shape ;;
  '(entry, last_node) <- _generate_from_nodes (body ast) ;;
  (if truthy_opt entry then _add_edge (Some start_node) entry None
   else ret tt) ;;
  let last_node := or_else last_node (Some start_node) in
  end_node <- _add_node "End" _get_start_shape ;;
  (if truthy_opt last_node then _add_edge last_node (Some end_node) None
   else ret tt).

End Walker.

(** [AstVisualizer.__init__]. *)
Definition __init__ {Out} (empty : Out) : instance Out := Instance 0 [] empty.

End AstVisualizer.

(* ================================================================== *)
(** ** generation/mermaid_generator.py *)
(* ================================================================== *)

Module MermaidGenerator.
Import AstVisualizer.
Local Open Scope gen_scope.

(** [self.node_defs] and [self.edge_defs]. *)
Record buffers : Type := Buffers {
  node_defs : list string;
  edge_defs : list string
}.

(** The [shapes] table of [_add_node]. *)
Definition shapes (shape : string) : option (string * string) :=
  if String.eqb shape "box" then Some ("[" ++ QUOTE, QUOTE ++ "]")
  else if String.eqb shape "parallelogram"
  then Some ("[/" ++ QUOTE, "/" ++ QUOTE ++ "]")
  else if String.eqb shape "diamond" then Some ("{" ++ QUOTE, QUOTE ++ "}")
  else if String.eqb shape "point" then Some ("((" ++ QUOTE, QUOTE ++ "))")
  else if String.eqb shape "start" then Some ("(" ++ QUOTE, QUOTE ++ ")")
  else if String.eqb shape "ellipse" then Some ("(" ++ QUOTE, QUOTE ++ ")")
  else None.

Definition add_node (label shape : string) : G buffers string :=
  fun st =>
    let node_id := "N" ++ str_nat (node_count st) in
    let st := Instance (node_count st + 1) (loop_exit_stack st) (out st) in
    let safe_label := replace label QUOTE "#quot;" in
    match shapes shape with
    | None => (Raise (KeyError shape), st)
    | Some (shape_open, shape_close) =>
        let line := "  " ++ node_id ++ shape_open ++ safe_label ++ shape_close in
        (Ok node_id,
         Instance (node_count st) (loop_exit_stack st)
           (Buffers (node_defs (out st) ++ [line])%list (edge_defs (out st))))
    end.

Definition add_edge (from_node to_node label : option string)
  : G buffers unit :=
  fun st =>
    if negb (truthy_opt from_node) || negb (truthy_opt to_node)
    then (Ok tt, st)
    else
      let arrow :=
        if truthy_opt label then "--" ++ QUOTE ++ fmt_opt label ++ QUOTE ++ "-->"
        else "-->" in
      let line := "  " ++ fmt_opt from_node ++ " " ++ arrow ++ " "
                  ++ fmt_opt to_node in
      (Ok tt,
       Instance (node_count st) (loop_exit_stack st)
         (Buffers (node_defs (out st)) (edge_defs (out st) ++ [line])%list)).

#[global] Instance backend : Backend buffers := {|
  _add_node := add_node;
  _add_edge := add_edge;
  _get_start_shape := "start";
  _get_process_shape := "box";
  _get_io_shape := "parallelogram";
  _get_decision_shape := "diamond";
  _get_merge_shape := "point"
|}.

(** [generate]: the buffers are reset, the counter and the stack are the
    ones of the object. *)
Definition generate (ast : program) : G buffers string :=
  fun self =>
    let self := Instance (node_count self) (loop_exit_stack self)
                  (Buffers [] []) in
    match walk_program ast self with
    | (Ok _, self) =>
        (Ok ("graph TD;" ++ NL ++ join NL (node_defs (out self)) ++ NL ++ NL
             ++ join NL (edge_defs (out self))), self)
    | (Raise e, self) => (Raise e, self)
    end.

(** [MermaidGenerator()]. *)
Definition new : instance buffers := __init__ (Buffers [] []).

End MermaidGenerator.

(* ================================================================== *)
(** ** generation/graphviz_generator.py *)
(* ================================================================== *)

Module GraphvizGenerator.
Import AstVisualizer.
Local Open Scope gen_scope.

(** [self.dot_code] is the only buffer. *)
Definition emit (text : string) : G string unit :=
  fun st => (Ok tt, Instance (node_count st) (loop_exit_stack st)
                      (out st ++ text)).

(** The attributes that [_add_node] adds for three of the shapes. *)
Definition point_attrs : list string :=
  ["width=" ++ QUOTE ++ "0.1" ++ QUOTE; "height=" ++ QUOTE ++ "0.1" ++ QUOTE;
   "label=" ++ QUOTE ++ QUOTE].
Definition ellipse_attrs : list string :=
  ["fillcolor=" ++ QUOTE ++ "#f8f8f8" ++ QUOTE].
Definition diamond_attrs : list string :=
  ["fillcolor=" ++ QUOTE ++ "#f0f8ff" ++ QUOTE].

Definition add_node (label shape : string) : G string string :=
  fun st =>
    let node_id := "node" ++ str_nat (node_count st) in
    let st := Instance (node_count st + 1) (loop_exit_stack st) (out st) in
    let safe_label :=
      replace (replace (replace label (s_of BACKSLASH)
                          (s_of BACKSLASH ++ s_of BACKSLASH))
                 QUOTE (s_of BACKSLASH ++ QUOTE))
        NL (s_of BACKSLASH ++ "n") in
    let attrs :=
      ["label=" ++ QUOTE ++ safe_label ++ QUOTE; "shape=" ++ shape] in
    let attrs :=
      if String.eqb shape "point"
      then (attrs ++ point_attrs)%list else attrs in
    let attrs :=
      if String.eqb shape "ellipse"
      then (attrs ++ ellipse_attrs)%list else attrs in
    let attrs :=
      if String.eqb shape "diamond"
      then (attrs ++ diamond_attrs)%list else attrs in
    match emit ("  " ++ node_id ++ " [" ++ join ", " attrs ++ "];" ++ NL) st with
    | (_, st) => (Ok node_id, st)
    end.

Definition add_edge (from_node to_node label : option string)
  : G string unit :=
  if negb (truthy_opt from_node) || negb (truthy_opt to_node)
  then ret tt
  else
    let attrs :=
      if truthy_opt label
      then ["xlabel=" ++ QUOTE ++ fmt_opt label ++ QUOTE] else [] in
    emit ("  " ++ fmt_opt from_node ++ " -> " ++ fmt_opt to_node ++ " ["
          ++ join ", " attrs ++ "];" ++ NL).

#[global] Instance backend : Backend string := {|
  _add_node := add_node;
  _add_edge := add_edge;
  _get_start_shape := "ellipse";
  _get_process_shape := "box";
  _get_io_shape := "parallelogram";
  _get_decision_shape := "diamond";
  _get_merge_shape := "point"
|}.

Definition header : string :=
  "digraph Flowchart {" ++ NL
  ++ "  graph [splines=ortho];" ++ NL
  ++ "  node [fontname=" ++ QUOTE ++ "Helvetica" ++ QUOTE
  ++ ", fontsize=10, style=" ++ QUOTE ++ "rounded,filled" ++ QUOTE
  ++ ", fillcolor=white];" ++ NL
  ++ "  edge [fontname=" ++ QUOTE ++ "Helvetica" ++ QUOTE
  ++ ", fontsize=9];" ++ NL ++ NL.

Definition generate (ast : program) : G string string :=
  fun self =>
    let self := Instance (node_count self) (loop_exit_stack self) header in
    match walk_program ast self with
    | (Ok _, self) =>
        let self := Instance (node_count self) (loop_exit_stack self)
                      (out self ++ "}" ++ NL) in
        (Ok (out self), self)
    | (Raise e, self) => (Raise e, self)
    end.

(** [GraphvizGenerator()]. *)
Definition new : instance string := __init__ EmptyString.

End GraphvizGenerator.

(* ================================================================== *)
(** * Properties *)
(* ================================================================== *)

(** ** Strings *)

Lemma append_nil_r (s : string) : s ++ "" = s.
Proof. induction s; simpl; congruence. Qed.

Lemma append_assoc (a b c : string) : (a ++ b) ++ c = a ++ (b ++ c).
Proof. induction a; simpl; congruence. Qed.

Lemma rev_string_app (a b : string) :
  rev_string (a ++ b) = rev_string b ++ rev_string a.
Proof.
  induction a as [|c a IH]; simpl.
  - now rewrite append_nil_r.
  - now rewrite IH, append_assoc.
Qed.

Lemma rev_string_involutive (s : string) : rev_string (rev_string s) = s.
Proof.
  induction s as [|c s IH]; simpl; [reflexivity|].
  now rewrite rev_string_app, IH.
Qed.

Lemma prefix_empty (s : string) : String.prefix "" s = true.
Proof. now destruct s. Qed.

Lemma prefix_cons (c : ascii) (p s : string) :
  String.prefix (String c p) (String c s) = String.prefix p s.
Proof. simpl. destruct (ascii_dec c c); [reflexivity | contradiction]. Qed.

Lemma startswith_quote (s : string) : startswith (QUOTE ++ s) QUOTE = true.
Proof.
  unfold startswith, QUOTE, s_of. simpl append.
  now rewrite prefix_cons, prefix_empty.
Qed.

Lemma endswith_quote (s : string) : endswith (s ++ QUOTE) QUOTE = true.
Proof.
  unfold endswith. rewrite rev_string_app.
  apply (startswith_quote (rev_string s)).
Qed.

Lemma drop_last_app (s : string) (c : ascii) : drop_last (s ++ s_of c) = s.
Proof.
  induction s as [|d s IH]; simpl; [reflexivity|].
  rewrite IH. destruct s; reflexivity.
Qed.

(** [(q + s + q)[1:-1] == s]. *)
Lemma slice_quoted (s : string) : slice_1_m1 (QUOTE ++ s ++ QUOTE) = s.
Proof. unfold slice_1_m1. simpl. apply drop_last_app. Qed.

Lemma lstrip_nonspace (c : ascii) (s : string) :
  is_space c = false -> lstrip (String c s) = String c s.
Proof. intros E. simpl. now rewrite E. Qed.

(** A text that starts and ends with a double quote has no white space to
    strip. *)
Lemma strip_quoted (s : string) : strip (QUOTE ++ s ++ QUOTE) = QUOTE ++ s ++ QUOTE.
Proof.
  assert (R : forall x, rev_string (x ++ QUOTE) = String DQ (rev_string x))
    by (intros x; now rewrite rev_string_app).
  unfold strip, rstrip.
  change (QUOTE ++ s ++ QUOTE) with (String DQ (s ++ QUOTE)).
  rewrite lstrip_nonspace by reflexivity.
  change (String DQ (s ++ QUOTE)) with (QUOTE ++ (s ++ QUOTE)).
  rewrite <- append_assoc, R, lstrip_nonspace by reflexivity.
  rewrite <- R. apply rev_string_involutive.
Qed.

(** ** The XML translator *)

Section Translator.
Import RaptorXMLParser.

Lemma parse_node_some (c : element) :
  _parse_raptor_node (Some c) = parse_present c.
Proof. reflexivity. Qed.

(** The equation of [_parse_raptor_node] on an element whose type is Loop,
    with the recursive calls folded back. *)
Lemma parse_loop_eq text_str is_input prompt l r before after successor :
  _parse_raptor_node
    (Some (Element false "Loop" text_str is_input prompt l r
             before after successor))
  = (current_ast_node <~
       rewrap "Error parsing XML node of type 'Loop': "
         (before_body <~ _parse_raptor_node before ;;
          after_body <~ _parse_raptor_node after ;;
          test <~ _parse_expression (_safe_get_text text_str "") ;;
          fret (Some (create_while_statement (create_literal (VBool true))
                        (before_body
                         ++ [create_if_statement test [create_break_statement]
                               None]
                         ++ after_body)%list))) ;;
     rest <~ _parse_raptor_node successor ;;
     fret ((match current_ast_node with Some s => [s] | None => [] end)
           ++ rest)%list).
Proof. reflexivity. Qed.

Lemma parse_input_eq text_str is_input prompt l r b a successor :
  lower (_safe_get_text is_input "false") = "true" ->
  _parse_raptor_node
    (Some (Element false "Parallelogram" text_str is_input prompt l r b a
             successor))
  = (rest <~ _parse_raptor_node successor ;;
     let prompt_text := strip (_safe_get_text prompt "") in
     let prompt_text :=
       if startswith prompt_text QUOTE && endswith prompt_text QUOTE
       then slice_1_m1 prompt_text else prompt_text in
     fret (create_assignment_statement
             (create_identifier (strip (_safe_get_text text_str "")))
             (create_input_expression (create_literal (VStr prompt_text)))
           :: rest)).
Proof.
  intros E. rewrite parse_node_some. cbn [parse_present].
  change (String.eqb "Parallelogram" "Rectangle") with false.
  change (String.eqb "Parallelogram" "Parallelogram") with true.
  cbv iota. rewrite E. reflexivity.
Qed.

End Translator.

(** C1.  A Loop element with exit condition text [E], before-child [B] and
    after-child [A] is translated to one WhileStatement whose test is the
    literal true and whose body is the statements of [B], then the
    IfStatement with test parse([E]), consequent block [[Break]] and no
    alternate, then the statements of [A]; the statements of the successor
    chain follow it. *)
Theorem C1_loop_mid_test_rewrite :
  forall (E is_input prompt : option string)
         (l r B A successor : option RaptorXMLParser.element)
         (e : expr) (bs as_ rest : list stmt),
    RaptorXMLParser._parse_raptor_node B = Some (Ok bs) ->
    RaptorXMLParser._parse_raptor_node A = Some (Ok as_) ->
    RaptorXMLParser._parse_expression (RaptorXMLParser._safe_get_text E "")
      = Some (Ok e) ->
    RaptorXMLParser._parse_raptor_node successor = Some (Ok rest) ->
    RaptorXMLParser._parse_raptor_node
      (Some (RaptorXMLParser.Element false "Loop" E is_input prompt l r
               B A successor))
    = Some (Ok (WhileStatement (Literal (VBool true))
                  (BlockStatement
                     (bs ++ [IfStatement e (BlockStatement [BreakStatement])
                               None] ++ as_))
                :: rest)).
Proof.
  intros * HB HA HE HS.
  rewrite parse_loop_eq, HB, HA, HE, HS. reflexivity.
Qed.

(** Scenario S2 of the specification: exit text [x = 10], empty before-body,
    after-body [x := x + 1]. *)
Lemma C1_witness :
  RaptorXMLParser._parse_raptor_node
    (Some (RaptorXMLParser.Element false "Loop" (Some "x = 10") None None
             None None None
             (Some (RaptorXMLParser.Element false "Rectangle"
                      (Some "x := x + 1") None None None None None None None))
             None))
  = Some (Ok [WhileStatement (Literal (VBool true))
                (BlockStatement
                   [IfStatement
                      (BinaryExpression "==" (Identifier "x")
                         (Literal (VInt 10)))
                      (BlockStatement [BreakStatement]) None;
                    AssignmentStatement (Identifier "x")
                      (BinaryExpression "+" (Identifier "x")
                         (Literal (VInt 1)))])]).
Proof.
  apply (C1_loop_mid_test_rewrite (Some "x = 10") None None None None None
           _ None _ [] _ []); vm_compute; reflexivity.
Defined.

(** C10.  On an input Parallelogram whose stripped prompt text [p] starts and
    ends with a double quote and whose inner text [p[1:-1]] again starts and
    ends with one, the prompt literal of the resulting assignment is
    [p[1:-1][1:-1]]: both quote pairs are gone. *)
Theorem C10_input_prompt_loses_two_quote_pairs :
  forall (text_str is_input prompt : option string)
         (l r b a successor : option RaptorXMLParser.element)
         (rest : list stmt),
    let p := strip (RaptorXMLParser._safe_get_text prompt "") in
    lower (RaptorXMLParser._safe_get_text is_input "false") = "true" ->
    startswith p QUOTE && endswith p QUOTE = true ->
    startswith (slice_1_m1 p) QUOTE && endswith (slice_1_m1 p) QUOTE = true ->
    RaptorXMLParser._parse_raptor_node successor = Some (Ok rest) ->
    RaptorXMLParser._parse_raptor_node
      (Some (RaptorXMLParser.Element false "Parallelogram" text_str is_input
               prompt l r b a successor))
    = Some (Ok (AssignmentStatement
                  (Identifier
                     (strip (RaptorXMLParser._safe_get_text text_str "")))
                  (CallExpression "Input"
                     [Literal (VStr (slice_1_m1 (slice_1_m1 p)))])
                :: rest)).
Proof.
  intros * Hin Hp Hm Hs.
  rewrite parse_input_eq by exact Hin.
  rewrite Hs. cbn [fbind]. fold p. rewrite Hp.
  unfold create_literal. rewrite Hm. reflexivity.
Qed.

(** The example of the claim: the prompt text [""hi""] gives the value
    [hi]. *)
Lemma C10_witness :
  RaptorXMLParser._parse_raptor_node
    (Some (RaptorXMLParser.Element false "Parallelogram" (Some "x")
             (Some "true") (Some (QUOTE ++ QUOTE ++ "hi" ++ QUOTE ++ QUOTE))
             None None None None None))
  = Some (Ok [AssignmentStatement (Identifier "x")
                (CallExpression "Input" [Literal (VStr "hi")])]).
Proof.
  apply (C10_input_prompt_loses_two_quote_pairs (Some "x") (Some "true")
           (Some (QUOTE ++ QUOTE ++ "hi" ++ QUOTE ++ QUOTE))
           None None None None None []); reflexivity.
Defined.

(** The same for every inner text [s]. *)
Lemma doubly_quoted_prompt (s : string) (text_str : option string) :
  RaptorXMLParser._parse_raptor_node
    (Some (RaptorXMLParser.Element false "Parallelogram" text_str
             (Some "true") (Some (QUOTE ++ (QUOTE ++ s ++ QUOTE) ++ QUOTE))
             None None None None None))
  = Some (Ok [AssignmentStatement
                (Identifier
                   (strip (RaptorXMLParser._safe_get_text text_str "")))
                (CallExpression "Input" [Literal (VStr s)])]).
Proof.
  rewrite parse_input_eq by reflexivity.
  cbn [RaptorXMLParser._parse_raptor_node fbind fret
       RaptorXMLParser._safe_get_text].
  assert (Q : forall x, endswith (QUOTE ++ x ++ QUOTE) QUOTE = true)
    by (intros x; rewrite <- append_assoc; apply endswith_quote).
  rewrite strip_quoted, startswith_quote, Q.
  cbn [andb]. rewrite slice_quoted. unfold create_literal.
  rewrite startswith_quote, Q. cbn [andb].
  now rewrite slice_quoted.
Qed.

(** ** The expression parser *)


Ltac each_member H :=
  repeat (destruct H as [H | H]; [subst | ]); try contradiction.



(** ** The statement parser at the end of the input *)

Section AtEnd.
Import RapcodeParser.
Variable tokens : list string.

Lemma leading_newlines_skipn (l : list string) :
  leading_newlines (List.skipn (leading_newlines l) l) = 0.
Proof.
  induction l as [|t l IH]; simpl; [reflexivity|].
  destruct (String.eqb t NEWLINE) eqn:E; simpl; [exact IH | now rewrite E].
Qed.

Lemma skipn_add {A} (a b : nat) (l : list A) :
  List.skipn (a + b) l = List.skipn b (List.skipn a l).
Proof.
  revert l; induction a as [|a IH]; intros l; simpl; [reflexivity|].
  destruct l; [now rewrite List.skipn_nil | apply IH].
Qed.

Lemma skip_newlines_idem (pos : nat) :
  _skip_newlines tokens (_skip_newlines tokens pos) = _skip_newlines tokens pos.
Proof.
  unfold _skip_newlines at 1 3.
  unfold _skip_newlines. rewrite skipn_add, leading_newlines_skipn. lia.
Qed.

(** At the end of the input [_parse_statement] returns [None] and leaves the
    position where it is. *)
Lemma parse_statement_at_end (fuel pos : nat) :
  _peek tokens (_skip_newlines tokens pos) = None ->
  _parse_statement tokens (S fuel) pos
  = fret (NoneStatement, _skip_newlines tokens pos).
Proof. intros E. simpl. now rewrite E. Qed.

(** The body loop of [_parse_loop] stops only in front of ENDLOOP: at the
    end of the input every iteration appends [None] and the loop never
    returns, whatever the fuel. *)
Lemma body_loop_at_end (fuel : nat) :
  forall (body : list stmt) (pos : nat),
    _peek tokens (_skip_newlines tokens pos) = None ->
    body_loop tokens fuel body pos = None.
Proof.
  induction fuel as [|fuel IH]; intros body pos E; [reflexivity|].
  simpl. rewrite E. cbn [eqb_opt].
  destruct fuel as [|fuel']; [reflexivity|].
  rewrite parse_statement_at_end by now rewrite skip_newlines_idem.
  cbn [fbind fret]. apply IH. now rewrite !skip_newlines_idem.
Qed.

(** The same for the loop of the ELSE branch of [_parse_if], which stops
    only in front of ENDIF. *)
Lemma alternate_loop_at_end (fuel : nat) :
  forall (body : list stmt) (pos : nat),
    _peek tokens (_skip_newlines tokens pos) = None ->
    alternate_loop tokens fuel body pos = None.
Proof.
  induction fuel as [|fuel IH]; intros body pos E; [reflexivity|].
  simpl. rewrite E. cbn [eqb_opt].
  destruct fuel as [|fuel']; [reflexivity|].
  rewrite parse_statement_at_end by now rewrite skip_newlines_idem.
  cbn [fbind fret]. apply IH. now rewrite !skip_newlines_idem.
Qed.

End AtEnd.

(** C4 (the code departs from it).  On the text LOOP, a loop block that is
    opened and never closed, [parse] returns nothing and raises nothing for
    any amount of fuel: the body loop appends [None] for ever. *)
Theorem C4_unterminated_loop_never_returns :
  forall fuel : nat, RapcodeParser.parse fuel "LOOP" = None.
Proof.
  intros fuel. unfold RapcodeParser.parse.
  change (RapcodeParser._tokenize "LOOP") with ["LOOP"].
  change (RapcodeParser._skip_newlines ["LOOP"] 0) with 0.
  destruct fuel as [|[|[|fuel]]]; try reflexivity.
  cbn [RapcodeParser.program_loop RapcodeParser._peek nth_error].
  assert (E : RapcodeParser._parse_statement ["LOOP"] (S (S fuel)) 0 = None).
  { cbn -[RapcodeParser.body_loop].
    now rewrite body_loop_at_end by reflexivity. }
  now rewrite E.
Qed.

(** An unterminated ELSE branch and an unterminated WHILE block behave the
    same way. *)
Lemma unterminated_else_never_returns :
  forall fuel : nat,
    RapcodeParser.parse fuel ("IF TRUE THEN" ++ NL ++ "ELSE" ++ NL) = None.
Proof.
  intros fuel. unfold RapcodeParser.parse.
  match goal with
  | |- context [RapcodeParser._tokenize ?s] =>
      let t := eval vm_compute in (RapcodeParser._tokenize s) in
      change (RapcodeParser._tokenize s) with t
  end.
  match goal with
  | |- context [RapcodeParser._skip_newlines ?t 0] =>
      change (RapcodeParser._skip_newlines t 0) with 0
  end.
  destruct fuel as [|[|[|fuel]]]; try reflexivity.
  cbn [RapcodeParser.program_loop RapcodeParser._peek nth_error].
  match goal with
  | |- fbind (fbind ?c _) _ = None => assert (E : c = None)
  end.
  { cbn -[RapcodeParser.alternate_loop RapcodeParser.consequent_loop].
    destruct fuel as [|fuel]; [reflexivity|].
    cbn -[RapcodeParser.alternate_loop].
    now rewrite alternate_loop_at_end by reflexivity. }
  now rewrite E.
Qed.

(** An IF block whose consequent reaches the end of the input does raise:
    this loop tests for the end of the input. *)
Lemma unterminated_if_raises :
  RapcodeParser.parse 5 ("IF TRUE THEN" ++ NL ++ "OUTPUT x" ++ NL)
  = Some (Raise (ParsingError
                   "Expected 'ENDIF' but found 'None' at position 7")).
Proof. vm_compute. reflexivity. Qed.

(** ** Induction over the AST *)

Section expr_induction.
Variable P : expr -> Prop.
Hypothesis HNone : P ENone.
Hypothesis HLit : forall v, P (Literal v).
Hypothesis HId : forall name, P (Identifier name).
Hypothesis HBin : forall op l r, P l -> P r -> P (BinaryExpression op l r).
Hypothesis HUn : forall op a, P a -> P (UnaryExpression op a).
Hypothesis HCall : forall callee args,
    Forall P args -> P (CallExpression callee args).
Hypothesis HOther : forall ty, P (OtherExpression ty).

Fixpoint expr_nested_ind (e : expr) : P e :=
  match e with
  | ENone => HNone
  | Literal v => HLit v
  | Identifier n => HId n
  | BinaryExpression op l r =>
      HBin op l r (expr_nested_ind l) (expr_nested_ind r)
  | UnaryExpression op a => HUn op a (expr_nested_ind a)
  | CallExpression callee args =>
      HCall callee args
        ((fix all (l : list expr) : Forall P l :=
            match l with
            | [] => Forall_nil P
            | x :: r => Forall_cons x (expr_nested_ind x) (all r)
            end) args)
  | OtherExpression ty => HOther ty
  end.
End expr_induction.

Section stmt_induction.
Variable P : stmt -> Prop.
Hypothesis HAssign : forall l r, P (AssignmentStatement l r).
Hypothesis HExpr : forall e, P (ExpressionStatement e).
Hypothesis HIf : forall t c a,
    Forall P (block_body c) ->
    (forall b, a = Some b -> Forall P (block_body b)) ->
    P (IfStatement t c a).
Hypothesis HWhile : forall t b,
    Forall P (block_body b) -> P (WhileStatement t b).
Hypothesis HBreak : P BreakStatement.
Hypothesis HNoneS : P NoneStatement.
Hypothesis HOtherS : forall ty, P (OtherStatement ty).

Fixpoint stmt_nested_ind (s : stmt) : P s :=
  let all :=
    fix all (l : list stmt) : Forall P l :=
      match l with
      | [] => Forall_nil P
      | x :: r => Forall_cons x (stmt_nested_ind x) (all r)
      end in
  match s with
  | AssignmentStatement l r => HAssign l r
  | ExpressionStatement e => HExpr e
  | IfStatement t c a =>
      HIf t c a (all (block_body c))
        (match a as a0 return forall b, a0 = Some b -> Forall P (block_body b)
         with
         | Some b0 =>
             fun b E =>
               match E in _ = y
                     return match y with
                            | Some b' => Forall P (block_body b')
                            | None => True
                            end
               with eq_refl => all (block_body b0) end
         | None => fun b E => match E with end
         end)
  | WhileStatement t b => HWhile t b (all (block_body b))
  | BreakStatement => HBreak
  | NoneStatement => HNoneS
  | OtherStatement ty => HOtherS ty
  end.
End stmt_induction.

(** ** The [type] field of the nodes *)

Definition names_a_kind (t : option json) : Prop :=
  exists k, t = Some (JStr k) /\ In k KINDS.

Lemma kind_listed (k : string) :
  existsb (String.eqb k) KINDS = true -> names_a_kind (Some (JStr k)).
Proof.
  intros E. exists k. split; [reflexivity|].
  apply existsb_exists in E. destruct E as [x [Hin Hx]].
  apply String.eqb_eq in Hx. now subst.
Qed.

Lemma Forall_flat_map {A B} (Q : B -> Prop) (f : A -> list B) (l : list A) :
  Forall (fun x => Forall Q (f x)) l -> Forall Q (flat_map f l).
Proof.
  induction 1; simpl; [constructor | apply Forall_app; now split].
Qed.

Lemma built_expr_types (e : expr) :
  built_expr e = true -> Forall names_a_kind (node_types (dict_of_expr e)).
Proof.
  induction e using expr_nested_ind; intros B; simpl in *;
    try discriminate;
    repeat match goal with
      | H : _ && _ = true |- _ => apply andb_prop in H; destruct H
      end.
  - constructor.
  - constructor; [now apply kind_listed|]. destruct v; constructor.
  - constructor; [now apply kind_listed|]. constructor.
  - constructor; [now apply kind_listed|]. rewrite app_nil_r.
    apply Forall_app; split; auto.
  - constructor; [now apply kind_listed|]. rewrite app_nil_r. auto.
  - constructor; [now apply kind_listed|]. rewrite app_nil_r.
    apply Forall_flat_map. rewrite Forall_map.
    rewrite forallb_forall in B. rewrite Forall_forall in *.
    intros x Hx. apply H; auto.
Qed.

Lemma built_block_types (l : list stmt) :
  Forall (fun s => built_stmt s = true
                   -> Forall names_a_kind (node_types (dict_of_stmt s))) l ->
  forallb built_stmt l = true ->
  Forall names_a_kind (flat_map node_types (map dict_of_stmt l)).
Proof.
  intros IH B. apply Forall_flat_map. rewrite Forall_map.
  rewrite forallb_forall in B. rewrite Forall_forall in *.
  intros x Hx. apply IH; auto.
Qed.

Lemma built_stmt_types (s : stmt) :
  built_stmt s = true -> Forall names_a_kind (node_types (dict_of_stmt s)).
Proof.
  induction s using stmt_nested_ind; intros B; simpl in *;
    try discriminate;
    repeat match goal with
      | H : _ && _ = true |- _ => apply andb_prop in H; destruct H
      end.
  - constructor; [now apply kind_listed|]. rewrite app_nil_r.
    apply Forall_app; split; now apply built_expr_types.
  - constructor; [now apply kind_listed|]. rewrite app_nil_r.
    now apply built_expr_types.
  - constructor; [now apply kind_listed|].
    apply Forall_app; split; [now apply built_expr_types|].
    constructor; [now apply kind_listed|]. rewrite !app_nil_r.
    apply Forall_app; split; [now apply built_block_types|].
    destruct a as [b|]; simpl; [|constructor].
    constructor; [now apply kind_listed|]. rewrite app_nil_r.
    apply built_block_types; auto.
  - constructor; [now apply kind_listed|].
    apply Forall_app; split; [now apply built_expr_types|].
    constructor; [now apply kind_listed|]. rewrite !app_nil_r.
    now apply built_block_types.
  - constructor; [now apply kind_listed|]. constructor.
Qed.

(** Every dict of an AST made of factory-built nodes carries a [type]
    field that names one of the twelve kinds of [KINDS]; the statement
    sequence inside an IfStatement consequent or alternate and inside a
    WhileStatement body is the dict of [create_block], whose [type] is the
    string BlockStatement. *)
Lemma built_type_fields :
  forall p : program,
    built_program p = true ->
    Forall names_a_kind (node_types (dict_of_program p))
    /\ (forall body, get (dict_of_block (create_block body)) "type"
                     = Some (JStr "BlockStatement"))
    /\ (forall t c a,
           get (dict_of_stmt (IfStatement t c a)) "consequent"
           = Some (dict_of_block c)
           /\ get (dict_of_stmt (IfStatement t c a)) "alternate"
              = Some (match a with
                      | Some b => dict_of_block b
                      | None => JNone
                      end))
    /\ (forall t b,
           get (dict_of_stmt (WhileStatement t b)) "body"
           = Some (dict_of_block b)).
Proof.
  intros p B. split; [|split; [|split]].
  - unfold dict_of_program. simpl. constructor; [now apply kind_listed|].
    rewrite app_nil_r. apply built_block_types; [|exact B].
    apply Forall_forall. intros s _. apply built_stmt_types.
  - reflexivity.
  - intros t c a. split; [reflexivity|]. now destruct a.
  - reflexivity.
Qed.

(** ** The diagram walker: outcomes of a method call *)

(** Statements of the closed set that the diagram walker renders without
    falling back: no [None], no unknown kind, an Output call with its
    argument as the only expression statement, and a test node on every
    loop. *)
Fixpoint closed_stmt (s : stmt) : bool :=
  match s with
  | AssignmentStatement _ _ => true
  | ExpressionStatement e => is_output e && is_nonempty (arguments_of e)
  | IfStatement _ c a =>
      forallb closed_stmt (block_body c)
      && match a with
         | Some b => forallb closed_stmt (block_body b)
         | None => true
         end
  | WhileStatement t b =>
      match t with ENone => false | _ => true end
      && forallb closed_stmt (block_body b)
  | BreakStatement => true
  | NoneStatement | OtherStatement _ => false
  end.

Definition closed_program (p : program) : bool :=
  forallb closed_stmt (body p).

(** No BreakStatement of [s] lies outside every WhileStatement of [s]. *)
Fixpoint breaks_enclosed (s : stmt) : bool :=
  match s with
  | BreakStatement => false
  | IfStatement _ c a =>
      forallb breaks_enclosed (block_body c)
      && match a with
         | Some b => forallb breaks_enclosed (block_body b)
         | None => true
         end
  | _ => true
  end.

(** Every BreakStatement of the program has an enclosing WhileStatement. *)
Definition every_break_in_a_loop (p : program) : bool :=
  forallb breaks_enclosed (body p).

Definition BreakOutsideLoop : exn :=
  GenerationError "BREAK statement found outside of a loop.".

Section Outcomes.
Import AstVisualizer.
Context {Out : Type}.

(** [c] returns from state [st] and the result and final state satisfy
    [R]. *)
Definition returns {A} (c : G Out A) (st : instance Out)
    (R : A -> instance Out -> Prop) : Prop :=
  exists a st', c st = (Ok a, st') /\ R a st'.

(** [c] raises [e] from state [st]. *)
Definition raises {A} (c : G Out A) (st : instance Out) (e : exn) : Prop :=
  exists st', c st = (Raise e, st').

Definition keeps_stack (st : instance Out) {A} : A -> instance Out -> Prop :=
  fun _ st' => loop_exit_stack st' = loop_exit_stack st.

Lemma returns_ret {A} (a : A) st (R : A -> instance Out -> Prop) :
  R a st -> returns (ret a) st R.
Proof. intros H. now exists a, st. Qed.

Lemma returns_bind {A B} (c : G Out A) (k : A -> G Out B) st R1 R2 :
  returns c st R1 ->
  (forall a st', R1 a st' -> returns (k a) st' R2) ->
  returns (gbind c k) st R2.
Proof.
  intros [a [st' [E H1]]] Hk. unfold returns, gbind. rewrite E.
  now apply Hk.
Qed.

Lemma returns_weaken {A} (c : G Out A) st (R1 R2 : A -> instance Out -> Prop) :
  returns c st R1 -> (forall a st', R1 a st' -> R2 a st') -> returns c st R2.
Proof. intros [a [st' [E H1]]] Hw. exists a, st'. auto. Qed.

Lemma raises_bind_l {A B} (c : G Out A) (k : A -> G Out B) st e :
  raises c st e -> raises (gbind c k) st e.
Proof. intros [st' E]. exists st'. unfold gbind. now rewrite E. Qed.

Lemma raises_bind_r {A B} (c : G Out A) (k : A -> G Out B) st R e :
  returns c st R ->
  (forall a st', R a st' -> raises (k a) st' e) ->
  raises (gbind c k) st e.
Proof.
  intros [a [st' [E H1]]] Hk. unfold raises, gbind. rewrite E.
  now apply Hk.
Qed.

Lemma returns_not_raises {A} (c : G Out A) st R e :
  returns c st R -> ~ raises c st e.
Proof. intros [a [st' [E _]]] [st'' E']. congruence. Qed.

Lemma returns_of_result {A} (r : result A) (a : A) st
    (R : A -> instance Out -> Prop) :
  r = Ok a -> R a st -> returns (of_result r) st R.
Proof. intros -> H. now exists a, st. Qed.

End Outcomes.

(** The printer raises nothing but [GenerationError], so [_expr_to_str]
    always returns. *)
Lemma expression_to_string_outcome (e : expr) :
  (exists s, expression_to_string e = Ok s)
  \/ (exists m, expression_to_string e = Raise (GenerationError m)).
Proof.
  induction e using expr_nested_ind; simpl; eauto.
  - destruct IHe1 as [[s1 ->]|[m ->]]; simpl; eauto.
    destruct IHe2 as [[s2 ->]|[m ->]]; simpl; eauto.
  - destruct IHe as [[s1 ->]|[m ->]]; simpl; eauto.
    destruct (String.eqb op "NOT"); eauto.
  - match goal with
    | |- context [bind ?x _] =>
        assert (E : (exists l, x = Ok l)
                    \/ (exists m, x = Raise (GenerationError m)))
    end.
    { induction H as [|a args Ha _ IH]; [eauto|].
      destruct Ha as [[s ->]|[m ->]]; simpl; eauto.
      destruct IH as [[l ->]|[m ->]]; simpl; eauto. }
    destruct E as [[l ->]|[m ->]]; simpl; eauto.
    destruct (String.eqb callee "Input"); eauto.
Qed.

Lemma expr_to_str_returns (e : expr) :
  exists s, AstVisualizer._expr_to_str e = Ok s.
Proof.
  unfold AstVisualizer._expr_to_str.
  destruct (expression_to_string_outcome e) as [[s ->]|[m ->]]; eauto.
Qed.

(** ** The diagram walker: the loop-exit stack *)

Lemma Forall_firstn {A} (Q : A -> Prop) (n : nat) (l : list A) :
  Forall Q l -> Forall Q (firstn n l).
Proof.
  intros H; revert n; induction H; intros [|n]; simpl; constructor; auto.
Qed.

Lemma Forall_skipn {A} (Q : A -> Prop) (n : nat) (l : list A) :
  Forall Q l -> Forall Q (skipn n l).
Proof.
  intros H; revert n; induction H; intros [|n]; simpl; auto.
Qed.

Lemma forallb_firstn {A} (q : A -> bool) (n : nat) (l : list A) :
  forallb q l = true -> forallb q (firstn n l) = true.
Proof.
  rewrite !forallb_forall. intros H x Hx. apply H.
  rewrite <- (firstn_skipn n l). apply in_or_app. now left.
Qed.

Lemma forallb_skipn {A} (q : A -> bool) (n : nat) (l : list A) :
  forallb q l = true -> forallb q (skipn n l) = true.
Proof.
  rewrite !forallb_forall. intros H x Hx. apply H.
  rewrite <- (firstn_skipn n l). apply in_or_app. now right.
Qed.

Section Walk.
Import AstVisualizer.
Context {Out : Type} {B : Backend Out}.

Definition has_stack (S : list string) {A} : A -> instance Out -> Prop :=
  fun _ st' => loop_exit_stack st' = S.

(** The shapes that the walker asks of the subclass for the nodes of the
    closed set. *)
Definition walker_shapes : list string :=
  [_get_start_shape; _get_process_shape; _get_io_shape;
   _get_decision_shape; _get_merge_shape].

(** A subclass whose [_add_node] returns on those shapes, whose [_add_edge]
    returns, and where neither touches the loop-exit stack. *)
Record lawful : Prop := {
  add_node_returns : forall label shape st,
      In shape walker_shapes ->
      returns (_add_node label shape) st (has_stack (loop_exit_stack st));
  add_edge_returns : forall a b l st,
      returns (_add_edge a b l) st (has_stack (loop_exit_stack st))
}.

Hypothesis L : lawful.

Ltac step_with S' := apply returns_bind with (R1 := has_stack S').

Lemma add_node_ok label shape S st (R : string -> instance Out -> Prop) :
  In shape walker_shapes -> loop_exit_stack st = S ->
  (forall a st', loop_exit_stack st' = S -> R a st') ->
  returns (_add_node label shape) st R.
Proof.
  intros Hs E HR. eapply returns_weaken; [now apply (add_node_returns L)|].
  intros a st' H. apply HR. unfold has_stack in H. congruence.
Qed.

Lemma add_edge_ok a b l S st (R : unit -> instance Out -> Prop) :
  loop_exit_stack st = S ->
  (forall u st', loop_exit_stack st' = S -> R u st') ->
  returns (_add_edge a b l) st R.
Proof.
  intros E HR. eapply returns_weaken; [now apply (add_edge_returns L)|].
  intros u st' H. apply HR. unfold has_stack in H. congruence.
Qed.

Lemma edge_if_ok x target S st (R : unit -> instance Out -> Prop) :
  loop_exit_stack st = S ->
  (forall u st', loop_exit_stack st' = S -> R u st') ->
  returns (edge_if x target) st R.
Proof.
  intros E HR. unfold edge_if. destruct (truthy_opt x).
  - now apply add_edge_ok with S.
  - apply returns_ret. now apply HR.
Qed.

Lemma expr_to_str_ok e st (R : string -> instance Out -> Prop) :
  (forall s, R s st) -> returns (of_result (_expr_to_str e)) st R.
Proof.
  intros HR. destruct (expr_to_str_returns e) as [s E].
  now apply returns_of_result with s.
Qed.

Lemma push_ok x S st (R : unit -> instance Out -> Prop) :
  loop_exit_stack st = S ->
  (forall u st', loop_exit_stack st' = (S ++ [x])%list -> R u st') ->
  returns (push x) st R.
Proof.
  intros E HR. eexists tt, _. split; [reflexivity|].
  apply HR. simpl. now rewrite E.
Qed.

Lemma pop_ok x S st (R : unit -> instance Out -> Prop) :
  loop_exit_stack st = (S ++ [x])%list ->
  (forall u st', loop_exit_stack st' = S -> R u st') ->
  returns pop st R.
Proof.
  intros E HR. eexists tt, _. split; [reflexivity|].
  apply HR. simpl. rewrite E. apply removelast_last.
Qed.

Lemma link_ok generated : forall S st (R : unit -> instance Out -> Prop),
  loop_exit_stack st = S ->
  (forall u st', loop_exit_stack st' = S -> R u st') ->
  returns (link generated) st R.
Proof.
  induction generated as [|current rest IH]; intros S st R E HR.
  - apply returns_ret. now apply HR.
  - destruct rest as [|next rest'].
    + apply returns_ret. now apply HR.
    + cbn [link]. eapply returns_bind with (R1 := has_stack S).
      * destruct (truthy_opt (snd current) && truthy_opt (fst next)).
        -- now apply add_edge_ok with S.
        -- now apply returns_ret.
      * intros u st' E'. now apply IH with S.
Qed.

(** What a call does with the stack [S] it starts from: it returns and
    leaves [S] in place, or, when a break is not enclosed and [S] is empty,
    it raises the error of the break. *)
Definition outcome {A} (c : G Out A) (fine : bool) : Prop :=
  forall S st, loop_exit_stack st = S ->
    if is_nonempty S || fine then returns c st (has_stack S)
    else raises c st BreakOutsideLoop.

Definition node_outcome (s : stmt) : Prop :=
  closed_stmt s = true -> outcome (_generate_node s) (breaks_enclosed s).

Lemma run_all_outcome (l : list stmt) :
  Forall node_outcome l -> forallb closed_stmt l = true ->
  outcome (run_all (map _generate_node l)) (forallb breaks_enclosed l).
Proof.
  induction 1 as [|s l Hs _ IH]; intros C S st E.
  - rewrite orb_true_r. now apply returns_ret.
  - simpl in C. apply andb_prop in C. destruct C as [Cs Cl].
    specialize (Hs Cs S st E). specialize (IH Cl).
    cbn [map run_all forallb].
    destruct (is_nonempty S) eqn:NE; cbn [orb] in *.
    + eapply returns_bind; [exact Hs|]. intros a st' E'.
      specialize (IH S st' E'). rewrite NE in IH.
      eapply returns_bind; [exact IH|]. intros; now apply returns_ret.
    + destruct (breaks_enclosed s); cbn [andb].
      * destruct (forallb breaks_enclosed l) eqn:Fl.
        -- eapply returns_bind; [exact Hs|]. intros a st' E'.
           specialize (IH S st' E'). rewrite NE in IH.
           eapply returns_bind; [exact IH|]. intros; now apply returns_ret.
        -- eapply raises_bind_r; [exact Hs|]. intros a st' E'.
           specialize (IH S st' E'). rewrite NE in IH.
           now apply raises_bind_l.
      * now apply raises_bind_l.
Qed.

Lemma chain_outcome (l : list stmt) :
  Forall node_outcome l -> forallb closed_stmt l = true ->
  outcome (chain (map _generate_node l)) (forallb breaks_enclosed l).
Proof.
  intros H C S st E. pose proof (run_all_outcome l H C S st E) as R.
  destruct l as [|s l]; [rewrite orb_true_r; now apply returns_ret|].
  change (chain (map _generate_node (s :: l)))
    with (gbind (run_all (map _generate_node (s :: l)))
            (fun generated =>
               gbind (link generated)
                 (fun _ => ret (fst (hd (None, None) generated),
                                snd (last generated (None, None)))))).
  destruct (is_nonempty S || forallb breaks_enclosed (s :: l)).
  - eapply returns_bind; [exact R|]. intros g st' E'.
    step_with S; [apply link_ok with S; [exact E' | now intros]|].
    intros u st'' E''. now apply returns_ret.
  - now apply raises_bind_l.
Qed.

(** Inside a loop the stack is not empty and every chain returns. *)
Lemma chain_in_loop (l : list stmt) S st
    (R : ids -> instance Out -> Prop) :
  Forall node_outcome l -> forallb closed_stmt l = true ->
  loop_exit_stack st = S -> is_nonempty S = true ->
  (forall r st', loop_exit_stack st' = S -> R r st') ->
  returns (chain (map _generate_node l)) st R.
Proof.
  intros H C E NE HR. pose proof (chain_outcome l H C S st E) as O.
  rewrite NE in O. eapply returns_weaken; [exact O|]. intros; now apply HR.
Qed.

Lemma is_nonempty_snoc {A} (l : list A) (x : A) :
  is_nonempty (l ++ [x]) = true.
Proof. now destruct l. Qed.

Lemma closed_is_if_break (n : stmt) :
  closed_stmt n = true -> exists b, is_if_break n = Ok b.
Proof.
  destruct n; simpl; try discriminate; eauto.
  destruct consequent as [[|first rest]]; simpl; eauto.
  intros C. apply andb_prop in C. destruct C as [C _].
  apply andb_prop in C. destruct C as [C _].
  destruct first; simpl in *; try discriminate; eauto.
Qed.

Lemma closed_find_if_break (body : list stmt) :
  forallb closed_stmt body = true ->
  forall i, exists r, find_if_break body i = Ok r.
Proof.
  induction body as [|n body IH]; intros C i; simpl; [eauto|].
  simpl in C. apply andb_prop in C. destruct C as [Cn Cb].
  destruct (closed_is_if_break n Cn) as [b ->]. simpl.
  destruct b; eauto.
Qed.

Lemma decision_shape : In _get_decision_shape walker_shapes.
Proof. unfold walker_shapes. simpl. tauto. Qed.
Lemma merge_shape : In _get_merge_shape walker_shapes.
Proof. unfold walker_shapes. simpl. tauto. Qed.
Lemma process_shape : In _get_process_shape walker_shapes.
Proof. unfold walker_shapes. simpl. tauto. Qed.
Lemma io_shape : In _get_io_shape walker_shapes.
Proof. unfold walker_shapes. simpl. tauto. Qed.
Lemma start_shape : In _get_start_shape walker_shapes.
Proof. unfold walker_shapes. simpl. tauto. Qed.

(** The mid-test rendering of a closed loop returns, from any stack. *)
Lemma visualize_raptor_loop_returns t (body : list stmt) S st :
  match t with ENone => false | _ => true end = true ->
  Forall node_outcome body -> forallb closed_stmt body = true ->
  loop_exit_stack st = S ->
  returns (visualize_raptor_loop t body (map _generate_node body)) st
    (has_stack S).
Proof.
  intros Ct H C E. unfold visualize_raptor_loop.
  assert (exists b, is_while_true t = Ok b) as [b Eb]
    by (destruct t as [|[[|]| | |]| | | | |]; simpl; eauto; discriminate).
  rewrite Eb.
  eapply returns_bind with (R1 := fun a st' => a = b /\ st' = st).
  { now eexists b, st. }
  intros a st' [-> ->].
  destruct b; cbn [negb]; [|now apply returns_ret].
  destruct (closed_find_if_break body C 0) as [found Ef]. rewrite Ef.
  eapply returns_bind with (R1 := fun a st' => a = found /\ st' = st).
  { now eexists found, st. }
  intros a st' [-> ->].
  destruct found as [[i n]|]; [|now apply returns_ret].
  rewrite firstn_map, skipn_map.
  eapply returns_bind with (R1 := fun _ st' => st' = st).
  { apply expr_to_str_ok. reflexivity. }
  intros label st' ->.
  pose proof (is_nonempty_snoc S) as NE.
  step_with S; [apply add_node_ok with S; auto using decision_shape|].
  intros cond_node st1 E1.
  step_with S; [apply add_node_ok with S; auto using merge_shape|].
  intros exit_node st2 E2.
  step_with (S ++ [exit_node])%list; [apply push_ok with S; auto|].
  intros u st3 E3.
  step_with (S ++ [exit_node])%list;
    [apply add_edge_ok with (S ++ [exit_node])%list; auto|].
  intros u1 st4 E4.
  step_with (S ++ [exit_node])%list;
    [apply chain_in_loop with (S := (S ++ [exit_node])%list);
     auto using Forall_firstn, forallb_firstn|].
  intros [entry_before exit_before] st5 E5.
  step_with (S ++ [exit_node])%list;
    [apply chain_in_loop with (S := (S ++ [exit_node])%list);
     auto using Forall_skipn, forallb_skipn|].
  intros [entry_after exit_after] st6 E6.
  step_with (S ++ [exit_node])%list;
    [apply edge_if_ok with (S ++ [exit_node])%list; auto|].
  intros u2 st7 E7.
  step_with (S ++ [exit_node])%list;
    [apply add_edge_ok with (S ++ [exit_node])%list; auto|].
  intros u3 st8 E8.
  step_with (S ++ [exit_node])%list;
    [apply edge_if_ok with (S ++ [exit_node])%list; auto|].
  intros u4 st9 E9.
  step_with S; [apply pop_ok with exit_node S; auto|].
  intros u5 st10 E10. apply returns_ret. exact E10.
Qed.

End Walk.

Section WalkNodes.
Import AstVisualizer.
Context {Out : Type} {B : Backend Out}.
Hypothesis L : lawful.

Ltac step_with S' := apply returns_bind with (R1 := has_stack S').

Lemma closed_output (e : expr) :
  is_output e && is_nonempty (arguments_of e) = true ->
  exists callee arg rest,
    e = CallExpression callee (arg :: rest) /\ is_output e = true.
Proof.
  intros H. apply andb_prop in H. destruct H as [Ho Ha].
  destruct e; try discriminate. destruct arguments; [discriminate|]. eauto.
Qed.

(** Every closed statement returns with the stack it found, unless one of
    its breaks is not enclosed and the stack is empty. *)
Lemma generate_node_outcome (s : stmt) : node_outcome s.
Proof.
  induction s as [l r|e|t c a IHc IHa|t b IHb| | |ty] using stmt_nested_ind;
    intros C S st E; try discriminate C.
  - (* AssignmentStatement *)
    rewrite orb_true_r. cbn [_generate_node].
    apply returns_bind with (R1 := fun _ st' => st' = st);
      [now apply expr_to_str_ok|]. intros left st' ->.
    apply returns_bind with (R1 := fun _ st' => st' = st);
      [now apply expr_to_str_ok|]. intros right st' ->.
    step_with S; [apply (add_node_ok L) with S; auto using process_shape|].
    intros n st' E'. now apply returns_ret.
  - (* ExpressionStatement *)
    rewrite orb_true_r. simpl in C.
    destruct (closed_output e C) as [callee [arg [rest [-> Ho]]]].
    cbn [_generate_node]. rewrite Ho. cbn [arguments_of].
    apply returns_bind with (R1 := fun _ st' => st' = st);
      [now apply expr_to_str_ok|]. intros label st' ->.
    step_with S; [apply (add_node_ok L) with S; auto using io_shape|].
    intros n st' E'. now apply returns_ret.
  - (* IfStatement *)
    simpl in C. apply andb_prop in C. destruct C as [Cc Ca].
    pose proof (chain_outcome L (block_body c) IHc Cc) as Oc.
    assert (Oa : outcome
                   (match a with
                    | Some alt => chain (map _generate_node (block_body alt))
                    | None => chain []
                    end)
                   (match a with
                    | Some b => forallb breaks_enclosed (block_body b)
                    | None => true
                    end)).
    { destruct a as [alt|].
      - now apply (chain_outcome L (block_body alt) (IHa alt eq_refl)).
      - intros S' st' E'. rewrite orb_true_r. now apply returns_ret. }
    cbn [_generate_node breaks_enclosed].
    assert (Pre : forall (k : string -> string -> G Out ids) fine,
               (forall cond_node merge_node, outcome (k cond_node merge_node) fine) ->
               if is_nonempty S || fine
               then returns
                      (label <- of_result (_expr_to_str t) ;;
                       cond_node <- _add_node label _get_decision_shape ;;
                       merge_node <- _add_node " " _get_merge_shape ;;
                       k cond_node merge_node)%gen st (has_stack S)
               else raises
                      (label <- of_result (_expr_to_str t) ;;
                       cond_node <- _add_node label _get_decision_shape ;;
                       merge_node <- _add_node " " _get_merge_shape ;;
                       k cond_node merge_node)%gen st BreakOutsideLoop).
    { intros k fine Hk.
      destruct (is_nonempty S || fine) eqn:F.
      - apply returns_bind with (R1 := fun _ st' => st' = st);
          [now apply expr_to_str_ok|]. intros label st' ->.
        step_with S; [apply (add_node_ok L) with S; auto using decision_shape|].
        intros cond_node st1 E1.
        step_with S; [apply (add_node_ok L) with S; auto using merge_shape|].
        intros merge_node st2 E2.
        specialize (Hk cond_node merge_node S st2 E2). now rewrite F in Hk.
      - apply raises_bind_r with (R := fun _ st' => st' = st);
          [now apply expr_to_str_ok|]. intros label st' ->.
        apply raises_bind_r with (R := has_stack S);
          [apply (add_node_ok L) with S; auto using decision_shape|].
        intros cond_node st1 E1.
        apply raises_bind_r with (R := has_stack S);
          [apply (add_node_ok L) with S; auto using merge_shape|].
        intros merge_node st2 E2.
        specialize (Hk cond_node merge_node S st2 E2). now rewrite F in Hk. }
    apply Pre. clear Pre S st E. intros cond_node merge_node S st E.
    specialize (Oc S st E).
    destruct (is_nonempty S) eqn:NE; cbn [orb] in *.
    + step_with S; [exact Oc|]. intros [true_entry true_exit] st1 E1.
      step_with S; [apply (add_edge_ok L) with S; auto|]. intros u1 st2 E2.
      step_with S; [apply (edge_if_ok L) with S; auto|]. intros u2 st3 E3.
      specialize (Oa S st3 E3). rewrite NE in Oa.
      step_with S; [exact Oa|]. intros [false_entry false_exit] st4 E4.
      step_with S; [apply (add_edge_ok L) with S; auto|]. intros u3 st5 E5.
      step_with S; [apply (edge_if_ok L) with S; auto|]. intros u4 st6 E6.
      now apply returns_ret.
    + destruct (forallb breaks_enclosed (block_body c)); cbn [andb].
      * assert (Rest : forall st3, loop_exit_stack st3 = S ->
                  if match a with
                     | Some b0 => forallb breaks_enclosed (block_body b0)
                     | None => true
                     end
                  then returns
                         ('(false_entry, false_exit) <-
                            match a with
                            | Some alt =>
                                chain (map _generate_node (block_body alt))
                            | None => chain []
                            end ;;
                          _add_edge (Some cond_node)
                            (or_else false_entry (Some merge_node))
                            (Some "False") ;;
                          edge_if false_exit (Some merge_node) ;;
                          ret (Some cond_node, Some merge_node))%gen
                         st3 (has_stack S)
                  else raises
                         ('(false_entry, false_exit) <-
                            match a with
                            | Some alt =>
                                chain (map _generate_node (block_body alt))
                            | None => chain []
                            end ;;
                          _add_edge (Some cond_node)
                            (or_else false_entry (Some merge_node))
                            (Some "False") ;;
                          edge_if false_exit (Some merge_node) ;;
                          ret (Some cond_node, Some merge_node))%gen
                         st3 BreakOutsideLoop).
        { intros st3 E3. specialize (Oa S st3 E3). rewrite NE in Oa.
          cbn [orb] in Oa.
          destruct (match a with
                    | Some b0 => forallb breaks_enclosed (block_body b0)
                    | None => true
                    end).
          - step_with S; [exact Oa|]. intros [false_entry false_exit] st4 E4.
            step_with S; [apply (add_edge_ok L) with S; auto|].
            intros u3 st5 E5.
            step_with S; [apply (edge_if_ok L) with S; auto|].
            intros u4 st6 E6. now apply returns_ret.
          - now apply raises_bind_l. }
        destruct (match a with
                  | Some b0 => forallb breaks_enclosed (block_body b0)
                  | None => true
                  end).
        -- step_with S; [exact Oc|]. intros [true_entry true_exit] st1 E1.
           step_with S; [apply (add_edge_ok L) with S; auto|].
           intros u1 st2 E2.
           step_with S; [apply (edge_if_ok L) with S; auto|].
           intros u2 st3 E3. now apply Rest.
        -- apply raises_bind_r with (R := has_stack S); [exact Oc|].
           intros [true_entry true_exit] st1 E1.
           apply raises_bind_r with (R := has_stack S);
             [apply (add_edge_ok L) with S; auto|]. intros u1 st2 E2.
           apply raises_bind_r with (R := has_stack S);
             [apply (edge_if_ok L) with S; auto|]. intros u2 st3 E3.
           now apply Rest.
      * now apply raises_bind_l.
  - (* WhileStatement *)
    rewrite orb_true_r. simpl in C. apply andb_prop in C.
    destruct C as [Ct Cb]. cbn [_generate_node].
    step_with S; [now apply (visualize_raptor_loop_returns L)|].
    intros [nodes|] st1 E1; [now apply returns_ret|].
    pose proof (is_nonempty_snoc S) as NE.
    apply returns_bind with (R1 := fun _ st' => st' = st1);
      [now apply expr_to_str_ok|]. intros label st' ->.
    step_with S; [apply (add_node_ok L) with S; auto using decision_shape|].
    intros cond_node st2 E2.
    step_with S; [apply (add_node_ok L) with S; auto using merge_shape|].
    intros exit_node st3 E3.
    step_with (S ++ [exit_node])%list; [apply push_ok with S; auto|].
    intros u st4 E4.
    step_with (S ++ [exit_node])%list;
      [apply (chain_in_loop L) with (S := (S ++ [exit_node])%list); auto|].
    intros [body_entry body_exit] st5 E5.
    step_with (S ++ [exit_node])%list;
      [apply (add_edge_ok L) with (S ++ [exit_node])%list; auto|].
    intros u1 st6 E6.
    step_with (S ++ [exit_node])%list;
      [apply (edge_if_ok L) with (S ++ [exit_node])%list; auto|].
    intros u2 st7 E7.
    step_with S; [apply pop_ok with exit_node S; auto|].
    intros u3 st8 E8.
    step_with S; [apply (add_edge_ok L) with S; auto|].
    intros u4 st9 E9. now apply returns_ret.
  - (* BreakStatement *)
    cbn [_generate_node breaks_enclosed]. rewrite orb_false_r.
    assert (Stk : forall st0 : instance Out,
               returns stack st0
                 (fun a st' => a = loop_exit_stack st0 /\ st' = st0))
      by (intros st0; now exists (loop_exit_stack st0), st0).
    destruct (is_nonempty S) eqn:NE.
    + eapply returns_bind; [apply Stk|]. intros a st' [-> ->].
      rewrite E, NE. cbn [negb].
      step_with S; [apply (add_node_ok L) with S; auto using merge_shape|].
      intros break_entry st1 E1.
      eapply returns_bind; [apply Stk|]. intros a st' [-> ->].
      step_with S; [apply (add_edge_ok L) with S; auto|].
      intros u st3 E3. now apply returns_ret.
    + eapply raises_bind_r; [apply Stk|]. intros a st' [-> ->].
      rewrite E, NE. now exists st.
Qed.


End WalkNodes.

(** ** The two subclasses *)

Lemma mermaid_lawful : lawful (B := MermaidGenerator.backend).
Proof.
  split.
  - intros label shape st H.
    assert (exists o c, MermaidGenerator.shapes shape = Some (o, c))
      as [o [c E]].
    { unfold walker_shapes in H. simpl in H.
      each_member H; eexists _, _; reflexivity. }
    unfold returns. cbn [AstVisualizer._add_node MermaidGenerator.backend].
    unfold MermaidGenerator.add_node. rewrite E.
    eexists _, _. split; reflexivity.
  - intros a b l st. unfold returns.
    cbn [AstVisualizer._add_edge MermaidGenerator.backend].
    unfold MermaidGenerator.add_edge.
    destruct (negb (truthy_opt a) || negb (truthy_opt b));
      eexists _, _; split; reflexivity.
Qed.

Lemma graphviz_lawful : lawful (B := GraphvizGenerator.backend).
Proof.
  split.
  - intros label shape st _. unfold returns.
    eexists _, _. split; reflexivity.
  - intros a b l st. unfold returns.
    cbn [AstVisualizer._add_edge GraphvizGenerator.backend].
    unfold GraphvizGenerator.add_edge.
    destruct (negb (truthy_opt a) || negb (truthy_opt b));
      eexists _, _; split; reflexivity.
Qed.

(** [generate] returns a text. *)
Definition generates {Out} (c : AstVisualizer.G Out string)
    (self : AstVisualizer.instance Out) : Prop :=
  exists text self', c self = (Ok text, self').





(** ** The mid-test idiom *)

(** The shape that the search loop looks for: an IfStatement whose
    consequent body starts with a BreakStatement and whose alternate is
    [None]. *)
Definition starts_with_break (n : stmt) : bool :=
  match n with
  | IfStatement _ (BlockStatement (BreakStatement :: _)) None => true
  | _ => false
  end.

(** The shape in the words of the specification: the consequent body is
    exactly one BreakStatement and the alternate is absent or empty. *)
Definition only_break (n : stmt) : bool :=
  match n with
  | IfStatement _ (BlockStatement [BreakStatement]) None => true
  | IfStatement _ (BlockStatement [BreakStatement])
      (Some (BlockStatement [])) => true
  | _ => false
  end.

(** [n] is a node, and so is the first statement of its consequent when it
    is an IfStatement: the search loop can subscript both. *)
Definition nodes_present (n : stmt) : bool :=
  match n with
  | NoneStatement => false
  | IfStatement _ (BlockStatement (NoneStatement :: _)) _ => false
  | _ => true
  end.

Section MidTest.
Import AstVisualizer.
Local Open Scope gen_scope.
Context {Out : Type} {B : Backend Out}.

(** The rendering of a mid-test loop in the words of section 4.7 of the
    specification, for exit condition [E] and the statements [before] and
    [after] the if-break node. *)
Definition spec_mid_test_loop (E : expr) (before after : list stmt)
  : G Out (option ids) :=
  label <- of_result (_expr_to_str E) ;;
  decision <- _add_node label _get_decision_shape ;;
  exit_node <- _add_node " " _get_merge_shape ;;
  push exit_node ;;
  _add_edge (Some decision) (Some exit_node) (Some "True") ;;
  '(before_entry, before_exit) <- _generate_from_nodes before ;;
  '(after_entry, after_exit) <- _generate_from_nodes after ;;
  let loop_entry := or_else before_entry (Some decision) in
  edge_if before_exit (Some decision) ;;
  _add_edge (Some decision) (or_else after_entry loop_entry) (Some "False") ;;
  edge_if after_exit loop_entry ;;
  pop ;;
  ret (Some (loop_entry, Some exit_node)).

Lemma present_is_if_break (n : stmt) :
  nodes_present n = true -> is_if_break n = Ok (starts_with_break n).
Proof.
  destruct n as [| |t [[|first rest]] a| | | |]; simpl; try discriminate;
    try reflexivity.
  destruct first; simpl; try discriminate; try reflexivity.
Qed.

(** The search loop returns the first node of the shape, with its index. *)
Lemma find_if_break_first (body : list stmt) :
  forallb nodes_present body = true ->
  forall i,
    if existsb starts_with_break body
    then exists before n after,
        body = (before ++ n :: after)%list
        /\ starts_with_break n = true
        /\ existsb starts_with_break before = false
        /\ find_if_break body i = Ok (Some (i + length before, n))
    else find_if_break body i = Ok None.
Proof.
  induction body as [|m body IH]; intros P i; [reflexivity|].
  simpl in P. apply andb_prop in P. destruct P as [Pm Pb].
  cbn [existsb find_if_break]. rewrite (present_is_if_break m Pm).
  cbn [bind]. destruct (starts_with_break m) eqn:Em; cbn [orb].
  - exists [], m, body. rewrite Nat.add_0_r. auto.
  - specialize (IH Pb (S i)).
    destruct (existsb starts_with_break body); [|exact IH].
    destruct IH as [before [n [after [-> [Hn [Hb Hf]]]]]].
    exists (m :: before), n, after. cbn [existsb length]. rewrite Em, Hb.
    rewrite Hf. repeat split; auto. now rewrite Nat.add_succ_r.
Qed.

Lemma firstn_length_app {A} (l1 l2 : list A) :
  firstn (length l1) (l1 ++ l2) = l1.
Proof. induction l1; simpl; congruence. Qed.

Lemma skipn_length_app {A} (l1 : list A) (x : A) (l2 : list A) :
  skipn (length l1 + 1) (l1 ++ x :: l2) = l2.
Proof. induction l1; simpl; congruence. Qed.

End MidTest.

Lemma while_true_test (t : expr) :
  t <> ENone ->
  AstVisualizer.is_while_true t = Ok (RapcodeGenerator.is_literal_true t).
Proof. destruct t as [|[[|]| | |]| | | | |]; simpl; congruence. Qed.

(** C3, as the code has it.  On a WhileStatement whose test and body
    statements are nodes, the mid-test detector fires exactly when the test
    is the literal true and the body contains an IfStatement whose
    consequent body starts with a BreakStatement and whose alternate is
    [None].  It then takes the first such statement [n] and renders the
    loop as section 4.7 describes a mid-test loop, from the test of [n] and
    the statements before and after [n]; [n] itself is not rendered.
    Otherwise it returns [None] and changes nothing. *)
Theorem C3_mid_test_detector :
  forall (Out : Type) (B : AstVisualizer.Backend Out)
         (t : expr) (body : list stmt) (st : AstVisualizer.instance Out),
    t <> ENone ->
    forallb nodes_present body = true ->
    if RapcodeGenerator.is_literal_true t && existsb starts_with_break body
    then exists before n after,
        body = (before ++ n :: after)%list
        /\ starts_with_break n = true
        /\ existsb starts_with_break before = false
        /\ AstVisualizer._try_visualize_raptor_loop t (BlockStatement body) st
           = spec_mid_test_loop (AstVisualizer.if_test n) before after st
    else AstVisualizer._try_visualize_raptor_loop t (BlockStatement body) st
         = (Ok None, st).
Proof.
  intros Out B t body st Ht P.
  unfold AstVisualizer._try_visualize_raptor_loop,
    AstVisualizer.visualize_raptor_loop. cbn [block_body].
  rewrite (while_true_test t Ht).
  destruct (RapcodeGenerator.is_literal_true t); cbn [andb]; [|reflexivity].
  pose proof (find_if_break_first body P 0) as F.
  destruct (existsb starts_with_break body).
  - destruct F as [before [n [after [-> [Hn [Hb Hf]]]]]].
    exists before, n, after. repeat split; auto.
    unfold AstVisualizer.gbind at 1. cbn [AstVisualizer.of_result negb].
    rewrite Hf. unfold AstVisualizer.gbind at 1.
    cbn [AstVisualizer.of_result Nat.add].
    rewrite map_app. cbn [map].
    rewrite <- (length_map (AstVisualizer._generate_node) before).
    rewrite firstn_length_app, skipn_length_app. reflexivity.
  - unfold AstVisualizer.gbind at 1. cbn [AstVisualizer.of_result negb].
    rewrite F. reflexivity.
Qed.

(** Scenario S3: the loop of scenario S2 under the Mermaid generator. *)
Lemma C3_witness :
  exists before n after,
    [IfStatement (BinaryExpression "==" (Identifier "x") (Literal (VInt 10)))
       (BlockStatement [BreakStatement]) None;
     AssignmentStatement (Identifier "x")
       (BinaryExpression "+" (Identifier "x") (Literal (VInt 1)))]
    = (before ++ n :: after)%list
    /\ starts_with_break n = true
    /\ existsb starts_with_break before = false
    /\ AstVisualizer._try_visualize_raptor_loop (Literal (VBool true))
         (BlockStatement
            [IfStatement
               (BinaryExpression "==" (Identifier "x") (Literal (VInt 10)))
               (BlockStatement [BreakStatement]) None;
             AssignmentStatement (Identifier "x")
               (BinaryExpression "+" (Identifier "x") (Literal (VInt 1)))])
         MermaidGenerator.new
       = spec_mid_test_loop (AstVisualizer.if_test n) before after
           MermaidGenerator.new.
Proof.
  assert (Ht : Literal (VBool true) <> ENone) by discriminate.
  exact (C3_mid_test_detector _ MermaidGenerator.backend
           (Literal (VBool true))
           [IfStatement
              (BinaryExpression "==" (Identifier "x") (Literal (VInt 10)))
              (BlockStatement [BreakStatement]) None;
            AssignmentStatement (Identifier "x")
              (BinaryExpression "+" (Identifier "x") (Literal (VInt 1)))]
           MermaidGenerator.new Ht eq_refl).
Defined.

(** The text that the Mermaid generator returns for scenario S3: one
    decision node for the exit condition, its True edge to the merge node
    of the loop, and no node for the break. *)
Example s3_mermaid :
  fst (MermaidGenerator.generate
         (Program
            [WhileStatement (Literal (VBool true))
               (BlockStatement
                  [IfStatement
                     (BinaryExpression "==" (Identifier "x")
                        (Literal (VInt 10)))
                     (BlockStatement [BreakStatement]) None;
                   AssignmentStatement (Identifier "x")
                     (BinaryExpression "+" (Identifier "x")
                        (Literal (VInt 1)))])])
         MermaidGenerator.new)
  = Ok (join NL
          ["graph TD;";
           "  N0(" ++ QUOTE ++ "Start" ++ QUOTE ++ ")";
           "  N1{" ++ QUOTE ++ "(x == 10)" ++ QUOTE ++ "}";
           "  N2((" ++ QUOTE ++ " " ++ QUOTE ++ "))";
           "  N3[" ++ QUOTE ++ "x := (x + 1)" ++ QUOTE ++ "]";
           "  N4(" ++ QUOTE ++ "End" ++ QUOTE ++ ")";
           "";
           "  N1 --" ++ QUOTE ++ "True" ++ QUOTE ++ "--> N2";
           "  N1 --" ++ QUOTE ++ "False" ++ QUOTE ++ "--> N3";
           "  N3 --> N1";
           "  N0 --> N1";
           "  N2 --> N4"]).
Proof. vm_compute. reflexivity. Qed.

(** The detector fires on a loop whose only IfStatement has a consequent of
    two statements, so none whose consequent is exactly one break; and it
    does not fire on a loop whose IfStatement has exactly one break and an
    empty alternate block. *)
Lemma C3_counterexample :
  (existsb only_break
     [IfStatement (Identifier "x")
        (BlockStatement
           [BreakStatement;
            AssignmentStatement (Identifier "y") (Literal (VInt 1))])
        None] = false
   /\ fst (AstVisualizer._try_visualize_raptor_loop (Literal (VBool true))
             (BlockStatement
                [IfStatement (Identifier "x")
                   (BlockStatement
                      [BreakStatement;
                       AssignmentStatement (Identifier "y")
                         (Literal (VInt 1))])
                   None])
             MermaidGenerator.new)
      = Ok (Some (Some "N0", Some "N1")))
  /\ (existsb only_break
        [IfStatement (Identifier "x") (BlockStatement [BreakStatement])
           (Some (BlockStatement []))] = true
      /\ fst (AstVisualizer._try_visualize_raptor_loop (Literal (VBool true))
                (BlockStatement
                   [IfStatement (Identifier "x")
                      (BlockStatement [BreakStatement])
                      (Some (BlockStatement []))])
                MermaidGenerator.new)
         = Ok None).
Proof. repeat split; vm_compute; reflexivity. Qed.

(** ** The diagram walker: what a walk leaves of the object's state *)

Section Frame.
Import AstVisualizer.
Context {Out : Type} {B : Backend Out}.

(** A relation between the state before and after a call that returns;
    [frames c] says that every returning run of [c] is in it. *)
Variable I : instance Out -> instance Out -> Prop.
Hypothesis I_refl : forall st, I st st.
Hypothesis I_trans : forall a b c, I a b -> I b c -> I a c.
Hypothesis I_stack : forall st S,
    I st (Instance (node_count st) S (out st)).

Definition frames {A} (c : G Out A) : Prop :=
  forall st a st', c st = (Ok a, st') -> I st st'.

Hypothesis add_node_frames : forall label shape, frames (_add_node label shape).
Hypothesis add_edge_frames : forall a b l, frames (_add_edge a b l).

Lemma frames_ret {A} (a : A) : frames (ret a).
Proof. intros st a' st' E. injection E as _ <-. apply I_refl. Qed.

Lemma frames_raise {A} (e : exn) : frames (raise (A := A) e).
Proof. intros st a' st' E. discriminate. Qed.

Lemma frames_of_result {A} (r : result A) : frames (of_result r).
Proof. intros st a' st' E. injection E as _ <-. apply I_refl. Qed.

Lemma frames_bind {A C} (c : G Out A) (k : A -> G Out C) :
  frames c -> (forall a, frames (k a)) -> frames (gbind c k).
Proof.
  intros Hc Hk st r st' E. unfold gbind in E.
  destruct (c st) as [[a|e] st1] eqn:Ec; [|discriminate].
  eapply I_trans; [eapply Hc; exact Ec | eapply Hk; exact E].
Qed.

Lemma frames_push x : frames (push x).
Proof. intros st a st' E. injection E as _ <-. apply I_stack. Qed.

Lemma frames_pop : frames pop.
Proof. intros st a st' E. injection E as _ <-. apply I_stack. Qed.

Lemma frames_stack : frames stack.
Proof. intros st a st' E. injection E as _ <-. apply I_refl. Qed.

Lemma frames_edge_if x target : frames (edge_if x target).
Proof.
  unfold edge_if. destruct (truthy_opt x);
    [apply add_edge_frames | apply frames_ret].
Qed.

Lemma frames_link generated : frames (link generated).
Proof.
  induction generated as [|current [|next rest] IH]; try apply frames_ret.
  cbn [link]. apply frames_bind; [|intros _; exact IH].
  destruct (truthy_opt (snd current) && truthy_opt (fst next));
    [apply add_edge_frames | apply frames_ret].
Qed.

Lemma frames_run_all {A} (calls : list (G Out A)) :
  Forall frames calls -> frames (run_all calls).
Proof.
  induction 1 as [|c calls Hc _ IH]; [apply frames_ret|].
  cbn [run_all]. apply frames_bind; [exact Hc|]. intros a.
  apply frames_bind; [exact IH|]. intros l. apply frames_ret.
Qed.

Lemma frames_chain (calls : list (G Out ids)) :
  Forall frames calls -> frames (chain calls).
Proof.
  intros H. destruct calls as [|c calls]; [apply frames_ret|].
  unfold chain. apply frames_bind; [now apply frames_run_all|].
  intros g. apply frames_bind; [apply frames_link|].
  intros _. apply frames_ret.
Qed.

Lemma frames_visualize_raptor_loop t body (calls : list (G Out ids)) :
  Forall frames calls -> frames (visualize_raptor_loop t body calls).
Proof.
  intros H. unfold visualize_raptor_loop.
  apply frames_bind; [apply frames_of_result|]. intros is_true.
  destruct (negb is_true); [apply frames_ret|].
  apply frames_bind; [apply frames_of_result|]. intros [[i n]|];
    [|apply frames_ret].
  apply frames_bind; [apply frames_of_result|]. intros label.
  apply frames_bind; [apply add_node_frames|]. intros cond_node.
  apply frames_bind; [apply add_node_frames|]. intros exit_node.
  apply frames_bind; [apply frames_push|]. intros _.
  apply frames_bind; [apply add_edge_frames|]. intros _.
  apply frames_bind; [apply frames_chain; now apply Forall_firstn|].
  intros [entry_before exit_before].
  apply frames_bind; [apply frames_chain; now apply Forall_skipn|].
  intros [entry_after exit_after].
  apply frames_bind; [apply frames_edge_if|]. intros _.
  apply frames_bind; [apply add_edge_frames|]. intros _.
  apply frames_bind; [apply frames_edge_if|]. intros _.
  apply frames_bind; [apply frames_pop|]. intros _. apply frames_ret.
Qed.

Lemma frames_generate_node (s : stmt) : frames (_generate_node s).
Proof.
  induction s as [l r|e|t c a IHc IHa|t b IHb| | |ty] using stmt_nested_ind;
    cbn [_generate_node].
  - apply frames_bind; [apply frames_of_result|]. intros left.
    apply frames_bind; [apply frames_of_result|]. intros right.
    apply frames_bind; [apply add_node_frames|]. intros n. apply frames_ret.
  - destruct e; try apply frames_raise;
      (destruct (is_output _);
       [destruct (arguments_of _);
        [apply frames_raise
        |apply frames_bind; [apply frames_of_result|]; intros s;
         apply frames_bind; [apply add_node_frames|]; intros n;
         apply frames_ret]
       |apply frames_bind; [apply add_node_frames|]; intros n;
        apply frames_ret]).
  - apply frames_bind; [apply frames_of_result|]. intros label.
    apply frames_bind; [apply add_node_frames|]. intros cond_node.
    apply frames_bind; [apply add_node_frames|]. intros merge_node.
    apply frames_bind;
      [apply frames_chain; now rewrite Forall_map|].
    intros [true_entry true_exit].
    apply frames_bind; [apply add_edge_frames|]. intros _.
    apply frames_bind; [apply frames_edge_if|]. intros _.
    apply frames_bind.
    { destruct a as [alt|];
        [apply frames_chain; rewrite Forall_map; now apply IHa
        |apply frames_ret]. }
    intros [false_entry false_exit].
    apply frames_bind; [apply add_edge_frames|]. intros _.
    apply frames_bind; [apply frames_edge_if|]. intros _. apply frames_ret.
  - assert (F : Forall frames (map _generate_node (block_body b)))
      by now rewrite Forall_map.
    apply frames_bind; [now apply frames_visualize_raptor_loop|].
    intros [nodes|]; [apply frames_ret|].
    apply frames_bind; [apply frames_of_result|]. intros label.
    apply frames_bind; [apply add_node_frames|]. intros cond_node.
    apply frames_bind; [apply add_node_frames|]. intros exit_node.
    apply frames_bind; [apply frames_push|]. intros _.
    apply frames_bind; [now apply frames_chain|].
    intros [body_entry body_exit].
    apply frames_bind; [apply add_edge_frames|]. intros _.
    apply frames_bind; [apply frames_edge_if|]. intros _.
    apply frames_bind; [apply frames_pop|]. intros _.
    apply frames_bind; [apply add_edge_frames|]. intros _. apply frames_ret.
  - apply frames_bind; [apply frames_stack|]. intros stk.
    destruct (negb (is_nonempty stk)); [apply frames_raise|].
    apply frames_bind; [apply add_node_frames|]. intros break_entry.
    apply frames_bind; [apply frames_stack|]. intros stk'.
    apply frames_bind; [apply add_edge_frames|]. intros _. apply frames_ret.
  - apply frames_raise.
  - apply frames_bind; [apply add_node_frames|]. intros n. apply frames_ret.
Qed.

Lemma frames_generate_from_nodes (l : list stmt) :
  frames (_generate_from_nodes l).
Proof.
  apply frames_chain. rewrite Forall_map. apply Forall_forall.
  intros s _. apply frames_generate_node.
Qed.

End Frame.

(** ** Node numbering across calls *)

Lemma prefix_app (p s : string) : String.prefix p (p ++ s) = true.
Proof.
  induction p as [|c p IH]; simpl; [apply prefix_empty|].
  destruct (ascii_dec c c); [exact IH | contradiction].
Qed.

Lemma join_cons (sep x : string) (l : list string) :
  exists rest, join sep (x :: l) = x ++ rest.
Proof.
  destruct l as [|y l]; [exists ""; simpl; now rewrite append_nil_r|].
  now exists (sep ++ join sep (y :: l)).
Qed.

(** The first line of the text of each generator when the counter of the
    object is [k]. *)
Definition mermaid_head (k : nat) : string :=
  "graph TD;" ++ NL
  ++ "  N" ++ str_nat k ++ "(" ++ QUOTE ++ "Start" ++ QUOTE ++ ")".

Definition graphviz_start_attrs : string :=
  " [label=" ++ QUOTE ++ "Start" ++ QUOTE
  ++ ", shape=ellipse, fillcolor=" ++ QUOTE ++ "#f8f8f8" ++ QUOTE ++ "];" ++ NL.

Definition graphviz_head (k : nat) : string :=
  GraphvizGenerator.header ++ "  node" ++ str_nat k ++ graphviz_start_attrs.

Lemma graphviz_start_node (st : AstVisualizer.instance string) :
  GraphvizGenerator.add_node "Start" "ellipse" st
  = (Ok ("node" ++ str_nat (AstVisualizer.node_count st)),
     AstVisualizer.Instance (AstVisualizer.node_count st + 1)
       (AstVisualizer.loop_exit_stack st)
       (AstVisualizer.out st
        ++ "  node" ++ str_nat (AstVisualizer.node_count st)
        ++ graphviz_start_attrs)).
Proof.
  unfold GraphvizGenerator.add_node, GraphvizGenerator.emit.
  cbn [AstVisualizer.node_count AstVisualizer.loop_exit_stack
       AstVisualizer.out].
  match goal with
  | |- context [join ", " ?a] =>
      let v := eval vm_compute in (join ", " a) in
      change (join ", " a) with v
  end.
  reflexivity.
Qed.

Section Numbering.
Import AstVisualizer.

(** A returning call never lowers the counter and only appends to the
    node definitions. *)
Definition mermaid_grows (st st' : instance MermaidGenerator.buffers) : Prop :=
  node_count st <= node_count st'
  /\ exists more,
      MermaidGenerator.node_defs (out st')
      = (MermaidGenerator.node_defs (out st) ++ more)%list.

Definition graphviz_grows (st st' : instance string) : Prop :=
  node_count st <= node_count st'
  /\ exists more, out st' = out st ++ more.

Lemma mermaid_grows_refl st : mermaid_grows st st.
Proof. split; [lia|]. exists []. now rewrite app_nil_r. Qed.

Lemma mermaid_grows_trans a b c :
  mermaid_grows a b -> mermaid_grows b c -> mermaid_grows a c.
Proof.
  intros [H1 [m1 E1]] [H2 [m2 E2]]. split; [lia|].
  exists (m1 ++ m2)%list. now rewrite E2, E1, app_assoc.
Qed.

Lemma mermaid_add_node_grows label shape :
  frames mermaid_grows (_add_node label shape).
Proof.
  intros st a st' E. cbn [_add_node MermaidGenerator.backend] in E.
  unfold MermaidGenerator.add_node in E.
  destruct (MermaidGenerator.shapes shape) as [[o c]|]; [|discriminate].
  injection E as _ <-. split; cbn; [lia|]. eauto.
Qed.

Lemma mermaid_add_edge_grows a b l :
  frames mermaid_grows (_add_edge a b l).
Proof.
  intros st u st' E. cbn [_add_edge MermaidGenerator.backend] in E.
  unfold MermaidGenerator.add_edge in E.
  destruct (negb (truthy_opt a) || negb (truthy_opt b));
    injection E as _ <-; [apply mermaid_grows_refl|].
  split; cbn; [lia|]. exists []. now rewrite app_nil_r.
Qed.

Lemma graphviz_grows_refl st : graphviz_grows st st.
Proof. split; [lia|]. exists "". now rewrite append_nil_r. Qed.

Lemma graphviz_grows_trans a b c :
  graphviz_grows a b -> graphviz_grows b c -> graphviz_grows a c.
Proof.
  intros [H1 [m1 E1]] [H2 [m2 E2]]. split; [lia|].
  exists (m1 ++ m2). now rewrite E2, E1, append_assoc.
Qed.

Lemma graphviz_add_node_grows label shape :
  frames graphviz_grows (_add_node label shape).
Proof.
  intros st a st' E. cbn [_add_node GraphvizGenerator.backend] in E.
  unfold GraphvizGenerator.add_node, GraphvizGenerator.emit in E.
  injection E as _ <-. split; cbn; [lia|]. eauto.
Qed.

Lemma graphviz_add_edge_grows a b l :
  frames graphviz_grows (_add_edge a b l).
Proof.
  intros st u st' E. cbn [_add_edge GraphvizGenerator.backend] in E.
  unfold GraphvizGenerator.add_edge, GraphvizGenerator.emit, ret in E.
  destruct (negb (truthy_opt a) || negb (truthy_opt b));
    injection E as _ <-; [apply graphviz_grows_refl|].
  split; cbn; [lia|]. eauto.
Qed.

(** The steps of [walk_program] after the Start node. *)
Lemma walk_after_start {Out} {B : Backend Out}
    (I : instance Out -> instance Out -> Prop) :
  (forall st, I st st) ->
  (forall a b c, I a b -> I b c -> I a c) ->
  (forall st S, I st (Instance (node_count st) S (out st))) ->
  (forall label shape, frames I (_add_node label shape)) ->
  (forall a b l, frames I (_add_edge a b l)) ->
  forall (p : program) (start_node : string),
    frames I
      ('(entry, last_node) <- _generate_from_nodes (body p) ;;
       (if truthy_opt entry then _add_edge (Some start_node) entry None
        else ret tt) ;;
       let last_node := or_else last_node (Some start_node) in
       end_node <- _add_node "End" _get_start_shape ;;
       (if truthy_opt last_node then _add_edge last_node (Some end_node) None
        else ret tt))%gen.
Proof.
  intros R T S N E p start_node.
  apply frames_bind; auto.
  { apply frames_generate_from_nodes; auto. }
  intros [entry last_node]. apply frames_bind; auto.
  { destruct (truthy_opt entry); [apply E | now apply frames_ret]. }
  intros _. apply frames_bind; auto. intros end_node.
  destruct (truthy_opt _); [apply E | now apply frames_ret].
Qed.

End Numbering.

(** C5, as the code has it.  The node counter is an attribute of the
    generator object, set to 0 by its constructor and not reset by
    [generate]: a call that returns numbers its first node with the counter
    value it finds, 0 on a new object, and leaves a larger one behind. *)
Theorem C5_numbering_continues_across_calls :
  forall (p : program),
    (forall self text self',
        MermaidGenerator.generate p self = (Ok text, self') ->
        startswith text (mermaid_head (AstVisualizer.node_count self)) = true
        /\ AstVisualizer.node_count self < AstVisualizer.node_count self')
    /\ (forall self text self',
           GraphvizGenerator.generate p self = (Ok text, self') ->
           startswith text (graphviz_head (AstVisualizer.node_count self))
           = true
           /\ AstVisualizer.node_count self < AstVisualizer.node_count self').
Proof.
  intros p. split; intros self text self' E.
  - unfold MermaidGenerator.generate in E.
    destruct (AstVisualizer.walk_program p _) as [[u|e] st2] eqn:W;
      [|discriminate].
    injection E as <- <-.
    unfold AstVisualizer.walk_program in W.
    unfold AstVisualizer.gbind at 1 in W.
    cbn [AstVisualizer._add_node MermaidGenerator.backend
         AstVisualizer._get_start_shape] in W.
    unfold MermaidGenerator.add_node at 1 in W.
    cbn [MermaidGenerator.shapes String.eqb] in W.
    change (MermaidGenerator.shapes "start")
      with (Some ("(" ++ QUOTE, QUOTE ++ ")")) in W.
    cbn [AstVisualizer.node_count AstVisualizer.loop_exit_stack
         AstVisualizer.out MermaidGenerator.node_defs
         MermaidGenerator.edge_defs app] in W.
    pose proof (walk_after_start mermaid_grows mermaid_grows_refl
                  mermaid_grows_trans
                  (fun st S => mermaid_grows_refl _)
                  mermaid_add_node_grows mermaid_add_edge_grows p
                  _ _ _ _ W) as [Hc [more Hm]].
    clear W. cbn in Hc, Hm. split; [|lia].
    rewrite Hm. cbn [app].
    match goal with
    | |- context [join NL (?x :: more)] =>
        destruct (join_cons NL x more) as [rest ->]
    end.
    unfold startswith, mermaid_head. cbn [append QUOTE NL s_of].
    repeat rewrite prefix_cons.
    rewrite (append_assoc _ rest). apply prefix_app.
  - unfold GraphvizGenerator.generate in E.
    destruct (AstVisualizer.walk_program p _) as [[u|e] st2] eqn:W;
      [|discriminate].
    injection E as <- <-.
    unfold AstVisualizer.walk_program in W.
    unfold AstVisualizer.gbind at 1 in W.
    cbn [AstVisualizer._add_node GraphvizGenerator.backend
         AstVisualizer._get_start_shape] in W.
    rewrite graphviz_start_node in W.
    cbn [AstVisualizer.node_count AstVisualizer.loop_exit_stack
         AstVisualizer.out] in W.
    pose proof (walk_after_start graphviz_grows graphviz_grows_refl
                  graphviz_grows_trans
                  (fun st S => graphviz_grows_refl _)
                  graphviz_add_node_grows graphviz_add_edge_grows p
                  _ _ _ _ W) as [Hc [more Hm]].
    clear W.
    cbn [AstVisualizer.node_count AstVisualizer.out] in Hc, Hm.
    cbn [AstVisualizer.node_count]. split; [|lia]. rewrite Hm.
    unfold startswith, graphviz_head.
    rewrite (append_assoc _ more). apply prefix_app.
Qed.

(** The empty program on a new Mermaid generator: the first node is N0 and
    the counter is left at 2. *)
Lemma C5_witness :
  MermaidGenerator.generate (Program []) MermaidGenerator.new
  = (Ok (join NL ["graph TD;";
                  "  N0(" ++ QUOTE ++ "Start" ++ QUOTE ++ ")";
                  "  N1(" ++ QUOTE ++ "End" ++ QUOTE ++ ")";
                  "";
                  "  N0 --> N1"]),
     AstVisualizer.Instance 2 []
       (MermaidGenerator.Buffers
          ["  N0(" ++ QUOTE ++ "Start" ++ QUOTE ++ ")";
           "  N1(" ++ QUOTE ++ "End" ++ QUOTE ++ ")"]
          ["  N0 --> N1"]))
  /\ startswith
       (join NL ["graph TD;";
                 "  N0(" ++ QUOTE ++ "Start" ++ QUOTE ++ ")";
                 "  N1(" ++ QUOTE ++ "End" ++ QUOTE ++ ")";
                 "";
                 "  N0 --> N1"])
       (mermaid_head 0) = true
  /\ 0 < 2.
Proof.
  split; [vm_compute; reflexivity|].
  apply (proj1 (C5_numbering_continues_across_calls (Program []))
           MermaidGenerator.new
           (join NL ["graph TD;";
                     "  N0(" ++ QUOTE ++ "Start" ++ QUOTE ++ ")";
                     "  N1(" ++ QUOTE ++ "End" ++ QUOTE ++ ")";
                     "";
                     "  N0 --> N1"])
           (AstVisualizer.Instance 2 []
              (MermaidGenerator.Buffers
                 ["  N0(" ++ QUOTE ++ "Start" ++ QUOTE ++ ")";
                  "  N1(" ++ QUOTE ++ "End" ++ QUOTE ++ ")"]
                 ["  N0 --> N1"]))).
  vm_compute. reflexivity.
Defined.

(** Two calls of [generate] on one generator object, with the same program:
    the texts differ, the second numbers its nodes from 2. *)
Lemma C5_counterexample :
  exists text1 self1 text2 self2,
    MermaidGenerator.generate (Program []) MermaidGenerator.new
    = (Ok text1, self1)
    /\ MermaidGenerator.generate (Program []) self1 = (Ok text2, self2)
    /\ text1 <> text2
    /\ startswith text1 (mermaid_head 0) = true
    /\ startswith text2 (mermaid_head 2) = true.
Proof.
  exists
    (join NL ["graph TD;";
              "  N0(" ++ QUOTE ++ "Start" ++ QUOTE ++ ")";
              "  N1(" ++ QUOTE ++ "End" ++ QUOTE ++ ")";
              "";
              "  N0 --> N1"]),
    (AstVisualizer.Instance 2 []
       (MermaidGenerator.Buffers
          ["  N0(" ++ QUOTE ++ "Start" ++ QUOTE ++ ")";
           "  N1(" ++ QUOTE ++ "End" ++ QUOTE ++ ")"]
          ["  N0 --> N1"])),
    (join NL ["graph TD;";
              "  N2(" ++ QUOTE ++ "Start" ++ QUOTE ++ ")";
              "  N3(" ++ QUOTE ++ "End" ++ QUOTE ++ ")";
              "";
              "  N2 --> N3"]),
    (AstVisualizer.Instance 4 []
       (MermaidGenerator.Buffers
          ["  N2(" ++ QUOTE ++ "Start" ++ QUOTE ++ ")";
           "  N3(" ++ QUOTE ++ "End" ++ QUOTE ++ ")"]
          ["  N2 --> N3"])).
  repeat split; try (vm_compute; reflexivity).
  vm_compute. discriminate.
Qed.

(** ** Statements of an unknown kind *)

Lemma all_lines_app (indent_level : nat) (pre post : list stmt) :
  RapcodeGenerator.all_lines indent_level (pre ++ post)
  = (a <- RapcodeGenerator.all_lines indent_level pre ;;
     b <- RapcodeGenerator.all_lines indent_level post ;;
     Ok (a ++ b)%list).
Proof.
  induction pre as [|s pre IH]; simpl.
  - now destruct (RapcodeGenerator.all_lines indent_level post).
  - destruct (RapcodeGenerator.node_lines indent_level s); simpl; auto.
    rewrite IH.
    destruct (RapcodeGenerator.all_lines indent_level pre); simpl; auto.
    destruct (RapcodeGenerator.all_lines indent_level post); simpl; auto.
    now rewrite app_assoc.
Qed.

(** The lines of a statement of unknown kind: none, without an error. *)
Lemma unknown_statement_lines (ty : string) (indent_level : nat) :
  RapcodeGenerator.node_lines indent_level (OtherStatement ty) = Ok [].
Proof. reflexivity. Qed.

Definition graphviz_label (label : string) : string :=
  replace (replace (replace label (s_of BACKSLASH)
                      (s_of BACKSLASH ++ s_of BACKSLASH))
             QUOTE (s_of BACKSLASH ++ QUOTE))
    NL (s_of BACKSLASH ++ "n").

Lemma foo_is_no_kind : ~ In "Foo" KINDS.
Proof.
  unfold KINDS. simpl. intros H.
  repeat (destruct H as [H|H]; [discriminate H|]). exact H.
Qed.

(* ================================================================== *)
(** * Generate, then parse *)
(* ================================================================== *)

(** ** The programs on which the round trip is stated *)

Definition BINARY_OPERATORS : list string :=
  ["+"; "-"; "*"; "/"; "MOD"; "=="; "!="; "<"; ">"; "<="; ">="; "AND"; "OR"].

(** The text between the quotes of a string token, as the pattern of the
    lexer has it: characters other than double quote and backslash, and
    pairs of a backslash and any character but a line feed. *)
Fixpoint quotable (s : string) : bool :=
  match s with
  | EmptyString => true
  | String c r =>
      if Ascii.eqb c DQ then false
      else if Ascii.eqb c BACKSLASH then
        match r with
        | String c' r' => negb (Ascii.eqb c' LF) && quotable r'
        | EmptyString => false
        end
      else quotable r
  end.

(** A float that [str] prints without sign and exponent: zero, or a
    positive number whose shortest digits have their decimal point
    between 10^-4 and 10^16.  ([binary64.shortest] looks for up to 17
    digits, which every binary64 number has.) *)
Definition plain_float (x : binary64.float) : bool :=
  match x with
  | binary64.Zero false => true
  | binary64.Finite false m e =>
      match binary64.shortest m e with
      | Some (_, decpt) => binary64.positional decpt
      | None => false
      end
  | _ => false
  end.

(** A name that the lexer reads as one identifier and that is no keyword. *)
Definition plain_name (name : string) : bool :=
  ExpressionParser.is_identifier name
  && negb (existsb (String.eqb name) RapcodeParser.RESERVED_KEYWORDS).


(** Expressions built from boolean literals, natural numbers, plain
    floats, quotable strings, plain names, the operators of the grammar
    and Input calls. *)
Fixpoint stable_expr (e : expr) : bool :=
  match e with
  | Literal (VBool _) => true
  | Literal (VInt n) => (0 <=? n)%Z
  | Literal (VFloat x) => plain_float x
  | Literal (VStr s) => quotable s
  | Identifier name => plain_name name
  | BinaryExpression op l r =>
      existsb (String.eqb op) BINARY_OPERATORS
      && stable_expr l && stable_expr r
  | UnaryExpression op a =>
      (String.eqb op "NOT" || String.eqb op "-") && stable_expr a
  | CallExpression callee args =>
      String.eqb callee "Input"
      && match args with
         | [prompt] => stable_expr prompt
         | _ => false
         end
  | ENone | OtherExpression _ => false
  end.


(** A line boundary of [str.splitlines] other than the line feed: CR, VT,
    FF, FS, GS, RS and NEL.  The generator splits the text of every nested
    block into lines and joins them with line feeds, so only a line feed
    inside a string literal of a nested statement comes through. *)
Definition lf_char (c : ascii) : bool :=
  negb (is_linebreak c) || Ascii.eqb c LF.
Definition lf_only (s : string) : bool := all_chars lf_char s.

Fixpoint lf_expr (e : expr) : bool :=
  match e with
  | Literal (VStr s) => lf_only s
  | BinaryExpression _ l r => lf_expr l && lf_expr r
  | UnaryExpression _ a => lf_expr a
  | CallExpression _ args => forallb lf_expr args
  | _ => true
  end.




(** The tokens of the printed form of an expression. *)
Fixpoint toks (e : expr) : list string :=
  match e with
  | Literal v => [literal_to_string v]
  | Identifier name => [name]
  | BinaryExpression op l r => ["("] ++ toks l ++ [op] ++ toks r ++ [")"]
  | UnaryExpression op a =>
      if String.eqb op "NOT" then "NOT" :: toks a
      else ["("; op] ++ toks a ++ [")"]
  | CallExpression callee args =>
      ["INPUT"; "("] ++ match args with p :: _ => toks p | [] => [] end
      ++ [")"]
  | ENone | OtherExpression _ => []
  end.

(** The fuel that [_parse_unary] needs on the tokens of an expression. *)
Fixpoint need (e : expr) : nat :=
  match e with
  | BinaryExpression _ l r => 8 + Nat.max (need l) (need r)
  | UnaryExpression op a =>
      if String.eqb op "NOT" then 1 + need a else 8 + need a
  | CallExpression _ args =>
      7 + match args with p :: _ => need p | [] => 0 end
  | _ => 2
  end.

(** ** Numbers as text *)

Lemma nat_digits_of_uint (d : Decimal.uint) (acc : nat) :
  nat_digits_acc acc (NilEmpty.string_of_uint d) = Nat.of_uint_acc d acc.
Proof.
  revert acc; induction d; intros acc; simpl; try reflexivity;
    rewrite IHd, Nat.tail_mul_spec; f_equal; lia.
Qed.

Lemma to_uint_not_nil (k : nat) : Nat.to_uint k <> Decimal.Nil.
Proof.
  intros E. pose proof (Unsigned.of_to k) as H. rewrite E in H.
  simpl in H. subst k. discriminate E.
Qed.

Lemma str_nat_eq (k : nat) :
  str_nat k = NilEmpty.string_of_uint (Nat.to_uint k).
Proof.
  unfold str_nat, NilZero.string_of_uint.
  pose proof (to_uint_not_nil k). now destruct (Nat.to_uint k).
Qed.

Lemma nat_digits_str_nat (k : nat) : nat_digits_acc 0 (str_nat k) = k.
Proof.
  rewrite str_nat_eq, nat_digits_of_uint. apply Unsigned.of_to.
Qed.

Lemma uint_digits (d : Decimal.uint) :
  all_chars is_digit (NilEmpty.string_of_uint d) = true.
Proof. induction d; simpl; auto. Qed.

Lemma str_nat_digits (k : nat) : all_chars is_digit (str_nat k) = true.
Proof. rewrite str_nat_eq. apply uint_digits. Qed.

Lemma str_nat_head (k : nat) :
  exists c r, str_nat k = String c r /\ is_digit c = true.
Proof.
  pose proof (str_nat_digits k) as D. rewrite str_nat_eq in *.
  pose proof (to_uint_not_nil k) as N.
  destruct (Nat.to_uint k); try contradiction; simpl in *; eauto.
Qed.

Lemma str_Z_nonneg (n : Z) : (0 <= n)%Z -> str_Z n = str_nat (Z.abs_nat n).
Proof.
  intros H. unfold str_Z. destruct (Z.ltb_spec n 0); [lia | reflexivity].
Qed.

Lemma int_digits_str_Z (n : Z) : (0 <= n)%Z -> int_digits (str_Z n) = n.
Proof.
  intros H. rewrite str_Z_nonneg by exact H. unfold int_digits.
  rewrite nat_digits_str_nat. lia.
Qed.

Lemma all_chars_app (p : ascii -> bool) (a b : string) :
  all_chars p (a ++ b) = all_chars p a && all_chars p b.
Proof.
  induction a as [|c a IH]; [reflexivity|]. simpl.
  now rewrite IH, andb_assoc.
Qed.

Lemma all_chars_weaken (p q : ascii -> bool) (s : string) :
  (forall c, p c = true -> q c = true) ->
  all_chars p s = true -> all_chars q s = true.
Proof.
  intros W. induction s as [|c s IH]; [reflexivity|]. simpl. intros H.
  apply andb_prop in H. destruct H as [Hc Hs].
  now rewrite (W c Hc), (IH Hs).
Qed.

Lemma all_chars_rev (p : ascii -> bool) (s : string) :
  all_chars p (rev_string s) = all_chars p s.
Proof.
  induction s as [|c s IH]; [reflexivity|]. cbn [rev_string].
  rewrite all_chars_app, IH. cbn [all_chars s_of].
  rewrite andb_true_r. apply andb_comm.
Qed.

(** ** Floats as text *)

Section FloatText.

Lemma float_eqb_eq (x y : binary64.float) :
  binary64.eqb x y = true -> x = y.
Proof.
  destruct x as [a|a| |a m e], y as [b|b| |b n f]; simpl; intros H;
    try discriminate H.
  - apply Bool.eqb_prop in H. now subst.
  - apply Bool.eqb_prop in H. now subst.
  - reflexivity.
  - apply andb_prop in H. destruct H as [H He].
    apply andb_prop in H. destruct H as [Hs Hm].
    apply Bool.eqb_prop in Hs. apply Pos.eqb_eq in Hm. apply Z.eqb_eq in He.
    now subst.
Qed.

Lemma digits_of_digits (c : Z) :
  all_chars is_digit (binary64.digits_of c) = true
  /\ binary64.digits_of c <> "".
Proof.
  unfold binary64.digits_of, NilZero.string_of_uint.
  destruct (N.to_uint (Z.to_N c)) as [|d|d|d|d|d|d|d|d|d|d];
    (split; [|discriminate]); try reflexivity;
    cbn [NilEmpty.string_of_uint all_chars]; apply uint_digits.
Qed.

Lemma drop_zeros_chars (p : ascii -> bool) (s : string) :
  all_chars p s = true -> all_chars p (binary64.drop_zeros s) = true.
Proof.
  induction s as [|c s IH]; intros H; [reflexivity|].
  simpl in H. apply andb_prop in H. destruct H as [Hc Hs].
  destruct c as [[] [] [] [] [] [] [] []]; cbn [binary64.drop_zeros];
    first [now apply IH | cbn [all_chars]; now rewrite Hc, Hs].
Qed.

Lemma strip_tail_digits (s : string) :
  all_chars is_digit s = true -> s <> "" ->
  all_chars is_digit (binary64.strip_tail s) = true
  /\ binary64.strip_tail s <> "".
Proof.
  destruct s as [|c r]; [contradiction|]. intros H _.
  simpl in H. apply andb_prop in H. destruct H as [Hc Hr].
  split; [|discriminate]. cbn [binary64.strip_tail all_chars].
  rewrite Hc, all_chars_rev. apply drop_zeros_chars.
  now rewrite all_chars_rev.
Qed.

Lemma attempt_spec (x : binary64.float) (c s : Z) (ds : string) (decpt : Z) :
  binary64.attempt x c s = Some (ds, decpt) ->
  all_chars is_digit ds = true /\ ds <> ""
  /\ binary64.reads_back x ds decpt = true.
Proof.
  unfold binary64.attempt.
  destruct (binary64.reads_back x _ _) eqn:R; [|discriminate].
  intros E. injection E as <- <-.
  destruct (digits_of_digits c) as [D N].
  destruct (strip_tail_digits _ D N) as [D' N']. auto.
Qed.

Lemma candidate_spec (x : binary64.float) (num den t p : Z) (ds : string)
    (decpt : Z) :
  binary64.candidate x num den t p = Some (ds, decpt) ->
  all_chars is_digit ds = true /\ ds <> ""
  /\ binary64.reads_back x ds decpt = true.
Proof.
  unfold binary64.candidate.
  destruct (if (0 <=? t + 1 - p)%Z then _ else _) as [a b].
  destruct (a mod b =? 0)%Z; [apply attempt_spec|].
  destruct (binary64.attempt x (a / b) _) as [[l1 l2]|] eqn:L;
    destruct (binary64.attempt x (a / b + 1) _) as [[h1 h2]|] eqn:H;
    try destruct (2 * (a mod b) ?= b)%Z; try destruct (Z.even (a / b));
    intros E; try discriminate E; injection E as <- <-;
    first [exact (attempt_spec _ _ _ _ _ L) | exact (attempt_spec _ _ _ _ _ H)].
Qed.

Lemma search_spec (x : binary64.float) (num den t : Z) (fuel : nat) :
  forall (p : Z) (ds : string) (decpt : Z),
    binary64.search x num den t fuel p = Some (ds, decpt) ->
    all_chars is_digit ds = true /\ ds <> ""
    /\ binary64.reads_back x ds decpt = true.
Proof.
  induction fuel as [|fuel IH]; intros p ds decpt; [discriminate|].
  cbn [binary64.search].
  destruct (binary64.candidate x num den t p) as [[d k]|] eqn:C.
  - intros E. injection E as <- <-. exact (candidate_spec _ _ _ _ _ _ _ C).
  - apply IH.
Qed.

(** The digits that [shortest] finds read back as the float. *)
Lemma shortest_spec (m : positive) (e : Z) (ds : string) (decpt : Z) :
  binary64.shortest m e = Some (ds, decpt) ->
  all_chars is_digit ds = true /\ ds <> ""
  /\ binary64.reads_back (binary64.Finite false m e) ds decpt = true.
Proof.
  unfold binary64.shortest. destruct (binary64.ratio m e) as [num den].
  apply search_spec.
Qed.

Lemma zeros_digits (n : nat) : all_chars is_digit (binary64.zeros n) = true.
Proof. induction n as [|n IH]; [reflexivity | exact IH]. Qed.

Lemma take_chars (p : ascii -> bool) (n : nat) (s : string) :
  all_chars p s = true -> all_chars p (binary64.take n s) = true.
Proof.
  revert s; induction n as [|n IH]; intros [|c s] H; try reflexivity.
  simpl in H. apply andb_prop in H. destruct H as [Hc Hs].
  cbn [binary64.take all_chars]. now rewrite Hc, (IH s Hs).
Qed.

Lemma skip_chars (p : ascii -> bool) (n : nat) (s : string) :
  all_chars p s = true -> all_chars p (skip n s) = true.
Proof.
  revert s; induction n as [|n IH]; intros [|c s] H; try reflexivity;
    try exact H.
  simpl in H. apply andb_prop in H. destruct H as [Hc Hs].
  cbn [skip]. now apply IH.
Qed.

Lemma positional_parts_digits (ds : string) (decpt : Z) (i f : string) :
  all_chars is_digit ds = true -> ds <> "" ->
  binary64.positional_parts ds decpt = (i, f) ->
  all_chars is_digit i = true /\ i <> "" /\ all_chars is_digit f = true.
Proof.
  intros D N. unfold binary64.positional_parts.
  destruct (Z.leb_spec decpt 0) as [Le|Gt].
  { intros E. injection E as <- <-. repeat split; [discriminate|].
    now rewrite all_chars_app, zeros_digits, D. }
  destruct (decpt <? Z.of_nat (String.length ds))%Z.
  - intros E. injection E as <- <-.
    destruct ds as [|c r]; [contradiction|].
    destruct (Z.to_nat decpt) as [|k] eqn:K; [lia|].
    repeat split; [now apply take_chars | discriminate | now apply skip_chars].
  - intros E. injection E as <- <-. repeat split.
    + now rewrite all_chars_app, zeros_digits, D.
    + destruct ds; [contradiction | discriminate].
Qed.

(** The text of a plain float: digits, a dot, digits; and [float] reads
    it back as the float. *)
Lemma float_text (x : binary64.float) :
  plain_float x = true ->
  exists c r f,
    binary64.repr x = String c r ++ "." ++ f
    /\ all_chars is_digit (String c r) = true
    /\ all_chars is_digit f = true
    /\ binary64.of_decimal (String c r) f = x.
Proof.
  destruct x as [[|]|[|]| |[|] m e]; intros H; try discriminate H.
  { exists "0"%char, "", "0". repeat split. }
  cbn [plain_float] in H.
  destruct (binary64.shortest m e) as [[ds decpt]|] eqn:S; [|discriminate H].
  destruct (shortest_spec m e ds decpt S) as [D [N R]].
  cbn [binary64.repr]. rewrite S. unfold binary64.layout. rewrite H.
  unfold binary64.reads_back in R.
  destruct (binary64.positional_parts ds decpt) as [i f] eqn:P.
  destruct (positional_parts_digits ds decpt i f D N P) as [Di [Ni Df]].
  destruct i as [|c r]; [contradiction|].
  exists c, r, f. repeat split; auto. now apply float_eqb_eq.
Qed.

End FloatText.

(** ** The expression parser on printed expressions *)

Section Cursor.
Variable T : list string.

Lemma peek_at (pos : nat) (t : string) (l : list string) :
  List.skipn pos T = t :: l -> nth_error T pos = Some t.
Proof.
  revert pos; induction T as [|x T' IH]; intros [|pos] E; simpl in *;
    try discriminate; [congruence | now apply IH].
Qed.

Lemma peek_end (pos : nat) :
  List.skipn pos T = [] -> nth_error T pos = None.
Proof.
  revert pos; induction T as [|x T' IH]; intros [|pos] E; simpl in *;
    try discriminate; auto.
Qed.

Lemma skipn_next (pos : nat) (t : string) (l : list string) :
  List.skipn pos T = t :: l -> List.skipn (S pos) T = l.
Proof.
  revert pos; induction T as [|x T' IH]; intros [|pos] E; simpl in *;
    try discriminate; [congruence | now apply IH].
Qed.

Lemma skipn_over (pos : nat) (a l : list string) :
  List.skipn pos T = (a ++ l)%list -> List.skipn (pos + length a) T = l.
Proof.
  revert pos; induction a as [|x a IH]; intros pos E; simpl in *.
  - now rewrite Nat.add_0_r.
  - rewrite Nat.add_succ_r. apply (IH (S pos)).
    now apply skipn_next with x.
Qed.

End Cursor.

Section ExprLevels.
Import ExpressionParser.
Variable T : list string.

(** [g] returns [r] for every fuel from [n] on. *)
Definition from (n : nat) (g : nat -> P) (r : expr * nat) : Prop :=
  forall f, n <= f -> g f = Some (Ok r).

Lemma from_le n m g r : from n g r -> n <= m -> from m g r.
Proof. intros H L f Hf. apply H. lia. Qed.

Lemma from_positive n g r : g 0 = None -> from n g r -> 1 <= n.
Proof.
  intros Z H. destruct n; [|lia]. specialize (H 0 (le_n 0)). congruence.
Qed.

Lemma match_hit (types : list string) (pos : nat) (t : string) :
  _peek T pos = Some t -> existsb (String.eqb t) types = true ->
  _match T types pos = Ok (Some t, S pos).
Proof.
  intros E H. unfold _match, _consume. rewrite E. cbn [in_tuple].
  rewrite H. reflexivity.
Qed.

Lemma match_miss (types : list string) (pos : nat) :
  in_tuple (_peek T pos) types = false ->
  _match T types pos = Ok (None, pos).
Proof. intros H. unfold _match. now rewrite H. Qed.

Lemma consume_expected (t : string) (pos : nat) :
  _peek T pos = Some t -> _consume T (Some t) pos = Ok (Some t, S pos).
Proof.
  intros E. unfold _consume. rewrite E. cbn [eqb_opt].
  rewrite String.eqb_refl. now rewrite andb_false_r.
Qed.

Lemma consume_any (pos : nat) :
  _consume T None pos = Ok (_peek T pos, S pos).
Proof. reflexivity. Qed.

Definition OR_OPS : list string := ["OR"].
Definition AND_OPS : list string := ["AND"].
Definition CMP_OPS : list string := ["=="; "!="; "<"; ">"; "<="; ">="].
Definition ADD_OPS : list string := ["+"; "-"].
Definition MUL_OPS : list string := ["*"; "/"; "MOD"].

Lemma truthy_member (t : string) (types : list string) :
  existsb (String.eqb "") types = false ->
  existsb (String.eqb t) types = true -> truthy t = true.
Proof. intros N H. destruct t; [congruence | reflexivity]. Qed.

(** Leaving a level: the next token is none of its operators. *)
Lemma exit_mul n pos r :
  from n (fun f => _parse_unary T f pos) r ->
  in_tuple (_peek T (snd r)) MUL_OPS = false ->
  from (S n) (fun f => _parse_multiplicative T f pos) r.
Proof.
  intros H M f Hf. destruct f as [|f]; [lia|]. cbn [_parse_multiplicative].
  pose proof (from_positive _ _ _ eq_refl H).
  rewrite H by lia. destruct r as [e p]. cbn [fbind snd] in *.
  destruct f as [|f]; [lia|]. cbn [mul_loop].
  change ["*"; "/"; "MOD"] with MUL_OPS.
  rewrite (match_miss _ _ M). reflexivity.
Qed.

Lemma exit_add n pos r :
  from n (fun f => _parse_multiplicative T f pos) r ->
  in_tuple (_peek T (snd r)) ADD_OPS = false ->
  from (S n) (fun f => _parse_additive T f pos) r.
Proof.
  intros H M f Hf. destruct f as [|f]; [lia|]. cbn [_parse_additive].
  pose proof (from_positive _ _ _ eq_refl H).
  rewrite H by lia. destruct r as [e p]. cbn [fbind snd] in *.
  destruct f as [|f]; [lia|]. cbn [add_loop].
  change ["+"; "-"] with ADD_OPS.
  rewrite (match_miss _ _ M). reflexivity.
Qed.

Lemma exit_cmp n pos r :
  from n (fun f => _parse_additive T f pos) r ->
  in_tuple (_peek T (snd r)) CMP_OPS = false ->
  from (S n) (fun f => _parse_comparison T f pos) r.
Proof.
  intros H M f Hf. destruct f as [|f]; [lia|]. cbn [_parse_comparison].
  rewrite H by lia. destruct r as [e p]. cbn [fbind snd] in *.
  change ["=="; "!="; "<"; ">"; "<="; ">="] with CMP_OPS.
  rewrite (match_miss _ _ M). reflexivity.
Qed.

Lemma exit_and n pos r :
  from n (fun f => _parse_comparison T f pos) r ->
  in_tuple (_peek T (snd r)) AND_OPS = false ->
  from (S n) (fun f => _parse_logical_and T f pos) r.
Proof.
  intros H M f Hf. destruct f as [|f]; [lia|]. cbn [_parse_logical_and].
  pose proof (from_positive _ _ _ eq_refl H).
  rewrite H by lia. destruct r as [e p]. cbn [fbind snd] in *.
  destruct f as [|f]; [lia|]. cbn [and_loop].
  change ["AND"] with AND_OPS.
  rewrite (match_miss _ _ M). reflexivity.
Qed.

Lemma exit_or n pos r :
  from n (fun f => _parse_logical_and T f pos) r ->
  in_tuple (_peek T (snd r)) OR_OPS = false ->
  from (S n) (fun f => _parse_logical_or T f pos) r.
Proof.
  intros H M f Hf. destruct f as [|f]; [lia|]. cbn [_parse_logical_or].
  pose proof (from_positive _ _ _ eq_refl H).
  rewrite H by lia. destruct r as [e p]. cbn [fbind snd] in *.
  destruct f as [|f]; [lia|]. cbn [or_loop].
  change ["OR"] with OR_OPS.
  rewrite (match_miss _ _ M). reflexivity.
Qed.

End ExprLevels.

Section ExprOperators.
Import ExpressionParser.
Variable T : list string.

Lemma member_truthy (op : string) (types : list string) :
  existsb (String.eqb "") types = false ->
  existsb (String.eqb op) types = true ->
  truthy_opt (Some op) = true.
Proof. intros N H. destruct op; [congruence | reflexivity]. Qed.

(** One operator of a level between two operands of the level below. *)
Lemma one_mul n pos l p1 op r p2 :
  from n (fun f => _parse_unary T f pos) (l, p1) ->
  _peek T p1 = Some op -> existsb (String.eqb op) MUL_OPS = true ->
  from n (fun f => _parse_unary T f (S p1)) (r, p2) ->
  in_tuple (_peek T p2) MUL_OPS = false ->
  from (S (S n)) (fun f => _parse_multiplicative T f pos)
    (BinaryExpression op l r, p2).
Proof.
  intros Hl Ho Hm Hr Hx f Hf.
  pose proof (from_positive _ _ _ eq_refl Hl).
  destruct f as [|[|f]]; try lia. cbn [_parse_multiplicative].
  rewrite Hl by lia. cbn [fbind mul_loop].
  change ["*"; "/"; "MOD"] with MUL_OPS.
  rewrite (match_hit T _ _ _ Ho Hm). cbn [lift fbind].
  rewrite (member_truthy op MUL_OPS eq_refl Hm). cbn [negb].
  rewrite Hr by lia. cbn [fbind fmt_opt create_binary_expression].
  destruct f as [|f]; [lia|]. cbn [mul_loop].
  change ["*"; "/"; "MOD"] with MUL_OPS.
  rewrite (match_miss T _ _ Hx). reflexivity.
Qed.

Lemma one_add n pos l p1 op r p2 :
  from n (fun f => _parse_multiplicative T f pos) (l, p1) ->
  _peek T p1 = Some op -> existsb (String.eqb op) ADD_OPS = true ->
  from n (fun f => _parse_multiplicative T f (S p1)) (r, p2) ->
  in_tuple (_peek T p2) ADD_OPS = false ->
  from (S (S n)) (fun f => _parse_additive T f pos)
    (BinaryExpression op l r, p2).
Proof.
  intros Hl Ho Hm Hr Hx f Hf.
  pose proof (from_positive _ _ _ eq_refl Hl).
  destruct f as [|[|f]]; try lia. cbn [_parse_additive].
  rewrite Hl by lia. cbn [fbind add_loop].
  change ["+"; "-"] with ADD_OPS.
  rewrite (match_hit T _ _ _ Ho Hm). cbn [lift fbind].
  rewrite (member_truthy op ADD_OPS eq_refl Hm). cbn [negb].
  rewrite Hr by lia. cbn [fbind fmt_opt create_binary_expression].
  destruct f as [|f]; [lia|]. cbn [add_loop].
  change ["+"; "-"] with ADD_OPS.
  rewrite (match_miss T _ _ Hx). reflexivity.
Qed.

Lemma one_cmp n pos l p1 op r p2 :
  from n (fun f => _parse_additive T f pos) (l, p1) ->
  _peek T p1 = Some op -> existsb (String.eqb op) CMP_OPS = true ->
  from n (fun f => _parse_additive T f (S p1)) (r, p2) ->
  from (S n) (fun f => _parse_comparison T f pos)
    (BinaryExpression op l r, p2).
Proof.
  intros Hl Ho Hm Hr f Hf.
  destruct f as [|f]; try lia. cbn [_parse_comparison].
  rewrite Hl by lia. cbn [fbind].
  change ["=="; "!="; "<"; ">"; "<="; ">="] with CMP_OPS.
  rewrite (match_hit T _ _ _ Ho Hm). cbn [lift fbind].
  rewrite (member_truthy op CMP_OPS eq_refl Hm).
  rewrite Hr by lia. reflexivity.
Qed.

Lemma one_and n pos l p1 op r p2 :
  from n (fun f => _parse_comparison T f pos) (l, p1) ->
  _peek T p1 = Some op -> existsb (String.eqb op) AND_OPS = true ->
  from n (fun f => _parse_comparison T f (S p1)) (r, p2) ->
  in_tuple (_peek T p2) AND_OPS = false ->
  from (S (S n)) (fun f => _parse_logical_and T f pos)
    (BinaryExpression op l r, p2).
Proof.
  intros Hl Ho Hm Hr Hx f Hf.
  pose proof (from_positive _ _ _ eq_refl Hl).
  assert (op = "AND") as ->.
  { unfold AND_OPS in Hm. cbn [existsb] in Hm. rewrite orb_false_r in Hm.
    now apply String.eqb_eq in Hm. }
  destruct f as [|[|f]]; try lia. cbn [_parse_logical_and].
  rewrite Hl by lia. cbn [fbind and_loop].
  change ["AND"] with AND_OPS.
  rewrite (match_hit T _ _ _ Ho Hm). cbn [lift fbind truthy_opt truthy].
  rewrite Hr by lia. cbn [fbind create_binary_expression].
  destruct f as [|f]; [lia|]. cbn [and_loop].
  change ["AND"] with AND_OPS.
  rewrite (match_miss T _ _ Hx). reflexivity.
Qed.

Lemma one_or n pos l p1 op r p2 :
  from n (fun f => _parse_logical_and T f pos) (l, p1) ->
  _peek T p1 = Some op -> existsb (String.eqb op) OR_OPS = true ->
  from n (fun f => _parse_logical_and T f (S p1)) (r, p2) ->
  in_tuple (_peek T p2) OR_OPS = false ->
  from (S (S n)) (fun f => _parse_logical_or T f pos)
    (BinaryExpression op l r, p2).
Proof.
  intros Hl Ho Hm Hr Hx f Hf.
  pose proof (from_positive _ _ _ eq_refl Hl).
  assert (op = "OR") as ->.
  { unfold OR_OPS in Hm. cbn [existsb] in Hm. rewrite orb_false_r in Hm.
    now apply String.eqb_eq in Hm. }
  destruct f as [|[|f]]; try lia. cbn [_parse_logical_or].
  rewrite Hl by lia. cbn [fbind or_loop].
  change ["OR"] with OR_OPS.
  rewrite (match_hit T _ _ _ Ho Hm). cbn [lift fbind truthy_opt truthy].
  rewrite Hr by lia. cbn [fbind create_binary_expression].
  destruct f as [|f]; [lia|]. cbn [or_loop].
  change ["OR"] with OR_OPS.
  rewrite (match_miss T _ _ Hx). reflexivity.
Qed.

(** From [_parse_unary] up to [_parse_logical_or] when the next token is
    no binary operator. *)
Definition no_operator (t : option string) : Prop :=
  in_tuple t MUL_OPS = false /\ in_tuple t ADD_OPS = false
  /\ in_tuple t CMP_OPS = false /\ in_tuple t AND_OPS = false
  /\ in_tuple t OR_OPS = false.

Lemma exit_all n pos r :
  from n (fun f => _parse_unary T f pos) r ->
  no_operator (_peek T (snd r)) ->
  from (5 + n) (fun f => _parse_logical_or T f pos) r.
Proof.
  intros H [M [A [C [N O]]]].
  apply exit_or; [|exact O]. apply exit_and; [|exact N].
  apply exit_cmp; [|exact C]. apply exit_add; [|exact A].
  now apply exit_mul.
Qed.

(** An operator of [BINARY_OPERATORS] between two operands that
    [_parse_unary] reads, up to [_parse_logical_or]. *)
Lemma one_binary n pos l p1 op r p2 :
  from n (fun f => _parse_unary T f pos) (l, p1) ->
  _peek T p1 = Some op ->
  existsb (String.eqb op) BINARY_OPERATORS = true ->
  from n (fun f => _parse_unary T f (S p1)) (r, p2) ->
  no_operator (_peek T p2) ->
  from (6 + n) (fun f => _parse_logical_or T f pos)
    (BinaryExpression op l r, p2).
Proof.
  intros Hl Ho Hm Hr [M [A [C [N O]]]].
  assert (Cases : existsb (String.eqb op) MUL_OPS = true
                  \/ existsb (String.eqb op) ADD_OPS = true
                  \/ existsb (String.eqb op) CMP_OPS = true
                  \/ existsb (String.eqb op) AND_OPS = true
                  \/ existsb (String.eqb op) OR_OPS = true).
  { assert (In op BINARY_OPERATORS) as Hin.
    { apply existsb_exists in Hm. destruct Hm as [x [Hx Ex]].
      apply String.eqb_eq in Ex. now subst. }
    unfold BINARY_OPERATORS in Hin. simpl in Hin.
    each_member Hin; vm_compute; tauto. }
  assert (Lop : forall ops,
             existsb (String.eqb op) ops = false ->
             in_tuple (_peek T p1) ops = false)
    by (intros ops E; rewrite Ho; exact E).
  assert (Class : forall a b c d e,
             existsb (String.eqb op) a = true ->
             (a, b, c, d, e) = (MUL_OPS, ADD_OPS, CMP_OPS, AND_OPS, OR_OPS)
             \/ (a, b, c, d, e) = (ADD_OPS, MUL_OPS, CMP_OPS, AND_OPS, OR_OPS)
             \/ (a, b, c, d, e) = (CMP_OPS, MUL_OPS, ADD_OPS, AND_OPS, OR_OPS)
             \/ (a, b, c, d, e) = (AND_OPS, MUL_OPS, ADD_OPS, CMP_OPS, OR_OPS)
             \/ (a, b, c, d, e) = (OR_OPS, MUL_OPS, ADD_OPS, CMP_OPS, AND_OPS) ->
             existsb (String.eqb op) b = false
             /\ existsb (String.eqb op) c = false
             /\ existsb (String.eqb op) d = false
             /\ existsb (String.eqb op) e = false).
  { intros a b c d e Ha Hs.
    assert (In op a) as Hin.
    { apply existsb_exists in Ha. destruct Ha as [x [Hx Ex]].
      apply String.eqb_eq in Ex. now subst. }
    destruct Hs as [Hs|[Hs|[Hs|[Hs|Hs]]]]; injection Hs as -> -> -> -> ->;
      unfold MUL_OPS, ADD_OPS, CMP_OPS, AND_OPS, OR_OPS in Hin;
      simpl in Hin; each_member Hin; repeat split; reflexivity. }
  destruct Cases as [H|[H|[H|[H|H]]]].
  - destruct (Class MUL_OPS ADD_OPS CMP_OPS AND_OPS OR_OPS H) as [_ _];
      [tauto|].
    apply from_le with (5 + (1 + n)); [|lia].
    apply exit_or; [|exact O]. apply exit_and; [|exact N].
    apply exit_cmp; [|exact C]. apply exit_add; [|exact A].
    now apply one_mul with p1.
  - destruct (Class ADD_OPS MUL_OPS CMP_OPS AND_OPS OR_OPS H)
      as [Em _]; [tauto|].
    apply from_le with (3 + (3 + n)); [|lia].
    apply exit_or; [|exact O]. apply exit_and; [|exact N].
    apply exit_cmp; [|exact C].
    apply one_add with p1; auto.
    + apply exit_mul; [exact Hl | now apply Lop].
    + apply exit_mul; [exact Hr | exact M].
  - destruct (Class CMP_OPS MUL_OPS ADD_OPS AND_OPS OR_OPS H)
      as [Em [Ea _]]; [tauto|].
    apply from_le with (2 + (3 + n)); [|lia].
    apply exit_or; [|exact O]. apply exit_and; [|exact N].
    apply one_cmp with p1; auto.
    + apply exit_add; [|now apply Lop].
      apply exit_mul; [exact Hl | now apply Lop].
    + apply exit_add; [|exact A]. apply exit_mul; [exact Hr | exact M].
  - destruct (Class AND_OPS MUL_OPS ADD_OPS CMP_OPS OR_OPS H)
      as [Em [Ea [Ec _]]]; [tauto|].
    apply from_le with (1 + (5 + n)); [|lia].
    apply exit_or; [|exact O].
    apply one_and with p1; auto.
    + apply exit_cmp; [|now apply Lop]. apply exit_add; [|now apply Lop].
      apply exit_mul; [exact Hl | now apply Lop].
    + apply exit_cmp; [|exact C]. apply exit_add; [|exact A].
      apply exit_mul; [exact Hr | exact M].
  - destruct (Class OR_OPS MUL_OPS ADD_OPS CMP_OPS AND_OPS H)
      as [Em [Ea [Ec En]]]; [tauto|].
    apply one_or with p1; auto.
    + apply exit_and; [|now apply Lop]. apply exit_cmp; [|now apply Lop].
      apply exit_add; [|now apply Lop].
      apply exit_mul; [exact Hl | now apply Lop].
    + apply exit_and; [|exact N]. apply exit_cmp; [|exact C].
      apply exit_add; [|exact A]. apply exit_mul; [exact Hr | exact M].
Qed.

End ExprOperators.

(** ** Single tokens *)

Lemma ident_start_facts (c : ascii) :
  ExpressionParser.is_ident_start c = true ->
  is_digit c = false /\ is_space c = false
  /\ Ascii.eqb c "(" = false /\ Ascii.eqb c ")" = false
  /\ Ascii.eqb c DQ = false /\ Ascii.eqb c "-" = false
  /\ Ascii.eqb c "<" = false /\ Ascii.eqb c LF = false.
Proof.
  destruct c as [[] [] [] [] [] [] [] []]; intros H;
    try discriminate H; repeat split; reflexivity.
Qed.

Lemma digit_facts (c : ascii) :
  is_digit c = true ->
  ExpressionParser.is_ident_start c = false /\ is_space c = false
  /\ Ascii.eqb c "(" = false /\ Ascii.eqb c ")" = false
  /\ Ascii.eqb c DQ = false /\ Ascii.eqb c "-" = false
  /\ Ascii.eqb c "." = false /\ Ascii.eqb c "<" = false
  /\ Ascii.eqb c LF = false /\ is_linebreak c = false
  /\ ExpressionParser.is_ident_char c = true.
Proof.
  destruct c as [[] [] [] [] [] [] [] []]; intros H;
    try discriminate H; repeat split; reflexivity.
Qed.

Lemma ident_char_facts (c : ascii) :
  ExpressionParser.is_ident_char c = true ->
  is_linebreak c = false /\ is_space c = false
  /\ Ascii.eqb c ")" = false /\ Ascii.eqb c LF = false.
Proof.
  destruct c as [[] [] [] [] [] [] [] []]; intros H;
    try discriminate H; repeat split; reflexivity.
Qed.

Lemma prefix_head_false (c d : ascii) (p s : string) :
  Ascii.eqb c d = false -> String.prefix (String d p) (String c s) = false.
Proof.
  intros H. cbn [String.prefix].
  destruct (ascii_dec d c) as [->|_]; [|reflexivity].
  rewrite Ascii.eqb_refl in H. discriminate H.
Qed.

Lemma eqb_head_false (c d : ascii) (r s : string) :
  Ascii.eqb c d = false -> String.eqb (String c r) (String d s) = false.
Proof. intros H. simpl. now rewrite H. Qed.


Lemma reserved_word (name w : string) :
  existsb (String.eqb name) RapcodeParser.RESERVED_KEYWORDS = false ->
  In w RapcodeParser.RESERVED_KEYWORDS -> String.eqb name w = false.
Proof.
  intros H Hw. destruct (String.eqb name w) eqn:E; auto.
  assert (existsb (String.eqb name) RapcodeParser.RESERVED_KEYWORDS = true)
    by (apply existsb_exists; exists w; split; auto).
  congruence.
Qed.

Ltac reserved := unfold RapcodeParser.RESERVED_KEYWORDS; simpl; tauto.

Lemma digits_number (d : string) (seen : bool) :
  all_chars is_digit d = true ->
  ExpressionParser.digits_then ExpressionParser.after_int seen d
  = match d with EmptyString => seen | _ => true end.
Proof.
  revert seen; induction d as [|c d IH]; intros seen H; [reflexivity|].
  simpl in H. apply andb_prop in H. destruct H as [Hc Hd]. simpl.
  rewrite Hc, (IH true Hd). now destruct d.
Qed.

Lemma digits_no_dot (d : string) :
  all_chars is_digit d = true -> ExpressionParser.split_dot d = (d, None).
Proof.
  induction d as [|c d IH]; intros H; [reflexivity|].
  simpl in H. apply andb_prop in H. destruct H as [Hc Hd].
  destruct (digit_facts c Hc) as [_ [_ [_ [_ [_ [_ [Dot _]]]]]]].
  simpl. rewrite (IH Hd).
  destruct c as [[] [] [] [] [] [] [] []]; try reflexivity; discriminate Dot.
Qed.

Lemma decimal_number (i f : string) (seen : bool) :
  all_chars is_digit i = true -> all_chars is_digit f = true ->
  seen = true \/ i <> "" ->
  ExpressionParser.digits_then ExpressionParser.after_int seen
    (i ++ "." ++ f) = true.
Proof.
  revert seen; induction i as [|c i IH]; intros seen Hi Hf Hs.
  - destruct Hs as [->|N]; [exact Hf | contradiction].
  - simpl in Hi. apply andb_prop in Hi. destruct Hi as [Hc Hi].
    cbn [append ExpressionParser.digits_then]. rewrite Hc.
    apply IH; auto.
Qed.

Lemma decimal_dot (i f : string) :
  all_chars is_digit i = true ->
  ExpressionParser.split_dot (i ++ "." ++ f) = (i, Some f).
Proof.
  change ("." ++ f) with (String "." f).
  induction i as [|c i IH]; intros H; [reflexivity|].
  simpl in H. apply andb_prop in H. destruct H as [Hc Hi].
  destruct (digit_facts c Hc) as [_ [_ [_ [_ [_ [_ [Dot _]]]]]]].
  cbn [append]. specialize (IH Hi).
  destruct c as [[] [] [] [] [] [] [] []]; try discriminate Dot;
    cbn [ExpressionParser.split_dot]; now rewrite IH.
Qed.

Section Atoms.
Import ExpressionParser.
Variable T : list string.

(** What [_parse_unary] does on one token that is no prefix operator and
    no parenthesis: it is [_parse_atom]. *)
Lemma unary_is_atom (f pos : nat) (t : string) :
  _peek T pos = Some t ->
  existsb (String.eqb t) ["NOT"; "-"] = false ->
  _parse_unary T (S f) pos = _parse_atom T f pos.
Proof.
  intros E N. cbn [_parse_unary]. unfold _match. rewrite E.
  cbn [in_tuple]. rewrite N. reflexivity.
Qed.

Lemma atom_bool (pos : nat) (b : bool) :
  _peek T pos = Some (literal_to_string (VBool b)) ->
  from 2 (fun f => _parse_unary T f pos) (Literal (VBool b), S pos).
Proof.
  intros E f Hf. destruct f as [|[|f]]; try lia.
  rewrite (unary_is_atom _ _ _ E) by now destruct b.
  cbn [_parse_atom]. rewrite E. destruct b; reflexivity.
Qed.

Lemma atom_int (pos : nat) (n : Z) :
  (0 <= n)%Z ->
  _peek T pos = Some (str_Z n) ->
  from 2 (fun f => _parse_unary T f pos) (Literal (VInt n), S pos).
Proof.
  intros Hn E f Hf. destruct f as [|[|f]]; try lia.
  pose proof (int_digits_str_Z n Hn) as Hv.
  rewrite str_Z_nonneg in * by exact Hn.
  destruct (str_nat_head (Z.abs_nat n)) as [c [r [Es Hc]]].
  pose proof (str_nat_digits (Z.abs_nat n)) as D.
  destruct (digit_facts c Hc) as [I [_ [P1 [_ [Q [M _]]]]]].
  assert (Hd : forall d s, is_digit d = false ->
                 String.eqb (str_nat (Z.abs_nat n)) (String d s) = false).
  { intros d s Hds. rewrite Es. apply eqb_head_false.
    destruct (Ascii.eqb_spec c d) as [->|_]; [congruence | reflexivity]. }
  rewrite (unary_is_atom _ _ _ E)
    by (cbn [existsb]; rewrite !Hd by reflexivity; reflexivity).
  cbn [_parse_atom]. rewrite E.
  rewrite !Hd by reflexivity.
  assert (startswith (str_nat (Z.abs_nat n)) QUOTE = false) as ->
    by (rewrite Es; now apply prefix_head_false).
  unfold is_number. rewrite (digits_number _ false D). rewrite Es at 1.
  cbn [lift fbind _consume truthy_opt andb]. rewrite E.
  cbn [fret fmt_opt]. unfold number_value. rewrite (digits_no_dot _ D).
  rewrite Hv. reflexivity.
Qed.

Lemma atom_float (pos : nat) (x : binary64.float) :
  plain_float x = true ->
  _peek T pos = Some (binary64.repr x) ->
  from 2 (fun f => _parse_unary T f pos) (Literal (VFloat x), S pos).
Proof.
  intros Hx E f Hf. destruct f as [|[|f]]; try lia.
  destruct (float_text x Hx) as [c [r [fr [Et [Di [Df Ev]]]]]].
  rewrite Et in E. pose proof Di as Di'. simpl in Di'.
  apply andb_prop in Di'. destruct Di' as [Hc _].
  destruct (digit_facts c Hc) as [I [_ [P1 [_ [Q [M _]]]]]].
  assert (Hd : forall d s, is_digit d = false ->
                 String.eqb (String c r ++ "." ++ fr) (String d s) = false).
  { intros d s Hds. apply eqb_head_false.
    destruct (Ascii.eqb_spec c d) as [->|_]; [congruence | reflexivity]. }
  rewrite (unary_is_atom _ _ _ E)
    by (cbn [existsb]; rewrite !Hd by reflexivity; reflexivity).
  cbn [_parse_atom]. rewrite E.
  rewrite !Hd by reflexivity.
  assert (startswith (String c r ++ "." ++ fr) QUOTE = false) as ->
    by now apply prefix_head_false.
  unfold is_number.
  rewrite (decimal_number (String c r) fr false Di Df)
    by (right; discriminate).
  cbn [lift fbind _consume truthy_opt andb]. rewrite E.
  cbn [fret fmt_opt]. unfold number_value.
  rewrite (decimal_dot _ fr Di), Ev. reflexivity.
Qed.

Lemma atom_string (pos : nat) (s : string) :
  _peek T pos = Some (QUOTE ++ s ++ QUOTE) ->
  from 2 (fun f => _parse_unary T f pos) (Literal (VStr s), S pos).
Proof.
  intros E f Hf. destruct f as [|[|f]]; try lia.
  rewrite (unary_is_atom _ _ _ E) by reflexivity.
  cbn [_parse_atom]. rewrite E.
  change (String.eqb (QUOTE ++ s ++ QUOTE) "(") with false.
  change (String.eqb (QUOTE ++ s ++ QUOTE) "INPUT") with false.
  change (String.eqb (QUOTE ++ s ++ QUOTE) "TRUE") with false.
  change (String.eqb (QUOTE ++ s ++ QUOTE) "FALSE") with false.
  cbv iota. rewrite startswith_quote.
  cbn [lift fbind _consume truthy_opt andb]. rewrite E.
  cbn [fret fmt_opt]. unfold create_literal.
  rewrite startswith_quote.
  assert (endswith (QUOTE ++ s ++ QUOTE) QUOTE = true) as ->
    by (rewrite <- append_assoc; apply endswith_quote).
  cbn [andb]. now rewrite slice_quoted.
Qed.

Lemma atom_name (pos : nat) (name : string) :
  plain_name name = true ->
  _peek T pos = Some name ->
  from 2 (fun f => _parse_unary T f pos) (Identifier name, S pos).
Proof.
  intros Hp E f Hf. destruct f as [|[|f]]; try lia.
  unfold plain_name in Hp. apply andb_prop in Hp. destruct Hp as [Hi Hr].
  apply negb_true_iff in Hr.
  assert (Hw : forall w, In w RapcodeParser.RESERVED_KEYWORDS ->
                 String.eqb name w = false)
    by (intros w; now apply reserved_word).
  destruct name as [|c r]; [discriminate Hi|].
  simpl in Hi. apply andb_prop in Hi. destruct Hi as [Hs Hc].
  destruct (ident_start_facts c Hs) as [D [_ [P1 [_ [Q [M _]]]]]].
  rewrite (unary_is_atom _ _ _ E).
  2:{ cbn [existsb]. rewrite (Hw "NOT") by reserved.
      now rewrite (eqb_head_false c "-" r "" M). }
  cbn [_parse_atom]. rewrite E.
  rewrite (eqb_head_false c "(" r "" P1).
  rewrite (Hw "INPUT") by reserved. rewrite (Hw "TRUE") by reserved.
  rewrite (Hw "FALSE") by reserved.
  assert (startswith (String c r) QUOTE = false) as ->
    by now apply prefix_head_false.
  assert (is_number (String c r) = false) as ->
    by (unfold is_number; simpl; now rewrite D).
  assert (is_identifier (String c r) = true) as ->
    by (simpl; now rewrite Hs, Hc).
  cbn [lift fbind _consume truthy_opt andb]. rewrite E. reflexivity.
Qed.

(** A parenthesized expression. *)
Lemma paren_atom n pos e p2 :
  _peek T pos = Some "(" ->
  from n (fun f => _parse_logical_or T f (S pos)) (e, p2) ->
  _peek T p2 = Some ")" ->
  from (S (S n)) (fun f => _parse_unary T f pos) (e, S p2).
Proof.
  intros E H C f Hf. destruct f as [|[|f]]; try lia.
  rewrite (unary_is_atom _ _ _ E) by reflexivity.
  cbn [_parse_atom]. rewrite E. cbn [String.eqb Ascii.eqb Bool.eqb].
  rewrite (consume_expected T _ _ E). cbn [lift fbind].
  rewrite H by lia. cbn [fbind].
  rewrite (consume_expected T _ _ C). reflexivity.
Qed.

End Atoms.

Ltac lengths :=
  repeat (progress (cbn [length app]; rewrite ?length_app)); try lia.

Lemma close_no_operator (T : list string) (p : nat) :
  ExpressionParser._peek T p = Some ")" ->
  no_operator (ExpressionParser._peek T p).
Proof. intros ->. repeat split; reflexivity. Qed.

Lemma end_no_operator (T : list string) (p : nat) :
  ExpressionParser._peek T p = None ->
  no_operator (ExpressionParser._peek T p).
Proof. intros ->. repeat split; reflexivity. Qed.

(** On the tokens of a stable expression [_parse_unary] returns the
    expression and stops behind its last token, whatever follows. *)
Lemma parse_unary_toks (e : expr) :
  stable_expr e = true ->
  forall (T : list string) (pos : nat) (rest : list string),
    List.skipn pos T = (toks e ++ rest)%list ->
    from (need e) (fun f => ExpressionParser._parse_unary T f pos)
      (e, pos + length (toks e)).
Proof.
  induction e as [|v|name|op l r IHl IHr|op a IHa|callee args IH|ty]
    using expr_nested_ind; intros St T pos rest E; try discriminate St.
  - (* Literal *)
    cbn [toks length app] in *. rewrite Nat.add_1_r.
    pose proof (peek_at T pos _ _ E) as Pk.
    destruct v as [b|n|x|s]; cbn [stable_expr need] in *.
    + now apply atom_bool.
    + apply atom_int; [now apply Z.leb_le | exact Pk].
    + now apply atom_float.
    + now apply atom_string.
  - (* Identifier *)
    cbn [toks length app] in *. rewrite Nat.add_1_r.
    apply atom_name; [exact St | exact (peek_at T pos _ _ E)].
  - (* BinaryExpression *)
    cbn [stable_expr] in St. apply andb_prop in St. destruct St as [St Sr].
    apply andb_prop in St. destruct St as [So Sl].
    assert (Len : pos + length (toks (BinaryExpression op l r))
                  = S (S (S pos + length (toks l)) + length (toks r)))
      by (cbn [toks]; lengths).
    rewrite Len. cbn [need]. cbn [toks app] in E.
    repeat (rewrite <- app_assoc in E; cbn [app] in E).
    pose proof (peek_at T pos _ _ E) as Popen.
    pose proof (skipn_next T pos _ _ E) as E1.
    specialize (IHl Sl T (S pos) _ E1).
    pose proof (skipn_over T (S pos) _ _ E1) as E2. cbn [app] in E2.
    pose proof (peek_at T _ _ _ E2) as Pop.
    pose proof (skipn_next T _ _ _ E2) as E3.
    specialize (IHr Sr T _ _ E3).
    pose proof (skipn_over T _ _ _ E3) as E4. cbn [app] in E4.
    pose proof (peek_at T _ _ _ E4) as Pclose.
    apply from_le with (S (S (6 + Nat.max (need l) (need r)))); [|lia].
    apply paren_atom; [exact Popen| |exact Pclose].
    apply one_binary with (S pos + length (toks l)); auto.
    + eapply from_le; [exact IHl | lia].
    + eapply from_le; [exact IHr | lia].
    + now apply close_no_operator.
  - (* UnaryExpression *)
    cbn [stable_expr] in St. apply andb_prop in St. destruct St as [So Sa].
    destruct (String.eqb op "NOT") eqn:Eop.
    + apply String.eqb_eq in Eop. subst op. cbn [toks need] in *.
      cbn [String.eqb Ascii.eqb Bool.eqb] in *.
      pose proof (peek_at T pos _ _ E) as Pk.
      pose proof (skipn_next T pos _ _ E) as E1.
      specialize (IHa Sa T (S pos) _ E1).
      intros f Hf. destruct f as [|f]; [lia|].
      cbn [ExpressionParser._parse_unary].
      rewrite (match_hit T ["NOT"; "-"] _ _ Pk eq_refl).
      cbn [lift fbind truthy_opt truthy]. rewrite IHa by lia.
      cbn [fbind fret fmt_opt create_unary_expression length].
      now rewrite Nat.add_succ_r.
    + cbn [orb] in So. apply String.eqb_eq in So. subst op.
      assert (Len : pos + length (toks (UnaryExpression "-" a))
                    = S (S (S pos) + length (toks a)))
        by (cbn [toks String.eqb Ascii.eqb Bool.eqb]; lengths).
      rewrite Len. cbn [toks need String.eqb Ascii.eqb Bool.eqb app] in *.
      repeat (rewrite <- app_assoc in E; cbn [app] in E).
      pose proof (peek_at T pos _ _ E) as Popen.
      pose proof (skipn_next T pos _ _ E) as E1.
      pose proof (peek_at T _ _ _ E1) as Pminus.
      pose proof (skipn_next T _ _ _ E1) as E2.
      specialize (IHa Sa T _ _ E2).
      pose proof (skipn_over T _ _ _ E2) as E3. cbn [app] in E3.
      pose proof (peek_at T _ _ _ E3) as Pclose.
      apply from_le with (S (S (5 + (1 + need a)))); [|lia].
      apply paren_atom; [exact Popen| |exact Pclose].
      apply exit_all; [|now apply close_no_operator].
      intros f Hf. destruct f as [|f]; [lia|].
      cbn [ExpressionParser._parse_unary].
      rewrite (match_hit T ["NOT"; "-"] _ _ Pminus eq_refl).
      cbn [lift fbind truthy_opt truthy]. rewrite IHa by lia.
      reflexivity.
  - (* CallExpression *)
    cbn [stable_expr] in St. apply andb_prop in St. destruct St as [Sc Sp].
    apply String.eqb_eq in Sc. subst callee.
    destruct args as [|p [|q args]]; try discriminate Sp.
    inversion IH as [|? ? IHp _]; subst.
    cbn [toks need app] in *.
    repeat (rewrite <- app_assoc in E; cbn [app] in E).
    pose proof (peek_at T pos _ _ E) as Pin.
    pose proof (skipn_next T pos _ _ E) as E1.
    pose proof (peek_at T _ _ _ E1) as Popen.
    pose proof (skipn_next T _ _ _ E1) as E2.
    specialize (IHp Sp T _ _ E2).
    pose proof (skipn_over T _ _ _ E2) as E3. cbn [app] in E3.
    pose proof (peek_at T _ _ _ E3) as Pclose.
    pose proof (exit_all T _ _ _ IHp (close_no_operator T _ Pclose)) as Hor.
    intros f Hf. destruct f as [|[|f]]; try lia.
    rewrite (unary_is_atom T _ _ _ Pin) by reflexivity.
    cbn [ExpressionParser._parse_atom]. unfold ExpressionParser._peek in *.
    rewrite Pin. cbn [String.eqb Ascii.eqb Bool.eqb].
    rewrite (consume_expected T _ _ Pin). cbn [lift fbind].
    rewrite (consume_expected T _ _ Popen). cbn [lift fbind].
    rewrite Hor by lia. cbn [fbind].
    rewrite (consume_expected T _ _ Pclose). cbn [lift fbind fret].
    unfold create_input_expression, fret. do 3 f_equal. lengths.
Qed.

Lemma toks_not_empty (e : expr) :
  stable_expr e = true -> toks e <> [].
Proof.
  destruct e; simpl; try discriminate.
  destruct (String.eqb operator "NOT"); discriminate.
Qed.

Lemma need_bound (e : expr) :
  stable_expr e = true -> need e <= 8 * length (toks e).
Proof.
  induction e as [|v|name|op l r IHl IHr|op a IHa|callee args IH|ty]
    using expr_nested_ind; intros St; try discriminate St;
    cbn [toks need length].
  - lia.
  - lia.
  - cbn [stable_expr] in St. apply andb_prop in St. destruct St as [St Sr].
    apply andb_prop in St. destruct St as [So Sl].
    specialize (IHl Sl). specialize (IHr Sr).
    lengths.
  - cbn [stable_expr] in St. apply andb_prop in St. destruct St as [So Sa].
    specialize (IHa Sa). destruct (String.eqb op "NOT"); lengths.
  - cbn [stable_expr] in St. apply andb_prop in St. destruct St as [Sc Sp].
    destruct args as [|p [|q args]]; try discriminate Sp.
    inversion IH as [|? ? IHp _]; subst. specialize (IHp Sp).
    lengths.
Qed.

(** [ExpressionParser(tokens).parse()] on the tokens of a stable
    expression returns the expression. *)
Lemma expression_parse_toks (e : expr) :
  stable_expr e = true -> ExpressionParser.parse (toks e) = Some (Ok e).
Proof.
  intros St. unfold ExpressionParser.parse.
  pose proof (toks_not_empty e St) as NE.
  pose proof (need_bound e St) as NB.
  assert (E : List.skipn 0 (toks e) = (toks e ++ [])%list)
    by now rewrite app_nil_r.
  pose proof (parse_unary_toks e St (toks e) 0 [] E) as U. cbn [Nat.add] in U.
  assert (Pk : ExpressionParser._peek (toks e) (length (toks e)) = None)
    by (apply nth_error_None; lia).
  pose proof (exit_all _ _ _ _ U (end_no_operator _ _ Pk)) as O.
  destruct (toks e) eqn:Et; [contradiction|]. rewrite <- Et in *.
  unfold ExpressionParser.parse_fuel. rewrite O by lia.
  cbn [fbind]. rewrite Pk. reflexivity.
Qed.

(** ** The statement parser on printed statements *)

(** The tokens of the text of a statement; every statement of a block is
    preceded by the newline marker of the line break before it. *)
Fixpoint stoks (s : stmt) : list string :=
  let btoks :=
    fix btoks (l : list stmt) : list string :=
      match l with
      | [] => []
      | x :: r => (RapcodeParser.NEWLINE :: stoks x ++ btoks r)%list
      end in
  match s with
  | AssignmentStatement l r => (toks l ++ [":="] ++ toks r)%list
  | ExpressionStatement e =>
      "OUTPUT" :: match arguments_of e with a :: _ => toks a | [] => [] end
  | IfStatement t c a =>
      (["IF"] ++ toks t ++ ["THEN"] ++ btoks (block_body c)
       ++ match a with
          | Some b => [RapcodeParser.NEWLINE; "ELSE"] ++ btoks (block_body b)
          | None => []
          end
       ++ [RapcodeParser.NEWLINE; "ENDIF"])%list
  | WhileStatement t b =>
      ((if RapcodeGenerator.is_literal_true t then ["LOOP"]
        else ["WHILE"] ++ toks t ++ ["DO"])
       ++ btoks (block_body b) ++ [RapcodeParser.NEWLINE; "ENDLOOP"])%list
  | BreakStatement => ["BREAK"]
  | NoneStatement | OtherStatement _ => []
  end.

Fixpoint btoks (l : list stmt) : list string :=
  match l with
  | [] => []
  | x :: r => (RapcodeParser.NEWLINE :: stoks x ++ btoks r)%list
  end.


(** The fuel that [_parse_statement] needs on a statement, and a loop of
    the parser on a list of statements. *)
Fixpoint sneed (s : stmt) : nat :=
  let lneed :=
    fix lneed (l : list stmt) : nat :=
      match l with
      | [] => 1
      | x :: r => sneed x + lneed r
      end in
  match s with
  | IfStatement _ c a =>
      2 + lneed (block_body c)
      + match a with Some b => lneed (block_body b) | None => 0 end
  | WhileStatement _ b => 2 + lneed (block_body b)
  | _ => 1
  end.

Fixpoint lneed (l : list stmt) : nat :=
  match l with
  | [] => 1
  | x :: r => sneed x + lneed r
  end.








Section Scan.
Import RapcodeParser.





End Scan.











Section Statements.
Import RapcodeParser.
Variable T : list string.











End Statements.




Section BlockLoops.
Import RapcodeParser.






End BlockLoops.

Section StatementCursor.
Import RapcodeParser.
Variable T : list string.




End StatementCursor.




(* ================================================================== *)
(** ** The lexer on generated text *)
(* ================================================================== *)

Section Lexer.
Import RapcodeParser.

Lemma span_length (p : ascii -> bool) (s : string) :
  String.length (fst (span p s)) + String.length (snd (span p s))
  = String.length s.
Proof.
  induction s as [|c s IH]; [reflexivity|]. cbn [span].
  destruct (p c); [|reflexivity].
  destruct (span p s) as [a b]. simpl in *. lia.
Qed.

Lemma span_rest (p : ascii -> bool) (s a b : string) :
  span p s = (a, b) -> String.length b <= String.length s.
Proof.
  intros E. pose proof (span_length p s) as L. rewrite E in L. simpl in L.
  lia.
Qed.

Lemma span_nonempty (p : ascii -> bool) (s b : string) (c : ascii)
    (a : string) :
  span p s = (String c a, b) -> String.length b < String.length s.
Proof.
  intros E. pose proof (span_length p s) as L. rewrite E in L. simpl in L.
  lia.
Qed.

Lemma skip_length (n : nat) (s : string) :
  String.length (skip n s) = String.length s - n.
Proof.
  revert s; induction n as [|n IH]; intros [|c s]; simpl; auto.
Qed.

Lemma string_body_rest (s a b : string) :
  string_body s = Some (a, b) -> String.length b < String.length s.
Proof.
  remember (String.length s) as n eqn:Hn. revert s a b Hn.
  induction n as [n IH] using lt_wf_ind. intros s a b Hn E.
  destruct s as [|c r]; [discriminate E|]. cbn [string_body] in E.
  simpl in Hn.
  destruct (Ascii.eqb c DQ).
  { injection E as _ <-. simpl. lia. }
  destruct (Ascii.eqb c BACKSLASH).
  - destruct r as [|c' r']; [discriminate E|].
    destruct (Ascii.eqb c' LF); [discriminate E|].
    destruct (string_body r') as [[a' b']|] eqn:E'; [|discriminate E].
    injection E as _ <-. simpl in *.
    pose proof (IH (String.length r') ltac:(lia) r' a' b' eq_refl E'). lia.
  - destruct (string_body r) as [[a' b']|] eqn:E'; [|discriminate E].
    injection E as _ <-. simpl in *.
    pose proof (IH (String.length r) ltac:(lia) r a' b' eq_refl E'). lia.
Qed.

Lemma first_prefix_rest (ops : list string) (s op rest : string) :
  Forall (fun o => o <> EmptyString) ops ->
  first_prefix ops s = Some (op, rest) ->
  s <> EmptyString -> String.length rest < String.length s.
Proof.
  induction ops as [|o ops IH]; intros F E N; [discriminate E|].
  inversion F as [|? ? No Fo]; subst. cbn [first_prefix] in E.
  destruct (String.prefix o s).
  - injection E as <- <-. rewrite skip_length.
    destruct o; [contradiction|]. destruct s; [contradiction|]. simpl. lia.
  - now apply IH.
Qed.

(** Every match of the pattern consumes at least one character. *)
Lemma next_match_rest (s : string) (t : list string) (rest : string) :
  next_match s = Some (t, rest) -> String.length rest < String.length s.
Proof.
  unfold next_match. intros E.
  destruct (lex_space s) as [[a b]|] eqn:E1.
  { injection E as _ <-. unfold lex_space in E1.
    destruct (span is_space s) as [[|c a'] b'] eqn:Sp; [discriminate E1|].
    injection E1 as _ <-. now apply span_nonempty in Sp. }
  destruct (lex_comment s) as [[a b]|] eqn:E2.
  { injection E as _ <-. unfold lex_comment in E2.
    destruct s as [|c s']; [discriminate E2|].
    destruct c as [[] [] [] [] [] [] [] []];
      cbv beta iota in E2; try discriminate E2.
    destruct s' as [|c' r]; [discriminate E2|].
    destruct c' as [[] [] [] [] [] [] [] []];
      cbv beta iota in E2; try discriminate E2.
    destruct (span (fun c => negb (Ascii.eqb c LF)) r) as [a' b'] eqn:Sp.
    cbv beta iota in E2. injection E2 as _ <-. apply span_rest in Sp. simpl. lia. }
  destruct (lex_ident s) as [[a b]|] eqn:E3.
  { injection E as _ <-. unfold lex_ident in E3.
    destruct s as [|c r]; [discriminate E3|].
    destruct (ExpressionParser.is_ident_start c); [|discriminate E3].
    destruct (span ExpressionParser.is_ident_char r) as [a' b'] eqn:Sp.
    injection E3 as _ <-. apply span_rest in Sp. simpl. lia. }
  destruct (lex_operator s) as [[a b]|] eqn:E4.
  { injection E as _ <-. unfold lex_operator in E4.
    destruct s as [|c r]; [discriminate E4|].
    apply first_prefix_rest in E4; [exact E4| |discriminate].
    unfold OPERATORS. repeat constructor; discriminate. }
  destruct (lex_number s) as [[a b]|] eqn:E5.
  { injection E as _ <-. unfold lex_number in E5.
    destruct (span is_digit s) as [[|c a'] b'] eqn:Sp; [discriminate E5|].
    pose proof (span_nonempty _ _ _ _ _ Sp) as L.
    destruct b' as [|d r].
    - injection E5 as _ <-. exact L.
    - destruct (Ascii.eqb_spec d ".") as [->|Nd].
      + destruct (span is_digit r) as [f b''] eqn:Sp'.
        injection E5 as _ <-. apply span_rest in Sp'. simpl in L. lia.
      + assert (b = String d r) as ->; [|exact L].
        destruct d as [[] [] [] [] [] [] [] []];
          try (injection E5 as _ <-; reflexivity).
        now contradiction Nd. }
  destruct (lex_string s) as [[a b]|] eqn:E6.
  { injection E as _ <-. unfold lex_string in E6.
    destruct s as [|c r]; [discriminate E6|].
    destruct (Ascii.eqb c DQ); [|discriminate E6].
    destruct (string_body r) as [[a' b']|] eqn:Sb; [|discriminate E6].
    injection E6 as _ <-. apply string_body_rest in Sb. simpl. lia. }
  destruct (lex_char s) as [[a b]|] eqn:E7; [|discriminate E].
  injection E as _ <-. unfold lex_char in E7.
  destruct s as [|c r]; [discriminate E7|].
  destruct (Ascii.eqb c LF); [discriminate E7|].
  injection E7 as _ <-. simpl. lia.
Qed.

Lemma next_match_empty : next_match "" = None.
Proof. reflexivity. Qed.

(** The number of matches never exceeds the length of the text: any larger
    bound gives the same tokens. *)
Lemma tokenize_from_enough (f1 : nat) :
  forall f2 s, String.length s <= f1 -> String.length s <= f2 ->
    tokenize_from f1 s = tokenize_from f2 s.
Proof.
  induction f1 as [|f1 IH]; intros [|f2] s H1 H2; try reflexivity.
  - destruct s; [reflexivity | simpl in H1; lia].
  - destruct s; [reflexivity | simpl in H2; lia].
  - cbn [tokenize_from].
    destruct (next_match s) as [[t rest]|] eqn:E; [|reflexivity].
    apply next_match_rest in E. f_equal. apply IH; lia.
Qed.

Lemma tokenize_empty : _tokenize "" = [].
Proof. reflexivity. Qed.

Lemma tokenize_step (s : string) (t : list string) (rest : string) :
  next_match s = Some (t, rest) ->
  _tokenize s = (t ++ _tokenize rest)%list.
Proof.
  intros E. pose proof (next_match_rest _ _ _ E) as L. unfold _tokenize.
  destruct (String.length s) as [|n] eqn:Hn; [lia|].
  cbn [tokenize_from]. rewrite E. f_equal.
  apply tokenize_from_enough; lia.
Qed.

End Lexer.

Section Tokens.
Import RapcodeParser.

(** The text [k] is empty or starts with a character outside the class. *)
Definition stops_at (p : ascii -> bool) (k : string) : Prop :=
  match k with String c _ => p c = false | EmptyString => True end.

(** What follows a printed expression: nothing, a blank, a closing
    parenthesis or a line feed. *)
Definition delim (k : string) : Prop :=
  match k with
  | String c _ => c = " "%char \/ c = ")"%char \/ c = LF
  | EmptyString => True
  end.

Lemma span_all (p : ascii -> bool) (a k : string) :
  all_chars p a = true -> stops_at p k -> span p (a ++ k) = (a, k).
Proof.
  intros Ha Hk. induction a as [|c a IH]; cbn [append span].
  - destruct k as [|d k]; [reflexivity|]. cbn [span]. simpl in Hk.
    now rewrite Hk.
  - simpl in Ha. apply andb_prop in Ha. destruct Ha as [Hc Ha].
    now rewrite Hc, (IH Ha).
Qed.

Lemma delim_facts (k : string) :
  delim k ->
  stops_at ExpressionParser.is_ident_char k /\ stops_at is_digit k
  /\ stops_at (fun c => Ascii.eqb c ".") k.
Proof.
  destruct k as [|c k]; [now repeat split|].
  intros [H|[H|H]]; subst c; repeat split; reflexivity.
Qed.

Lemma lex_space_other (c : ascii) (r : string) :
  is_space c = false -> lex_space (String c r) = None.
Proof. intros H. unfold lex_space. cbn [span]. now rewrite H. Qed.

Lemma lex_comment_other (c : ascii) (r : string) :
  Ascii.eqb c "-" = false -> lex_comment (String c r) = None.
Proof.
  destruct c as [[] [] [] [] [] [] [] []]; intros H; try reflexivity.
  destruct r; discriminate H.
Qed.

Lemma lex_comment_single (c : ascii) (r : string) :
  Ascii.eqb c "-" = false -> lex_comment (String "-" (String c r)) = None.
Proof.
  destruct c as [[] [] [] [] [] [] [] []]; intros H; try reflexivity.
  discriminate H.
Qed.

Lemma lex_ident_other (c : ascii) (r : string) :
  ExpressionParser.is_ident_start c = false -> lex_ident (String c r) = None.
Proof. intros H. unfold lex_ident. now rewrite H. Qed.

(** The characters that start an operator. *)
Definition operator_start (c : ascii) : bool :=
  existsb (Ascii.eqb c)
    [":"; "="; "!"; "<"; ">"; "+"; "-"; "*"; "/"; "^"]%char.

Lemma lex_operator_other (c : ascii) (r : string) :
  operator_start c = false -> lex_operator (String c r) = None.
Proof.
  destruct c as [[] [] [] [] [] [] [] []]; intros H; try reflexivity;
    discriminate H.
Qed.

Lemma lex_number_other (c : ascii) (r : string) :
  is_digit c = false -> lex_number (String c r) = None.
Proof. intros H. unfold lex_number. cbn [span]. now rewrite H. Qed.

Lemma lex_string_other (c : ascii) (r : string) :
  Ascii.eqb c DQ = false -> lex_string (String c r) = None.
Proof. intros H. unfold lex_string. now rewrite H. Qed.

(** An identifier or keyword, up to the first character that cannot
    continue it. *)
Lemma next_word (c : ascii) (r k : string) :
  ExpressionParser.is_ident_start c = true ->
  all_chars ExpressionParser.is_ident_char r = true ->
  stops_at ExpressionParser.is_ident_char k ->
  next_match (String c r ++ k) = Some ([String c r], k).
Proof.
  intros Hc Hr Hk.
  destruct (ident_start_facts c Hc) as [_ [Sp [_ [_ [_ [Mi _]]]]]].
  unfold next_match. cbn [append].
  rewrite (lex_space_other _ _ Sp), (lex_comment_other _ _ Mi).
  unfold lex_ident. now rewrite Hc, (span_all _ _ _ Hr Hk).
Qed.

Lemma digit_no_operator (c : ascii) :
  is_digit c = true -> operator_start c = false.
Proof.
  destruct c as [[] [] [] [] [] [] [] []]; intros H; try reflexivity;
    discriminate H.
Qed.

(** An integer, up to the first character that is no digit. *)
Lemma next_digits (c : ascii) (r k : string) :
  all_chars is_digit (String c r) = true ->
  stops_at is_digit k -> stops_at (fun c => Ascii.eqb c ".") k ->
  next_match (String c r ++ k) = Some ([String c r], k).
Proof.
  intros Hd Hk Hdot. pose proof Hd as Hd'.
  simpl in Hd'. apply andb_prop in Hd'. destruct Hd' as [Hc _].
  destruct (digit_facts c Hc) as [Id [Sp [_ [_ [_ [Mi _]]]]]].
  unfold next_match. cbn [append].
  rewrite (lex_space_other _ _ Sp), (lex_comment_other _ _ Mi),
    (lex_ident_other _ _ Id), (lex_operator_other _ _ (digit_no_operator _ Hc)).
  unfold lex_number.
  change (String c (r ++ k)) with (String c r ++ k).
  rewrite (span_all _ _ _ Hd Hk).
  destruct k as [|d k]; [reflexivity|]. simpl in Hdot.
  destruct d as [[] [] [] [] [] [] [] []]; try reflexivity.
  discriminate Hdot.
Qed.

(** A number with a dot, up to the first character behind its fraction
    that is no digit. *)
Lemma next_decimal (c : ascii) (r f k : string) :
  all_chars is_digit (String c r) = true -> all_chars is_digit f = true ->
  stops_at is_digit k ->
  next_match ((String c r ++ "." ++ f) ++ k)
  = Some ([String c r ++ "." ++ f], k).
Proof.
  intros Hd Hf Hk. pose proof Hd as Hd'.
  simpl in Hd'. apply andb_prop in Hd'. destruct Hd' as [Hc _].
  destruct (digit_facts c Hc) as [Id [Sp [_ [_ [_ [Mi _]]]]]].
  unfold next_match. rewrite !append_assoc. cbn [append].
  rewrite (lex_space_other _ _ Sp), (lex_comment_other _ _ Mi),
    (lex_ident_other _ _ Id), (lex_operator_other _ _ (digit_no_operator _ Hc)).
  unfold lex_number.
  change (String c (r ++ String "." (f ++ k)))
    with (String c r ++ String "." (f ++ k)).
  rewrite (span_all is_digit (String c r) (String "." (f ++ k)) Hd eq_refl).
  cbv iota beta. rewrite (span_all is_digit f k Hf Hk). reflexivity.
Qed.

Lemma string_body_quotable (s : string) :
  forall k, quotable s = true ->
    string_body (s ++ QUOTE ++ k) = Some (s ++ QUOTE, k).
Proof.
  remember (String.length s) as n eqn:Hn. revert s Hn.
  induction n as [n IH] using lt_wf_ind. intros s Hn k H.
  destruct s as [|c r]; [reflexivity|]. cbn [quotable] in H.
  simpl in Hn. cbn [append string_body].
  destruct (Ascii.eqb c DQ); [discriminate H|].
  destruct (Ascii.eqb c BACKSLASH).
  - destruct r as [|c' r']; [discriminate H|].
    apply andb_prop in H. destruct H as [Hl Hr].
    apply negb_true_iff in Hl. cbn [append]. rewrite Hl.
    simpl in Hn.
    now rewrite (IH (String.length r') ltac:(lia) r' eq_refl k Hr).
  - now rewrite (IH (String.length r) ltac:(lia) r eq_refl k H).
Qed.

(** A string literal, escapes included. *)
Lemma next_quoted (s k : string) :
  quotable s = true ->
  next_match ((QUOTE ++ s ++ QUOTE) ++ k) = Some ([QUOTE ++ s ++ QUOTE], k).
Proof.
  intros H. rewrite !append_assoc. unfold next_match.
  change (QUOTE ++ s ++ QUOTE ++ k) with (String DQ (s ++ QUOTE ++ k)).
  rewrite lex_space_other, lex_comment_other, lex_ident_other,
    lex_operator_other, lex_number_other by reflexivity.
  unfold lex_string. rewrite Ascii.eqb_refl, (string_body_quotable _ _ H).
  reflexivity.
Qed.

(** A blank between two tokens. *)
Lemma next_blank (k : string) :
  stops_at is_space k -> next_match (String " " k) = Some ([], k).
Proof.
  intros Hk. unfold next_match, lex_space.
  change (String " " k) with (" " ++ k).
  now rewrite (span_all is_space " " k eq_refl Hk).
Qed.



End Tokens.

Section Printing.
Import RapcodeParser.

Lemma tok_word (c : ascii) (r k : string) :
  ExpressionParser.is_ident_start c = true ->
  all_chars ExpressionParser.is_ident_char r = true ->
  stops_at ExpressionParser.is_ident_char k ->
  _tokenize (String c r ++ k) = String c r :: _tokenize k.
Proof.
  intros Hc Hr Hk. exact (tokenize_step _ _ _ (next_word c r k Hc Hr Hk)).
Qed.

Lemma tok_blank (k : string) :
  stops_at is_space k -> _tokenize (String " " k) = _tokenize k.
Proof. intros Hk. exact (tokenize_step _ _ _ (next_blank k Hk)). Qed.

Lemma tok_open (k : string) : _tokenize (String "(" k) = "(" :: _tokenize k.
Proof. now apply (tokenize_step _ ["("] k). Qed.

Lemma tok_close (k : string) : _tokenize (String ")" k) = ")" :: _tokenize k.
Proof. now apply (tokenize_step _ [")"] k). Qed.

(** The first character of a printed expression: no blank, no minus
    sign. *)
Definition opens (text : string) : Prop :=
  match text with
  | String c _ => is_space c = false /\ Ascii.eqb c "-" = false
  | EmptyString => False
  end.

Lemma opens_stops (text k : string) :
  opens text -> stops_at is_space (text ++ k).
Proof. destruct text; simpl; tauto. Qed.

Lemma tok_minus (k : string) :
  opens k -> _tokenize (String "-" k) = "-" :: _tokenize k.
Proof.
  destruct k as [|c r]; [contradiction|]. intros [_ Mi].
  apply (tokenize_step _ ["-"]). unfold next_match.
  rewrite lex_space_other, (lex_comment_single _ _ Mi), lex_ident_other
    by reflexivity.
  reflexivity.
Qed.

(** An operator between two blanks. *)
Lemma tok_operator (op k : string) :
  In op BINARY_OPERATORS -> stops_at is_space k ->
  _tokenize (String " " (op ++ String " " k)) = op :: _tokenize k.
Proof.
  intros H Hk. unfold BINARY_OPERATORS in H. simpl in H. each_member H;
    cbn [append]; rewrite tok_blank by reflexivity;
    (rewrite (tokenize_step _ [_] (String " " k)) by reflexivity);
    cbn [app]; now rewrite tok_blank.
Qed.

Definition no_linebreak (s : string) : bool :=
  all_chars (fun c => negb (is_linebreak c)) s.

Lemma no_linebreak_app (a b : string) :
  no_linebreak (a ++ b) = no_linebreak a && no_linebreak b.
Proof. apply all_chars_app. Qed.

(** The last character of a text is no line feed. *)
Fixpoint last_not_lf (s : string) : bool :=
  match s with
  | EmptyString => true
  | String c r =>
      match r with
      | EmptyString => negb (Ascii.eqb c LF)
      | _ => last_not_lf r
      end
  end.

(** A text that [splitlines] and a join with line feeds give back: it
    does not end in a line feed and, when [lf] is set, has no other line
    boundary than line feeds. *)
Definition tidy (lf : bool) (text : string) : Prop :=
  last_not_lf text = true /\ (lf = true -> lf_only text = true).

Lemma lf_only_app (a b : string) :
  lf_only (a ++ b) = lf_only a && lf_only b.
Proof. apply all_chars_app. Qed.

Lemma last_not_lf_app (a b : string) :
  b <> "" -> last_not_lf (a ++ b) = last_not_lf b.
Proof.
  intros N. induction a as [|c a IH]; [reflexivity|].
  cbn [append last_not_lf]. rewrite IH.
  destruct (a ++ b) eqn:E; [|reflexivity].
  destruct a; [simpl in E; contradiction | discriminate E].
Qed.

Lemma last_not_lf_both (a b : string) :
  last_not_lf a = true -> last_not_lf b = true ->
  last_not_lf (a ++ b) = true.
Proof.
  intros Ha Hb. destruct b as [|c b]; [now rewrite append_nil_r|].
  now rewrite last_not_lf_app.
Qed.

Lemma no_linebreak_last (x : string) :
  no_linebreak x = true -> last_not_lf x = true.
Proof.
  induction x as [|c x IH]; [reflexivity|]. unfold no_linebreak.
  cbn [all_chars last_not_lf]. intros H. apply andb_prop in H.
  destruct H as [Hc Hx]. destruct x; [|now apply IH].
  destruct (Ascii.eqb_spec c LF) as [->|_]; [discriminate Hc | reflexivity].
Qed.

Lemma no_linebreak_lf_only (x : string) :
  no_linebreak x = true -> lf_only x = true.
Proof.
  apply all_chars_weaken. intros c H. unfold lf_char. now rewrite H.
Qed.

Lemma plain_tidy (lf : bool) (x : string) :
  no_linebreak x = true -> tidy lf x.
Proof.
  intros H. split; [now apply no_linebreak_last|].
  intros _. now apply no_linebreak_lf_only.
Qed.

Lemma tidy_app (a b : bool) (x y : string) :
  tidy a x -> tidy b y -> tidy (a && b) (x ++ y).
Proof.
  intros [Lx Fx] [Ly Fy]. split; [now apply last_not_lf_both|].
  intros H. apply andb_prop in H. destruct H as [Ha Hb].
  now rewrite lf_only_app, (Fx Ha), (Fy Hb).
Qed.

Lemma tidy_weaken (a b : bool) (x : string) :
  (b = true -> a = true) -> tidy a x -> tidy b x.
Proof. intros W [L F]. split; auto. Qed.

(** Text around a tidy text that is not empty. *)
Lemma tidy_around (lf : bool) (a x b : string) :
  lf_only a = true -> no_linebreak b = true -> x <> "" ->
  tidy lf x -> tidy lf (a ++ x ++ b).
Proof.
  intros Ha Hb N [L F]. split.
  - destruct b as [|c b].
    + rewrite append_nil_r, last_not_lf_app; auto.
    + rewrite <- append_assoc, last_not_lf_app by discriminate.
      now apply no_linebreak_last.
  - intros H. rewrite !lf_only_app, (F H), Ha.
    now rewrite no_linebreak_lf_only.
Qed.

Lemma tidy_behind (lf : bool) (a x : string) :
  lf_only a = true -> x <> "" -> tidy lf x -> tidy lf (a ++ x).
Proof.
  intros Ha N T. rewrite <- (append_nil_r x). now apply tidy_around.
Qed.

Lemma digits_no_linebreak (d : string) :
  all_chars is_digit d = true -> no_linebreak d = true.
Proof.
  apply all_chars_weaken. intros c Hc.
  destruct (digit_facts c Hc) as [_ [_ [_ [_ [_ [_ [_ [_ [_ [Lb _]]]]]]]]]].
  now rewrite Lb.
Qed.

(** [text] is the printed form of [e]: a tidy text that the lexer splits
    into the tokens of [e]. *)
Definition printed (e : expr) (text : string) : Prop :=
  expression_to_string e = Ok text /\ opens text
  /\ tidy (lf_expr e) text
  /\ forall k, delim k ->
       _tokenize (text ++ k) = (toks e ++ _tokenize k)%list.

Lemma opens_not_empty (text : string) : opens text -> text <> "".
Proof. destruct text; [contradiction | discriminate]. Qed.

Lemma ident_start_char (c : ascii) :
  ExpressionParser.is_ident_start c = true ->
  ExpressionParser.is_ident_char c = true.
Proof.
  destruct c as [[] [] [] [] [] [] [] []]; intros H; try reflexivity;
    discriminate H.
Qed.

Lemma word_printed (c : ascii) (r : string) :
  ExpressionParser.is_ident_start c = true ->
  all_chars ExpressionParser.is_ident_char r = true ->
  opens (String c r) /\ no_linebreak (String c r) = true.
Proof.
  intros Hc Hr.
  destruct (ident_start_facts c Hc) as [_ [Sp [_ [_ [_ [Mi _]]]]]].
  split; [now split|]. unfold no_linebreak.
  apply all_chars_weaken with ExpressionParser.is_ident_char.
  - intros d Hd. destruct (ident_char_facts d Hd) as [Lb _]. now rewrite Lb.
  - simpl. now rewrite (ident_start_char c Hc), Hr.
Qed.

Lemma print_expr (e : expr) :
  stable_expr e = true -> exists text, printed e text.
Proof.
  induction e as [|v|name|op l r IHl IHr|op a IHa|callee args IH|ty]
    using expr_nested_ind; intros St; try discriminate St;
    unfold printed in *.
  - (* Literal *)
    destruct v as [b|n|x|s]; cbn [stable_expr] in St.
    + exists (if b then "TRUE" else "FALSE").
      split; [reflexivity|]. split; [now destruct b|].
      split; [apply plain_tidy; now destruct b|]. intros k Dk.
      destruct (delim_facts k Dk) as [Hk _]. cbn [toks literal_to_string].
      destruct b; now rewrite tok_word.
    + apply Z.leb_le in St. exists (str_nat (Z.abs_nat n)).
      cbn [toks expression_to_string literal_to_string].
      rewrite (str_Z_nonneg n St).
      pose proof (str_nat_digits (Z.abs_nat n)) as D.
      destruct (str_nat_head (Z.abs_nat n)) as [c [r [E Hc]]].
      rewrite E in *.
      destruct (digit_facts c Hc) as [_ [Sp [_ [_ [_ [Mi _]]]]]].
      split; [reflexivity|]. split; [now split|]. split.
      * apply plain_tidy. now apply digits_no_linebreak.
      * intros k Dk. destruct (delim_facts k Dk) as [_ [Hk Hdot]].
        exact (tokenize_step _ _ _ (next_digits c r k D Hk Hdot)).
    + destruct (float_text x St) as [c [r [f [Et [Di [Df _]]]]]].
      exists (String c r ++ "." ++ f).
      cbn [toks expression_to_string literal_to_string]. rewrite Et.
      pose proof Di as Di'. simpl in Di'. apply andb_prop in Di'.
      destruct Di' as [Hc _].
      destruct (digit_facts c Hc) as [_ [Sp [_ [_ [_ [Mi _]]]]]].
      split; [reflexivity|]. split; [now split|]. split.
      * apply plain_tidy.
        now rewrite !no_linebreak_app, (digits_no_linebreak _ Di),
          (digits_no_linebreak _ Df).
      * intros k Dk. destruct (delim_facts k Dk) as [_ [Hk _]].
        exact (tokenize_step _ _ _ (next_decimal c r f k Di Df Hk)).
    + exists (QUOTE ++ s ++ QUOTE). split; [reflexivity|].
      split; [split; reflexivity|]. split.
      * split.
        -- rewrite <- append_assoc. now rewrite last_not_lf_app.
        -- cbn [lf_expr]. intros Lf. now rewrite !lf_only_app, Lf.
      * intros k Dk. exact (tokenize_step _ _ _ (next_quoted s k St)).
  - (* Identifier *)
    cbn [stable_expr] in St. unfold plain_name in St.
    apply andb_prop in St. destruct St as [Hi _].
    destruct name as [|c r]; [discriminate Hi|]. cbn in Hi.
    apply andb_prop in Hi. destruct Hi as [Hc Hr].
    exists (String c r). split; [reflexivity|].
    destruct (word_printed c r Hc Hr) as [Op Nl].
    split; [exact Op|]. split; [now apply plain_tidy|]. intros k Dk.
    destruct (delim_facts k Dk) as [Hk _]. cbn [toks app].
    now apply tok_word.
  - (* BinaryExpression *)
    cbn [stable_expr] in St. apply andb_prop in St. destruct St as [St Sr].
    apply andb_prop in St. destruct St as [So Sl].
    destruct (IHl Sl) as [L [EL [OL [NL_ TL]]]].
    destruct (IHr Sr) as [R [ER [OR_ [NR TR]]]].
    apply existsb_exists in So. destruct So as [w [Hw Ew]].
    apply String.eqb_eq in Ew. subst w.
    exists ("(" ++ L ++ " " ++ op ++ " " ++ R ++ ")").
    split; [cbn [expression_to_string]; now rewrite EL, ER|].
    split; [split; reflexivity|]. split.
    + assert (No : no_linebreak (" " ++ op ++ " ") = true)
        by (unfold BINARY_OPERATORS in Hw; simpl in Hw;
            each_member Hw; reflexivity).
      replace ("(" ++ L ++ " " ++ op ++ " " ++ R ++ ")")
        with ("(" ++ (L ++ (" " ++ op ++ " ") ++ R) ++ ")")
        by now rewrite !append_assoc.
      apply tidy_around; try reflexivity.
      { intros E. apply (opens_not_empty L OL).
        now destruct L. }
      cbn [lf_expr]. apply tidy_app; [exact NL_|].
      apply tidy_behind; auto; [now apply no_linebreak_lf_only|].
      now apply opens_not_empty.
    + intros k Dk. rewrite !append_assoc. cbn [append toks].
      rewrite tok_open.
      rewrite (TL (String " " (op ++ String " " (R ++ String ")" k))))
        by (left; reflexivity).
      rewrite (tok_operator op _ Hw (opens_stops R _ OR_)).
      rewrite (TR (String ")" k)) by (right; left; reflexivity).
      rewrite tok_close. cbn [app].
      repeat (rewrite <- app_assoc; cbn [app]). reflexivity.
  - (* UnaryExpression *)
    cbn [stable_expr] in St. apply andb_prop in St. destruct St as [So Sa].
    destruct (IHa Sa) as [A [EA [OA [NA TA]]]].
    cbn [expression_to_string toks]. rewrite EA. cbn [bind].
    pose proof (opens_not_empty A OA) as NeA.
    destruct (String.eqb_spec op "NOT") as [->|No].
    + exists ("NOT " ++ A). split; [reflexivity|].
      split; [split; reflexivity|]. split.
      * now apply tidy_behind.
      * intros k Dk. rewrite append_assoc.
        change ("NOT " ++ A ++ k) with ("NOT" ++ String " " (A ++ k)).
        rewrite tok_word by reflexivity.
        rewrite (tok_blank _ (opens_stops A k OA)). now rewrite (TA k Dk).
    + cbn [orb] in So. apply String.eqb_eq in So. subst op.
      exists ("(" ++ "-" ++ A ++ ")"). split; [reflexivity|].
      split; [split; reflexivity|]. split.
      * now apply (tidy_around _ "(-" A ")").
      * intros k Dk. rewrite !append_assoc. cbn [append].
        rewrite tok_open, tok_minus.
        -- rewrite (TA (String ")" k)) by (right; left; reflexivity).
           rewrite tok_close. cbn [app].
      repeat (rewrite <- app_assoc; cbn [app]). reflexivity.
        -- destruct A; [contradiction | exact OA].
  - (* CallExpression *)
    cbn [stable_expr] in St. apply andb_prop in St. destruct St as [Sc Sp].
    apply String.eqb_eq in Sc. subst callee.
    destruct args as [|p [|q args]]; try discriminate Sp.
    inversion IH as [|? ? IHp _]; subst.
    destruct (IHp Sp) as [A [EA [OA [NA TA]]]].
    exists ("INPUT(" ++ A ++ ")").
    split; [cbn [expression_to_string]; now rewrite EA|].
    split; [split; reflexivity|]. split.
    + apply (tidy_around _ "INPUT(" A ")"); try reflexivity.
      * now apply opens_not_empty.
      * eapply tidy_weaken; [|exact NA]. cbn [lf_expr forallb].
        now rewrite andb_true_r.
    + intros k Dk. rewrite !append_assoc. cbn [toks].
      change ("INPUT(" ++ A ++ ")" ++ k)
        with ("INPUT" ++ String "(" (A ++ String ")" k)).
      rewrite tok_word by reflexivity. rewrite tok_open.
      rewrite (TA (String ")" k)) by (right; left; reflexivity).
      rewrite tok_close. cbn [app].
      repeat (rewrite <- app_assoc; cbn [app]). reflexivity.
Qed.

End Printing.

(** ** The lines of the generated text *)

Section Lines.
Import RapcodeParser RapcodeGenerator.






(** The recursive call of [_generate_nodes] inside the loop is the method
    itself. *)
Lemma each_lines (level : nat) (l : list stmt) :
  (fix each (l : list stmt) : result (list string) :=
     match l with
     | [] => Ok []
     | n :: rest =>
         here <- node_lines level n ;;
         after <- each rest ;;
         Ok (here ++ after)%list
     end) l = all_lines level l.
Proof. induction l as [|s l IH]; [reflexivity|]. cbn. now rewrite IH. Qed.

Lemma node_lines_if (n : nat) (t : expr) (c : block stmt)
    (a : option (block stmt)) :
  node_lines n (IfStatement t c a)
  = (test <- expression_to_string t ;;
     inner <- _generate_nodes (block_body c) (n + 1) ;;
     let code_lines :=
       ([(indent_of n ++ "IF " ++ test ++ " THEN")%string]
          ++ splitlines inner)%list in
     code_lines <-
       (match a with
        | None => Ok code_lines
        | Some alt =>
            if is_nonempty (block_body alt) then
              inner <- _generate_nodes (block_body alt) (n + 1) ;;
              Ok (code_lines ++ [(indent_of n ++ "ELSE")%string]
                    ++ splitlines inner)%list
            else Ok code_lines
        end) ;;
     Ok (code_lines ++ [(indent_of n ++ "ENDIF")%string])%list).
Proof.
  cbn [node_lines]. unfold _generate_nodes. rewrite !each_lines.
  destruct a as [alt|]; [|reflexivity]. now rewrite each_lines.
Qed.

Lemma node_lines_while (n : nat) (t : expr) (b : block stmt) :
  t <> ENone ->
  node_lines n (WhileStatement t b)
  = (head <-
       (if is_literal_true t then Ok (indent_of n ++ "LOOP")
        else
          test_expr <- expression_to_string t ;;
          Ok (indent_of n ++ "WHILE " ++ test_expr ++ " DO")) ;;
     inner <- _generate_nodes (block_body b) (n + 1) ;;
     Ok ([head] ++ splitlines inner
           ++ [(indent_of n ++ "ENDLOOP")%string])%list).
Proof.
  intros Ht. cbn [node_lines]. unfold _generate_nodes. rewrite !each_lines.
  destruct t; try reflexivity. contradiction.
Qed.

End Lines.

Section Rendering.
Import RapcodeParser RapcodeGenerator.

(** What follows a statement in the text: nothing or a line feed. *)
Definition ldelim (k : string) : Prop :=
  match k with String c _ => c = LF | EmptyString => True end.





















End Rendering.

(** ** The round trip *)

Section RoundTrip.
Import RapcodeParser RapcodeGenerator.



End RoundTrip.









(* ================================================================== *)
(** * The parsers build their nodes with the factories *)
(* ================================================================== *)

Lemma fbind_ok {A B} (c : fueled A) (k : A -> fueled B) (b : B) :
  fbind c k = Some (Ok b) -> exists a, c = Some (Ok a) /\ k a = Some (Ok b).
Proof. destruct c as [[a|e]|]; simpl; intros H; try discriminate; eauto. Qed.

(** A node: a tree of factory-built nodes that is not [None] itself. *)
Definition present_expr (e : expr) : bool :=
  match e with ENone => false | _ => built_expr e end.

Lemma present_built (e : expr) :
  present_expr e = true -> built_expr e = true.
Proof. now destruct e. Qed.

Lemma create_literal_present (v : value) :
  present_expr (create_literal v) = true.
Proof.
  destruct v; try reflexivity. simpl.
  now destruct (startswith s QUOTE && endswith s QUOTE).
Qed.

Lemma create_binary_present (op : string) (l r : expr) :
  present_expr l = true -> present_expr r = true ->
  present_expr (create_binary_expression op l r) = true.
Proof.
  intros L R. simpl. now rewrite (present_built l L), (present_built r R).
Qed.

(** One step through a sequence of calls that returned. *)
Ltac returned H :=
  let a := fresh "a" in
  let p := fresh "p" in
  let E := fresh "E" in
  apply fbind_ok in H; destruct H as [[a p] [E H]]; cbn beta iota in H.

Section BuiltExpressions.
Import ExpressionParser.
Variable T : list string.

(** A rule that returns returns a node. *)
Definition builds (r : P) : Prop :=
  forall e pos, r = Some (Ok (e, pos)) -> present_expr e = true.

Lemma rules_build (fuel : nat) :
  (forall pos, builds (_parse_logical_or T fuel pos))
  /\ (forall node pos, present_expr node = true ->
        builds (or_loop T fuel node pos))
  /\ (forall pos, builds (_parse_logical_and T fuel pos))
  /\ (forall node pos, present_expr node = true ->
        builds (and_loop T fuel node pos))
  /\ (forall pos, builds (_parse_comparison T fuel pos))
  /\ (forall pos, builds (_parse_additive T fuel pos))
  /\ (forall node pos, present_expr node = true ->
        builds (add_loop T fuel node pos))
  /\ (forall pos, builds (_parse_multiplicative T fuel pos))
  /\ (forall node pos, present_expr node = true ->
        builds (mul_loop T fuel node pos))
  /\ (forall pos, builds (_parse_unary T fuel pos))
  /\ (forall pos, builds (_parse_atom T fuel pos)).
Proof.
  induction fuel as [|fuel IH].
  { repeat split; unfold builds; intros; discriminate. }
  destruct IH as [Or [OrL [And [AndL [Cmp [Add [AddL [Mul [MulL [Un At]]]]]]]]]].
  split; [|split; [|split; [|split; [|split; [|split; [|split; [|split;
    [|split; [|split]]]]]]]]]; unfold builds in *.
  - intros pos e q H. cbn [_parse_logical_or] in H. returned H. eauto.
  - intros node pos B e q H. cbn [or_loop] in H. returned H.
    destruct (truthy_opt a); [|injection H as <- <-; exact B].
    returned H. apply (OrL _ _) in H; [exact H|].
    apply create_binary_present; eauto.
  - intros pos e q H. cbn [_parse_logical_and] in H. returned H. eauto.
  - intros node pos B e q H. cbn [and_loop] in H. returned H.
    destruct (truthy_opt a); [|injection H as <- <-; exact B].
    returned H. apply (AndL _ _) in H; [exact H|].
    apply create_binary_present; eauto.
  - intros pos e q H. cbn [_parse_comparison] in H. returned H. returned H.
    destruct (truthy_opt a0); [|injection H as <- <-; eauto].
    returned H. injection H as <- <-.
    apply create_binary_present; eauto.
  - intros pos e q H. cbn [_parse_additive] in H. returned H. eauto.
  - intros node pos B e q H. cbn [add_loop] in H. returned H.
    destruct (truthy_opt a); cbn [negb] in H; [|injection H as <- <-; exact B].
    returned H. apply (AddL _ _) in H; [exact H|].
    apply create_binary_present; eauto.
  - intros pos e q H. cbn [_parse_multiplicative] in H. returned H. eauto.
  - intros node pos B e q H. cbn [mul_loop] in H. returned H.
    destruct (truthy_opt a); cbn [negb] in H; [|injection H as <- <-; exact B].
    returned H. apply (MulL _ _) in H; [exact H|].
    apply create_binary_present; eauto.
  - intros pos e q H. cbn [_parse_unary] in H. returned H.
    destruct (truthy_opt a); [|eauto].
    returned H. injection H as <- <-. simpl. apply present_built. eauto.
  - intros pos e q H. cbn [_parse_atom] in H.
    destruct (_peek T pos) as [token|]; [|discriminate H].
    destruct (String.eqb token "(").
    { returned H. returned H. returned H. injection H as <- <-. eauto. }
    destruct (String.eqb token "INPUT").
    { returned H. returned H. returned H. returned H. injection H as <- <-.
      simpl. now rewrite (present_built _ (Or _ _ _ E1)). }
    destruct (String.eqb token "TRUE").
    { returned H. now injection H as <- <-. }
    destruct (String.eqb token "FALSE").
    { returned H. now injection H as <- <-. }
    destruct (startswith token QUOTE).
    { returned H. injection H as <- <-.
      exact (create_literal_present (VStr (fmt_opt a))). }
    destruct (is_number token).
    { returned H. injection H as <- <-.
      exact (create_literal_present (number_value (fmt_opt a))). }
    destruct (is_identifier token); [|discriminate H].
    returned H. now injection H as <- <-.
Qed.

End BuiltExpressions.

(** [ExpressionParser(tokens).parse()] returns a node when there is a
    token, and [None] when there is none. *)
Lemma expression_parse_present (tokens : list string) (e : expr) :
  tokens <> [] ->
  ExpressionParser.parse tokens = Some (Ok e) -> present_expr e = true.
Proof.
  unfold ExpressionParser.parse. destruct tokens as [|t r]; [easy|].
  intros _ H. returned H.
  destruct (truthy_opt _); [discriminate H|]. injection H as <-.
  eapply (proj1 (rules_build (t :: r) _)). exact E.
Qed.

Lemma expression_parse_built (tokens : list string) (e : expr) :
  ExpressionParser.parse tokens = Some (Ok e) -> built_expr e = true.
Proof.
  destruct tokens as [|t r].
  - intros H. now injection H as <-.
  - intros H. apply present_built.
    now apply (expression_parse_present (t :: r)).
Qed.

(** ** Statements *)

(** The statements that the parsers produce: built nodes, the Output call
    with its argument as the only expression statement, a node as the
    test of every loop. *)
Fixpoint produced_stmt (s : stmt) : bool :=
  match s with
  | AssignmentStatement l r => built_expr l && built_expr r
  | ExpressionStatement e =>
      is_output e && is_nonempty (arguments_of e) && built_expr e
  | IfStatement t c a =>
      built_expr t && forallb produced_stmt (block_body c)
      && match a with
         | Some b => forallb produced_stmt (block_body b)
         | None => true
         end
  | WhileStatement t b =>
      present_expr t && forallb produced_stmt (block_body b)
  | BreakStatement => true
  | NoneStatement | OtherStatement _ => false
  end.

Lemma forallb_Forall_impl {A} (p q : A -> bool) (l : list A) :
  Forall (fun x => p x = true -> q x = true) l ->
  forallb p l = true -> forallb q l = true.
Proof.
  induction 1 as [|x l Hx _ IH]; [reflexivity|]. simpl. intros H.
  apply andb_prop in H. destruct H as [Px Pl]. now rewrite (Hx Px), (IH Pl).
Qed.

Lemma produced_built (s : stmt) :
  produced_stmt s = true -> built_stmt s = true.
Proof.
  induction s as [l r|e|t c a IHc IHa|t b IHb| | |ty] using stmt_nested_ind;
    cbn [produced_stmt built_stmt]; intros H; try discriminate H; auto.
  - apply andb_prop in H. now destruct H.
  - apply andb_prop in H. destruct H as [H Ha].
    apply andb_prop in H. destruct H as [Ht Hc].
    rewrite Ht, (forallb_Forall_impl _ _ _ IHc Hc). cbn [andb].
    destruct a as [alt|]; [|reflexivity].
    exact (forallb_Forall_impl _ _ _ (IHa alt eq_refl) Ha).
  - apply andb_prop in H. destruct H as [Ht Hb].
    now rewrite (present_built t Ht), (forallb_Forall_impl _ _ _ IHb Hb).
Qed.

Lemma produced_closed (s : stmt) :
  produced_stmt s = true -> closed_stmt s = true.
Proof.
  induction s as [l r|e|t c a IHc IHa|t b IHb| | |ty] using stmt_nested_ind;
    cbn [produced_stmt closed_stmt]; intros H; try discriminate H; auto.
  - apply andb_prop in H. now destruct H.
  - apply andb_prop in H. destruct H as [H Ha].
    apply andb_prop in H. destruct H as [Ht Hc].
    rewrite (forallb_Forall_impl _ _ _ IHc Hc). cbn [andb].
    destruct a as [alt|]; [|reflexivity].
    exact (forallb_Forall_impl _ _ _ (IHa alt eq_refl) Ha).
  - apply andb_prop in H. destruct H as [Ht Hb].
    rewrite (forallb_Forall_impl _ _ _ IHb Hb).
    now destruct t.
Qed.

Section BuiltStatements.
Import RapcodeParser.
Variable T : list string.

Lemma parse_expression_built (pos : nat) (e : expr) (q : nat) :
  _parse_expression T pos = Some (Ok (e, q)) -> built_expr e = true.
Proof.
  unfold _parse_expression.
  destruct (expression_tokens (List.skipn pos T) 0) as [|t r];
    [discriminate|].
  intros H. apply fbind_ok in H. destruct H as [a [E H]].
  injection H as <- _. exact (expression_parse_built _ _ E).
Qed.

Lemma parse_expression_present (pos : nat) (e : expr) (q : nat) :
  _parse_expression T pos = Some (Ok (e, q)) -> present_expr e = true.
Proof.
  unfold _parse_expression.
  destruct (expression_tokens (List.skipn pos T) 0) as [|t r] eqn:Et;
    [discriminate|].
  intros H. apply fbind_ok in H. destruct H as [a [E H]].
  injection H as <- _.
  now apply (expression_parse_present (t :: r)).
Qed.

(** The tokens in front of which [_parse_statement] returns [None]. *)
Definition stops_statement (o : option string) : bool :=
  match o with
  | None => true
  | Some t => existsb (String.eqb t) ["ELSE"; "ENDIF"; "ENDLOOP"]
  end.

Lemma parse_statement_stops (fuel pos : nat) :
  stops_statement (_peek T (_skip_newlines T pos)) = true ->
  _parse_statement T (S fuel) pos
  = fret (NoneStatement, _skip_newlines T pos).
Proof.
  intros E. cbn [_parse_statement].
  destruct (_peek T (_skip_newlines T pos)) as [t|]; [|reflexivity].
  cbn [stops_statement] in E. now rewrite E.
Qed.

(** A loop in front of a token that ends no statement of its own and at
    which [_parse_statement] returns [None]: every iteration appends
    [None] and the position stays. *)
Lemma consequent_loop_stuck (fuel : nat) :
  forall (acc : list stmt) (pos : nat),
    _peek T (_skip_newlines T pos) = Some "ENDLOOP" ->
    consequent_loop T fuel acc pos = None.
Proof.
  induction fuel as [|fuel IH]; intros acc pos E; [reflexivity|].
  cbn [consequent_loop]. rewrite E. cbn [in_tuple existsb String.eqb
    Ascii.eqb Bool.eqb orb].
  destruct fuel as [|fuel']; [reflexivity|].
  rewrite parse_statement_stops
    by now rewrite skip_newlines_idem, E.
  cbn [fbind fret]. apply IH. now rewrite !skip_newlines_idem.
Qed.

Lemma alternate_loop_stuck (fuel : nat) :
  forall (acc : list stmt) (pos : nat),
    stops_statement (_peek T (_skip_newlines T pos)) = true ->
    eqb_opt (_peek T (_skip_newlines T pos)) (Some "ENDIF") = false ->
    alternate_loop T fuel acc pos = None.
Proof.
  induction fuel as [|fuel IH]; intros acc pos E N; [reflexivity|].
  cbn [alternate_loop]. rewrite N.
  destruct fuel as [|fuel']; [reflexivity|].
  rewrite parse_statement_stops by now rewrite skip_newlines_idem.
  cbn [fbind fret]. apply IH; now rewrite !skip_newlines_idem.
Qed.

Lemma body_loop_stuck (fuel : nat) :
  forall (acc : list stmt) (pos : nat),
    stops_statement (_peek T (_skip_newlines T pos)) = true ->
    eqb_opt (_peek T (_skip_newlines T pos)) (Some "ENDLOOP") = false ->
    body_loop T fuel acc pos = None.
Proof.
  induction fuel as [|fuel IH]; intros acc pos E N; [reflexivity|].
  cbn [body_loop]. rewrite N.
  destruct fuel as [|fuel']; [reflexivity|].
  rewrite parse_statement_stops by now rewrite skip_newlines_idem.
  cbn [fbind fret]. apply IH; now rewrite !skip_newlines_idem.
Qed.

Lemma produced_snoc (acc : list stmt) (s : stmt) :
  forallb produced_stmt acc = true -> produced_stmt s = true ->
  forallb produced_stmt (acc ++ [s]) = true.
Proof. intros A S. rewrite forallb_app, A. simpl. now rewrite S. Qed.

(** What [_parse_statement] returns: [None], in front of a token that
    stops it and without moving on, or a built statement. *)
Definition statement_result (pos : nat) (s : stmt) (q : nat) : Prop :=
  (s = NoneStatement /\ q = _skip_newlines T pos
   /\ stops_statement (_peek T q) = true)
  \/ produced_stmt s = true.

Lemma statement_rules_produce (fuel : nat) :
  (forall pos s q, _parse_statement T fuel pos = Some (Ok (s, q)) ->
                   statement_result pos s q)
  /\ (forall pos s q, _parse_if T fuel pos = Some (Ok (s, q)) ->
                      produced_stmt s = true)
  /\ (forall acc pos l q, forallb produced_stmt acc = true ->
        consequent_loop T fuel acc pos = Some (Ok (l, q)) ->
        forallb produced_stmt l = true)
  /\ (forall acc pos l q, forallb produced_stmt acc = true ->
        alternate_loop T fuel acc pos = Some (Ok (l, q)) ->
        forallb produced_stmt l = true)
  /\ (forall pos s q, _parse_loop T fuel pos = Some (Ok (s, q)) ->
                      produced_stmt s = true)
  /\ (forall acc pos l q, forallb produced_stmt acc = true ->
        body_loop T fuel acc pos = Some (Ok (l, q)) ->
        forallb produced_stmt l = true).
Proof.
  induction fuel as [|fuel IH].
  { repeat split; intros; discriminate. }
  destruct IH as [St [If_ [Cl [Al [Lp Bl]]]]].
  split; [|split; [|split; [|split; [|split]]]].
  - (* _parse_statement *)
    intros pos s q H. cbn [_parse_statement] in H.
    destruct (_peek T (_skip_newlines T pos)) as [t|] eqn:Pk.
    2:{ injection H as <- <-. left. now rewrite Pk. }
    destruct (existsb (String.eqb t) ["ELSE"; "ENDIF"; "ENDLOOP"]) eqn:Ht.
    { injection H as <- <-. left. now rewrite Pk. }
    right.
    destruct (String.eqb t "IF"); [eauto|].
    destruct (String.eqb t "LOOP" || String.eqb t "WHILE"); [eauto|].
    destruct (String.eqb t "BREAK").
    { returned H. now injection H as <- <-. }
    destruct (String.eqb t "OUTPUT").
    { unfold _parse_output in H. returned H. returned H.
      injection H as <- <-. simpl.
      now rewrite (parse_expression_built _ _ _ E0). }
    apply fbind_ok in H. destruct H as [ok [_ H]].
    destruct (negb ok); [discriminate H|].
    returned H. returned H.
    destruct (truthy_opt a0); [|discriminate H].
    returned H. destruct (negb _); [discriminate H|].
    injection H as <- <-. simpl.
    now rewrite (parse_expression_built _ _ _ E),
      (parse_expression_built _ _ _ E1).
  - (* _parse_if *)
    intros pos s q H. cbn [_parse_if] in H.
    returned H. returned H. returned H. returned H. returned H. returned H.
    returned H. injection H as <- <-.
    pose proof (parse_expression_built _ _ _ E0) as Bt.
    pose proof (Cl [] _ _ _ eq_refl E2) as Bc.
    cbn [create_if_statement create_block produced_stmt block_body].
    rewrite Bt, Bc. cbn [andb].
    destruct (truthy_opt a3).
    + returned E4. injection E4 as <- <-.
      exact (Al [] _ _ _ eq_refl E6).
    + now injection E4 as <- <-.
  - (* consequent_loop *)
    intros acc pos l q A H. cbn [consequent_loop] in H.
    destruct (in_tuple (_peek T (_skip_newlines T pos)) ["ELSE"; "ENDIF"]
              || match _peek T (_skip_newlines T pos) with
                 | None => true
                 | _ => false
                 end) eqn:Ex.
    { now injection H as <- <-. }
    returned H. destruct (St _ _ _ E) as [[-> [-> Sp]]|B].
    + rewrite skip_newlines_idem in Sp.
      assert (Pk : _peek T (_skip_newlines T pos) = Some "ENDLOOP").
      { destruct (_peek T (_skip_newlines T pos)) as [t|];
          [|discriminate Ex].
        cbn [in_tuple existsb stops_statement] in *.
        rewrite orb_false_r in Ex.
        destruct (String.eqb t "ELSE"); [discriminate Ex|].
        destruct (String.eqb t "ENDIF"); [discriminate Ex|].
        cbn [orb] in Sp. rewrite orb_false_r in Sp.
        apply String.eqb_eq in Sp. now subst t. }
      rewrite consequent_loop_stuck in H; [discriminate H|].
      now rewrite !skip_newlines_idem.
    + eapply Cl; [|exact H]. now apply produced_snoc.
  - (* alternate_loop *)
    intros acc pos l q A H. cbn [alternate_loop] in H.
    destruct (eqb_opt (_peek T (_skip_newlines T pos)) (Some "ENDIF"))
      eqn:Ex.
    { now injection H as <- <-. }
    returned H. destruct (St _ _ _ E) as [[-> [-> Sp]]|B].
    + rewrite skip_newlines_idem in Sp.
      rewrite alternate_loop_stuck in H; [discriminate H| |];
        now rewrite !skip_newlines_idem.
    + eapply Al; [|exact H]. now apply produced_snoc.
  - (* _parse_loop *)
    intros pos s q H. cbn [_parse_loop] in H.
    returned H. returned H. returned H. returned H. injection H as <- <-.
    pose proof (Bl [] _ _ _ eq_refl E1) as Bb.
    cbn [create_while_statement create_block produced_stmt block_body].
    rewrite Bb, andb_true_r.
    destruct (truthy_opt a).
    + now injection E0 as <- <-.
    + returned E0. destruct (truthy_opt a3); [|discriminate E0].
      returned E0. returned E0. injection E0 as <- <-.
      exact (parse_expression_present _ _ _ E4).
  - (* body_loop *)
    intros acc pos l q A H. cbn [body_loop] in H.
    destruct (eqb_opt (_peek T (_skip_newlines T pos)) (Some "ENDLOOP"))
      eqn:Ex.
    { now injection H as <- <-. }
    returned H. destruct (St _ _ _ E) as [[-> [-> Sp]]|B].
    + rewrite skip_newlines_idem in Sp.
      rewrite body_loop_stuck in H; [discriminate H| |];
        now rewrite !skip_newlines_idem.
    + eapply Bl; [|exact H]. now apply produced_snoc.
Qed.

Lemma program_loop_produced (fuel : nat) :
  forall (acc : list stmt) (pos : nat) (l : list stmt),
    forallb produced_stmt acc = true ->
    program_loop T fuel acc pos = Some (Ok l) ->
    forallb produced_stmt l = true.
Proof.
  induction fuel as [|fuel IH]; intros acc pos l A H; [discriminate H|].
  cbn [program_loop] in H.
  destruct (_peek T pos); [|now injection H as <-].
  returned H.
  destruct (proj1 (statement_rules_produce fuel) _ _ _ E) as [[-> _]|B].
  - eapply IH; [|exact H]. exact A.
  - eapply IH; [|exact H].
    destruct a; try (now apply produced_snoc). discriminate B.
Qed.

End BuiltStatements.

(** The statements of a program that the FlowLang parser returns are
    produced ones: there is no [None] among them. *)
Lemma rapcode_parse_produced (fuel : nat) (content : string) (p : program) :
  RapcodeParser.parse fuel content = Some (Ok p) ->
  forallb produced_stmt (body p) = true.
Proof.
  unfold RapcodeParser.parse. intros H.
  apply fbind_ok in H. destruct H as [l [E H]]. injection H as <-.
  exact (program_loop_produced _ _ [] _ _ eq_refl E).
Qed.

Section element_induction.
Import RaptorXMLParser.
Variable P : element -> Prop.

(** [P] on a child that may be missing. *)
Definition on_child (o : option element) : Prop :=
  match o with Some c => P c | None => True end.

Hypothesis HElement :
  forall is_nil ty text inp prompt l r b a s,
    on_child l -> on_child r -> on_child b -> on_child a -> on_child s ->
    P (Element is_nil ty text inp prompt l r b a s).

Fixpoint element_nested_ind (x : element) : P x :=
  match x with
  | Element is_nil ty text inp prompt l r b a s =>
      HElement is_nil ty text inp prompt l r b a s
        (match l return on_child l with
         | Some c => element_nested_ind c | None => I end)
        (match r return on_child r with
         | Some c => element_nested_ind c | None => I end)
        (match b return on_child b with
         | Some c => element_nested_ind c | None => I end)
        (match a return on_child a with
         | Some c => element_nested_ind c | None => I end)
        (match s return on_child s with
         | Some c => element_nested_ind c | None => I end)
  end.
End element_induction.

Section BuiltFromXML.
Import RaptorXMLParser.

Lemma rewrap_ok {A} (prefix : string) (r : fueled A) (a : A) :
  rewrap prefix r = Some (Ok a) -> r = Some (Ok a).
Proof. destruct r as [[x|e]|]; simpl; congruence. Qed.

Lemma xml_expression_built (expr_str : string) (e : expr) :
  _parse_expression expr_str = Some (Ok e) -> built_expr e = true.
Proof.
  unfold _parse_expression. destruct (negb (truthy expr_str));
    [discriminate|].
  intros H. apply rewrap_ok in H. exact (expression_parse_built _ _ H).
Qed.

(** The statements of an element and of its successors are built. *)
Definition builds_statements (x : element) : Prop :=
  forall l, parse_present x = Some (Ok l) -> forallb produced_stmt l = true.

Lemma child_produced (o : option element) (l : list stmt) :
  on_child builds_statements o ->
  match o with
  | None => fret []
  | Some c => parse_present c
  end = Some (Ok l) ->
  forallb produced_stmt l = true.
Proof.
  destruct o as [c|]; simpl; intros H E; [now apply H|].
  now injection E as <-.
Qed.

Ltac got H :=
  let a := fresh "a" in
  let E := fresh "E" in
  apply fbind_ok in H; destruct H as [a [E H]].

Lemma parse_present_produced (x : element) : builds_statements x.
Proof.
  induction x as [is_nil ty text inp prompt l r b a s Hl Hr Hb Ha Hs]
    using element_nested_ind.
  intros out H. cbn [parse_present] in H.
  destruct is_nil; [now injection H as <-|].
  got H. got H. injection H as <-.
  pose proof (child_produced _ _ Hs E0) as Brest.
  rewrite forallb_app, Brest, andb_true_r.
  apply rewrap_ok in E.
  destruct (String.eqb ty "Rectangle").
  { destruct (contains _ ":="); [|now injection E as <-].
    destruct (split_once _ ":=") as [left_str right_str].
    got E. got E. injection E as <-. simpl.
    now rewrite (xml_expression_built _ _ E1), (xml_expression_built _ _ E2). }
  destruct (String.eqb ty "Parallelogram").
  { destruct (String.eqb (lower _) "true").
    - injection E as <-.
      cbn [forallb create_assignment_statement create_input_expression
           create_identifier produced_stmt built_expr].
      match goal with
      | |- context [if ?c then Literal _ else Literal _] => now destruct c
      end.
    - got E. injection E as <-. simpl.
      now rewrite (xml_expression_built _ _ E1). }
  destruct (String.eqb ty "IF_Control").
  { got E. got E. got E. injection E as <-.
    pose proof (child_produced _ _ Hl E1) as Bc.
    pose proof (child_produced _ _ Hr E2) as Ba.
    cbn [forallb create_if_statement create_block produced_stmt block_body].
    rewrite (xml_expression_built _ _ E3), Bc. cbn [andb].
    destruct (is_nonempty a3); cbn [create_block block_body];
      now rewrite ?Ba. }
  destruct (String.eqb ty "Loop"); [|now injection E as <-].
  got E. got E. got E. injection E as <-.
  pose proof (child_produced _ _ Hb E1) as Bb.
  pose proof (child_produced _ _ Ha E2) as Ba.
  cbn [forallb create_while_statement create_block produced_stmt block_body
       create_literal built_expr].
  rewrite forallb_app, Bb.
  cbn [forallb create_if_statement create_block produced_stmt block_body
       create_break_statement].
  now rewrite (xml_expression_built _ _ E3), Ba.
Qed.

End BuiltFromXML.

(** The statements of a program that the FlowXML translator returns are
    produced ones. *)
Lemma xml_parse_produced (first_node : option RaptorXMLParser.element)
    (p : program) :
  RaptorXMLParser.parse first_node = Some (Ok p) ->
  forallb produced_stmt (body p) = true.
Proof.
  unfold RaptorXMLParser.parse. intros H.
  apply fbind_ok in H. destruct H as [l [E H]]. injection H as <-.
  destruct first_node as [c|]; [|now injection E as <-].
  exact (parse_present_produced c l E).
Qed.

(** ** The type fields of parsed programs *)

(** The programs that the two parsers return: the FlowLang parser on a
    text, the FlowXML translator on the element that follows Start. *)
Definition parsed (p : program) : Prop :=
  (exists fuel content, RapcodeParser.parse fuel content = Some (Ok p))
  \/ (exists first_node, RaptorXMLParser.parse first_node = Some (Ok p)).

Lemma parsed_produced (p : program) :
  parsed p -> forallb produced_stmt (body p) = true.
Proof.
  intros [[fuel [content H]]|[first_node H]].
  - exact (rapcode_parse_produced fuel content p H).
  - exact (xml_parse_produced first_node p H).
Qed.

(** A parsed program is made of factory-built nodes. *)
Lemma parsed_built (p : program) : parsed p -> built_program p = true.
Proof.
  intros H. apply parsed_produced in H. unfold built_program.
  apply forallb_forall. intros s Hs. apply produced_built.
  now apply (proj1 (forallb_forall _ _) H).
Qed.

(** A parsed program is one of the closed set on which the outcome of the
    diagram generators is stated. *)
Lemma parsed_closed (p : program) : parsed p -> closed_program p = true.
Proof.
  intros H. apply parsed_produced in H. unfold closed_program.
  apply forallb_forall. intros s Hs. apply produced_closed.
  now apply (proj1 (forallb_forall _ _) H).
Qed.

(** C8, as the code has it.  Every node of a program that one of the two
    parsers returns carries a [type] field that names one of the twelve
    kinds of [KINDS]; the statement sequence inside an IfStatement
    consequent or alternate and inside a WhileStatement body is the dict
    of [create_block], whose [type] is the string BlockStatement. *)
Theorem C8_type_fields :
  forall p : program,
    parsed p ->
    Forall names_a_kind (node_types (dict_of_program p))
    /\ (forall body, get (dict_of_block (create_block body)) "type"
                     = Some (JStr "BlockStatement"))
    /\ (forall t c a,
           get (dict_of_stmt (IfStatement t c a)) "consequent"
           = Some (dict_of_block c)
           /\ get (dict_of_stmt (IfStatement t c a)) "alternate"
              = Some (match a with
                      | Some b => dict_of_block b
                      | None => JNone
                      end))
    /\ (forall t b,
           get (dict_of_stmt (WhileStatement t b)) "body"
           = Some (dict_of_block b)).
Proof.
  intros p H. apply built_type_fields. now apply parsed_built.
Qed.

Definition loop_with_break : program :=
  Program [WhileStatement (Literal (VBool true))
             (BlockStatement [BreakStatement])].

Lemma C8_witness :
  parsed loop_with_break
  /\ Forall names_a_kind (node_types (dict_of_program loop_with_break))
  /\ get (dict_of_block (create_block [create_break_statement])) "type"
     = Some (JStr "BlockStatement").
Proof.
  assert (H : parsed loop_with_break).
  { left. exists 5, ("LOOP" ++ NL ++ "  BREAK" ++ NL ++ "ENDLOOP").
    vm_compute. reflexivity. }
  destruct (C8_type_fields loop_with_break H) as [H1 [H2 _]].
  split; [exact H|]. split; [exact H1 | apply H2].
Defined.

(** The [type] of the body of the loop that the parser builds from the text
    LOOP ENDLOOP is not the string Block. *)
Lemma C8_counterexample :
  exists (t : expr) (b : block stmt),
    RapcodeParser.parse 4 ("LOOP" ++ NL ++ "ENDLOOP")
    = Some (Ok (Program [WhileStatement t b]))
    /\ get (dict_of_stmt (WhileStatement t b)) "body" = Some (dict_of_block b)
    /\ get (dict_of_block b) "type" <> Some (JStr "Block").
Proof.
  exists (Literal (VBool true)), (BlockStatement []).
  split; [vm_compute; reflexivity|]. split; [reflexivity|].
  simpl. discriminate.
Qed.



(* ================================================================== *)
(** ** Programs with statements of unknown kinds *)

(** Statements that the Graphviz walker renders: those of the closed set
    and, at any depth, nodes whose type is none of the kinds. *)
Fixpoint drawable_stmt (s : stmt) : bool :=
  match s with
  | AssignmentStatement _ _ => true
  | ExpressionStatement e => is_output e && is_nonempty (arguments_of e)
  | IfStatement _ c a =>
      forallb drawable_stmt (block_body c)
      && match a with
         | Some b => forallb drawable_stmt (block_body b)
         | None => true
         end
  | WhileStatement t b =>
      match t with ENone => false | _ => true end
      && forallb drawable_stmt (block_body b)
  | BreakStatement => true
  | NoneStatement => false
  | OtherStatement ty => negb (existsb (String.eqb ty) KINDS)
  end.

Definition drawable_program (p : program) : bool :=
  forallb drawable_stmt (body p).

Section WalkUnknown.
Import AstVisualizer.
Context {Out : Type} {B : Backend Out}.
Hypothesis L : lawful.

(** The subclass draws an octagon as it draws the other shapes. *)
Hypothesis octagon_returns : forall label st,
    returns (_add_node label "octagon") st (has_stack (loop_exit_stack st)).

Ltac step_with S' := apply returns_bind with (R1 := has_stack S').

Definition walks (s : stmt) : Prop :=
  outcome (_generate_node s) (breaks_enclosed s).

Lemma run_all_walks (l : list stmt) :
  Forall walks l ->
  outcome (run_all (map _generate_node l)) (forallb breaks_enclosed l).
Proof.
  induction 1 as [|s l Hs _ IH]; intros S st E.
  - rewrite orb_true_r. now apply returns_ret.
  - specialize (Hs S st E). cbn [map run_all forallb].
    destruct (is_nonempty S) eqn:NE; cbn [orb] in *.
    + eapply returns_bind; [exact Hs|]. intros a st' E'.
      specialize (IH S st' E'). rewrite NE in IH.
      eapply returns_bind; [exact IH|]. intros; now apply returns_ret.
    + destruct (breaks_enclosed s); cbn [andb].
      * destruct (forallb breaks_enclosed l) eqn:Fl.
        -- eapply returns_bind; [exact Hs|]. intros a st' E'.
           specialize (IH S st' E'). rewrite NE in IH.
           eapply returns_bind; [exact IH|]. intros; now apply returns_ret.
        -- eapply raises_bind_r; [exact Hs|]. intros a st' E'.
           specialize (IH S st' E'). rewrite NE in IH.
           now apply raises_bind_l.
      * now apply raises_bind_l.
Qed.

Lemma chain_walks (l : list stmt) :
  Forall walks l ->
  outcome (chain (map _generate_node l)) (forallb breaks_enclosed l).
Proof.
  intros H S st E. pose proof (run_all_walks l H S st E) as R.
  destruct l as [|s l]; [rewrite orb_true_r; now apply returns_ret|].
  change (chain (map _generate_node (s :: l)))
    with (gbind (run_all (map _generate_node (s :: l)))
            (fun generated =>
               gbind (link generated)
                 (fun _ => ret (fst (hd (None, None) generated),
                                snd (last generated (None, None)))))).
  destruct (is_nonempty S || forallb breaks_enclosed (s :: l)).
  - eapply returns_bind; [exact R|]. intros g st' E'.
    step_with S; [apply (link_ok L) with S; [exact E' | now intros]|].
    intros u st'' E''. now apply returns_ret.
  - now apply raises_bind_l.
Qed.

Lemma chain_walks_in_loop (l : list stmt) S st
    (R : ids -> instance Out -> Prop) :
  Forall walks l ->
  loop_exit_stack st = S -> is_nonempty S = true ->
  (forall r st', loop_exit_stack st' = S -> R r st') ->
  returns (chain (map _generate_node l)) st R.
Proof.
  intros H E NE HR. pose proof (chain_walks l H S st E) as O.
  rewrite NE in O. eapply returns_weaken; [exact O|]. intros; now apply HR.
Qed.

Lemma drawable_is_if_break (n : stmt) :
  drawable_stmt n = true -> exists b, is_if_break n = Ok b.
Proof.
  destruct n; simpl; try discriminate; eauto.
  destruct consequent as [[|first rest]]; simpl; eauto.
  intros C. apply andb_prop in C. destruct C as [C _].
  apply andb_prop in C. destruct C as [C _].
  destruct first; simpl in *; try discriminate; eauto.
Qed.

Lemma drawable_find_if_break (body : list stmt) :
  forallb drawable_stmt body = true ->
  forall i, exists r, find_if_break body i = Ok r.
Proof.
  induction body as [|n body IH]; intros C i; simpl; [eauto|].
  simpl in C. apply andb_prop in C. destruct C as [Cn Cb].
  destruct (drawable_is_if_break n Cn) as [b ->]. simpl.
  destruct b; eauto.
Qed.

Lemma visualize_raptor_loop_walks t (body : list stmt) S st :
  match t with ENone => false | _ => true end = true ->
  Forall walks body -> forallb drawable_stmt body = true ->
  loop_exit_stack st = S ->
  returns (visualize_raptor_loop t body (map _generate_node body)) st
    (has_stack S).
Proof.
  intros Ct H C E. unfold visualize_raptor_loop.
  assert (exists b, is_while_true t = Ok b) as [b Eb]
    by (destruct t as [|[[|]| | |]| | | | |]; simpl; eauto; discriminate).
  rewrite Eb.
  eapply returns_bind with (R1 := fun a st' => a = b /\ st' = st).
  { now eexists b, st. }
  intros a st' [-> ->].
  destruct b; cbn [negb]; [|now apply returns_ret].
  destruct (drawable_find_if_break body C 0) as [found Ef]. rewrite Ef.
  eapply returns_bind with (R1 := fun a st' => a = found /\ st' = st).
  { now eexists found, st. }
  intros a st' [-> ->].
  destruct found as [[i n]|]; [|now apply returns_ret].
  rewrite firstn_map, skipn_map.
  eapply returns_bind with (R1 := fun _ st' => st' = st).
  { apply expr_to_str_ok. reflexivity. }
  intros label st' ->.
  pose proof (is_nonempty_snoc S) as NE.
  step_with S; [apply (add_node_ok L) with S; auto using decision_shape|].
  intros cond_node st1 E1.
  step_with S; [apply (add_node_ok L) with S; auto using merge_shape|].
  intros exit_node st2 E2.
  step_with (S ++ [exit_node])%list; [apply push_ok with S; auto|].
  intros u st3 E3.
  step_with (S ++ [exit_node])%list;
    [apply (add_edge_ok L) with (S ++ [exit_node])%list; auto|].
  intros u1 st4 E4.
  step_with (S ++ [exit_node])%list;
    [apply chain_walks_in_loop with (S := (S ++ [exit_node])%list);
     auto using Forall_firstn|].
  intros [entry_before exit_before] st5 E5.
  step_with (S ++ [exit_node])%list;
    [apply chain_walks_in_loop with (S := (S ++ [exit_node])%list);
     auto using Forall_skipn|].
  intros [entry_after exit_after] st6 E6.
  step_with (S ++ [exit_node])%list;
    [apply (edge_if_ok L) with (S ++ [exit_node])%list; auto|].
  intros u2 st7 E7.
  step_with (S ++ [exit_node])%list;
    [apply (add_edge_ok L) with (S ++ [exit_node])%list; auto|].
  intros u3 st8 E8.
  step_with (S ++ [exit_node])%list;
    [apply (edge_if_ok L) with (S ++ [exit_node])%list; auto|].
  intros u4 st9 E9.
  step_with S; [apply pop_ok with exit_node S; auto|].
  intros u5 st10 E10. apply returns_ret. exact E10.
Qed.

Lemma forallb_Forall_walks (l : list stmt) :
  Forall (fun s => drawable_stmt s = true -> walks s) l ->
  forallb drawable_stmt l = true -> Forall walks l.
Proof.
  induction 1 as [|s l Hs _ IH]; intros C; [constructor|].
  cbn [forallb] in C. apply andb_prop in C. destruct C as [Cs Cl].
  constructor; auto.
Qed.

(** Every drawable statement returns with the stack it found, unless one
    of its breaks is not enclosed and the stack is empty. *)
Lemma generate_node_walks (s : stmt) : drawable_stmt s = true -> walks s.
Proof.
  induction s as [l r|e|t c a IHc IHa|t b IHb| | |ty] using stmt_nested_ind;
    intros C S st E; try discriminate C.
  - (* AssignmentStatement *)
    rewrite orb_true_r. cbn [_generate_node].
    apply returns_bind with (R1 := fun _ st' => st' = st);
      [now apply expr_to_str_ok|]. intros left st' ->.
    apply returns_bind with (R1 := fun _ st' => st' = st);
      [now apply expr_to_str_ok|]. intros right st' ->.
    step_with S; [apply (add_node_ok L) with S; auto using process_shape|].
    intros n st' E'. now apply returns_ret.
  - (* ExpressionStatement *)
    rewrite orb_true_r. simpl in C.
    destruct (closed_output e C) as [callee [arg [rest [-> Ho]]]].
    cbn [_generate_node]. rewrite Ho. cbn [arguments_of].
    apply returns_bind with (R1 := fun _ st' => st' = st);
      [now apply expr_to_str_ok|]. intros label st' ->.
    step_with S; [apply (add_node_ok L) with S; auto using io_shape|].
    intros n st' E'. now apply returns_ret.
  - (* IfStatement *)
    simpl in C. apply andb_prop in C. destruct C as [Cc Ca].
    pose proof (chain_walks (block_body c)
                  (forallb_Forall_walks _ IHc Cc)) as Oc.
    assert (Oa : outcome
                   (match a with
                    | Some alt => chain (map _generate_node (block_body alt))
                    | None => chain []
                    end)
                   (match a with
                    | Some b => forallb breaks_enclosed (block_body b)
                    | None => true
                    end)).
    { destruct a as [alt|].
      - exact (chain_walks (block_body alt)
                 (forallb_Forall_walks _ (IHa alt eq_refl) Ca)).
      - intros S' st' E'. rewrite orb_true_r. now apply returns_ret. }
    cbn [_generate_node breaks_enclosed].
    assert (Pre : forall (k : string -> string -> G Out ids) fine,
               (forall cond_node merge_node, outcome (k cond_node merge_node) fine) ->
               if is_nonempty S || fine
               then returns
                      (label <- of_result (_expr_to_str t) ;;
                       cond_node <- _add_node label _get_decision_shape ;;
                       merge_node <- _add_node " " _get_merge_shape ;;
                       k cond_node merge_node)%gen st (has_stack S)
               else raises
                      (label <- of_result (_expr_to_str t) ;;
                       cond_node <- _add_node label _get_decision_shape ;;
                       merge_node <- _add_node " " _get_merge_shape ;;
                       k cond_node merge_node)%gen st BreakOutsideLoop).
    { intros k fine Hk.
      destruct (is_nonempty S || fine) eqn:F.
      - apply returns_bind with (R1 := fun _ st' => st' = st);
          [now apply expr_to_str_ok|]. intros label st' ->.
        step_with S; [apply (add_node_ok L) with S; auto using decision_shape|].
        intros cond_node st1 E1.
        step_with S; [apply (add_node_ok L) with S; auto using merge_shape|].
        intros merge_node st2 E2.
        specialize (Hk cond_node merge_node S st2 E2). now rewrite F in Hk.
      - apply raises_bind_r with (R := fun _ st' => st' = st);
          [now apply expr_to_str_ok|]. intros label st' ->.
        apply raises_bind_r with (R := has_stack S);
          [apply (add_node_ok L) with S; auto using decision_shape|].
        intros cond_node st1 E1.
        apply raises_bind_r with (R := has_stack S);
          [apply (add_node_ok L) with S; auto using merge_shape|].
        intros merge_node st2 E2.
        specialize (Hk cond_node merge_node S st2 E2). now rewrite F in Hk. }
    apply Pre. clear Pre S st E. intros cond_node merge_node S st E.
    specialize (Oc S st E).
    destruct (is_nonempty S) eqn:NE; cbn [orb] in *.
    + step_with S; [exact Oc|]. intros [true_entry true_exit] st1 E1.
      step_with S; [apply (add_edge_ok L) with S; auto|]. intros u1 st2 E2.
      step_with S; [apply (edge_if_ok L) with S; auto|]. intros u2 st3 E3.
      specialize (Oa S st3 E3). rewrite NE in Oa.
      step_with S; [exact Oa|]. intros [false_entry false_exit] st4 E4.
      step_with S; [apply (add_edge_ok L) with S; auto|]. intros u3 st5 E5.
      step_with S; [apply (edge_if_ok L) with S; auto|]. intros u4 st6 E6.
      now apply returns_ret.
    + destruct (forallb breaks_enclosed (block_body c)); cbn [andb].
      * assert (Rest : forall st3, loop_exit_stack st3 = S ->
                  if match a with
                     | Some b0 => forallb breaks_enclosed (block_body b0)
                     | None => true
                     end
                  then returns
                         ('(false_entry, false_exit) <-
                            match a with
                            | Some alt =>
                                chain (map _generate_node (block_body alt))
                            | None => chain []
                            end ;;
                          _add_edge (Some cond_node)
                            (or_else false_entry (Some merge_node))
                            (Some "False") ;;
                          edge_if false_exit (Some merge_node) ;;
                          ret (Some cond_node, Some merge_node))%gen
                         st3 (has_stack S)
                  else raises
                         ('(false_entry, false_exit) <-
                            match a with
                            | Some alt =>
                                chain (map _generate_node (block_body alt))
                            | None => chain []
                            end ;;
                          _add_edge (Some cond_node)
                            (or_else false_entry (Some merge_node))
                            (Some "False") ;;
                          edge_if false_exit (Some merge_node) ;;
                          ret (Some cond_node, Some merge_node))%gen
                         st3 BreakOutsideLoop).
        { intros st3 E3. specialize (Oa S st3 E3). rewrite NE in Oa.
          cbn [orb] in Oa.
          destruct (match a with
                    | Some b0 => forallb breaks_enclosed (block_body b0)
                    | None => true
                    end).
          - step_with S; [exact Oa|]. intros [false_entry false_exit] st4 E4.
            step_with S; [apply (add_edge_ok L) with S; auto|].
            intros u3 st5 E5.
            step_with S; [apply (edge_if_ok L) with S; auto|].
            intros u4 st6 E6. now apply returns_ret.
          - now apply raises_bind_l. }
        destruct (match a with
                  | Some b0 => forallb breaks_enclosed (block_body b0)
                  | None => true
                  end).
        -- step_with S; [exact Oc|]. intros [true_entry true_exit] st1 E1.
           step_with S; [apply (add_edge_ok L) with S; auto|].
           intros u1 st2 E2.
           step_with S; [apply (edge_if_ok L) with S; auto|].
           intros u2 st3 E3. now apply Rest.
        -- apply raises_bind_r with (R := has_stack S); [exact Oc|].
           intros [true_entry true_exit] st1 E1.
           apply raises_bind_r with (R := has_stack S);
             [apply (add_edge_ok L) with S; auto|]. intros u1 st2 E2.
           apply raises_bind_r with (R := has_stack S);
             [apply (edge_if_ok L) with S; auto|]. intros u2 st3 E3.
           now apply Rest.
      * now apply raises_bind_l.
  - (* WhileStatement *)
    rewrite orb_true_r. simpl in C. apply andb_prop in C.
    destruct C as [Ct Cb]. cbn [_generate_node].
    pose proof (forallb_Forall_walks _ IHb Cb) as Wb.
    step_with S; [now apply visualize_raptor_loop_walks|].
    intros [nodes|] st1 E1; [now apply returns_ret|].
    pose proof (is_nonempty_snoc S) as NE.
    apply returns_bind with (R1 := fun _ st' => st' = st1);
      [now apply expr_to_str_ok|]. intros label st' ->.
    step_with S; [apply (add_node_ok L) with S; auto using decision_shape|].
    intros cond_node st2 E2.
    step_with S; [apply (add_node_ok L) with S; auto using merge_shape|].
    intros exit_node st3 E3.
    step_with (S ++ [exit_node])%list; [apply push_ok with S; auto|].
    intros u st4 E4.
    step_with (S ++ [exit_node])%list;
      [apply chain_walks_in_loop with (S := (S ++ [exit_node])%list); auto|].
    intros [body_entry body_exit] st5 E5.
    step_with (S ++ [exit_node])%list;
      [apply (add_edge_ok L) with (S ++ [exit_node])%list; auto|].
    intros u1 st6 E6.
    step_with (S ++ [exit_node])%list;
      [apply (edge_if_ok L) with (S ++ [exit_node])%list; auto|].
    intros u2 st7 E7.
    step_with S; [apply pop_ok with exit_node S; auto|].
    intros u3 st8 E8.
    step_with S; [apply (add_edge_ok L) with S; auto|].
    intros u4 st9 E9. now apply returns_ret.
  - (* BreakStatement *)
    cbn [_generate_node breaks_enclosed]. rewrite orb_false_r.
    assert (Stk : forall st0 : instance Out,
               returns stack st0
                 (fun a st' => a = loop_exit_stack st0 /\ st' = st0))
      by (intros st0; now exists (loop_exit_stack st0), st0).
    destruct (is_nonempty S) eqn:NE.
    + eapply returns_bind; [apply Stk|]. intros a st' [-> ->].
      rewrite E, NE. cbn [negb].
      step_with S; [apply (add_node_ok L) with S; auto using merge_shape|].
      intros break_entry st1 E1.
      eapply returns_bind; [apply Stk|]. intros a st' [-> ->].
      step_with S; [apply (add_edge_ok L) with S; auto|].
      intros u st3 E3. now apply returns_ret.
    + eapply raises_bind_r; [apply Stk|]. intros a st' [-> ->].
      rewrite E, NE. now exists st.
  - (* OtherStatement *)
    cbn [breaks_enclosed]. rewrite orb_true_r.
    cbn [_generate_node]. unfold unknown_node.
    step_with S.
    { eapply returns_weaken; [apply octagon_returns|].
      intros x st' Hx. unfold has_stack in *. congruence. }
    intros n st' E'. now apply returns_ret.
Qed.

(** The walk of a drawable program, from any stack. *)
Lemma walk_program_walks (p : program) :
  drawable_program p = true ->
  outcome (walk_program p) (every_break_in_a_loop p).
Proof.
  intros C S st E.
  assert (F : Forall walks (body p)).
  { apply forallb_Forall_walks; [|exact C]. apply Forall_forall.
    intros s _. apply generate_node_walks. }
  pose proof (chain_walks (body p) F S) as O.
  unfold walk_program, _generate_from_nodes, every_break_in_a_loop.
  destruct (is_nonempty S || forallb breaks_enclosed (body p)).
  - step_with S; [apply (add_node_ok L) with S; auto using start_shape|].
    intros start_node st1 E1. specialize (O st1 E1).
    step_with S; [exact O|]. intros [entry last_node] st2 E2.
    step_with S.
    { destruct (truthy_opt entry);
        [apply (add_edge_ok L) with S; auto | now apply returns_ret]. }
    intros u st3 E3.
    step_with S; [apply (add_node_ok L) with S; auto using start_shape|].
    intros end_node st4 E4.
    destruct (truthy_opt (or_else last_node (Some start_node)));
      [apply (add_edge_ok L) with S; auto | now apply returns_ret].
  - apply raises_bind_r with (R := has_stack S);
      [apply (add_node_ok L) with S; auto using start_shape|].
    intros start_node st1 E1. specialize (O st1 E1).
    now apply raises_bind_l.
Qed.

End WalkUnknown.

Lemma graphviz_octagon (label : string)
    (st : AstVisualizer.instance string) :
  returns (AstVisualizer._add_node label "octagon") st
    (has_stack (AstVisualizer.loop_exit_stack st)).
Proof. unfold returns. eexists _, _. split; reflexivity. Qed.

(** Graphviz on a drawable program, from any state of the generator
    object. *)
Lemma graphviz_generate_drawable (p : program)
    (self : AstVisualizer.instance string) :
  drawable_program p = true ->
  if is_nonempty (AstVisualizer.loop_exit_stack self)
     || every_break_in_a_loop p
  then generates (GraphvizGenerator.generate p) self
  else raises (GraphvizGenerator.generate p) self BreakOutsideLoop.
Proof.
  intros C.
  pose proof (walk_program_walks graphviz_lawful graphviz_octagon p C
                (AstVisualizer.loop_exit_stack self)
                (AstVisualizer.Instance (AstVisualizer.node_count self)
                   (AstVisualizer.loop_exit_stack self)
                   GraphvizGenerator.header) eq_refl) as W.
  unfold generates, raises, GraphvizGenerator.generate.
  destruct (is_nonempty _ || every_break_in_a_loop p).
  - destruct W as [u [st' [E _]]]. rewrite E. eauto.
  - destruct W as [st' E]. rewrite E. eauto.
Qed.

(** ** The FlowLang text without a statement of unknown kind *)

(** [drops l l']: [l'] is [l] without one statement of unknown kind, which
    stands in [l] or, at any depth, in a block of one of its statements.
    An ELSE block is not emptied: the generator prints the ELSE line of a
    block that holds a statement, whatever its kind. *)
Inductive drops : list stmt -> list stmt -> Prop :=
| drops_here (pre post : list stmt) (ty : string) :
    ~ In ty KINDS ->
    drops (pre ++ OtherStatement ty :: post) (pre ++ post)
| drops_consequent (pre post : list stmt) (t : expr) (c c' : list stmt)
    (a : option (block stmt)) :
    drops c c' ->
    drops (pre ++ IfStatement t (BlockStatement c) a :: post)
          (pre ++ IfStatement t (BlockStatement c') a :: post)
| drops_alternate (pre post : list stmt) (t : expr) (c : block stmt)
    (b b' : list stmt) :
    drops b b' -> is_nonempty b' = true ->
    drops (pre ++ IfStatement t c (Some (BlockStatement b)) :: post)
          (pre ++ IfStatement t c (Some (BlockStatement b')) :: post)
| drops_body (pre post : list stmt) (t : expr) (b b' : list stmt) :
    drops b b' ->
    drops (pre ++ WhileStatement t (BlockStatement b) :: post)
          (pre ++ WhileStatement t (BlockStatement b') :: post).

Section DropUnknown.
Import RapcodeGenerator.

Lemma all_lines_middle (n : nat) (pre post : list stmt) (s s' : stmt) :
  node_lines n s = node_lines n s' ->
  all_lines n (pre ++ s :: post) = all_lines n (pre ++ s' :: post).
Proof.
  intros E. rewrite !all_lines_app. cbn [all_lines]. now rewrite E.
Qed.

Lemma drops_nonempty (l l' : list stmt) :
  drops l l' -> is_nonempty l = true.
Proof. intros H. destruct H; now destruct pre. Qed.

Lemma drops_lines (l l' : list stmt) :
  drops l l' -> forall n, all_lines n l = all_lines n l'.
Proof.
  induction 1 as [pre post ty _
                 |pre post t c c' a _ IH
                 |pre post t c b b' D IH Nb
                 |pre post t b b' _ IH]; intros n.
  - rewrite !all_lines_app. cbn [all_lines].
    rewrite unknown_statement_lines.
    destruct (all_lines n pre); [|reflexivity]. cbn [bind].
    destruct (all_lines n post); reflexivity.
  - apply all_lines_middle. rewrite !node_lines_if. cbn [block_body].
    unfold _generate_nodes. now rewrite IH.
  - apply all_lines_middle. rewrite !node_lines_if. cbn [block_body].
    rewrite (drops_nonempty _ _ D), Nb.
    unfold _generate_nodes. now rewrite IH.
  - apply all_lines_middle.
    destruct t; cbn [node_lines]; unfold _generate_nodes;
      rewrite ?each_lines; cbn [block_body]; now rewrite ?IH.
Qed.

(** An ELSE block that holds nothing but a statement of unknown kind: its
    ELSE line is printed, with no line under it. *)
Lemma unknown_else_lines (n : nat) (t : expr) (c : block stmt)
    (ty : string) :
  node_lines n (IfStatement t c (Some (BlockStatement [OtherStatement ty])))
  = (lines <- node_lines n (IfStatement t c None) ;;
     Ok (removelast lines
           ++ [(indent_of n ++ "ELSE")%string;
               (indent_of n ++ "ENDIF")%string])%list).
Proof.
  rewrite !node_lines_if. cbn [block_body is_nonempty].
  destruct (expression_to_string t); [|reflexivity]. cbn [bind].
  destruct (_generate_nodes (block_body c) (n + 1)); [|reflexivity].
  cbn [bind]. unfold _generate_nodes. cbn [all_lines node_lines bind].
  change (([] ++ [])%list) with (@nil string).
  cbn [join splitlines splitlines_from bind].
  rewrite removelast_last. rewrite <- !app_assoc. reflexivity.
Qed.

End DropUnknown.

(** C7, as the code has it.  Statement nodes whose type is none of the
    kinds may stand anywhere in a program, at any depth.  The Graphviz
    generator does not fail on their account: on a program whose other
    statements are of the closed set and whose breaks are enclosed it
    returns a diagram, whatever the state of the generator object, and
    every such node that the walker visits becomes one octagon node
    labelled [Unknown Node:] and the type, which is the entry and the exit
    of the statement.  The FlowLang generator does not fail on their
    account either: it emits no line for such a node, so its result for a
    program is its result for the program without the node, wherever the
    node stands.  Only an ELSE block that the removal would empty differs:
    the ELSE line of a block that holds nothing but such nodes is still
    printed. *)
Theorem C7_unknown_statement_kind :
  (forall (p : program) (self : AstVisualizer.instance string),
      drawable_program p = true -> every_break_in_a_loop p = true ->
      generates (GraphvizGenerator.generate p) self)
  /\ (forall (ty : string) (st : AstVisualizer.instance string),
         ~ In ty KINDS ->
         AstVisualizer._generate_node (OtherStatement ty) st
         = (Ok (Some ("node" ++ str_nat (AstVisualizer.node_count st)),
                Some ("node" ++ str_nat (AstVisualizer.node_count st))),
            AstVisualizer.Instance (AstVisualizer.node_count st + 1)
              (AstVisualizer.loop_exit_stack st)
              (AstVisualizer.out st
               ++ "  node" ++ str_nat (AstVisualizer.node_count st)
               ++ " [label=" ++ QUOTE
               ++ graphviz_label ("Unknown Node:" ++ NL ++ ty)
               ++ QUOTE ++ ", shape=octagon];" ++ NL)))
  /\ (forall l l' : list stmt,
         drops l l' ->
         RapcodeGenerator.generate (Program l)
         = RapcodeGenerator.generate (Program l'))
  /\ (forall (ty : string) (t : expr) (c : block stmt) (n : nat),
         ~ In ty KINDS ->
         RapcodeGenerator.node_lines n
           (IfStatement t c (Some (BlockStatement [OtherStatement ty])))
         = (lines <- RapcodeGenerator.node_lines n (IfStatement t c None) ;;
            Ok (removelast lines
                  ++ [(RapcodeGenerator.indent_of n ++ "ELSE")%string;
                      (RapcodeGenerator.indent_of n ++ "ENDIF")%string])%list)).
Proof.
  split; [|split; [|split]].
  - intros p self C E.
    pose proof (graphviz_generate_drawable p self C) as G.
    now rewrite E, orb_true_r in G.
  - intros ty st _.
    cbn [AstVisualizer._generate_node]. unfold AstVisualizer.unknown_node.
    unfold AstVisualizer.gbind.
    cbn [AstVisualizer._add_node GraphvizGenerator.backend].
    unfold GraphvizGenerator.add_node, GraphvizGenerator.emit.
    cbn [AstVisualizer.node_count AstVisualizer.loop_exit_stack
         AstVisualizer.out String.eqb Ascii.eqb Bool.eqb].
    unfold AstVisualizer.ret.
    fold (graphviz_label ("Unknown Node:" ++ NL ++ ty)).
    f_equal. f_equal. cbn [join append]. f_equal.
    rewrite !append_assoc. reflexivity.
  - intros l l' D.
    unfold RapcodeGenerator.generate, RapcodeGenerator._generate_nodes.
    cbn [body]. now rewrite (drops_lines l l' D 0).
  - intros ty t c n _. apply unknown_else_lines.
Qed.

(** A loop that holds a node of the unknown kind Foo inside an IF: the
    Graphviz generator returns, and the FlowLang text is the text of the
    loop without the node. *)
Definition loop_with_foo : program :=
  Program
    [WhileStatement (Identifier "c")
       (BlockStatement
          [IfStatement (Identifier "d")
             (BlockStatement [OtherStatement "Foo"; BreakStatement]) None])].

Definition loop_without_foo : program :=
  Program
    [WhileStatement (Identifier "c")
       (BlockStatement
          [IfStatement (Identifier "d")
             (BlockStatement [BreakStatement]) None])].

Lemma drops_foo : drops (body loop_with_foo) (body loop_without_foo).
Proof.
  apply (drops_body [] [] (Identifier "c")).
  apply (drops_consequent [] [] (Identifier "d")).
  apply (drops_here [] [BreakStatement] "Foo"). exact foo_is_no_kind.
Qed.

Lemma C7_witness :
  generates (GraphvizGenerator.generate loop_with_foo) GraphvizGenerator.new
  /\ AstVisualizer._generate_node (OtherStatement "Foo")
       GraphvizGenerator.new
     = (Ok (Some "node0", Some "node0"),
        AstVisualizer.Instance 1 []
          ("  node0 [label=" ++ QUOTE ++ "Unknown Node:" ++ s_of BACKSLASH
           ++ "nFoo" ++ QUOTE ++ ", shape=octagon];" ++ NL))
  /\ RapcodeGenerator.generate loop_with_foo
     = RapcodeGenerator.generate loop_without_foo
  /\ RapcodeGenerator.generate loop_with_foo
     = Ok ("WHILE c DO" ++ NL ++ "  IF d THEN" ++ NL ++ "    BREAK" ++ NL
           ++ "  ENDIF" ++ NL ++ "ENDLOOP").
Proof.
  destruct C7_unknown_statement_kind as [G [N [F _]]].
  split; [exact (G loop_with_foo GraphvizGenerator.new eq_refl eq_refl)|].
  split; [exact (N "Foo" GraphvizGenerator.new foo_is_no_kind)|].
  split; [exact (F _ _ drops_foo)|].
  vm_compute. reflexivity.
Defined.

(** On a program whose only statement is of the unknown kind Foo the
    FlowLang generator returns the empty text: no GenerationError.  (The
    Mermaid generator, whose table of shapes has no octagon, raises a
    KeyError on it.) *)
Lemma C7_counterexample :
  ~ In "Foo" KINDS
  /\ RapcodeGenerator.generate (Program [OtherStatement "Foo"]) = Ok ""
  /\ fst (MermaidGenerator.generate (Program [OtherStatement "Foo"])
            MermaidGenerator.new)
     = Raise (KeyError "octagon").
Proof.
  split; [exact foo_is_no_kind|]. split; vm_compute; reflexivity.
Qed.

(** * Further properties of the code *)
(* ================================================================== *)

(** ** parsing/expression_parser.py: errors *)

Lemma fbind_raise {A B} (c : fueled A) (k : A -> fueled B) (e : exn) :
  fbind c k = Some (Raise e) ->
  c = Some (Raise e) \/ exists a, c = Some (Ok a) /\ k a = Some (Raise e).
Proof.
  destruct c as [[a|x]|]; simpl; intros H; try discriminate;
    [right; eauto | left; now injection H as ->].
Qed.

(** The exceptions of class ParsingError. *)
Definition is_parsing_error (e : exn) : Prop :=
  match e with ParsingError _ => True | _ => False end.

Section ExpressionErrors.
Import ExpressionParser.
Variable T : list string.

Lemma consume_raises (expected : option string) (pos : nat) (e : exn) :
  _consume T expected pos = Raise e -> is_parsing_error e.
Proof.
  unfold _consume. destruct (_ && _); intros H; [|discriminate H].
  now injection H as <-.
Qed.

Lemma match_returns (tys : list string) (pos : nat) :
  exists m q, _match T tys pos = Ok (m, q).
Proof.
  unfold _match, _consume. cbn [truthy_opt andb].
  destruct (in_tuple _ _); eauto.
Qed.

(** A rule raises nothing but a ParsingError. *)
Definition raises_parsing (r : P) : Prop :=
  forall e, r = Some (Raise e) -> is_parsing_error e.

Ltac failed H :=
  let E := fresh "E" in
  let a := fresh "a" in
  let p := fresh "p" in
  apply fbind_raise in H;
  destruct H as [E|[[a p] [E H]]]; cbn beta iota in *.

Lemma rules_raise (fuel : nat) :
  (forall pos, raises_parsing (_parse_logical_or T fuel pos))
  /\ (forall node pos, raises_parsing (or_loop T fuel node pos))
  /\ (forall pos, raises_parsing (_parse_logical_and T fuel pos))
  /\ (forall node pos, raises_parsing (and_loop T fuel node pos))
  /\ (forall pos, raises_parsing (_parse_comparison T fuel pos))
  /\ (forall pos, raises_parsing (_parse_additive T fuel pos))
  /\ (forall node pos, raises_parsing (add_loop T fuel node pos))
  /\ (forall pos, raises_parsing (_parse_multiplicative T fuel pos))
  /\ (forall node pos, raises_parsing (mul_loop T fuel node pos))
  /\ (forall pos, raises_parsing (_parse_unary T fuel pos))
  /\ (forall pos, raises_parsing (_parse_atom T fuel pos)).
Proof.
  assert (Mt : forall tys pos e,
             lift (_match T tys pos) = Some (Raise e) -> False).
  { intros tys pos e H. destruct (match_returns tys pos) as [m [q E]].
    unfold lift in H. rewrite E in H. discriminate H. }
  assert (Cs : forall x pos e,
             lift (_consume T x pos) = Some (Raise e) -> is_parsing_error e).
  { intros x pos e H. injection H as H. exact (consume_raises _ _ _ H). }
  induction fuel as [|fuel IH].
  { repeat split; unfold raises_parsing; intros; discriminate. }
  destruct IH as [Or [OrL [And [AndL [Cmp [Add [AddL [Mul [MulL [Un At]]]]]]]]]].
  split; [|split; [|split; [|split; [|split; [|split; [|split; [|split;
    [|split; [|split]]]]]]]]]; unfold raises_parsing in *.
  - intros pos e H. cbn [_parse_logical_or] in H. failed H; eauto.
  - intros node pos e H. cbn [or_loop] in H. failed H; [now apply Mt in E|].
    destruct (truthy_opt a); [|discriminate H]. failed H; eauto.
  - intros pos e H. cbn [_parse_logical_and] in H. failed H; eauto.
  - intros node pos e H. cbn [and_loop] in H. failed H; [now apply Mt in E|].
    destruct (truthy_opt a); [|discriminate H]. failed H; eauto.
  - intros pos e H. cbn [_parse_comparison] in H. failed H; eauto.
    failed H; [now apply Mt in E0|].
    destruct (truthy_opt a0); [|discriminate H]. failed H; eauto.
    discriminate H.
  - intros pos e H. cbn [_parse_additive] in H. failed H; eauto.
  - intros node pos e H. cbn [add_loop] in H. failed H; [now apply Mt in E|].
    destruct (truthy_opt a); cbn [negb] in H; [|discriminate H].
    failed H; eauto.
  - intros pos e H. cbn [_parse_multiplicative] in H. failed H; eauto.
  - intros node pos e H. cbn [mul_loop] in H. failed H; [now apply Mt in E|].
    destruct (truthy_opt a); cbn [negb] in H; [|discriminate H].
    failed H; eauto.
  - intros pos e H. cbn [_parse_unary] in H. failed H; [now apply Mt in E|].
    destruct (truthy_opt a); [|eauto]. failed H; eauto. discriminate H.
  - intros pos e H. cbn [_parse_atom] in H.
    destruct (_peek T pos) as [token|]; [|now injection H as <-].
    destruct (String.eqb token "(").
    { failed H; eauto. failed H; eauto. failed H; eauto. discriminate H. }
    destruct (String.eqb token "INPUT").
    { failed H; eauto. failed H; eauto. failed H; eauto. failed H; eauto.
      discriminate H. }
    destruct (String.eqb token "TRUE"); [failed H; eauto; discriminate H|].
    destruct (String.eqb token "FALSE"); [failed H; eauto; discriminate H|].
    destruct (startswith token QUOTE); [failed H; eauto; discriminate H|].
    destruct (is_number token); [failed H; eauto; discriminate H|].
    destruct (is_identifier token); [failed H; eauto; discriminate H|].
    now injection H as <-.
Qed.

End ExpressionErrors.

Lemma expression_parse_raises (tokens : list string) (e : exn) :
  ExpressionParser.parse tokens = Some (Raise e) -> is_parsing_error e.
Proof.
  unfold ExpressionParser.parse. destruct tokens as [|t r]; [discriminate|].
  intros H. apply fbind_raise in H. destruct H as [E|[[a p] [E H]]].
  - exact (proj1 (rules_raise (t :: r) _) _ _ E).
  - cbn beta iota in H. destruct (truthy_opt _); [|discriminate H].
    now injection H as <-.
Qed.

(** ** parsing/expression_parser.py: termination *)

Section ExpressionTermination.
Import ExpressionParser.
Variable T : list string.

Lemma peek_bound (pos : nat) (t : string) :
  _peek T pos = Some t -> pos < length T.
Proof. intros E. apply nth_error_Some. unfold _peek in E. congruence. Qed.

(** What [_match] does: nothing, or one step over a token that is there. *)
Lemma match_cases (tys : list string) (pos : nat) :
  _match T tys pos = Ok (None, pos)
  \/ exists t, pos < length T /\ _match T tys pos = Ok (Some t, S pos).
Proof.
  unfold _match, _consume. cbn [truthy_opt andb].
  destruct (_peek T pos) as [t|] eqn:E; cbn [in_tuple]; [|now left].
  destruct (existsb _ tys); [|now left].
  right. exists t. split; [exact (peek_bound _ _ E) | reflexivity].
Qed.

Lemma match_step (tys : list string) (pos : nat) (m : option string)
    (q : nat) :
  lift (_match T tys pos) = Some (Ok (m, q)) ->
  (q = pos /\ truthy_opt m = false)
  \/ (q = S pos /\ pos < length T).
Proof.
  unfold lift. intros H. injection H as H.
  destruct (match_cases tys pos) as [E|[t [B E]]]; rewrite E in H;
    injection H as <- <-; auto.
Qed.

(** A token that [_consume] was asked for, or one that was seen, is
    there. *)
Lemma consume_step (x : option string) (pos : nat) (m : option string)
    (q : nat) :
  lift (_consume T x pos) = Some (Ok (m, q)) ->
  q = S pos /\ (truthy_opt x = true -> pos < length T).
Proof.
  unfold lift, _consume. intros H. injection H as H.
  destruct (truthy_opt x) eqn:Tx; cbn [andb] in H.
  - destruct (eqb_opt (_peek T pos) x) eqn:E; cbn [negb] in H;
      [|discriminate H].
    injection H as _ <-. split; [reflexivity|]. intros _.
    destruct (_peek T pos) as [t|] eqn:Pk; [exact (peek_bound _ _ Pk)|].
    destruct x; [discriminate E | discriminate Tx].
  - injection H as _ <-. split; [reflexivity | discriminate].
Qed.

(** A rule that returns does not move backwards. *)
Definition advances (pos : nat) (r : P) : Prop :=
  forall e q, r = Some (Ok (e, q)) -> pos <= q.

Ltac moved H :=
  let a := fresh "a" in
  let p := fresh "p" in
  let E := fresh "E" in
  apply fbind_ok in H; destruct H as [[a p] [E H]]; cbn beta iota in H.

Lemma rules_advance (fuel : nat) :
  (forall pos, advances pos (_parse_logical_or T fuel pos))
  /\ (forall node pos, advances pos (or_loop T fuel node pos))
  /\ (forall pos, advances pos (_parse_logical_and T fuel pos))
  /\ (forall node pos, advances pos (and_loop T fuel node pos))
  /\ (forall pos, advances pos (_parse_comparison T fuel pos))
  /\ (forall pos, advances pos (_parse_additive T fuel pos))
  /\ (forall node pos, advances pos (add_loop T fuel node pos))
  /\ (forall pos, advances pos (_parse_multiplicative T fuel pos))
  /\ (forall node pos, advances pos (mul_loop T fuel node pos))
  /\ (forall pos, advances pos (_parse_unary T fuel pos))
  /\ (forall pos, advances pos (_parse_atom T fuel pos)).
Proof.
  induction fuel as [|fuel IH].
  { repeat split; unfold advances; intros; discriminate. }
  destruct IH as [Or [OrL [And [AndL [Cmp [Add [AddL [Mul [MulL [Un At]]]]]]]]]].
  unfold advances in *.
  split; [|split; [|split; [|split; [|split; [|split; [|split; [|split;
    [|split; [|split]]]]]]]]].
  - intros pos e q H. cbn [_parse_logical_or] in H. moved H.
    apply And in E. apply OrL in H. lia.
  - intros node pos e q H. cbn [or_loop] in H. moved H.
    apply match_step in E.
    destruct (truthy_opt a); [|injection H as _ <-; lia].
    moved H. apply And in E0. apply OrL in H. lia.
  - intros pos e q H. cbn [_parse_logical_and] in H. moved H.
    apply Cmp in E. apply AndL in H. lia.
  - intros node pos e q H. cbn [and_loop] in H. moved H.
    apply match_step in E.
    destruct (truthy_opt a); [|injection H as _ <-; lia].
    moved H. apply Cmp in E0. apply AndL in H. lia.
  - intros pos e q H. cbn [_parse_comparison] in H. moved H. moved H.
    apply Add in E. apply match_step in E0.
    destruct (truthy_opt a0); [|injection H as _ <-; lia].
    moved H. apply Add in E1. injection H as _ <-. lia.
  - intros pos e q H. cbn [_parse_additive] in H. moved H.
    apply Mul in E. apply AddL in H. lia.
  - intros node pos e q H. cbn [add_loop] in H. moved H.
    apply match_step in E.
    destruct (truthy_opt a); cbn [negb] in H; [|injection H as _ <-; lia].
    moved H. apply Mul in E0. apply AddL in H. lia.
  - intros pos e q H. cbn [_parse_multiplicative] in H. moved H.
    apply Un in E. apply MulL in H. lia.
  - intros node pos e q H. cbn [mul_loop] in H. moved H.
    apply match_step in E.
    destruct (truthy_opt a); cbn [negb] in H; [|injection H as _ <-; lia].
    moved H. apply Un in E0. apply MulL in H. lia.
  - intros pos e q H. cbn [_parse_unary] in H. moved H.
    apply match_step in E.
    destruct (truthy_opt a).
    + moved H. apply Un in E0. injection H as _ <-. lia.
    + apply At in H. lia.
  - intros pos e q H. cbn [_parse_atom] in H.
    destruct (_peek T pos) as [token|]; [|discriminate H].
    destruct (String.eqb token "(").
    { moved H. moved H. moved H. injection H as _ <-.
      apply consume_step in E, E1. apply Or in E0. lia. }
    destruct (String.eqb token "INPUT").
    { moved H. moved H. moved H. moved H. injection H as _ <-.
      apply consume_step in E, E0, E2. apply Or in E1. lia. }
    destruct (String.eqb token "TRUE").
    { moved H. injection H as _ <-. apply consume_step in E. lia. }
    destruct (String.eqb token "FALSE").
    { moved H. injection H as _ <-. apply consume_step in E. lia. }
    destruct (startswith token QUOTE).
    { moved H. injection H as _ <-. apply consume_step in E. lia. }
    destruct (is_number token).
    { moved H. injection H as _ <-. apply consume_step in E. lia. }
    destruct (is_identifier token); [|discriminate H].
    moved H. injection H as _ <-. apply consume_step in E. lia.
Qed.

(** A call that comes back within the fuel: with a result or with an
    exception. *)
Definition comes_back {A} (r : fueled A) : Prop := r <> None.

Lemma comes_back_bind {A B} (c : fueled A) (k : A -> fueled B) :
  comes_back c -> (forall a, c = Some (Ok a) -> comes_back (k a)) ->
  comes_back (fbind c k).
Proof.
  unfold comes_back. destruct c as [[a|e]|]; simpl; intros H K;
    [now apply K | discriminate | contradiction].
Qed.

Lemma comes_back_lift {A} (r : result A) : comes_back (lift r).
Proof. discriminate. Qed.

(** The tokens from [pos] on. *)
Definition left_ (pos : nat) : nat := length T - pos.

(** Fuel that suffices for each rule: seven units for each token that is
    left, and the depth of the rule. *)
Lemma rules_come_back (fuel : nat) :
  (forall pos, 7 + 7 * left_ pos <= fuel ->
               comes_back (_parse_logical_or T fuel pos))
  /\ (forall node pos, 1 + 7 * left_ pos <= fuel ->
                       comes_back (or_loop T fuel node pos))
  /\ (forall pos, 6 + 7 * left_ pos <= fuel ->
                  comes_back (_parse_logical_and T fuel pos))
  /\ (forall node pos, 1 + 7 * left_ pos <= fuel ->
                       comes_back (and_loop T fuel node pos))
  /\ (forall pos, 5 + 7 * left_ pos <= fuel ->
                  comes_back (_parse_comparison T fuel pos))
  /\ (forall pos, 4 + 7 * left_ pos <= fuel ->
                  comes_back (_parse_additive T fuel pos))
  /\ (forall node pos, 1 + 7 * left_ pos <= fuel ->
                       comes_back (add_loop T fuel node pos))
  /\ (forall pos, 3 + 7 * left_ pos <= fuel ->
                  comes_back (_parse_multiplicative T fuel pos))
  /\ (forall node pos, 1 + 7 * left_ pos <= fuel ->
                       comes_back (mul_loop T fuel node pos))
  /\ (forall pos, 2 + 7 * left_ pos <= fuel ->
                  comes_back (_parse_unary T fuel pos))
  /\ (forall pos, 1 + 7 * left_ pos <= fuel ->
                  comes_back (_parse_atom T fuel pos)).
Proof.
  induction fuel as [|fuel IH].
  { repeat split; intros; lia. }
  destruct IH as [Or [OrL [And [AndL [Cmp [Add [AddL [Mul [MulL [Un At]]]]]]]]]].
  destruct (rules_advance fuel)
    as [Or' [_ [And' [_ [Cmp' [Add' [_ [Mul' [_ [Un' _]]]]]]]]]].
  unfold advances, left_ in *.
  split; [|split; [|split; [|split; [|split; [|split; [|split; [|split;
    [|split; [|split]]]]]]]]].
  - intros pos F. cbn [_parse_logical_or]. apply comes_back_bind.
    + apply And. lia.
    + intros [node q] E. apply And' in E. apply OrL. lia.
  - intros node pos F. cbn [or_loop]. apply comes_back_bind.
    + apply comes_back_lift.
    + intros [m q] E. apply match_step in E.
      destruct E as [[-> ->]|[-> B]]; [discriminate|].
      destruct (truthy_opt m); [|discriminate].
      apply comes_back_bind; [apply And; lia|].
      intros [r q] E. apply And' in E. apply OrL. lia.
  - intros pos F. cbn [_parse_logical_and]. apply comes_back_bind.
    + apply Cmp. lia.
    + intros [node q] E. apply Cmp' in E. apply AndL. lia.
  - intros node pos F. cbn [and_loop]. apply comes_back_bind.
    + apply comes_back_lift.
    + intros [m q] E. apply match_step in E.
      destruct E as [[-> ->]|[-> B]]; [discriminate|].
      destruct (truthy_opt m); [|discriminate].
      apply comes_back_bind; [apply Cmp; lia|].
      intros [r q] E. apply Cmp' in E. apply AndL. lia.
  - intros pos F. cbn [_parse_comparison]. apply comes_back_bind.
    + apply Add. lia.
    + intros [node q] E. apply Add' in E. apply comes_back_bind.
      * apply comes_back_lift.
      * intros [m q'] E'. apply match_step in E'.
        destruct E' as [[-> ->]|[-> B]]; [discriminate|].
        destruct (truthy_opt m); [|discriminate].
        apply comes_back_bind; [apply Add; lia|].
        intros [r q'] _. discriminate.
  - intros pos F. cbn [_parse_additive]. apply comes_back_bind.
    + apply Mul. lia.
    + intros [node q] E. apply Mul' in E. apply AddL. lia.
  - intros node pos F. cbn [add_loop]. apply comes_back_bind.
    + apply comes_back_lift.
    + intros [m q] E. apply match_step in E.
      destruct E as [[-> ->]|[-> B]]; [discriminate|].
      destruct (truthy_opt m); cbn [negb]; [|discriminate].
      apply comes_back_bind; [apply Mul; lia|].
      intros [r q] E. apply Mul' in E. apply AddL. lia.
  - intros pos F. cbn [_parse_multiplicative]. apply comes_back_bind.
    + apply Un. lia.
    + intros [node q] E. apply Un' in E. apply MulL. lia.
  - intros node pos F. cbn [mul_loop]. apply comes_back_bind.
    + apply comes_back_lift.
    + intros [m q] E. apply match_step in E.
      destruct E as [[-> ->]|[-> B]]; [discriminate|].
      destruct (truthy_opt m); cbn [negb]; [|discriminate].
      apply comes_back_bind; [apply Un; lia|].
      intros [r q] E. apply Un' in E. apply MulL. lia.
  - intros pos F. cbn [_parse_unary]. apply comes_back_bind.
    + apply comes_back_lift.
    + intros [m q] E. apply match_step in E.
      destruct E as [[-> ->]|[-> B]]; [apply At; lia|].
      destruct (truthy_opt m); [|apply At; lia].
      apply comes_back_bind; [apply Un; lia|].
      intros [r q] _. discriminate.
  - intros pos F. cbn [_parse_atom].
    destruct (_peek T pos) as [token|] eqn:Pk; [|discriminate].
    apply peek_bound in Pk.
    destruct (String.eqb token "(").
    { apply comes_back_bind; [apply comes_back_lift|].
      intros [m q] E. apply consume_step in E. destruct E as [-> _].
      apply comes_back_bind; [apply Or; lia|].
      intros [node q] _. apply comes_back_bind; [apply comes_back_lift|].
      intros [m' q'] _. discriminate. }
    destruct (String.eqb token "INPUT").
    { apply comes_back_bind; [apply comes_back_lift|].
      intros [m q] E. apply consume_step in E. destruct E as [-> _].
      apply comes_back_bind; [apply comes_back_lift|].
      intros [m1 q1] E. apply consume_step in E. destruct E as [-> _].
      apply comes_back_bind; [apply Or; lia|].
      intros [node q] _. apply comes_back_bind; [apply comes_back_lift|].
      intros [m' q'] _. discriminate. }
    destruct (String.eqb token "TRUE").
    { apply comes_back_bind; [apply comes_back_lift|].
      intros [m q] _. discriminate. }
    destruct (String.eqb token "FALSE").
    { apply comes_back_bind; [apply comes_back_lift|].
      intros [m q] _. discriminate. }
    destruct (startswith token QUOTE).
    { apply comes_back_bind; [apply comes_back_lift|].
      intros [m q] _. discriminate. }
    destruct (is_number token).
    { apply comes_back_bind; [apply comes_back_lift|].
      intros [m q] _. discriminate. }
    destruct (is_identifier token); [|discriminate].
    apply comes_back_bind; [apply comes_back_lift|].
    intros [m q] _. discriminate.
Qed.

End ExpressionTermination.

Lemma expression_parse_comes_back (tokens : list string) :
  exists r, ExpressionParser.parse tokens = Some r.
Proof.
  unfold ExpressionParser.parse.
  destruct tokens as [|t l]; [eexists; reflexivity|].
  assert (C : comes_back
                (ExpressionParser._parse_logical_or (t :: l)
                   (ExpressionParser.parse_fuel (t :: l)) 0)).
  { apply (proj1 (rules_come_back (t :: l) _)).
    unfold ExpressionParser.parse_fuel, left_. cbn [length]. lia. }
  destruct (ExpressionParser._parse_logical_or _ _ 0) as [[[e q]|x]|];
    [|eexists; reflexivity|contradiction].
  cbn [fbind]. destruct (truthy_opt _); eexists; reflexivity.
Qed.

(** ** parsing/rapcode_parser.py: the lexer *)

Section LexerProperties.
Import RapcodeParser.

Lemma span_head (p : ascii -> bool) (c : ascii) (r : string) :
  p c = true -> exists a b, span p (String c r) = (String c a, b).
Proof.
  intros H. cbn [span]. rewrite H. destruct (span p r) as [a b]. eauto.
Qed.

(** At the start of every text that is not empty one alternative of the
    pattern matches, and the match is not empty: [finditer] skips no
    character. *)
Theorem lexer_matches_everywhere (s : string) :
  s <> EmptyString ->
  exists t rest,
    next_match s = Some (t, rest) /\ String.length rest < String.length s.
Proof.
  intros N. destruct (next_match s) as [[t rest]|] eqn:E.
  { exists t, rest. split; [reflexivity | exact (next_match_rest _ _ _ E)]. }
  exfalso. destruct s as [|c r]; [contradiction|]. unfold next_match in E.
  destruct (is_space c) eqn:Sp.
  { destruct (span_head is_space c r Sp) as [a [b Es]].
    unfold lex_space in E. rewrite Es in E. discriminate E. }
  destruct (lex_space _) as [[? ?]|]; [discriminate E|].
  destruct (lex_comment _) as [[? ?]|]; [discriminate E|].
  destruct (lex_ident _) as [[? ?]|]; [discriminate E|].
  destruct (lex_operator _) as [[? ?]|]; [discriminate E|].
  destruct (lex_number _) as [[? ?]|]; [discriminate E|].
  destruct (lex_string _) as [[? ?]|]; [discriminate E|].
  unfold lex_char in E. destruct (Ascii.eqb_spec c LF) as [->|_];
    [discriminate Sp | discriminate E].
Qed.

Lemma first_prefix_member (ops : list string) (s op rest : string) :
  first_prefix ops s = Some (op, rest) -> In op ops.
Proof.
  induction ops as [|o ops IH]; [discriminate|]. cbn [first_prefix].
  destruct (String.prefix o s); intros H.
  - injection H as <- _. now left.
  - right. now apply IH.
Qed.

Lemma next_match_tokens (s : string) (t : list string) (rest : string) :
  next_match s = Some (t, rest) -> Forall (fun x => truthy x = true) t.
Proof.
  unfold next_match. intros E.
  destruct (lex_space s) as [[a b]|].
  { injection E as <- _. apply Forall_forall. intros x Hx.
    apply repeat_spec in Hx. now subst x. }
  destruct (lex_comment s) as [[a b]|]; [injection E as <- _; constructor|].
  destruct (lex_ident s) as [[a b]|] eqn:E3.
  { injection E as <- _. unfold lex_ident in E3.
    destruct s as [|c r]; [discriminate E3|].
    destruct (ExpressionParser.is_ident_start c); [|discriminate E3].
    destruct (span _ r). injection E3 as <- _. now repeat constructor. }
  destruct (lex_operator s) as [[a b]|] eqn:E4.
  { injection E as <- _. apply first_prefix_member in E4.
    unfold OPERATORS in E4. simpl in E4.
    each_member E4; now repeat constructor. }
  destruct (lex_number s) as [[a b]|] eqn:E5.
  { injection E as <- _. unfold lex_number in E5.
    destruct (span is_digit s) as [[|c i] k]; [discriminate E5|].
    assert (truthy a = true); [|now repeat constructor].
    destruct k as [|d k]; [now injection E5 as <- _|].
    destruct (Ascii.eqb_spec d ".") as [->|Nd].
    - destruct (span is_digit k). now injection E5 as <- _.
    - destruct d as [[] [] [] [] [] [] [] []];
        try (now injection E5 as <- _). now contradiction Nd. }
  destruct (lex_string s) as [[a b]|] eqn:E6.
  { injection E as <- _. unfold lex_string in E6.
    destruct s as [|c r]; [discriminate E6|].
    destruct (Ascii.eqb c DQ); [|discriminate E6].
    destruct (string_body r) as [[? ?]|]; [|discriminate E6].
    injection E6 as <- _. now repeat constructor. }
  destruct (lex_char s) as [[a b]|] eqn:E7; [|discriminate E].
  injection E as <- _. unfold lex_char in E7.
  destruct s as [|c r]; [discriminate E7|].
  destruct (Ascii.eqb c LF); [discriminate E7|].
  injection E7 as <- _. now repeat constructor.
Qed.

Lemma tokenize_truthy (code : string) :
  Forall (fun t => truthy t = true) (_tokenize code).
Proof.
  unfold _tokenize. generalize (String.length code) as fuel.
  intros fuel. revert code. induction fuel as [|fuel IH]; intros code;
    cbn [tokenize_from]; [constructor|].
  destruct (next_match code) as [[t rest]|] eqn:E; [|constructor].
  apply Forall_app. split; [exact (next_match_tokens _ _ _ E) | apply IH].
Qed.

(** A character of white space that is no line feed. *)
Definition is_blank (c : ascii) : bool := is_space c && negb (Ascii.eqb c LF).

Lemma count_no_feed (a : string) :
  all_chars is_blank a = true -> count_char LF a = 0.
Proof.
  induction a as [|c a IH]; [reflexivity|].
  cbn [all_chars count_char]. intros H.
  apply andb_prop in H. destruct H as [Hc Ha]. unfold is_blank in Hc.
  apply andb_prop in Hc. destruct Hc as [_ Hc]. apply negb_true_iff in Hc.
  rewrite Ascii.eqb_sym in Hc. now rewrite Hc, (IH Ha).
Qed.

Lemma span_app_more (p : ascii -> bool) (a s : string) :
  all_chars p a = true ->
  span p (a ++ s) = (a ++ fst (span p s), snd (span p s)).
Proof.
  induction a as [|c a IH]; intros H; cbn [append].
  - now destruct (span p s).
  - simpl in H. apply andb_prop in H. destruct H as [Hc Ha].
    cbn [span]. now rewrite Hc, (IH Ha).
Qed.

Lemma count_char_app (c : ascii) (a b : string) :
  count_char c (a ++ b) = count_char c a + count_char c b.
Proof. induction a as [|d a IH]; simpl; [reflexivity|]. rewrite IH. lia. Qed.

(** Blanks in front of a text (indentation, blanks between tokens) change
    nothing in its tokens. *)
Theorem lexer_skips_blanks (blanks code : string) :
  all_chars is_blank blanks = true ->
  _tokenize (blanks ++ code) = _tokenize code.
Proof.
  intros B. destruct blanks as [|c a]; [reflexivity|].
  assert (Sp : all_chars is_space (String c a) = true).
  { apply all_chars_weaken with is_blank; [|exact B].
    intros d Hd. unfold is_blank in Hd. apply andb_prop in Hd.
    now destruct Hd. }
  pose proof (count_no_feed _ B) as Cn.
  pose proof (span_app_more is_space _ code Sp) as Es.
  destruct (span is_space code) as [w k] eqn:Ec. cbn [fst snd] in Es.
  assert (M : next_match (String c a ++ code)
              = Some (repeat NEWLINE (count_char LF w), k)).
  { unfold next_match, lex_space. rewrite Es. cbn [append].
    change (String c (a ++ w)) with (String c a ++ w).
    now rewrite count_char_app, Cn. }
  rewrite (tokenize_step _ _ _ M).
  destruct w as [|d w].
  - cbn [count_char repeat app]. f_equal.
    destruct code as [|x r]; [now injection Ec as <-|].
    cbn [span] in Ec. destruct (is_space x).
    + destruct (span is_space r). discriminate Ec.
    + now injection Ec as <-.
  - symmetry. apply tokenize_step. unfold next_match, lex_space.
    now rewrite Ec.
Qed.

(** A comment, from its two dashes to the end of the line, gives no
    token. *)
Theorem lexer_skips_comments (comment rest : string) :
  all_chars (fun c => negb (Ascii.eqb c LF)) comment = true ->
  ldelim rest ->
  _tokenize ("--" ++ comment ++ rest) = _tokenize rest.
Proof.
  intros C D. apply (tokenize_step _ []). unfold next_match.
  cbn [append]. rewrite lex_space_other by reflexivity.
  unfold lex_comment.
  rewrite (span_all _ comment rest C); [reflexivity|].
  destruct rest as [|c r]; [exact I|]. simpl in D. subst c. reflexivity.
Qed.

End LexerProperties.

(** ** parsing/rapcode_parser.py: the statement rules *)

Section StatementErrors.
Import RapcodeParser.
Variable T : list string.
Hypothesis tokens_truthy : Forall (fun t => truthy t = true) T.

Lemma rap_consume_raises (x : option string) (pos : nat) (e : exn) :
  lift (_consume T x pos) = Some (Raise e) -> is_parsing_error e.
Proof.
  unfold lift, _consume. destruct (_ && _); intros H; [|discriminate H].
  now injection H as <-.
Qed.

Lemma rap_match_returns (tys : list string) (pos : nat) (e : exn) :
  lift (_match T tys pos) = Some (Raise e) -> False.
Proof.
  unfold lift, _match, _consume. cbn [truthy_opt andb].
  destruct (in_tuple _ _); discriminate.
Qed.

Lemma parse_expression_raises (pos : nat) (e : exn) :
  _parse_expression T pos = Some (Raise e) -> is_parsing_error e.
Proof.
  unfold _parse_expression.
  destruct (expression_tokens _ 0); intros H; [now injection H as <-|].
  apply fbind_raise in H. destruct H as [E|[a [_ H]]]; [|discriminate H].
  exact (expression_parse_raises _ _ E).
Qed.

Lemma peek_truthy (pos : nat) (t : string) :
  _peek T pos = Some t -> truthy t = true.
Proof.
  intros E. apply nth_error_In in E.
  exact (proj1 (Forall_forall _ _) tokens_truthy t E).
Qed.

Lemma expression_start_returns (t : string) :
  truthy t = true -> exists b, _is_expression_start (Some t) = Ok b.
Proof.
  intros H. unfold _is_expression_start.
  destruct (existsb _ _); [eauto|]. destruct (startswith t QUOTE); [eauto|].
  destruct t as [|c r]; [discriminate H|].
  destruct (is_digit_method c); [eauto|]. destruct (_ && _); eauto.
Qed.

Ltac broke H :=
  let E := fresh "E" in
  let a := fresh "a" in
  let p := fresh "p" in
  apply fbind_raise in H;
  destruct H as [E|[[a p] [E H]]]; cbn beta iota in *;
  [first [ exact (rap_consume_raises _ _ _ E)
         | exact (parse_expression_raises _ _ E)
         | now apply rap_match_returns in E
         | idtac ]
  |].

(** A statement rule raises nothing but a ParsingError. *)
Definition fails_parsing {A} (r : fueled A) : Prop :=
  forall e, r = Some (Raise e) -> is_parsing_error e.

Lemma statement_rules_raise (fuel : nat) :
  (forall pos, fails_parsing (_parse_statement T fuel pos))
  /\ (forall pos, fails_parsing (_parse_if T fuel pos))
  /\ (forall acc pos, fails_parsing (consequent_loop T fuel acc pos))
  /\ (forall acc pos, fails_parsing (alternate_loop T fuel acc pos))
  /\ (forall pos, fails_parsing (_parse_loop T fuel pos))
  /\ (forall acc pos, fails_parsing (body_loop T fuel acc pos)).
Proof.
  induction fuel as [|fuel IH].
  { repeat split; unfold fails_parsing; intros; discriminate. }
  destruct IH as [St [If_ [Cl [Al [Lp Bl]]]]]. unfold fails_parsing in *.
  split; [|split; [|split; [|split; [|split]]]].
  - intros pos e H. cbn [_parse_statement] in H.
    destruct (_peek T (_skip_newlines T pos)) as [t|] eqn:Pk;
      [|discriminate H].
    destruct (existsb _ _); [discriminate H|].
    destruct (String.eqb t "IF"); [eauto|].
    destruct (_ || _); [eauto|].
    destruct (String.eqb t "BREAK"); [broke H; discriminate H|].
    destruct (String.eqb t "OUTPUT").
    { unfold _parse_output in H. broke H. broke H. discriminate H. }
    destruct (expression_start_returns t (peek_truthy _ _ Pk)) as [b Eb].
    rewrite Eb in H. unfold lift at 1 in H. cbn [fbind] in H.
    destruct (negb b); [now injection H as <-|].
    broke H. broke H.
    destruct (truthy_opt a0); [|now injection H as <-].
    broke H. destruct (negb _); [now injection H as <-|discriminate H].
  - intros pos e H. cbn [_parse_if] in H.
    broke H. broke H. broke H. broke H; [eauto|]. broke H.
    broke H.
    + destruct (truthy_opt a3); [|discriminate E4].
      broke E4; [eauto|discriminate E4].
    + broke H. discriminate H.
  - intros acc pos e H. cbn [consequent_loop] in H.
    destruct (_ || _); [discriminate H|]. broke H; eauto.
  - intros acc pos e H. cbn [alternate_loop] in H.
    destruct (eqb_opt _ _); [discriminate H|]. broke H; eauto.
  - intros pos e H. cbn [_parse_loop] in H.
    broke H. broke H.
    + destruct (truthy_opt a); [discriminate E0|].
      broke E0. destruct (truthy_opt a0); [|now injection E0 as <-].
      broke E0. broke E0. discriminate E0.
    + broke H; [eauto|]. broke H. discriminate H.
  - intros acc pos e H. cbn [body_loop] in H.
    destruct (eqb_opt _ _); [discriminate H|]. broke H; eauto.
Qed.

Lemma program_loop_raises (fuel : nat) :
  forall acc pos, fails_parsing (program_loop T fuel acc pos).
Proof.
  induction fuel as [|fuel IH]; intros acc pos e H; [discriminate H|].
  cbn [program_loop] in H. destruct (_peek T pos); [|discriminate H].
  broke H; [|exact (IH _ _ _ H)].
  exact (proj1 (statement_rules_raise fuel) _ _ E).
Qed.

End StatementErrors.

Lemma rapcode_parse_raises (fuel : nat) (content : string) (e : exn) :
  RapcodeParser.parse fuel content = Some (Raise e) -> is_parsing_error e.
Proof.
  unfold RapcodeParser.parse. intros H. apply fbind_raise in H.
  destruct H as [E|[a [_ H]]]; [|discriminate H].
  exact (program_loop_raises _ (tokenize_truthy content) _ _ _ _ E).
Qed.

Section StrayTerminator.
Import RapcodeParser.
Variable T : list string.

(** At top level, in front of ELSE, ENDIF or ENDLOOP, [_parse_statement]
    returns [None] without moving on and the loop of [parse] goes round
    for ever. *)
Lemma program_loop_stuck (fuel : nat) :
  forall (acc : list stmt) (pos : nat) (t : string),
    _peek T (_skip_newlines T pos) = Some t ->
    existsb (String.eqb t) ["ELSE"; "ENDIF"; "ENDLOOP"] = true ->
    program_loop T fuel acc pos = None.
Proof.
  induction fuel as [|fuel IH]; intros acc pos t Pk Ht; [reflexivity|].
  cbn [program_loop].
  destruct (_peek T pos) as [x|] eqn:Px.
  2:{ assert (E : _skip_newlines T pos = pos).
      { unfold _skip_newlines. unfold _peek in Px.
        apply nth_error_None in Px. rewrite skipn_all2 by exact Px.
        simpl. lia. }
      rewrite E in Pk. congruence. }
  destruct fuel as [|fuel']; [reflexivity|].
  rewrite parse_statement_stops by (rewrite Pk; exact Ht).
  cbn [fbind fret]. apply IH with t; [|exact Ht].
  now rewrite !skip_newlines_idem.
Qed.

End StrayTerminator.

(** The left side of every assignment is an Identifier node. *)
Fixpoint assigns_names (s : stmt) : bool :=
  match s with
  | AssignmentStatement l _ => RapcodeParser.is_identifier_node l
  | IfStatement _ c a =>
      forallb assigns_names (block_body c)
      && match a with
         | Some b => forallb assigns_names (block_body b)
         | None => true
         end
  | WhileStatement _ b => forallb assigns_names (block_body b)
  | _ => true
  end.

Section AssignmentTargets.
Import RapcodeParser.
Variable T : list string.

Lemma names_snoc (acc : list stmt) (s : stmt) :
  forallb assigns_names acc = true -> assigns_names s = true ->
  forallb assigns_names (acc ++ [s]) = true.
Proof. intros A S. rewrite forallb_app, A. simpl. now rewrite S. Qed.

Lemma statement_rules_assign (fuel : nat) :
  (forall pos s q, _parse_statement T fuel pos = Some (Ok (s, q)) ->
                   assigns_names s = true)
  /\ (forall pos s q, _parse_if T fuel pos = Some (Ok (s, q)) ->
                      assigns_names s = true)
  /\ (forall acc pos l q, forallb assigns_names acc = true ->
        consequent_loop T fuel acc pos = Some (Ok (l, q)) ->
        forallb assigns_names l = true)
  /\ (forall acc pos l q, forallb assigns_names acc = true ->
        alternate_loop T fuel acc pos = Some (Ok (l, q)) ->
        forallb assigns_names l = true)
  /\ (forall pos s q, _parse_loop T fuel pos = Some (Ok (s, q)) ->
                      assigns_names s = true)
  /\ (forall acc pos l q, forallb assigns_names acc = true ->
        body_loop T fuel acc pos = Some (Ok (l, q)) ->
        forallb assigns_names l = true).
Proof.
  induction fuel as [|fuel IH].
  { repeat split; intros; discriminate. }
  destruct IH as [St [If_ [Cl [Al [Lp Bl]]]]].
  split; [|split; [|split; [|split; [|split]]]].
  - intros pos s q H. cbn [_parse_statement] in H.
    destruct (_peek T (_skip_newlines T pos)) as [t|];
      [|now injection H as <- _].
    destruct (existsb _ _); [now injection H as <- _|].
    destruct (String.eqb t "IF"); [eauto|].
    destruct (_ || _); [eauto|].
    destruct (String.eqb t "BREAK").
    { returned H. now injection H as <- _. }
    destruct (String.eqb t "OUTPUT").
    { unfold _parse_output in H. returned H. returned H.
      now injection H as <- _. }
    apply fbind_ok in H. destruct H as [ok [_ H]].
    destruct (negb ok); [discriminate H|].
    returned H. returned H.
    destruct (truthy_opt a0); [|discriminate H].
    returned H. destruct (is_identifier_node a) eqn:Id; [|discriminate H].
    injection H as <- _. exact Id.
  - intros pos s q H. cbn [_parse_if] in H.
    returned H. returned H. returned H. returned H. returned H. returned H.
    returned H. injection H as <- _.
    pose proof (Cl [] _ _ _ eq_refl E2) as Bc.
    cbn [create_if_statement create_block assigns_names block_body].
    rewrite Bc. cbn [andb].
    destruct (truthy_opt a3).
    + returned E4. injection E4 as <- _.
      exact (Al [] _ _ _ eq_refl E6).
    + now injection E4 as <- _.
  - intros acc pos l q A H. cbn [consequent_loop] in H.
    destruct (_ || _); [now injection H as <- _|].
    returned H. eapply Cl; [|exact H]. apply names_snoc; eauto.
  - intros acc pos l q A H. cbn [alternate_loop] in H.
    destruct (eqb_opt _ _); [now injection H as <- _|].
    returned H. eapply Al; [|exact H]. apply names_snoc; eauto.
  - intros pos s q H. cbn [_parse_loop] in H.
    returned H. returned H. returned H. returned H. injection H as <- _.
    exact (Bl [] _ _ _ eq_refl E1).
  - intros acc pos l q A H. cbn [body_loop] in H.
    destruct (eqb_opt _ _); [now injection H as <- _|].
    returned H. eapply Bl; [|exact H]. apply names_snoc; eauto.
Qed.

Lemma program_loop_assigns (fuel : nat) :
  forall (acc : list stmt) (pos : nat) (l : list stmt),
    forallb assigns_names acc = true ->
    program_loop T fuel acc pos = Some (Ok l) ->
    forallb assigns_names l = true.
Proof.
  induction fuel as [|fuel IH]; intros acc pos l A H; [discriminate H|].
  cbn [program_loop] in H.
  destruct (_peek T pos); [|now injection H as <-].
  returned H. pose proof (proj1 (statement_rules_assign fuel) _ _ _ E) as B.
  eapply IH; [|exact H].
  destruct a; try (now apply names_snoc). exact A.
Qed.

End AssignmentTargets.

Section BlankText.
Import RapcodeParser.

Lemma leading_newlines_repeat (k : nat) :
  leading_newlines (repeat NEWLINE k) = k.
Proof. induction k as [|k IH]; [reflexivity|]. simpl. now rewrite IH. Qed.

Lemma tokenize_white (s : string) :
  all_chars is_space s = true ->
  _tokenize s = repeat NEWLINE (count_char LF s).
Proof.
  intros W. destruct s as [|c r]; [reflexivity|].
  assert (M : next_match (String c r)
              = Some (repeat NEWLINE (count_char LF (String c r)), "")).
  { unfold next_match, lex_space.
    rewrite <- (append_nil_r (String c r)) at 1.
    now rewrite (span_all is_space (String c r) "" W I). }
  rewrite (tokenize_step _ _ _ M), tokenize_empty. apply app_nil_r.
Qed.

End BlankText.

(** A call that returns or raises a ParsingError. *)
Definition settles {A} (r : fueled A) : Prop :=
  (exists a, r = Some (Ok a))
  \/ (exists m, r = Some (Raise (ParsingError m))).

Lemma settles_comes_back {A} (r : fueled A) : settles r -> comes_back r.
Proof. intros [[a ->]|[m ->]]; discriminate. Qed.

Lemma settles_bind {A B} (c : fueled A) (k : A -> fueled B) :
  settles c -> (forall a, c = Some (Ok a) -> settles (k a)) ->
  settles (fbind c k).
Proof.
  intros [[a ->]|[m ->]] K; [now apply K|].
  right. exists m. reflexivity.
Qed.

Lemma settles_ret {A} (a : A) : settles (fret a).
Proof. left. now exists a. Qed.

Lemma expression_parse_settles (tokens : list string) :
  settles (ExpressionParser.parse tokens).
Proof.
  destruct (expression_parse_comes_back tokens) as [[e|x] E]; [left; eauto|].
  pose proof (expression_parse_raises _ _ E) as Pe.
  destruct x; try contradiction. right. eauto.
Qed.


(** ** Statements about the expression parser, the lexer and the statement
    parser *)

(** Whatever the tokens, [ExpressionParser(tokens).parse()] comes to an
    end: it returns a tree (or [None], on no token at all) or raises a
    ParsingError, and nothing else.  Every rule consumes a token before it
    calls itself again. *)
Theorem expression_parser_returns_or_raises_parsing_error
    (tokens : list string) :
  (exists e, ExpressionParser.parse tokens = Some (Ok e))
  \/ (exists m,
        ExpressionParser.parse tokens = Some (Raise (ParsingError m))).
Proof. exact (expression_parse_settles tokens). Qed.

Lemma lexer_matches_everywhere_witness :
  "?" <> EmptyString
  /\ exists t rest,
       RapcodeParser.next_match "?" = Some (t, rest)
       /\ String.length rest < String.length "?".
Proof.
  assert (H : "?" <> EmptyString) by discriminate.
  split; [exact H | exact (lexer_matches_everywhere "?" H)].
Defined.

(** No token of the lexer is the empty string. *)
Theorem lexer_tokens_not_empty (code : string) :
  Forall (fun t => truthy t = true) (RapcodeParser._tokenize code).
Proof. exact (tokenize_truthy code). Qed.

Lemma lexer_skips_blanks_witness :
  all_chars is_blank "    " = true
  /\ RapcodeParser._tokenize ("    " ++ "x := 1")
     = RapcodeParser._tokenize "x := 1".
Proof.
  assert (H : all_chars is_blank "    " = true) by reflexivity.
  split; [exact H | exact (lexer_skips_blanks "    " "x := 1" H)].
Defined.

Lemma lexer_skips_comments_witness :
  all_chars (fun c => negb (Ascii.eqb c LF)) " set x" = true
  /\ ldelim (NL ++ "x := 1")
  /\ RapcodeParser._tokenize ("--" ++ " set x" ++ NL ++ "x := 1")
     = RapcodeParser._tokenize (NL ++ "x := 1").
Proof.
  assert (H : all_chars (fun c => negb (Ascii.eqb c LF)) " set x" = true)
    by reflexivity.
  assert (D : ldelim (NL ++ "x := 1")) by reflexivity.
  split; [exact H|]. split; [exact D|].
  exact (lexer_skips_comments " set x" (NL ++ "x := 1") H D).
Defined.

(** Whatever the text and the fuel, [RapcodeParser().parse(content)]
    raises nothing but a ParsingError: in particular [token[0]] in
    [_is_expression_start] never meets an empty token. *)
Theorem rapcode_parser_raises_parsing_error (fuel : nat) (content : string)
    (e : exn) :
  RapcodeParser.parse fuel content = Some (Raise e) -> is_parsing_error e.
Proof. exact (rapcode_parse_raises fuel content e). Qed.

Lemma rapcode_parser_raises_parsing_error_witness :
  RapcodeParser.parse 5 "x + 1"
  = Some (Raise (ParsingError
                   "Invalid statement. Did you mean 'OUTPUT x...' or an assignment?"))
  /\ is_parsing_error
       (ParsingError
          "Invalid statement. Did you mean 'OUTPUT x...' or an assignment?").
Proof.
  assert (H : RapcodeParser.parse 5 "x + 1"
              = Some (Raise (ParsingError
                   "Invalid statement. Did you mean 'OUTPUT x...' or an assignment?")))
    by (vm_compute; reflexivity).
  split; [exact H|].
  exact (rapcode_parser_raises_parsing_error 5 "x + 1" _ H).
Defined.

(** A text whose first token, after leading line breaks, is ELSE, ENDIF or
    ENDLOOP: [parse] neither returns nor raises, whatever the fuel.
    [_parse_statement] returns [None] in front of such a token without
    consuming it, and the loop of [parse] calls it again. *)
Theorem stray_terminator_never_returns (fuel : nat) (content t : string) :
  RapcodeParser._peek (RapcodeParser._tokenize content)
    (RapcodeParser._skip_newlines (RapcodeParser._tokenize content) 0)
  = Some t ->
  existsb (String.eqb t) ["ELSE"; "ENDIF"; "ENDLOOP"] = true ->
  RapcodeParser.parse fuel content = None.
Proof.
  intros Pk Ht. unfold RapcodeParser.parse.
  rewrite (program_loop_stuck _ fuel [] _ t); [reflexivity| |exact Ht].
  now rewrite skip_newlines_idem.
Qed.

Lemma stray_terminator_never_returns_witness :
  RapcodeParser._peek (RapcodeParser._tokenize (NL ++ "ENDIF"))
    (RapcodeParser._skip_newlines
       (RapcodeParser._tokenize (NL ++ "ENDIF")) 0)
  = Some "ENDIF"
  /\ existsb (String.eqb "ENDIF") ["ELSE"; "ENDIF"; "ENDLOOP"] = true
  /\ RapcodeParser.parse 1000 (NL ++ "ENDIF") = None.
Proof.
  assert (H : RapcodeParser._peek (RapcodeParser._tokenize (NL ++ "ENDIF"))
                (RapcodeParser._skip_newlines
                   (RapcodeParser._tokenize (NL ++ "ENDIF")) 0)
              = Some "ENDIF") by reflexivity.
  assert (M : existsb (String.eqb "ENDIF") ["ELSE"; "ENDIF"; "ENDLOOP"]
              = true) by reflexivity.
  split; [exact H|]. split; [exact M|].
  exact (stray_terminator_never_returns 1000 (NL ++ "ENDIF") "ENDIF" H M).
Defined.

(** In every program that the FlowLang parser returns, the left side of
    every assignment, at any depth, is an Identifier node. *)
Theorem rapcode_parser_assigns_names (fuel : nat) (content : string)
    (p : program) :
  RapcodeParser.parse fuel content = Some (Ok p) ->
  forallb assigns_names (body p) = true.
Proof.
  unfold RapcodeParser.parse. intros H.
  apply fbind_ok in H. destruct H as [l [E H]]. injection H as <-.
  exact (program_loop_assigns _ _ [] _ _ eq_refl E).
Qed.

Lemma rapcode_parser_assigns_names_witness :
  RapcodeParser.parse 5 ("LOOP" ++ NL ++ "(x) := 1" ++ NL ++ "ENDLOOP")
  = Some (Ok (Program
                [WhileStatement (Literal (VBool true))
                   (BlockStatement
                      [AssignmentStatement (Identifier "x")
                         (Literal (VInt 1))])]))
  /\ forallb assigns_names
       (body (Program
                [WhileStatement (Literal (VBool true))
                   (BlockStatement
                      [AssignmentStatement (Identifier "x")
                         (Literal (VInt 1))])])) = true.
Proof.
  assert (H : RapcodeParser.parse 5
                ("LOOP" ++ NL ++ "(x) := 1" ++ NL ++ "ENDLOOP")
              = Some (Ok (Program
                [WhileStatement (Literal (VBool true))
                   (BlockStatement
                      [AssignmentStatement (Identifier "x")
                         (Literal (VInt 1))])])))
    by (vm_compute; reflexivity).
  split; [exact H|].
  exact (rapcode_parser_assigns_names 5 _ _ H).
Defined.

(** A text of white space only (the empty text, blank lines) parses to the
    program without statements. *)
Theorem blank_text_parses_to_empty_program (fuel : nat) (content : string) :
  1 <= fuel -> all_chars is_space content = true ->
  RapcodeParser.parse fuel content = Some (Ok (Program [])).
Proof.
  intros F W. unfold RapcodeParser.parse. rewrite (tokenize_white _ W).
  set (k := RapcodeParser.count_char LF content).
  assert (Sk : RapcodeParser._skip_newlines
                 (repeat RapcodeParser.NEWLINE k) 0 = k)
    by (unfold RapcodeParser._skip_newlines; cbn [List.skipn];
        now rewrite leading_newlines_repeat).
  rewrite Sk. destruct fuel as [|fuel]; [lia|].
  cbn [RapcodeParser.program_loop]. unfold RapcodeParser._peek.
  assert (N : nth_error (repeat RapcodeParser.NEWLINE k) k = None)
    by (apply nth_error_None; now rewrite repeat_length).
  now rewrite N.
Qed.

Lemma blank_text_parses_to_empty_program_witness :
  1 <= 1 /\ all_chars is_space (NL ++ "  " ++ NL) = true
  /\ RapcodeParser.parse 1 (NL ++ "  " ++ NL) = Some (Ok (Program [])).
Proof.
  assert (F : 1 <= 1) by lia.
  assert (W : all_chars is_space (NL ++ "  " ++ NL) = true) by reflexivity.
  split; [exact F|]. split; [exact W|].
  exact (blank_text_parses_to_empty_program 1 _ F W).
Defined.

(** A name that starts with an underscore cannot start a statement: when
    it is the first token of the text, the lexer reads the name as one
    identifier, [_is_expression_start] asks [isalpha] of its first
    character, and [parse] raises on it. *)
Theorem underscore_name_starts_no_statement (fuel : nat)
    (content r : string) :
  2 <= fuel ->
  hd_error (RapcodeParser._tokenize content) = Some (String "_" r) ->
  RapcodeParser.parse fuel content
  = Some (Raise (ParsingError
                   ("Unexpected token: '" ++ String "_" r
                    ++ "'. Expected start of statement."))).
Proof.
  intros F Hd. unfold RapcodeParser.parse.
  destruct (RapcodeParser._tokenize content) as [|t T] eqn:Et;
    [discriminate Hd|]. injection Hd as ->.
  assert (Sk : forall q, q = 0 ->
             RapcodeParser._skip_newlines (String "_" r :: T) q = 0)
    by (intros q ->; reflexivity).
  rewrite (Sk 0 eq_refl). destruct fuel as [|[|fuel]]; try lia.
  cbn [RapcodeParser.program_loop RapcodeParser._peek nth_error].
  cbn [RapcodeParser._parse_statement]. rewrite (Sk 0 eq_refl).
  cbn [RapcodeParser._peek nth_error].
  reflexivity.
Qed.

Lemma underscore_name_starts_no_statement_witness :
  2 <= 5
  /\ hd_error (RapcodeParser._tokenize "_total := 0") = Some "_total"
  /\ RapcodeParser.parse 5 "_total := 0"
     = Some (Raise (ParsingError
                      ("Unexpected token: '" ++ "_total"
                       ++ "'. Expected start of statement."))).
Proof.
  assert (F : 2 <= 5) by lia.
  assert (H : hd_error (RapcodeParser._tokenize "_total := 0")
              = Some "_total") by reflexivity.
  split; [exact F|]. split; [exact H|].
  exact (underscore_name_starts_no_statement 5 "_total := 0" "total" F H).
Defined.
(** ** parsing/raptor_xml_parser.py *)

Section TranslatorOutcome.
Import RaptorXMLParser.

Lemma rewrap_settles {A} (prefix : string) (r : fueled A) :
  comes_back r -> settles (rewrap prefix r).
Proof.
  destruct r as [[a|e]|]; intros H.
  - left. now exists a.
  - right. eexists. reflexivity.
  - now contradiction H.
Qed.

Lemma xml_expression_comes_back (expr_str : string) :
  comes_back (_parse_expression expr_str).
Proof.
  unfold _parse_expression. destruct (negb (truthy expr_str));
    [discriminate|].
  apply settles_comes_back, rewrap_settles, settles_comes_back,
    expression_parse_settles.
Qed.

Definition child_settles (o : option element) : Prop :=
  settles (match o with
           | None => fret []
           | Some c => parse_present c
           end).

Lemma on_child_settles (o : option element) :
  on_child (fun x => settles (parse_present x)) o -> child_settles o.
Proof. destruct o; simpl; [auto | intros _; apply settles_ret]. Qed.

Lemma parse_present_settles (x : element) : settles (parse_present x).
Proof.
  induction x as [is_nil ty text inp prompt l r b a s Hl Hr Hb Ha Hs]
    using element_nested_ind.
  apply on_child_settles in Hl, Hr, Hb, Ha, Hs. unfold child_settles in *.
  cbn [parse_present]. destruct is_nil; [apply settles_ret|].
  apply settles_bind.
  2:{ intros cur _. apply settles_bind; [exact Hs|].
      intros rest _. apply settles_ret. }
  apply rewrap_settles.
  destruct (String.eqb ty "Rectangle").
  { destruct (contains _ ":="); [|discriminate].
    destruct (split_once _ ":=") as [left_str right_str].
    apply comes_back_bind; [apply xml_expression_comes_back|]. intros ? _.
    apply comes_back_bind; [apply xml_expression_comes_back|]. intros ? _.
    discriminate. }
  destruct (String.eqb ty "Parallelogram").
  { destruct (String.eqb (lower _) "true"); [discriminate|].
    apply comes_back_bind; [apply xml_expression_comes_back|]. intros ? _.
    discriminate. }
  destruct (String.eqb ty "IF_Control").
  { apply comes_back_bind; [now apply settles_comes_back|]. intros ? _.
    apply comes_back_bind; [now apply settles_comes_back|]. intros ? _.
    apply comes_back_bind; [apply xml_expression_comes_back|]. intros ? _.
    discriminate. }
  destruct (String.eqb ty "Loop"); [|discriminate].
  apply comes_back_bind; [now apply settles_comes_back|]. intros ? _.
  apply comes_back_bind; [now apply settles_comes_back|]. intros ? _.
  apply comes_back_bind; [apply xml_expression_comes_back|]. intros ? _.
  discriminate.
Qed.

End TranslatorOutcome.

(** The if-break node of a translated loop. *)
Definition if_break (s : stmt) : bool :=
  match s with
  | IfStatement _ (BlockStatement [BreakStatement]) None => true
  | _ => false
  end.

(** The statements that the translator makes from a flowchart: no
    IfStatement with an empty alternate block, every loop with the literal
    true as its test and an if-break node in its body, and no
    BreakStatement anywhere but in those if-break nodes. *)
Fixpoint translated (s : stmt) : bool :=
  match s with
  | AssignmentStatement _ _ | ExpressionStatement _ => true
  | IfStatement _ c a =>
      forallb translated (block_body c)
      && match a with
         | Some b =>
             is_nonempty (block_body b) && forallb translated (block_body b)
         | None => true
         end
  | WhileStatement t b =>
      RapcodeGenerator.is_literal_true t
      && existsb if_break (block_body b)
      && forallb (fun x => if_break x || translated x) (block_body b)
  | BreakStatement | NoneStatement | OtherStatement _ => false
  end.

Section TranslatorShape.
Import RaptorXMLParser.

Definition translates (x : element) : Prop :=
  forall l, parse_present x = Some (Ok l) -> forallb translated l = true.

Lemma child_translated (o : option element) (l : list stmt) :
  on_child translates o ->
  match o with
  | None => fret []
  | Some c => parse_present c
  end = Some (Ok l) ->
  forallb translated l = true.
Proof.
  destruct o as [c|]; simpl; intros H E; [now apply H|].
  now injection E as <-.
Qed.

Lemma translated_loop_body (l : list stmt) :
  forallb translated l = true ->
  forallb (fun x => if_break x || translated x) l = true.
Proof.
  induction l as [|s l IH]; [reflexivity|]. simpl. intros H.
  apply andb_prop in H. destruct H as [Hs Hl].
  now rewrite Hs, orb_true_r, (IH Hl).
Qed.

Ltac got H :=
  let a := fresh "a" in
  let E := fresh "E" in
  apply fbind_ok in H; destruct H as [a [E H]].

Lemma parse_present_translated (x : element) : translates x.
Proof.
  induction x as [is_nil ty text inp prompt l r b a s Hl Hr Hb Ha Hs]
    using element_nested_ind.
  intros out H. cbn [parse_present] in H.
  destruct is_nil; [now injection H as <-|].
  got H. got H. injection H as <-.
  pose proof (child_translated _ _ Hs E0) as Brest.
  rewrite forallb_app, Brest, andb_true_r.
  apply rewrap_ok in E.
  destruct (String.eqb ty "Rectangle").
  { destruct (contains _ ":="); [|now injection E as <-].
    destruct (split_once _ ":=") as [left_str right_str].
    got E. got E. now injection E as <-. }
  destruct (String.eqb ty "Parallelogram").
  { destruct (String.eqb (lower _) "true").
    - now injection E as <-.
    - got E. now injection E as <-. }
  destruct (String.eqb ty "IF_Control").
  { got E. got E. got E. injection E as <-.
    pose proof (child_translated _ _ Hl E1) as Bc.
    pose proof (child_translated _ _ Hr E2) as Ba.
    cbn [forallb create_if_statement create_block translated block_body].
    rewrite Bc. cbn [andb].
    destruct (is_nonempty a3) eqn:Ne; cbn [create_block block_body];
      now rewrite ?Ne, ?Ba. }
  destruct (String.eqb ty "Loop"); [|now injection E as <-].
  got E. got E. got E. injection E as <-.
  pose proof (child_translated _ _ Hb E1) as Bb.
  pose proof (child_translated _ _ Ha E2) as Ba.
  cbn [forallb create_while_statement create_block translated block_body
       create_literal RapcodeGenerator.is_literal_true andb].
  rewrite existsb_app, forallb_app.
  rewrite (translated_loop_body _ Bb).
  cbn [app existsb forallb create_if_statement create_block
       create_break_statement if_break orb andb].
  rewrite (translated_loop_body _ Ba). now rewrite orb_true_r.
Qed.

End TranslatorShape.

Section Equals.
Import RaptorXMLParser.

Lemma head_sub_equals (prev : option ascii) (s : string) :
  head_is "=" (sub_equals prev s) = head_is "=" s.
Proof.
  destruct s as [|c r]; [reflexivity|]. cbn [sub_equals].
  destruct (Ascii.eqb c "=" && _ && _) eqn:E; [|reflexivity].
  apply andb_prop in E. destruct E as [E _].
  apply andb_prop in E. destruct E as [E _].
  apply Ascii.eqb_eq in E. now subst c.
Qed.

Lemma sub_equals_again (s : string) :
  forall prev, sub_equals prev (sub_equals prev s) = sub_equals prev s.
Proof.
  induction s as [|c r IH]; intros prev; [reflexivity|].
  cbn [sub_equals].
  destruct (Ascii.eqb c "=") eqn:Ec; cbn [andb].
  2:{ cbn [sub_equals]. rewrite Ec. cbn [andb]. now rewrite IH. }
  apply Ascii.eqb_eq in Ec. subst c.
  destruct (guards_equals prev) eqn:G; cbn [negb andb].
  { cbn [sub_equals]. rewrite G. cbn [Ascii.eqb Bool.eqb negb andb].
    now rewrite IH. }
  destruct (head_is "=" r) eqn:Hd; cbn [negb].
  - cbn [sub_equals]. rewrite G, head_sub_equals, Hd.
    cbn [Ascii.eqb Bool.eqb negb andb]. now rewrite IH.
  - change ("==" ++ sub_equals (Some "="%char) r)
      with (String "=" (String "=" (sub_equals (Some "="%char) r))).
    cbn [sub_equals head_is]. rewrite G.
    cbn [Ascii.eqb Bool.eqb negb andb guards_equals existsb orb].
    now rewrite IH.
Qed.

End Equals.

(** ** generation/expression_utils.py and generation/rapcode_generator.py *)

Lemma expression_to_string_built (e : expr) :
  if built_expr e
  then exists s, expression_to_string e = Ok s
  else exists m, expression_to_string e = Raise (GenerationError m).
Proof.
  induction e as [|v|name|op l r IHl IHr|op a IHa|callee args IH|ty]
    using expr_nested_ind; cbn [built_expr expression_to_string]; eauto.
  - destruct (built_expr l).
    + destruct IHl as [s1 ->]. cbn [bind andb]. destruct (built_expr r).
      * destruct IHr as [s2 ->]. cbn [bind]. eauto.
      * destruct IHr as [m ->]. cbn [bind]. eauto.
    + destruct IHl as [m ->]. cbn [bind andb]. eauto.
  - destruct (built_expr a).
    + destruct IHa as [s ->]. cbn [bind]. destruct (String.eqb op "NOT"); eauto.
    + destruct IHa as [m ->]. cbn [bind]. eauto.
  - match goal with
    | |- context [bind ?x _] =>
        assert (E : if forallb built_expr args
                    then exists l, x = Ok l
                    else exists m, x = Raise (GenerationError m))
    end.
    { induction IH as [|a args Ha _ IHargs]; [cbn; eauto|].
      cbn [forallb]. destruct (built_expr a).
      - destruct Ha as [s ->]. cbn [bind andb].
        destruct (forallb built_expr args).
        + destruct IHargs as [l ->]. cbn [bind]. eauto.
        + destruct IHargs as [m ->]. cbn [bind]. eauto.
      - destruct Ha as [m ->]. cbn [bind andb]. eauto. }
    destruct (forallb built_expr args).
    + destruct E as [l ->]. cbn [bind].
      destruct (String.eqb callee "Input"); eauto.
    + destruct E as [m ->]. cbn [bind]. eauto.
Qed.

Section GeneratorReturns.
Import RapcodeGenerator.

Lemma built_prints (e : expr) :
  built_expr e = true -> exists s, expression_to_string e = Ok s.
Proof.
  intros B. pose proof (expression_to_string_built e) as H.
  now rewrite B in H.
Qed.

Definition has_lines (s : stmt) : Prop :=
  produced_stmt s = true -> forall n, exists lines, node_lines n s = Ok lines.

Lemma all_lines_return (l : list stmt) :
  Forall has_lines l -> forallb produced_stmt l = true ->
  forall n, exists lines, all_lines n l = Ok lines.
Proof.
  induction 1 as [|s l Hs _ IH]; intros P n; [cbn; eauto|].
  cbn [forallb] in P. apply andb_prop in P. destruct P as [Ps Pl].
  destruct (Hs Ps n) as [here Eh]. destruct (IH Pl n) as [after Ea].
  cbn [all_lines]. rewrite Eh, Ea. cbn [bind]. eauto.
Qed.

Lemma node_lines_return (s : stmt) : has_lines s.
Proof.
  induction s as [l r|e|t c a IHc IHa|t b IHb| | |ty] using stmt_nested_ind;
    intros P n; try discriminate P; cbn [produced_stmt] in P.
  - apply andb_prop in P. destruct P as [Bl Br].
    destruct (built_prints l Bl) as [sl El].
    destruct (built_prints r Br) as [sr Er].
    cbn [node_lines]. rewrite El, Er. cbn [bind]. eauto.
  - apply andb_prop in P. destruct P as [P Be].
    apply andb_prop in P. destruct P as [Po Pa].
    destruct e as [| | | | |callee args|]; try discriminate Po.
    destruct args as [|arg args]; [discriminate Pa|].
    cbn [built_expr forallb] in Be. apply andb_prop in Be.
    destruct Be as [Barg _]. destruct (built_prints arg Barg) as [sa Ea].
    cbn [node_lines arguments_of]. rewrite Po, Ea. cbn [bind]. eauto.
  - apply andb_prop in P. destruct P as [P Pa].
    apply andb_prop in P. destruct P as [Bt Pc].
    destruct (built_prints t Bt) as [st Et].
    destruct (all_lines_return _ IHc Pc (n + 1)) as [Lc Ec].
    rewrite node_lines_if, Et. cbn [bind]. unfold _generate_nodes.
    rewrite Ec. cbn [bind].
    destruct a as [alt|]; [|cbn [bind]; eauto].
    destruct (is_nonempty (block_body alt)); [|cbn [bind]; eauto].
    destruct (all_lines_return _ (IHa alt eq_refl) Pa (n + 1)) as [La Ea].
    rewrite Ea. cbn [bind]. eauto.
  - apply andb_prop in P. destruct P as [Pt Pb].
    destruct (built_prints t (present_built t Pt)) as [st Et].
    destruct (all_lines_return _ IHb Pb (n + 1)) as [Lb Eb].
    rewrite node_lines_while by (intros ->; discriminate Pt).
    unfold _generate_nodes. rewrite Eb, Et.
    destruct (is_literal_true t); cbn [bind]; eauto.
  - cbn [node_lines]. eauto.
Qed.

Lemma produced_generates (l : list stmt) :
  forallb produced_stmt l = true ->
  exists text, generate (Program l) = Ok text.
Proof.
  intros P.
  assert (F : Forall has_lines l)
    by (apply Forall_forall; intros s _; apply node_lines_return).
  destruct (all_lines_return l F P 0) as [lines E].
  unfold generate, _generate_nodes. cbn [body]. rewrite E. cbn [bind]. eauto.
Qed.

End GeneratorReturns.

(** [expression_to_string] returns a text exactly on the trees without a
    node of unknown type, and raises a GenerationError on the others. *)
Theorem expression_to_string_returns_iff_built (e : expr) :
  ((exists s, expression_to_string e = Ok s) <-> built_expr e = true)
  /\ ((exists m, expression_to_string e = Raise (GenerationError m))
      <-> built_expr e = false).
Proof.
  pose proof (expression_to_string_built e) as H.
  destruct (built_expr e); destruct H as [x E]; rewrite E;
    repeat split; eauto; try discriminate; intros [y Ey]; discriminate Ey.
Qed.

(** The FlowLang generator returns a text for every program that one of the
    two parsers returns: parsing then generating never fails in the second
    step. *)
Theorem parsed_program_generates (p : program) :
  parsed p -> exists text, RapcodeGenerator.generate p = Ok text.
Proof.
  intros H. apply parsed_produced in H. destruct p as [l].
  exact (produced_generates l H).
Qed.

Lemma parsed_program_generates_witness :
  parsed (Program [ExpressionStatement
                     (CallExpression "Output" [Identifier "x"])])
  /\ exists text,
       RapcodeGenerator.generate
         (Program [ExpressionStatement
                     (CallExpression "Output" [Identifier "x"])])
       = Ok text.
Proof.
  assert (H : parsed (Program [ExpressionStatement
                                 (CallExpression "Output" [Identifier "x"])])).
  { left. exists 5, "OUTPUT x". vm_compute. reflexivity. }
  split; [exact H | exact (parsed_program_generates _ H)].
Defined.

(** ** generation/mermaid_generator.py and generation/graphviz_generator.py *)

Section MermaidNumbering.
Import AstVisualizer.

(** From [st] to [st'] node definitions were appended, as many as the
    counter went up, and they carry the numbers from the counter of [st]
    on, in order. *)
Definition numbered (st st' : instance MermaidGenerator.buffers) : Prop :=
  exists more,
    MermaidGenerator.node_defs (out st')
    = (MermaidGenerator.node_defs (out st) ++ more)%list
    /\ node_count st' = node_count st + length more
    /\ forall i x, nth_error more i = Some x ->
         exists rest,
           x = "  N" ++ str_nat (node_count st + i) ++ rest
           /\ stops_at is_digit rest.

Lemma numbered_refl st : numbered st st.
Proof.
  exists []. rewrite app_nil_r. cbn [length]. split; [reflexivity|].
  split; [lia|]. intros [|i] x H; discriminate H.
Qed.

Lemma numbered_trans a b c : numbered a b -> numbered b c -> numbered a c.
Proof.
  intros [m1 [E1 [C1 N1]]] [m2 [E2 [C2 N2]]]. exists (m1 ++ m2)%list.
  split; [now rewrite E2, E1, <- app_assoc|].
  split; [rewrite length_app; lia|]. intros i x H.
  destruct (Nat.lt_ge_cases i (length m1)) as [Lt|Ge].
  - rewrite nth_error_app1 in H by exact Lt. now apply N1.
  - rewrite nth_error_app2 in H by exact Ge.
    destruct (N2 _ _ H) as [rest [-> St]]. exists rest.
    split; [|exact St]. do 2 f_equal. f_equal. lia.
Qed.

Lemma numbered_stack st S :
  numbered st (Instance (node_count st) S (out st)).
Proof.
  exists []. cbn [out node_count length]. rewrite app_nil_r.
  split; [reflexivity|]. split; [lia|]. intros [|i] x H; discriminate H.
Qed.

Lemma mermaid_shape_opens (shape o c : string) :
  MermaidGenerator.shapes shape = Some (o, c) ->
  forall k, stops_at is_digit (o ++ k).
Proof.
  unfold MermaidGenerator.shapes.
  repeat (destruct (String.eqb shape _);
          [intros H; injection H as <- _; intros k; reflexivity|]).
  discriminate.
Qed.

Lemma mermaid_add_node_numbered label shape :
  frames numbered (_add_node label shape).
Proof.
  intros st a st' E. cbn [_add_node MermaidGenerator.backend] in E.
  unfold MermaidGenerator.add_node in E.
  destruct (MermaidGenerator.shapes shape) as [[o c]|] eqn:Sh;
    [|discriminate].
  injection E as _ <-. eexists [_].
  cbn [out node_count MermaidGenerator.node_defs length].
  split; [reflexivity|]. split; [lia|]. intros [|[|i]] x H;
    try discriminate H.
  injection H as <-. rewrite Nat.add_0_r.
  exists (o ++ replace label QUOTE "#quot;" ++ c).
  split; [|exact (mermaid_shape_opens _ _ _ Sh _)].
  reflexivity.
Qed.

Lemma mermaid_add_edge_numbered a b l :
  frames numbered (_add_edge a b l).
Proof.
  intros st u st' E. cbn [_add_edge MermaidGenerator.backend] in E.
  unfold MermaidGenerator.add_edge in E.
  destruct (negb (truthy_opt a) || negb (truthy_opt b));
    injection E as _ <-; [apply numbered_refl|].
  exists []. cbn [out node_count MermaidGenerator.node_defs length].
  rewrite app_nil_r. split; [reflexivity|]. split; [lia|].
  intros [|i] x H; discriminate H.
Qed.

Lemma walk_program_numbered (p : program) :
  frames numbered (walk_program p).
Proof.
  unfold walk_program. apply frames_bind.
  - exact numbered_trans.
  - apply mermaid_add_node_numbered.
  - intros start_node.
    apply (walk_after_start numbered numbered_refl numbered_trans
             numbered_stack mermaid_add_node_numbered
             mermaid_add_edge_numbered p start_node).
Qed.

End MermaidNumbering.

(** Whatever the program and the state of the generator object, the node
    definitions of a Mermaid diagram are numbered consecutively from the
    counter the call found: the i-th definition is the one of node
    N(counter + i), and the counter ends behind the last of them.  So no
    two nodes of a diagram share an id. *)
Theorem mermaid_nodes_numbered_in_order (p : program)
    (self self' : AstVisualizer.instance MermaidGenerator.buffers)
    (text : string) :
  MermaidGenerator.generate p self = (Ok text, self') ->
  AstVisualizer.node_count self'
  = AstVisualizer.node_count self
    + length (MermaidGenerator.node_defs (AstVisualizer.out self'))
  /\ forall i x,
       nth_error (MermaidGenerator.node_defs (AstVisualizer.out self')) i
       = Some x ->
       exists rest,
         x = "  N" ++ str_nat (AstVisualizer.node_count self + i) ++ rest
         /\ stops_at is_digit rest.
Proof.
  unfold MermaidGenerator.generate. intros E.
  destruct (AstVisualizer.walk_program p _) as [[u|e] st2] eqn:W;
    [|discriminate].
  injection E as _ <-.
  destruct (walk_program_numbered p _ _ _ W) as [more [Em [Ec N]]].
  cbn [AstVisualizer.out AstVisualizer.node_count
       MermaidGenerator.node_defs app] in Em, Ec, N.
  rewrite Em. split; [exact Ec | exact N].
Qed.

Lemma mermaid_nodes_numbered_in_order_witness :
  MermaidGenerator.generate (Program []) MermaidGenerator.new
  = (Ok (join NL ["graph TD;";
                  "  N0(" ++ QUOTE ++ "Start" ++ QUOTE ++ ")";
                  "  N1(" ++ QUOTE ++ "End" ++ QUOTE ++ ")";
                  "";
                  "  N0 --> N1"]),
     AstVisualizer.Instance 2 []
       (MermaidGenerator.Buffers
          ["  N0(" ++ QUOTE ++ "Start" ++ QUOTE ++ ")";
           "  N1(" ++ QUOTE ++ "End" ++ QUOTE ++ ")"]
          ["  N0 --> N1"]))
  /\ 2 = 0 + 2.
Proof.
  assert (H : MermaidGenerator.generate (Program []) MermaidGenerator.new
              = (Ok (join NL ["graph TD;";
                  "  N0(" ++ QUOTE ++ "Start" ++ QUOTE ++ ")";
                  "  N1(" ++ QUOTE ++ "End" ++ QUOTE ++ ")";
                  "";
                  "  N0 --> N1"]),
     AstVisualizer.Instance 2 []
       (MermaidGenerator.Buffers
          ["  N0(" ++ QUOTE ++ "Start" ++ QUOTE ++ ")";
           "  N1(" ++ QUOTE ++ "End" ++ QUOTE ++ ")"]
          ["  N0 --> N1"]))) by (vm_compute; reflexivity).
  split; [exact H|].
  exact (proj1 (mermaid_nodes_numbered_in_order _ _ _ _ H)).
Defined.

(** *** The labels of the nodes *)

(** A replacement of one character is a replacement character by
    character. *)
Fixpoint each_char (g : ascii -> string) (s : string) : string :=
  match s with
  | EmptyString => EmptyString
  | String c r => g c ++ each_char g r
  end.

Section Escaping.

Lemma replace_from_char (c : ascii) (new : string) :
  forall fuel s, String.length s < fuel ->
    replace_from fuel (s_of c) new s
    = each_char (fun d => if Ascii.eqb c d then new else s_of d) s.
Proof.
  induction fuel as [|fuel IH]; intros s L; [inversion L|].
  destruct s as [|d r]; [reflexivity|].
  cbn [replace_from each_char String.length s_of skip String.prefix].
  cbn [String.length] in L.
  destruct (ascii_dec c d) as [->|N].
  - rewrite prefix_empty, Ascii.eqb_refl. f_equal. apply IH. lia.
  - destruct (Ascii.eqb c d) eqn:E;
      [apply Ascii.eqb_eq in E; contradiction|].
    cbn [s_of append]. f_equal. apply IH. lia.
Qed.

Lemma replace_char (c : ascii) (new s : string) :
  replace s (s_of c) new
  = each_char (fun d => if Ascii.eqb c d then new else s_of d) s.
Proof. unfold replace. apply replace_from_char. lia. Qed.

Lemma each_char_app (g : ascii -> string) (a b : string) :
  each_char g (a ++ b) = each_char g a ++ each_char g b.
Proof.
  induction a as [|c a IH]; [reflexivity|].
  cbn [append each_char]. now rewrite IH, append_assoc.
Qed.

Lemma each_char_twice (g h : ascii -> string) (s : string) :
  each_char h (each_char g s) = each_char (fun c => each_char h (g c)) s.
Proof.
  induction s as [|c s IH]; [reflexivity|].
  cbn [each_char]. now rewrite each_char_app, IH.
Qed.

Lemma each_char_ext (g h : ascii -> string) :
  (forall c, g c = h c) -> forall s, each_char g s = each_char h s.
Proof.
  intros E s. induction s as [|c s IH]; [reflexivity|].
  cbn [each_char]. now rewrite E, IH.
Qed.

Lemma all_chars_each (p : ascii -> bool) (g : ascii -> string) :
  (forall c, all_chars p (g c) = true) ->
  forall s, all_chars p (each_char g s) = true.
Proof.
  intros H s. induction s as [|c s IH]; [reflexivity|].
  cbn [each_char]. rewrite all_chars_app, H, IH. reflexivity.
Qed.

End Escaping.

(** What the three replacements of [GraphvizGenerator._add_node] make of
    one character of the label. *)
Definition dot_escape (c : ascii) : string :=
  if Ascii.eqb c BACKSLASH then s_of BACKSLASH ++ s_of BACKSLASH
  else if Ascii.eqb c DQ then s_of BACKSLASH ++ QUOTE
  else if Ascii.eqb c LF then s_of BACKSLASH ++ "n"
  else s_of c.

(** The label of a node line read back: up to the closing quote, a
    backslash taken with the character behind it. *)
Fixpoint read_label (s : string) : string :=
  match s with
  | EmptyString => EmptyString
  | String c r =>
      if Ascii.eqb c DQ then EmptyString
      else if Ascii.eqb c BACKSLASH
      then match r with
           | EmptyString => EmptyString
           | String d r' =>
               String (if Ascii.eqb d "n" then LF else d) (read_label r')
           end
      else String c (read_label r)
  end.

Section GraphvizLabels.
Import AstVisualizer.

Lemma graphviz_safe_label (label : string) :
  replace (replace (replace label (s_of BACKSLASH)
                      (s_of BACKSLASH ++ s_of BACKSLASH))
             QUOTE (s_of BACKSLASH ++ QUOTE))
    NL (s_of BACKSLASH ++ "n")
  = each_char dot_escape label.
Proof.
  unfold QUOTE, NL. rewrite !replace_char, !each_char_twice.
  apply each_char_ext. intros c. unfold dot_escape.
  rewrite (Ascii.eqb_sym c BACKSLASH), (Ascii.eqb_sym c DQ),
    (Ascii.eqb_sym c LF).
  destruct (Ascii.eqb BACKSLASH c) eqn:B; [reflexivity|].
  cbn [s_of each_char append].
  destruct (Ascii.eqb DQ c) eqn:Q; [reflexivity|].
  cbn [s_of each_char append].
  destruct (Ascii.eqb LF c); reflexivity.
Qed.

Lemma read_pair (d : ascii) (r : string) :
  read_label (String BACKSLASH (String d r))
  = String (if Ascii.eqb d "n" then LF else d) (read_label r).
Proof. reflexivity. Qed.

Lemma read_plain (c : ascii) (r : string) :
  Ascii.eqb c DQ = false -> Ascii.eqb c BACKSLASH = false ->
  read_label (String c r) = String c (read_label r).
Proof. intros Q B. cbn [read_label]. now rewrite Q, B. Qed.

Lemma read_escaped (label k : string) :
  read_label (each_char dot_escape label ++ QUOTE ++ k) = label.
Proof.
  induction label as [|c label IH];
    [reflexivity|].
  cbn [each_char]. rewrite append_assoc. unfold dot_escape at 1.
  destruct (Ascii.eqb c BACKSLASH) eqn:B.
  { apply Ascii.eqb_eq in B. subst c.
    change ((s_of BACKSLASH ++ s_of BACKSLASH) ++ ?x)
      with (String BACKSLASH (String BACKSLASH x)).
    rewrite read_pair, IH. reflexivity. }
  destruct (Ascii.eqb c DQ) eqn:Q.
  { apply Ascii.eqb_eq in Q. subst c.
    change ((s_of BACKSLASH ++ QUOTE) ++ ?x)
      with (String BACKSLASH (String DQ x)).
    rewrite read_pair, IH. reflexivity. }
  destruct (Ascii.eqb c LF) eqn:F.
  { apply Ascii.eqb_eq in F. subst c.
    change ((s_of BACKSLASH ++ "n") ++ ?x)
      with (String BACKSLASH (String "n" x)).
    rewrite read_pair, IH. reflexivity. }
  change (s_of c ++ ?x) with (String c x).
  now rewrite read_plain, IH.
Qed.

Lemma graphviz_node_line (label shape : string) (st : instance string) :
  exists tail,
    GraphvizGenerator.add_node label shape st
    = (Ok ("node" ++ str_nat (node_count st)),
       Instance (node_count st + 1) (loop_exit_stack st)
         (out st ++ ("  node" ++ str_nat (node_count st) ++ " [label=" ++ QUOTE)
          ++ each_char dot_escape label ++ QUOTE ++ tail)).
Proof.
  unfold GraphvizGenerator.add_node, GraphvizGenerator.emit.
  rewrite graphviz_safe_label.
  cbn [node_count loop_exit_stack out].
  match goal with
  | |- context [join ", " ?l] =>
      assert (J : exists t, join ", " l
                = "label=" ++ QUOTE ++ each_char dot_escape label
                  ++ QUOTE ++ t)
  end.
  { destruct (String.eqb shape "point"), (String.eqb shape "ellipse"),
      (String.eqb shape "diamond"); cbn [app join];
      rewrite !append_assoc; eexists; cbn [append];
      repeat f_equal. }
  destruct J as [t ->]. eexists. do 3 f_equal.
  cbn [append]. rewrite !append_assoc. cbn [append]. repeat f_equal.
Qed.

Lemma append_cancel (p a b : string) : p ++ a = p ++ b -> a = b.
Proof.
  induction p as [|c p IH]; [trivial|]. cbn [append]. intros H.
  injection H as H. now apply IH.
Qed.

End GraphvizLabels.

(** Graphviz: the line that [_add_node] writes for a node determines the
    label it was given.  Two different labels never give the same line,
    whatever backslashes, quotes and line feeds they hold. *)
Theorem graphviz_labels_stay_apart (a b shape : string)
    (st : AstVisualizer.instance string) :
  a <> b ->
  GraphvizGenerator.add_node a shape st
  <> GraphvizGenerator.add_node b shape st.
Proof.
  intros N E. apply N.
  destruct (graphviz_node_line a shape st) as [ta Ea].
  destruct (graphviz_node_line b shape st) as [tb Eb].
  rewrite Ea, Eb in E.
  apply (f_equal (fun r => AstVisualizer.out (snd r))) in E.
  cbn [snd AstVisualizer.out] in E.
  do 2 apply append_cancel in E.
  apply (f_equal read_label) in E. now rewrite !read_escaped in E.
Qed.

Lemma graphviz_labels_stay_apart_witness :
  GraphvizGenerator.add_node ("a" ++ NL ++ "b") "box"
    GraphvizGenerator.new
  <> GraphvizGenerator.add_node ("a" ++ s_of BACKSLASH ++ "nb") "box"
       GraphvizGenerator.new.
Proof.
  apply graphviz_labels_stay_apart. discriminate.
Defined.

(** Graphviz: the escaped label has no line feed in it, and is the label
    with a backslash put before each backslash and each double quote and
    with each line feed written as backslash n. *)
Theorem graphviz_label_on_one_line (label shape : string)
    (st : AstVisualizer.instance string) :
  exists tail,
    GraphvizGenerator.add_node label shape st
    = (Ok ("node" ++ str_nat (AstVisualizer.node_count st)),
       AstVisualizer.Instance (AstVisualizer.node_count st + 1)
         (AstVisualizer.loop_exit_stack st)
         (AstVisualizer.out st
          ++ ("  node" ++ str_nat (AstVisualizer.node_count st)
              ++ " [label=" ++ QUOTE)
          ++ each_char dot_escape label ++ QUOTE ++ tail))
    /\ all_chars (fun c => negb (Ascii.eqb c LF))
         (each_char dot_escape label) = true.
Proof.
  destruct (graphviz_node_line label shape st) as [tail E].
  exists tail. split; [exact E|].
  apply all_chars_each. intros c. unfold dot_escape.
  destruct (Ascii.eqb c BACKSLASH); [reflexivity|].
  destruct (Ascii.eqb c DQ); [reflexivity|].
  destruct (Ascii.eqb c LF) eqn:F; [reflexivity|].
  cbn [s_of all_chars]. now rewrite F.
Qed.

(** What the replacement of [MermaidGenerator._add_node] makes of one
    character of the label. *)
Definition mermaid_escape (c : ascii) : string :=
  if Ascii.eqb c DQ then "#quot;" else s_of c.

(** Mermaid: when [_add_node] returns, its id is N and the counter it
    found, the counter is one more, and the one line it appends is made of
    the id, the opening text of the shape, the label with each double
    quote written as [#quot;] and every other character kept, and the
    closing text of the shape.  The label as written holds no double
    quote. *)
Theorem mermaid_label_has_no_quote (label shape id : string)
    (st st' : AstVisualizer.instance MermaidGenerator.buffers) :
  MermaidGenerator.add_node label shape st = (Ok id, st') ->
  exists o c : string,
    MermaidGenerator.shapes shape = Some (o, c)
    /\ id = "N" ++ str_nat (AstVisualizer.node_count st)
    /\ AstVisualizer.node_count st' = AstVisualizer.node_count st + 1
    /\ MermaidGenerator.node_defs (AstVisualizer.out st')
       = (MermaidGenerator.node_defs (AstVisualizer.out st)
          ++ [("  " ++ id ++ o ++ each_char mermaid_escape label ++ c)%string])%list
    /\ MermaidGenerator.edge_defs (AstVisualizer.out st')
       = MermaidGenerator.edge_defs (AstVisualizer.out st)
    /\ all_chars (fun ch => negb (Ascii.eqb ch DQ))
         (each_char mermaid_escape label) = true.
Proof.
  unfold MermaidGenerator.add_node. intros E.
  destruct (MermaidGenerator.shapes shape) as [[o c]|] eqn:Sh;
    [|discriminate].
  injection E as <- <-.
  assert (R : replace label QUOTE "#quot;" = each_char mermaid_escape label).
  { unfold QUOTE. rewrite replace_char. apply each_char_ext.
    intros ch. unfold mermaid_escape. now rewrite (Ascii.eqb_sym DQ ch). }
  exists o, c. split; [reflexivity|]. split; [reflexivity|].
  split; [reflexivity|].
  cbn [AstVisualizer.out AstVisualizer.node_count
       MermaidGenerator.node_defs MermaidGenerator.edge_defs].
  rewrite R. split; [reflexivity|]. split; [reflexivity|].
  apply all_chars_each. intros ch. unfold mermaid_escape.
  destruct (Ascii.eqb ch DQ) eqn:Q; [reflexivity|].
  cbn [s_of all_chars]. now rewrite Q.
Qed.

Lemma mermaid_label_has_no_quote_witness :
  MermaidGenerator.add_node ("say " ++ QUOTE ++ "hi" ++ QUOTE) "box"
    MermaidGenerator.new
  = (Ok "N0",
     AstVisualizer.Instance 1 []
       (MermaidGenerator.Buffers
          ["  N0[" ++ QUOTE ++ "say #quot;hi#quot;" ++ QUOTE ++ "]"] []))
  /\ exists o c : string,
       MermaidGenerator.shapes "box" = Some (o, c)
       /\ "N0" = "N" ++ str_nat 0
       /\ 1 = 0 + 1
       /\ ["  N0[" ++ QUOTE ++ "say #quot;hi#quot;" ++ QUOTE ++ "]"]
          = ([] ++ [("  " ++ "N0" ++ o
                     ++ each_char mermaid_escape
                          ("say " ++ QUOTE ++ "hi" ++ QUOTE) ++ c)%string])%list
       /\ @nil string = []
       /\ all_chars (fun ch => negb (Ascii.eqb ch DQ))
            (each_char mermaid_escape ("say " ++ QUOTE ++ "hi" ++ QUOTE))
          = true.
Proof.
  assert (H : MermaidGenerator.add_node ("say " ++ QUOTE ++ "hi" ++ QUOTE)
                "box" MermaidGenerator.new
              = (Ok "N0",
                 AstVisualizer.Instance 1 []
                   (MermaidGenerator.Buffers
                      ["  N0[" ++ QUOTE ++ "say #quot;hi#quot;" ++ QUOTE
                       ++ "]"] []))) by reflexivity.
  split; [exact H|].
  exact (mermaid_label_has_no_quote _ _ _ _ _ H).
Defined.

(** *** The loop-exit stack *)

Section WalkFromAnyStack.
Import AstVisualizer.
Context {Out : Type} {B : Backend Out}.
Hypothesis L : lawful.

(** The walk of a closed program from any stack: the generalisation of
    [walk_program_outcome]. *)
Lemma walk_program_from_stack (p : program) :
  closed_program p = true ->
  outcome (walk_program p) (every_break_in_a_loop p).
Proof.
  intros C S st E.
  assert (F : Forall node_outcome (body p))
    by (apply Forall_forall; intros s _; now apply generate_node_outcome).
  pose proof (chain_outcome L (body p) F C S) as O.
  unfold walk_program, _generate_from_nodes, every_break_in_a_loop.
  destruct (is_nonempty S || forallb breaks_enclosed (body p)).
  - apply returns_bind with (R1 := has_stack S);
      [apply (add_node_ok L) with S; auto using start_shape|].
    intros start_node st1 E1. specialize (O st1 E1).
    apply returns_bind with (R1 := has_stack S); [exact O|].
    intros [entry last_node] st2 E2.
    apply returns_bind with (R1 := has_stack S).
    { destruct (truthy_opt entry);
        [apply (add_edge_ok L) with S; auto
        | now apply returns_ret]. }
    intros u st3 E3.
    apply returns_bind with (R1 := has_stack S);
      [apply (add_node_ok L) with S; auto using start_shape|].
    intros end_node st4 E4.
    destruct (truthy_opt (or_else last_node (Some start_node)));
      [apply (add_edge_ok L) with S; auto
      | now apply returns_ret].
  - apply raises_bind_r with (R := has_stack S);
      [apply (add_node_ok L) with S; auto using start_shape|].
    intros start_node st1 E1. specialize (O st1 E1).
    now apply raises_bind_l.
Qed.

Lemma walk_program_keeps_stack (p : program) (st st' : instance Out)
    (u : unit) :
  closed_program p = true ->
  walk_program p st = (Ok u, st') ->
  loop_exit_stack st' = loop_exit_stack st.
Proof.
  intros C E.
  pose proof (walk_program_from_stack p C _ st eq_refl) as O.
  destruct (is_nonempty (loop_exit_stack st) || every_break_in_a_loop p).
  - destruct O as [a [st2 [E2 H]]]. rewrite E in E2.
    injection E2 as _ <-. exact H.
  - destruct O as [st2 E2]. rewrite E in E2. discriminate.
Qed.

End WalkFromAnyStack.

(** Both diagram generators leave the loop-exit stack of the generator
    object as they found it, when they return on a program of the closed
    set: every loop pops what it pushed. *)
Theorem generate_restores_loop_exit_stack (p : program) :
  closed_program p = true ->
  (forall self text self',
      MermaidGenerator.generate p self = (Ok text, self') ->
      AstVisualizer.loop_exit_stack self'
      = AstVisualizer.loop_exit_stack self)
  /\ (forall self text self',
         GraphvizGenerator.generate p self = (Ok text, self') ->
         AstVisualizer.loop_exit_stack self'
         = AstVisualizer.loop_exit_stack self).
Proof.
  intros C. split; intros self text self' E.
  - unfold MermaidGenerator.generate in E.
    destruct (AstVisualizer.walk_program p _) as [[u|e] st2] eqn:W;
      [|discriminate].
    injection E as _ <-.
    now rewrite (walk_program_keeps_stack mermaid_lawful p _ _ _ C W).
  - unfold GraphvizGenerator.generate in E.
    destruct (AstVisualizer.walk_program p _) as [[u|e] st2] eqn:W;
      [|discriminate].
    injection E as _ <-. cbn [AstVisualizer.loop_exit_stack].
    now rewrite (walk_program_keeps_stack graphviz_lawful p _ _ _ C W).
Qed.

Definition loop_in_a_loop : program :=
  Program [WhileStatement (Identifier "a")
             (BlockStatement
                [WhileStatement (Identifier "b")
                   (BlockStatement [BreakStatement]);
                 BreakStatement])].

Lemma generate_restores_loop_exit_stack_witness :
  closed_program loop_in_a_loop = true
  /\ AstVisualizer.loop_exit_stack
       (snd (GraphvizGenerator.generate loop_in_a_loop
               (AstVisualizer.Instance 7 ["node3"] EmptyString)))
     = ["node3"].
Proof.
  split; [reflexivity|].
  destruct (GraphvizGenerator.generate loop_in_a_loop
              (AstVisualizer.Instance 7 ["node3"] EmptyString))
    as [[text|e] self'] eqn:E; [|vm_compute in E; discriminate E].
  exact (proj2 (generate_restores_loop_exit_stack loop_in_a_loop eq_refl)
           _ _ _ E).
Defined.


Lemma xml_parse_translated (first_node : option RaptorXMLParser.element)
    (p : program) :
  RaptorXMLParser.parse first_node = Some (Ok p) ->
  forallb translated (body p) = true.
Proof.
  unfold RaptorXMLParser.parse. intros H.
  apply fbind_ok in H. destruct H as [l [E H]]. injection H as <-.
  destruct first_node as [c|]; [|now injection E as <-].
  exact (parse_present_translated c l E).
Qed.

(** ** Statements about the translator of flowcharts *)

(** The translator of flowcharts always comes to an end, whatever the
    elements and their texts: it returns a program or raises a
    ParsingError, and nothing else. *)
Theorem xml_translator_returns_or_raises_parsing_error
    (first_node : option RaptorXMLParser.element) :
  (exists p, RaptorXMLParser.parse first_node = Some (Ok p))
  \/ (exists m,
        RaptorXMLParser.parse first_node = Some (Raise (ParsingError m))).
Proof.
  unfold RaptorXMLParser.parse.
  assert (S : settles (RaptorXMLParser._parse_raptor_node first_node)).
  { destruct first_node as [c|]; [apply parse_present_settles|].
    apply settles_ret. }
  destruct S as [[l ->]|[m ->]]; [left|right]; eexists; reflexivity.
Qed.

(** The shape of every program that the translator returns: each loop is a
    WhileStatement on the literal true with an if-break node in its body,
    a BreakStatement stands nowhere but in such an if-break node of a
    loop, and no IfStatement has an empty alternate block. *)
Theorem xml_translator_shape (first_node : option RaptorXMLParser.element)
    (p : program) :
  RaptorXMLParser.parse first_node = Some (Ok p) ->
  forallb translated (body p) = true.
Proof. exact (xml_parse_translated first_node p). Qed.

(** A loop element with an assignment before its test and an output after
    it. *)
Definition counting_loop : RaptorXMLParser.element :=
  RaptorXMLParser.Element false "Loop" (Some "i > 3") None None
    None None
    (Some (RaptorXMLParser.Element false "Rectangle" (Some "i := i + 1")
             None None None None None None None))
    (Some (RaptorXMLParser.Element false "Parallelogram" (Some "i")
             None None None None None None None))
    None.

Definition counting_program : program :=
  Program
    [WhileStatement (Literal (VBool true))
       (BlockStatement
          [AssignmentStatement (Identifier "i")
             (BinaryExpression "+" (Identifier "i") (Literal (VInt 1)));
           IfStatement
             (BinaryExpression ">" (Identifier "i") (Literal (VInt 3)))
             (BlockStatement [BreakStatement]) None;
           ExpressionStatement
             (CallExpression "Output" [Identifier "i"])])].

Lemma counting_loop_parses :
  RaptorXMLParser.parse (Some counting_loop) = Some (Ok counting_program).
Proof. vm_compute. reflexivity. Qed.

Lemma xml_translator_shape_witness :
  RaptorXMLParser.parse (Some counting_loop) = Some (Ok counting_program)
  /\ forallb translated (body counting_program) = true.
Proof.
  split; [exact counting_loop_parses|].
  exact (xml_translator_shape _ _ counting_loop_parses).
Defined.

Section TranslatedBreaks.

Lemma translated_breaks_enclosed (s : stmt) :
  translated s = true -> breaks_enclosed s = true.
Proof.
  induction s as [l r|e|t c a IHc IHa|t b IHb| | |ty] using stmt_nested_ind;
    cbn [translated breaks_enclosed]; intros H; try discriminate H; auto.
  apply andb_prop in H. destruct H as [Hc Ha].
  rewrite (forallb_Forall_impl _ _ _ IHc Hc). cbn [andb].
  destruct a as [b|]; [|reflexivity].
  apply andb_prop in Ha. destruct Ha as [_ Ha].
  exact (forallb_Forall_impl _ _ _ (IHa b eq_refl) Ha).
Qed.

Lemma generates_from {Out} {B : AstVisualizer.Backend Out} (L : lawful)
    (p : program) (st : AstVisualizer.instance Out) :
  closed_program p = true -> every_break_in_a_loop p = true ->
  exists st', AstVisualizer.walk_program p st = (Ok tt, st').
Proof.
  intros C E.
  pose proof (walk_program_from_stack L p C _ st eq_refl) as O.
  rewrite E, orb_true_r in O. destruct O as [[] [st' [W _]]]. eauto.
Qed.

End TranslatedBreaks.

(** Every program that the translator of flowcharts returns gets a diagram
    from both diagram generators, whatever the state of the generator
    object: in such a program no break stands outside of a loop and no
    node is of an unknown kind. *)
Theorem xml_program_gets_diagrams
    (first_node : option RaptorXMLParser.element) (p : program)
    (m : AstVisualizer.instance MermaidGenerator.buffers)
    (g : AstVisualizer.instance string) :
  RaptorXMLParser.parse first_node = Some (Ok p) ->
  generates (MermaidGenerator.generate p) m
  /\ generates (GraphvizGenerator.generate p) g.
Proof.
  intros H.
  assert (C : closed_program p = true)
    by (apply parsed_closed; right; eauto).
  assert (E : every_break_in_a_loop p = true).
  { unfold every_break_in_a_loop. apply forallb_forall. intros s Hs.
    apply translated_breaks_enclosed.
    apply (proj1 (forallb_forall _ _)
             (xml_parse_translated first_node p H) s Hs). }
  split.
  - destruct (generates_from mermaid_lawful p
                (AstVisualizer.Instance (AstVisualizer.node_count m)
                   (AstVisualizer.loop_exit_stack m)
                   (MermaidGenerator.Buffers [] [])) C E) as [st' W].
    unfold generates, MermaidGenerator.generate. rewrite W. eauto.
  - destruct (generates_from graphviz_lawful p
                (AstVisualizer.Instance (AstVisualizer.node_count g)
                   (AstVisualizer.loop_exit_stack g)
                   GraphvizGenerator.header) C E) as [st' W].
    unfold generates, GraphvizGenerator.generate. rewrite W. eauto.
Qed.

Lemma xml_program_gets_diagrams_witness :
  generates (MermaidGenerator.generate counting_program)
    MermaidGenerator.new
  /\ generates (GraphvizGenerator.generate counting_program)
       GraphvizGenerator.new.
Proof.
  exact (xml_program_gets_diagrams (Some counting_loop) counting_program
           MermaidGenerator.new GraphvizGenerator.new
           counting_loop_parses).
Defined.

(** The substitution of the lone equals signs changes nothing when it is
    applied a second time: what it wrote, and every [==], [<=], [>=],
    [!=] and [:=] of a text, it leaves alone. *)
Theorem sub_equals_idempotent (s : string) :
  RaptorXMLParser.sub_equals None (RaptorXMLParser.sub_equals None s)
  = RaptorXMLParser.sub_equals None s.
Proof. apply sub_equals_again. Qed.

(** ** Printing an expression and reading it back *)

(** An expression of the kinds that the parsers build from the grammar
    (floats among them when [str] prints them without exponent) is printed
    by [expression_to_string] as a text which the lexer and the expression
    parser read back as the same expression. *)
Theorem expression_round_trip (e : expr) :
  stable_expr e = true ->
  exists text,
    expression_to_string e = Ok text
    /\ ExpressionParser.parse (RapcodeParser._tokenize text) = Some (Ok e).
Proof.
  intros St. destruct (print_expr e St) as [text [E [_ [_ Tk]]]].
  exists text. split; [exact E|].
  specialize (Tk EmptyString I). rewrite append_nil_r in Tk.
  rewrite Tk, tokenize_empty, app_nil_r.
  exact (expression_parse_toks e St).
Qed.

Lemma expression_round_trip_witness :
  exists text,
    expression_to_string
      (BinaryExpression "-"
         (BinaryExpression "-" (Identifier "a") (Literal (VInt 1)))
         (UnaryExpression "NOT" (Identifier "b"))) = Ok text
    /\ ExpressionParser.parse (RapcodeParser._tokenize text)
       = Some (Ok (BinaryExpression "-"
                     (BinaryExpression "-" (Identifier "a")
                        (Literal (VInt 1)))
                     (UnaryExpression "NOT" (Identifier "b")))).
Proof.
  apply expression_round_trip. reflexivity.
Defined.

(** ** Chains of operators of one level *)

(** The tokens of [op1 a1 op2 a2 ...], and the tree that nests such a chain
    to the left of a first operand. *)
Fixpoint chain_toks (rest : list (string * expr)) : list string :=
  match rest with
  | [] => []
  | (op, a) :: r => op :: toks a ++ chain_toks r
  end.

Definition left_chain (first : expr) (rest : list (string * expr)) : expr :=
  fold_left (fun acc oa => BinaryExpression (fst oa) acc (snd oa)) rest first.

Fixpoint chain_need (rest : list (string * expr)) : nat :=
  match rest with
  | [] => 0
  | (_, a) :: r => Nat.max (need a) (chain_need r)
  end.

Definition links (ops : list string) (oa : string * expr) : Prop :=
  existsb (String.eqb (fst oa)) ops = true /\ stable_expr (snd oa) = true.

Section Chains.
Import ExpressionParser.
Variable T : list string.

Lemma peek_hd (pos : nat) (tail : list string) :
  List.skipn pos T = tail -> _peek T pos = hd_error tail.
Proof.
  intros E. destruct tail as [|t l].
  - now apply peek_end.
  - now apply peek_at with l.
Qed.

Lemma chain_head_not (ops other : list string) rest tail :
  Forall (links ops) rest ->
  (forall op, existsb (String.eqb op) ops = true ->
              existsb (String.eqb op) other = false) ->
  in_tuple (hd_error tail) other = false ->
  in_tuple (hd_error (chain_toks rest ++ tail)) other = false.
Proof.
  intros F D Ht. destruct F as [|[op a] rest [Ho _] _]; [exact Ht|].
  cbn [chain_toks app hd_error in_tuple]. now apply D.
Qed.

Lemma mul_loop_chain (n : nat) (rest : list (string * expr)) :
  Forall (links MUL_OPS) rest -> chain_need rest <= n ->
  forall node pos tail,
    List.skipn pos T = (chain_toks rest ++ tail)%list ->
    in_tuple (hd_error tail) MUL_OPS = false ->
    from (S n + length rest) (fun f => mul_loop T f node pos)
      (left_chain node rest, pos + length (chain_toks rest)).
Proof.
  induction 1 as [|[op a] rest [Ho Sa] _ IH]; intros Hn node pos tail E Ht.
  - cbn [chain_toks app length left_chain fold_left] in *.
    rewrite !Nat.add_0_r. intros f Hf. destruct f as [|f]; [lia|].
    cbn [mul_loop]. change ["*"; "/"; "MOD"] with MUL_OPS.
    rewrite match_miss by (now rewrite (peek_hd _ _ E)). reflexivity.
  - cbn [chain_need] in Hn. cbn [chain_toks app fst snd] in *.
    rewrite <- app_assoc in E.
    pose proof (peek_at T pos _ _ E) as Pk.
    pose proof (skipn_next T pos _ _ E) as E1.
    pose proof (parse_unary_toks a Sa T (S pos) _ E1) as U.
    pose proof (skipn_over T (S pos) _ _ E1) as E2.
    assert (Hr : chain_need rest <= n) by lia.
    specialize (IH Hr (BinaryExpression op node a) _ tail E2 Ht).
    intros f Hf. cbn [length] in Hf. destruct f as [|f]; [lia|].
    cbn [mul_loop]. change ["*"; "/"; "MOD"] with MUL_OPS.
    rewrite (match_hit T _ _ _ Pk Ho). cbn [lift fbind].
    rewrite (member_truthy op MUL_OPS eq_refl Ho). cbn [negb].
    rewrite U by lia. cbn [fbind fmt_opt create_binary_expression].
    rewrite IH by lia. unfold left_chain. cbn [fold_left fst snd length].
    do 3 f_equal. rewrite length_app. lia.
Qed.

Lemma add_loop_chain (n : nat) (rest : list (string * expr)) :
  Forall (links ADD_OPS) rest -> chain_need rest <= n ->
  forall node pos tail,
    List.skipn pos T = (chain_toks rest ++ tail)%list ->
    in_tuple (hd_error tail) ADD_OPS = false ->
    in_tuple (hd_error tail) MUL_OPS = false ->
    from (S (S n) + length rest) (fun f => add_loop T f node pos)
      (left_chain node rest, pos + length (chain_toks rest)).
Proof.
  induction 1 as [|[op a] rest [Ho Sa] F IH];
    intros Hn node pos tail E Ht Hm.
  - cbn [chain_toks app length left_chain fold_left] in *.
    rewrite !Nat.add_0_r. intros f Hf. destruct f as [|f]; [lia|].
    cbn [add_loop]. change ["+"; "-"] with ADD_OPS.
    rewrite match_miss by (now rewrite (peek_hd _ _ E)). reflexivity.
  - cbn [chain_need] in Hn. cbn [chain_toks app fst snd] in *.
    rewrite <- app_assoc in E.
    pose proof (peek_at T pos _ _ E) as Pk.
    pose proof (skipn_next T pos _ _ E) as E1.
    pose proof (parse_unary_toks a Sa T (S pos) _ E1) as U.
    pose proof (skipn_over T (S pos) _ _ E1) as E2.
    assert (X : in_tuple (_peek T (S pos + length (toks a))) MUL_OPS
                = false).
    { rewrite (peek_hd _ _ E2).
      apply chain_head_not with ADD_OPS; [exact F| |exact Hm].
      intros o Hin. cbn [ADD_OPS existsb] in Hin.
      apply orb_prop in Hin. destruct Hin as [Hin|Hin].
      - apply String.eqb_eq in Hin. now subst o.
      - apply orb_prop in Hin. destruct Hin as [Hin|Hin];
          [|discriminate Hin].
        apply String.eqb_eq in Hin. now subst o. }
    pose proof (exit_mul T _ _ _ U X) as M.
    assert (Hr : chain_need rest <= n) by lia.
    specialize (IH Hr (BinaryExpression op node a) _ tail E2 Ht Hm).
    intros f Hf. cbn [length] in Hf. destruct f as [|f]; [lia|].
    cbn [add_loop]. change ["+"; "-"] with ADD_OPS.
    rewrite (match_hit T _ _ _ Pk Ho). cbn [lift fbind].
    rewrite (member_truthy op ADD_OPS eq_refl Ho). cbn [negb].
    rewrite M by lia. cbn [fbind fmt_opt create_binary_expression].
    rewrite IH by lia. unfold left_chain. cbn [fold_left fst snd length].
    do 3 f_equal. rewrite length_app. lia.
Qed.

End Chains.

Lemma chain_need_bound (ops : list string) (rest : list (string * expr)) :
  Forall (links ops) rest ->
  chain_need rest <= 8 * length (chain_toks rest).
Proof.
  induction 1 as [|[op a] rest [_ Sa] _ IH]; [cbn; lia|].
  cbn [chain_need chain_toks length snd] in *. rewrite length_app.
  pose proof (need_bound a Sa). lia.
Qed.

Lemma multiplicative_chain (first : expr) (rest : list (string * expr)) :
  stable_expr first = true -> Forall (links MUL_OPS) rest ->
  ExpressionParser.parse (toks first ++ chain_toks rest)
  = Some (Ok (left_chain first rest)).
Proof.
  intros St F. unfold ExpressionParser.parse.
  set (T := (toks first ++ chain_toks rest)%list).
  pose proof (toks_not_empty first St) as NE.
  pose proof (need_bound first St) as NB.
  pose proof (chain_need_bound _ _ F) as CB.
  set (n := Nat.max (need first) (chain_need rest)).
  assert (E : List.skipn 0 T = (toks first ++ chain_toks rest)%list)
    by reflexivity.
  pose proof (parse_unary_toks first St T 0 _ E) as U. cbn [Nat.add] in U.
  pose proof (skipn_over T 0 _ _ E) as E1. cbn [Nat.add] in E1.
  rewrite <- (app_nil_r (chain_toks rest)) in E1.
  pose proof (mul_loop_chain T n rest F (Nat.le_max_r _ _) first _ [] E1
                eq_refl) as Lp.
  assert (Len : length (toks first) + length (chain_toks rest) = length T)
    by (unfold T; now rewrite length_app).
  rewrite Len in Lp.
  assert (M : from (S (S n) + length rest)
                (fun f => ExpressionParser._parse_multiplicative T f 0)
                (left_chain first rest, length T)).
  { intros f Hf. destruct f as [|f]; [lia|].
    cbn [ExpressionParser._parse_multiplicative].
    rewrite U by (unfold n; lia). cbn [fbind]. apply Lp. lia. }
  assert (Pk : ExpressionParser._peek T (length T) = None)
    by (apply nth_error_None; lia).
  pose proof (exit_or T _ _ _
                (exit_and T _ _ _
                   (exit_cmp T _ _ _
                      (exit_add T _ _ _ M
                         (proj1 (proj2 (end_no_operator T _ Pk))))
                      (proj1 (proj2 (proj2 (end_no_operator T _ Pk)))))
                   (proj1 (proj2 (proj2 (proj2 (end_no_operator T _ Pk))))))
                (proj2 (proj2 (proj2 (proj2 (end_no_operator T _ Pk))))))
    as O.
  assert (Lr : length rest <= length (chain_toks rest)).
  { clear. induction rest as [|[op a] rest IH]; [reflexivity|].
    cbn [chain_toks length]. rewrite length_app. lia. }
  destruct T as [|t0 T0] eqn:Et.
  { unfold T in Et. destruct (toks first); [contradiction|discriminate Et]. }
  rewrite <- Et in *. unfold ExpressionParser.parse_fuel.
  rewrite O by (unfold n; lia). cbn [fbind]. rewrite Pk. reflexivity.
Qed.

Lemma additive_chain (first : expr) (rest : list (string * expr)) :
  stable_expr first = true -> Forall (links ADD_OPS) rest ->
  ExpressionParser.parse (toks first ++ chain_toks rest)
  = Some (Ok (left_chain first rest)).
Proof.
  intros St F. unfold ExpressionParser.parse.
  set (T := (toks first ++ chain_toks rest)%list).
  pose proof (toks_not_empty first St) as NE.
  pose proof (need_bound first St) as NB.
  pose proof (chain_need_bound _ _ F) as CB.
  set (n := Nat.max (need first) (chain_need rest)).
  assert (E : List.skipn 0 T = (toks first ++ chain_toks rest)%list)
    by reflexivity.
  pose proof (parse_unary_toks first St T 0 _ E) as U. cbn [Nat.add] in U.
  pose proof (skipn_over T 0 _ _ E) as E1. cbn [Nat.add] in E1.
  rewrite <- (app_nil_r (chain_toks rest)) in E1.
  assert (X : in_tuple (ExpressionParser._peek T (length (toks first)))
                MUL_OPS = false).
  { rewrite (peek_hd T _ _ E1).
    apply chain_head_not with ADD_OPS; [exact F| |reflexivity].
    intros o Hin. cbn [ADD_OPS existsb] in Hin.
    apply orb_prop in Hin. destruct Hin as [Hin|Hin].
    - apply String.eqb_eq in Hin. now subst o.
    - apply orb_prop in Hin. destruct Hin as [Hin|Hin];
        [|discriminate Hin].
      apply String.eqb_eq in Hin. now subst o. }
  pose proof (exit_mul T _ _ _ U X) as M0.
  pose proof (add_loop_chain T n rest F (Nat.le_max_r _ _) first _ [] E1
                eq_refl eq_refl) as Lp.
  assert (Len : length (toks first) + length (chain_toks rest) = length T)
    by (unfold T; now rewrite length_app).
  rewrite Len in Lp.
  assert (A : from (S (S (S n)) + length rest)
                (fun f => ExpressionParser._parse_additive T f 0)
                (left_chain first rest, length T)).
  { intros f Hf. destruct f as [|f]; [lia|].
    cbn [ExpressionParser._parse_additive].
    rewrite M0 by (unfold n; lia). cbn [fbind]. apply Lp. lia. }
  assert (Pk : ExpressionParser._peek T (length T) = None)
    by (apply nth_error_None; lia).
  pose proof (exit_or T _ _ _
                (exit_and T _ _ _
                   (exit_cmp T _ _ _ A
                      (proj1 (proj2 (proj2 (end_no_operator T _ Pk)))))
                   (proj1 (proj2 (proj2 (proj2 (end_no_operator T _ Pk))))))
                (proj2 (proj2 (proj2 (proj2 (end_no_operator T _ Pk))))))
    as O.
  assert (Lr : length rest <= length (chain_toks rest)).
  { clear. induction rest as [|[op a] rest IH]; [reflexivity|].
    cbn [chain_toks length]. rewrite length_app. lia. }
  destruct T as [|t0 T0] eqn:Et.
  { unfold T in Et. destruct (toks first); [contradiction|discriminate Et]. }
  rewrite <- Et in *. unfold ExpressionParser.parse_fuel.
  rewrite O by (unfold n; lia). cbn [fbind]. rewrite Pk. reflexivity.
Qed.

(** Operators of one level nest to the left.  A first operand followed by
    any number of operands, each behind an additive operator (or each
    behind a multiplicative one), parses as the tree that applies the
    operators from left to right: [a - b - c] is [(a - b) - c].  The
    operands are printed expressions of the grammar: literals, names,
    parenthesized or negated expressions, Input calls. *)
Theorem same_level_operators_nest_to_the_left (ops : list string)
    (first : expr) (rest : list (string * expr)) :
  ops = ["+"; "-"] \/ ops = ["*"; "/"; "MOD"] ->
  stable_expr first = true ->
  Forall (fun oa => existsb (String.eqb (fst oa)) ops = true
                    /\ stable_expr (snd oa) = true) rest ->
  ExpressionParser.parse (toks first ++ chain_toks rest)
  = Some (Ok (fold_left
                (fun acc oa => BinaryExpression (fst oa) acc (snd oa))
                rest first)).
Proof.
  intros [->| ->] St F.
  - exact (additive_chain first rest St F).
  - exact (multiplicative_chain first rest St F).
Qed.

Lemma same_level_operators_nest_to_the_left_witness :
  ExpressionParser.parse ["a"; "-"; "b"; "+"; "1"; "-"; "c"]
  = Some (Ok (BinaryExpression "-"
                (BinaryExpression "+"
                   (BinaryExpression "-" (Identifier "a") (Identifier "b"))
                   (Literal (VInt 1)))
                (Identifier "c"))).
Proof.
  apply (same_level_operators_nest_to_the_left ["+"; "-"] (Identifier "a")
           [("-", Identifier "b"); ("+", Literal (VInt 1));
            ("-", Identifier "c")]).
  - left. reflexivity.
  - reflexivity.
  - repeat constructor.
Defined.

(** *** The edges of a Mermaid diagram *)

Section MermaidEdges.
Import AstVisualizer.

(** The counter that the call of [generate] found. *)
Variable c0 : nat.

(** [x] is the id of a node numbered in this call, below [n]. *)
Definition names (n : nat) (x : string) : Prop :=
  exists k, x = "N" ++ str_nat k /\ c0 <= k < n.

Definition names_opt (n : nat) (o : option string) : Prop :=
  match o with Some x => names n x | None => True end.

Definition names_ids (n : nat) (i : ids) : Prop :=
  names_opt n (fst i) /\ names_opt n (snd i).

(** An edge line between two such ids. *)
Definition joins (n : nat) (line : string) : Prop :=
  exists a b arrow,
    line = "  " ++ a ++ " " ++ arrow ++ " " ++ b /\ names n a /\ names n b.

Definition sound (st : instance MermaidGenerator.buffers) : Prop :=
  c0 <= node_count st
  /\ Forall (names (node_count st)) (loop_exit_stack st)
  /\ Forall (joins (node_count st)) (MermaidGenerator.edge_defs (out st)).

(** From a sound state with the counter at [m] or above, a call that
    returns leaves a sound state, does not lower the counter and returns
    a value that satisfies [Q] at the new counter. *)
Definition keeps {A} (m : nat) (c : G MermaidGenerator.buffers A)
    (Q : nat -> A -> Prop) : Prop :=
  forall st a st', m <= node_count st -> sound st -> c st = (Ok a, st') ->
    sound st' /\ node_count st <= node_count st' /\ Q (node_count st') a.

Definition any {A} : nat -> A -> Prop := fun _ _ => True.

Lemma names_mono n n' x : names n x -> n <= n' -> names n' x.
Proof. intros [k [E B]] L. exists k. split; [exact E | lia]. Qed.

Lemma names_opt_mono n n' o : names_opt n o -> n <= n' -> names_opt n' o.
Proof. destruct o; [apply names_mono | trivial]. Qed.

Lemma names_ids_mono n n' i : names_ids n i -> n <= n' -> names_ids n' i.
Proof. intros [A B] L. split; eapply names_opt_mono; eauto. Qed.

Lemma joins_mono n n' line : joins n line -> n <= n' -> joins n' line.
Proof.
  intros [a [b [arrow [E [A B]]]]] L. exists a, b, arrow.
  repeat split; try exact E; eapply names_mono; eauto.
Qed.

Lemma keeps_bind {A C} m (c : G _ A) (k : A -> G _ C) Q1 Q2 :
  keeps m c Q1 ->
  (forall a n, m <= n -> Q1 n a -> keeps n (k a) Q2) ->
  keeps m (gbind c k) Q2.
Proof.
  intros Hc Hk st b st' L S E. unfold gbind in E.
  destruct (c st) as [[a|e] st1] eqn:E1; [|discriminate E].
  destruct (Hc st a st1 L S E1) as [S1 [L1 Q]].
  destruct (Hk a (node_count st1) (Nat.le_trans _ _ _ L L1) Q st1 b st'
              (le_n _) S1 E) as [S2 [L2 R]].
  split; [exact S2|]. split; [lia | exact R].
Qed.

Lemma keeps_ret {A} m (a : A) (Q : nat -> A -> Prop) :
  (forall n, m <= n -> Q n a) -> keeps m (ret a) Q.
Proof.
  intros H st b st' L S E. injection E as <- <-.
  split; [exact S|]. split; [lia | now apply H].
Qed.

Lemma keeps_raise {A} m (e : exn) (Q : nat -> A -> Prop) :
  keeps m (raise e) Q.
Proof. intros st b st' _ _ E. discriminate E. Qed.

Lemma keeps_of_result {A} m (r : result A) : keeps m (of_result r) any.
Proof.
  intros st b st' L S E. unfold of_result in E. injection E as _ <-.
  split; [exact S|]. split; [lia | exact I].
Qed.

Lemma keeps_add_node m label shape :
  keeps m (_add_node label shape) names.
Proof.
  intros st a st' L [C [Sk Ed]] E.
  cbn [_add_node MermaidGenerator.backend] in E.
  unfold MermaidGenerator.add_node in E.
  destruct (MermaidGenerator.shapes shape) as [[o c]|]; [|discriminate E].
  injection E as <- <-.
  unfold sound.
  cbn [node_count loop_exit_stack out MermaidGenerator.edge_defs].
  split; [|split; [lia|]].
  - split; [lia|]. split.
    + eapply Forall_impl; [|exact Sk]. intros x Hx.
      apply names_mono with (node_count st); [exact Hx | lia].
    + eapply Forall_impl; [|exact Ed]. intros x Hx.
      apply joins_mono with (node_count st); [exact Hx | lia].
  - exists (node_count st). split; [reflexivity | lia].
Qed.

Lemma keeps_add_edge m a b l :
  names_opt m a -> names_opt m b -> keeps m (_add_edge a b l) any.
Proof.
  intros Ha Hb st u st' L [C [Sk Ed]] E.
  cbn [_add_edge MermaidGenerator.backend] in E.
  unfold MermaidGenerator.add_edge in E.
  destruct a as [x|]; [|injection E as _ <-; repeat split; auto].
  destruct b as [y|];
    [|rewrite orb_true_r in E; injection E as _ <-; repeat split; auto].
  destruct (negb (truthy_opt (Some x)) || negb (truthy_opt (Some y)));
    injection E as _ <-; [repeat split; auto|].
  unfold sound.
  cbn [node_count loop_exit_stack out MermaidGenerator.edge_defs fmt_opt].
  split; [|split; [lia | exact I]].
  split; [exact C|]. split; [exact Sk|].
  apply Forall_app. split; [exact Ed|]. constructor; [|constructor].
  eexists x, y, _. split; [reflexivity|].
  split; eapply names_mono; eauto.
Qed.

Lemma keeps_edge_if m x target :
  names_opt m x -> names_opt m target -> keeps m (edge_if x target) any.
Proof.
  intros Hx Ht. unfold edge_if. destruct (truthy_opt x).
  - now apply keeps_add_edge.
  - now apply keeps_ret.
Qed.

Lemma keeps_push m x : names m x -> keeps m (push x) any.
Proof.
  intros Hx st u st' L [C [Sk Ed]] E. injection E as _ <-.
  unfold sound.
  cbn [node_count loop_exit_stack out].
  split; [|split; [lia | exact I]].
  split; [exact C|]. split; [|exact Ed].
  apply Forall_app. split; [exact Sk|]. constructor; [|constructor].
  eapply names_mono; eauto.
Qed.

Lemma Forall_removelast {A} (Q : A -> Prop) (l : list A) :
  Forall Q l -> Forall Q (removelast l).
Proof.
  induction 1 as [|x l Hx Hl IH]; [constructor|].
  cbn [removelast]. destruct l; [constructor|]. now constructor.
Qed.

Lemma keeps_pop m : keeps m pop any.
Proof.
  intros st u st' L [C [Sk Ed]] E. injection E as _ <-.
  unfold sound.
  cbn [node_count loop_exit_stack out].
  split; [|split; [lia | exact I]].
  split; [exact C|]. split; [|exact Ed]. now apply Forall_removelast.
Qed.

Lemma keeps_read_stack m : keeps m stack (fun n S => Forall (names n) S).
Proof.
  intros st S st' L [C [Sk Ed]] E. injection E as <- <-.
  split; [now repeat split|]. split; [lia | exact Sk].
Qed.

Lemma or_else_names n a b :
  names_opt n a -> names_opt n b -> names_opt n (or_else a b).
Proof. intros Ha Hb. unfold or_else. now destruct (truthy_opt a). Qed.

Lemma keeps_link (generated : list ids) :
  forall m, Forall (names_ids m) generated -> keeps m (link generated) any.
Proof.
  induction generated as [|current rest IH]; intros m F.
  - now apply keeps_ret.
  - destruct rest as [|next rest'].
    + now apply keeps_ret.
    + cbn [link]. inversion F as [|? ? [_ Hc] Fr]; subst.
      inversion Fr as [|? ? [Hn _] _]; subst.
      apply keeps_bind with (Q1 := any).
      * destruct (truthy_opt (snd current) && truthy_opt (fst next));
          [now apply keeps_add_edge | now apply keeps_ret].
      * intros _ n Ln _. apply IH.
        eapply Forall_impl; [|exact Fr]. intros i Hi.
        now apply names_ids_mono with m.
Qed.

Definition node_call (c : G MermaidGenerator.buffers ids) : Prop :=
  forall m, keeps m c names_ids.

Lemma keeps_run_all (calls : list (G _ ids)) :
  Forall node_call calls ->
  forall m, keeps m (run_all calls) (fun n l => Forall (names_ids n) l).
Proof.
  induction 1 as [|c calls Hc _ IH]; intros m.
  - apply keeps_ret. constructor.
  - cbn [run_all]. apply keeps_bind with (Q1 := names_ids); [apply Hc|].
    intros x n Ln Hx.
    apply keeps_bind with (Q1 := fun n l => Forall (names_ids n) l);
      [apply IH|].
    intros xs n' Ln' Hxs. apply keeps_ret. intros n'' Ln''.
    constructor.
    + apply names_ids_mono with n; [exact Hx | lia].
    + eapply Forall_impl; [|exact Hxs]. intros i Hi.
      now apply names_ids_mono with n'.
Qed.

Lemma Forall_last {A} (Q : A -> Prop) (l : list A) (d : A) :
  Forall Q l -> Q d -> Q (last l d).
Proof.
  induction 1 as [|x l Hx Hl IH]; intros Hd; [exact Hd|].
  cbn [last]. destruct l; [exact Hx | now apply IH].
Qed.

Lemma Forall_last_cons {A} (Q : A -> Prop) (x : A) (l : list A) (d : A) :
  Forall Q (x :: l) -> Q (last (x :: l) d).
Proof.
  revert x. induction l as [|y l IH]; intros x F;
    inversion F; subst; [assumption|].
  change (last (x :: y :: l) d) with (last (y :: l) d). now apply IH.
Qed.

Lemma keeps_chain (calls : list (G _ ids)) :
  Forall node_call calls -> forall m, keeps m (chain calls) names_ids.
Proof.
  intros F m. destruct calls as [|c calls].
  - apply keeps_ret. intros; now split.
  - change (chain (c :: calls))
      with (gbind (run_all (c :: calls))
              (fun generated =>
                 gbind (link generated)
                   (fun _ => ret (fst (hd (None, None) generated),
                                  snd (last generated (None, None)))))).
    apply keeps_bind with (Q1 := fun n l => Forall (names_ids n) l);
      [now apply keeps_run_all|].
    intros generated n Ln Hg.
    apply keeps_bind with (Q1 := any); [now apply keeps_link|].
    intros _ n' Ln' _. apply keeps_ret. intros n'' Ln''.
    assert (Hg' : Forall (names_ids n'') generated).
    { eapply Forall_impl; [|exact Hg]. intros i Hi.
      apply names_ids_mono with n; [exact Hi | lia]. }
    split; cbn [fst snd].
    + destruct Hg' as [|i l [Hi _] _]; [exact I | exact Hi].
    + assert (D : names_ids n'' (None, None)) by now split.
      exact (proj2 (Forall_last _ _ _ Hg' D)).
Qed.

Definition names_loop (n : nat) (o : option ids) : Prop :=
  match o with Some i => names_ids n i | None => True end.

Ltac step Q1' := apply keeps_bind with (Q1 := Q1').

Lemma keeps_visualize_raptor_loop t body (calls : list (G _ ids)) :
  Forall node_call calls ->
  forall m, keeps m (visualize_raptor_loop t body calls) names_loop.
Proof.
  intros F m. unfold visualize_raptor_loop.
  step (@any bool); [apply keeps_of_result|]. intros is_true n0 L0 _.
  destruct (negb is_true); [now apply keeps_ret|].
  step (@any (option (nat * stmt))); [apply keeps_of_result|].
  intros [[i x]|] n1 L1 _; [|now apply keeps_ret].
  step (@any string); [apply keeps_of_result|]. intros label n2 L2 _.
  step names; [apply keeps_add_node|]. intros cond_node n3 L3 Hc.
  step names; [apply keeps_add_node|]. intros exit_node n4 L4 He.
  assert (Hc4 : names n4 cond_node) by now apply names_mono with n3.
  step (@any unit); [now apply keeps_push|]. intros _ n5 L5 _.
  step (@any unit).
  { apply keeps_add_edge; cbn [names_opt]; eapply names_mono; eauto. }
  intros _ n6 L6 _.
  step names_ids; [apply keeps_chain; now apply Forall_firstn|].
  intros [entry_before exit_before] n7 L7 [Heb Hxb]. cbn [fst snd] in *.
  step names_ids; [apply keeps_chain; now apply Forall_skipn|].
  intros [entry_after exit_after] n8 L8 [Hea Hxa]. cbn [fst snd] in *.
  assert (Hc8 : names_opt n8 (Some cond_node))
    by (cbn [names_opt]; apply names_mono with n4; [exact Hc4 | lia]).
  assert (He8 : names_opt n8 (Some exit_node))
    by (cbn [names_opt]; apply names_mono with n4; [exact He | lia]).
  assert (Hle : names_opt n8 (or_else entry_before (Some cond_node))).
  { apply or_else_names; [|exact Hc8].
    apply names_opt_mono with n7; [exact Heb | lia]. }
  step (@any unit).
  { apply keeps_edge_if; [|exact Hc8].
    apply names_opt_mono with n7; [exact Hxb | lia]. }
  intros _ n9 L9 _.
  step (@any unit).
  { apply keeps_add_edge.
    - apply names_opt_mono with n8; [exact Hc8 | lia].
    - apply names_opt_mono with n8; [|lia].
      now apply or_else_names. }
  intros _ n10 L10 _.
  step (@any unit).
  { apply keeps_edge_if; apply names_opt_mono with n8; auto; lia. }
  intros _ n11 L11 _.
  step (@any unit); [apply keeps_pop|]. intros _ n12 L12 _.
  apply keeps_ret. intros n13 L13. split; cbn [fst snd].
  - apply names_opt_mono with n8; [exact Hle | lia].
  - apply names_opt_mono with n8; [exact He8 | lia].
Qed.

Lemma keeps_unknown_node m ty : keeps m (unknown_node ty) names_ids.
Proof.
  unfold unknown_node. step names; [apply keeps_add_node|].
  intros n k Lk Hn. apply keeps_ret. intros k' Lk'.
  split; cbn [fst snd names_opt]; now apply names_mono with k.
Qed.

Lemma keeps_generate_node (s : stmt) : node_call (_generate_node s).
Proof.
  induction s as [l r|e|t c a IHc IHa|t b IHb| | |ty] using stmt_nested_ind;
    intros m; cbn [_generate_node].
  - step (@any string); [apply keeps_of_result|]. intros left n0 L0 _.
    step (@any string); [apply keeps_of_result|]. intros right n1 L1 _.
    step names; [apply keeps_add_node|]. intros n k Lk Hn.
    apply keeps_ret. intros k' Lk'.
    split; cbn [fst snd names_opt]; now apply names_mono with k.
  - destruct e; try apply keeps_raise;
      (destruct (is_output _);
       [destruct (arguments_of _);
        [apply keeps_raise
        |step (@any string); [apply keeps_of_result|]; intros s n0 L0 _;
         step names; [apply keeps_add_node|]; intros n k Lk Hn;
         apply keeps_ret; intros k' Lk';
         split; cbn [fst snd names_opt]; now apply names_mono with k]
       |apply keeps_unknown_node]).
  - step (@any string); [apply keeps_of_result|]. intros label n0 L0 _.
    step names; [apply keeps_add_node|]. intros cond_node n1 L1 Hc.
    step names; [apply keeps_add_node|]. intros merge_node n2 L2 Hm.
    assert (Hc2 : names n2 cond_node) by now apply names_mono with n1.
    step names_ids; [apply keeps_chain; now rewrite Forall_map|].
    intros [true_entry true_exit] n3 L3 [Hte Htx]. cbn [fst snd] in *.
    assert (Hc3 : names_opt n3 (Some cond_node))
      by (cbn [names_opt]; now apply names_mono with n2).
    assert (Hm3 : names_opt n3 (Some merge_node))
      by (cbn [names_opt]; now apply names_mono with n2).
    step (@any unit).
    { apply keeps_add_edge; [exact Hc3 | now apply or_else_names]. }
    intros _ n4 L4 _.
    step (@any unit).
    { apply keeps_edge_if; apply names_opt_mono with n3; auto. }
    intros _ n5 L5 _.
    step names_ids.
    { destruct a as [alt|];
        [apply keeps_chain; rewrite Forall_map; now apply IHa
        |apply keeps_ret; intros; now split]. }
    intros [false_entry false_exit] n6 L6 [Hfe Hfx]. cbn [fst snd] in *.
    assert (Hc6 : names_opt n6 (Some cond_node))
      by (apply names_opt_mono with n3; [exact Hc3 | lia]).
    assert (Hm6 : names_opt n6 (Some merge_node))
      by (apply names_opt_mono with n3; [exact Hm3 | lia]).
    step (@any unit).
    { apply keeps_add_edge; [exact Hc6 | now apply or_else_names]. }
    intros _ n7 L7 _.
    step (@any unit).
    { apply keeps_edge_if; apply names_opt_mono with n6; auto. }
    intros _ n8 L8 _. apply keeps_ret. intros n9 L9.
    split; cbn [fst snd]; apply names_opt_mono with n6; auto; lia.
  - assert (F : Forall node_call (map _generate_node (block_body b)))
      by now rewrite Forall_map.
    step names_loop; [now apply keeps_visualize_raptor_loop|].
    intros [nodes|] n0 L0 Hn.
    { apply keeps_ret. intros n1 L1. now apply names_ids_mono with n0. }
    step (@any string); [apply keeps_of_result|]. intros label n1 L1 _.
    step names; [apply keeps_add_node|]. intros cond_node n2 L2 Hc.
    step names; [apply keeps_add_node|]. intros exit_node n3 L3 He.
    assert (Hc3 : names n3 cond_node) by now apply names_mono with n2.
    step (@any unit); [now apply keeps_push|]. intros _ n4 L4 _.
    step names_ids; [now apply keeps_chain|].
    intros [body_entry body_exit] n5 L5 [Hbe Hbx]. cbn [fst snd] in *.
    assert (Hc5 : names_opt n5 (Some cond_node))
      by (cbn [names_opt]; apply names_mono with n3; [exact Hc3 | lia]).
    assert (He5 : names_opt n5 (Some exit_node))
      by (cbn [names_opt]; apply names_mono with n3; [exact He | lia]).
    step (@any unit).
    { apply keeps_add_edge; [exact Hc5 | now apply or_else_names]. }
    intros _ n6 L6 _.
    step (@any unit).
    { apply keeps_edge_if; apply names_opt_mono with n5; auto. }
    intros _ n7 L7 _.
    step (@any unit); [apply keeps_pop|]. intros _ n8 L8 _.
    step (@any unit).
    { apply keeps_add_edge; apply names_opt_mono with n5; auto; lia. }
    intros _ n9 L9 _. apply keeps_ret. intros n10 L10.
    split; cbn [fst snd]; apply names_opt_mono with n5; auto; lia.
  - step (fun n S => Forall (names n) S); [apply keeps_read_stack|].
    intros stk n0 L0 _.
    destruct (negb (is_nonempty stk)); [apply keeps_raise|].
    step names; [apply keeps_add_node|]. intros break_entry n1 L1 Hb.
    step (fun n S => Forall (names n) S); [apply keeps_read_stack|].
    intros stk' n2 L2 Hs.
    destruct stk' as [|x stk'].
    + (* an empty stack here: the edge would go to the empty id, and
         [_add_edge] skips it *)
      cbn [last]. intros st u st' L S E.
      cbn [_add_edge MermaidGenerator.backend] in E.
      unfold gbind, MermaidGenerator.add_edge in E.
      cbn [truthy_opt truthy negb orb] in E. rewrite orb_true_r in E.
      injection E as <- <-. split; [exact S|]. split; [lia|].
      split; cbn [fst snd names_opt]; [|exact I].
      apply names_mono with n1; [exact Hb | lia].
    + step (@any unit).
      { apply keeps_add_edge; cbn [names_opt].
        - now apply names_mono with n1.
        - exact (Forall_last_cons _ x stk' "" Hs). }
      intros _ n3 L3 _. apply keeps_ret. intros n4 L4.
      split; cbn [fst snd names_opt]; [|exact I].
      apply names_mono with n1; [exact Hb | lia].
  - apply keeps_raise.
  - apply keeps_unknown_node.
Qed.

Lemma keeps_walk_program (p : program) m :
  keeps m (walk_program p) any.
Proof.
  unfold walk_program, _generate_from_nodes.
  step names; [apply keeps_add_node|]. intros start_node n0 L0 Hs.
  step names_ids.
  { apply keeps_chain. rewrite Forall_map. apply Forall_forall.
    intros s _. apply keeps_generate_node. }
  intros [entry last_node] n1 L1 [He Hl]. cbn [fst snd] in *.
  assert (Hs1 : names_opt n1 (Some start_node))
    by (cbn [names_opt]; now apply names_mono with n0).
  step (@any unit).
  { destruct (truthy_opt entry);
      [now apply keeps_add_edge | now apply keeps_ret]. }
  intros _ n2 L2 _.
  step names; [apply keeps_add_node|]. intros end_node n3 L3 Hn.
  destruct (truthy_opt (or_else last_node (Some start_node)));
    [|now apply keeps_ret].
  apply keeps_add_edge; [|exact Hn].
  apply names_opt_mono with n1; [now apply or_else_names | lia].
Qed.

End MermaidEdges.

(** The node definitions [defs] hold a line for the id [x]: the id, then
    something that is no digit. *)
Definition defines (defs : list string) (x : string) : Prop :=
  exists rest, In ("  " ++ x ++ rest) defs /\ stops_at is_digit rest.

Lemma numbered_defines c0 (st st' : AstVisualizer.instance _) (x : string) :
  numbered st st' ->
  MermaidGenerator.node_defs (AstVisualizer.out st) = [] ->
  AstVisualizer.node_count st = c0 ->
  names c0 (AstVisualizer.node_count st') x ->
  defines (MermaidGenerator.node_defs (AstVisualizer.out st')) x.
Proof.
  intros [more [Em [Ec N]]] E0 C [k [-> [Lo Hi]]].
  rewrite E0 in Em. cbn [app] in Em. rewrite Em.
  destruct (nth_error more (k - c0)) as [line|] eqn:Ek.
  - destruct (N _ _ Ek) as [rest [-> St]]. exists rest.
    split; [|exact St]. apply nth_error_In in Ek.
    replace (AstVisualizer.node_count st + (k - c0)) with k in Ek by lia.
    exact Ek.
  - apply nth_error_None in Ek. lia.
Qed.

(** In a Mermaid diagram made by a generator whose loop-exit stack is
    empty, as it is on a new generator, no edge hangs in the air: every
    line of the edges joins two ids, and each of the two has its line
    among the node definitions of the same diagram.  This holds for every
    program on which [generate] returns. *)
Theorem mermaid_edges_join_defined_nodes (p : program)
    (self self' : AstVisualizer.instance MermaidGenerator.buffers)
    (text : string) :
  AstVisualizer.loop_exit_stack self = [] ->
  MermaidGenerator.generate p self = (Ok text, self') ->
  Forall
    (fun line =>
       exists a b arrow,
         line = "  " ++ a ++ " " ++ arrow ++ " " ++ b
         /\ defines (MermaidGenerator.node_defs (AstVisualizer.out self')) a
         /\ defines (MermaidGenerator.node_defs (AstVisualizer.out self')) b)
    (MermaidGenerator.edge_defs (AstVisualizer.out self')).
Proof.
  unfold MermaidGenerator.generate. intros Sk E.
  destruct (AstVisualizer.walk_program p _) as [[u|e] st2] eqn:W;
    [|discriminate].
  injection E as _ <-.
  pose proof (walk_program_numbered p _ _ _ W) as Nb.
  assert (S0 : sound (AstVisualizer.node_count self)
                 (AstVisualizer.Instance (AstVisualizer.node_count self)
                    (AstVisualizer.loop_exit_stack self)
                    (MermaidGenerator.Buffers [] []))).
  { unfold sound. cbn. rewrite Sk. repeat split; auto. }
  destruct (keeps_walk_program (AstVisualizer.node_count self) p
              (AstVisualizer.node_count self)
              (AstVisualizer.Instance (AstVisualizer.node_count self)
                 (AstVisualizer.loop_exit_stack self)
                 (MermaidGenerator.Buffers [] []))
              u st2 (le_n _) S0 W)
    as [[_ [_ Ed]] _].
  eapply Forall_impl; [|exact Ed].
  intros line [a [b [arrow [-> [Ha Hb]]]]]. exists a, b, arrow.
  split; [reflexivity|].
  split; eapply numbered_defines; eauto; reflexivity.
Qed.

Lemma mermaid_edges_join_defined_nodes_witness :
  exists text self',
    MermaidGenerator.generate loop_in_a_loop MermaidGenerator.new
    = (Ok text, self')
    /\ Forall
         (fun line =>
            exists a b arrow,
              line = "  " ++ a ++ " " ++ arrow ++ " " ++ b
              /\ defines
                   (MermaidGenerator.node_defs (AstVisualizer.out self')) a
              /\ defines
                   (MermaidGenerator.node_defs (AstVisualizer.out self')) b)
         (MermaidGenerator.edge_defs (AstVisualizer.out self')).
Proof.
  destruct (MermaidGenerator.generate loop_in_a_loop MermaidGenerator.new)
    as [[text|e] self'] eqn:E; [|vm_compute in E; discriminate E].
  exists text, self'. split; [reflexivity|].
  exact (mermaid_edges_join_defined_nodes loop_in_a_loop
           MermaidGenerator.new self' text eq_refl E).
Defined.

(** ** Unary operators and the binary operator behind them *)

Lemma unary_then_binary (u op : string) (a b : expr) :
  existsb (String.eqb u) ["NOT"; "-"] = true ->
  existsb (String.eqb op) BINARY_OPERATORS = true ->
  stable_expr a = true -> stable_expr b = true ->
  ExpressionParser.parse (u :: toks a ++ op :: toks b)
  = Some (Ok (BinaryExpression op (UnaryExpression u a) b)).
Proof.
  intros Hu Ho Sa Sb. unfold ExpressionParser.parse.
  set (T := (u :: toks a ++ op :: toks b)%list).
  pose proof (need_bound a Sa) as Na. pose proof (need_bound b Sb) as Nb.
  assert (Pk0 : ExpressionParser._peek T 0 = Some u) by reflexivity.
  assert (E1 : List.skipn 1 T = (toks a ++ op :: toks b)%list)
    by reflexivity.
  pose proof (parse_unary_toks a Sa T 1 _ E1) as Ua.
  pose proof (skipn_over T 1 _ _ E1) as E2.
  pose proof (peek_at T _ _ _ E2) as Po.
  pose proof (skipn_next T _ _ _ E2) as E3.
  rewrite <- (app_nil_r (toks b)) in E3.
  pose proof (parse_unary_toks b Sb T _ [] E3) as Ub.
  assert (Len : length T = S (1 + length (toks a)) + length (toks b))
    by (unfold T; cbn [length]; rewrite length_app; cbn [length]; lia).
  assert (Pend : ExpressionParser._peek T
                   (S (1 + length (toks a)) + length (toks b)) = None)
    by (apply nth_error_None; lia).
  assert (Hl : from (S (need a))
                 (fun f => ExpressionParser._parse_unary T f 0)
                 (UnaryExpression u a, 1 + length (toks a))).
  { intros f Hf. destruct f as [|f]; [lia|].
    cbn [ExpressionParser._parse_unary].
    rewrite (match_hit T ["NOT"; "-"] _ _ Pk0 Hu).
    cbn [lift fbind]. rewrite (member_truthy u ["NOT"; "-"] eq_refl Hu).
    rewrite Ua by lia. reflexivity. }
  pose proof (one_binary T (Nat.max (S (need a)) (need b)) 0 _ _ op _ _
                (from_le _ _ _ _ Hl (Nat.le_max_l _ _)) Po Ho
                (from_le _ _ _ _ Ub (Nat.le_max_r _ _))
                (end_no_operator T _ Pend)) as O.
  unfold ExpressionParser.parse_fuel. fold T. rewrite O by lia.
  cbn [fbind]. rewrite Pend. reflexivity.
Qed.

(** A unary operator takes the operand behind it and nothing more: in
    [NOT a op b] and in [- a op b], for every binary operator [op], the
    unary operator applies to [a] and the binary one to the result, also
    for the comparisons and for AND and OR.  So [NOT x == y] is read as
    [(NOT x) == y]. *)
Theorem unary_operator_takes_one_operand (u op : string) (a b : expr) :
  u = "NOT" \/ u = "-" ->
  In op BINARY_OPERATORS ->
  stable_expr a = true -> stable_expr b = true ->
  ExpressionParser.parse (u :: toks a ++ op :: toks b)
  = Some (Ok (BinaryExpression op (UnaryExpression u a) b)).
Proof.
  intros Hu Ho. apply unary_then_binary.
  - destruct Hu as [-> | ->]; reflexivity.
  - apply existsb_exists. exists op. split; [exact Ho|].
    apply String.eqb_refl.
Qed.

Lemma unary_operator_takes_one_operand_witness :
  ExpressionParser.parse ["NOT"; "x"; "=="; "y"]
  = Some (Ok (BinaryExpression "=="
                (UnaryExpression "NOT" (Identifier "x")) (Identifier "y"))).
Proof.
  apply (unary_operator_takes_one_operand "NOT" "=="
           (Identifier "x") (Identifier "y")).
  - left. reflexivity.
  - unfold BINARY_OPERATORS. simpl. tauto.
  - reflexivity.
  - reflexivity.
Defined.

(** ** The text of an expression in a diagram *)

(** [_expr_to_str] never fails: it gives the text of
    [expression_to_string], and the text expr for a tree with a node of
    unknown type in it. *)
Theorem diagram_expression_text_never_fails (e : expr) :
  exists s,
    AstVisualizer._expr_to_str e = Ok s
    /\ (built_expr e = true -> expression_to_string e = Ok s)
    /\ (built_expr e = false -> s = "expr").
Proof.
  pose proof (expression_to_string_built e) as H.
  unfold AstVisualizer._expr_to_str.
  destruct (built_expr e); destruct H as [x ->].
  - exists x. repeat split; auto; discriminate.
  - exists "expr". repeat split; auto; discriminate.
Qed.
